(** * barsPlus: data shaping, scale domain and label fitting

    A shallow embedding of the data pipeline of [src/ldw-barsPlus.js]
    ([toposort], [initData], the numeric domain of [initChart], and the
    text part of [barText]) and of [src/barLabelText.js], with the
    properties of the specification proved about it.  A second part
    embeds what surrounds the pipeline: the limits of the property panel
    and [initProps] of the directive, the frame and the legend box of
    [initChart], the label trimming of [updateBars], [txtColor],
    [src/colorSchemas.js] and [src/numerical-abbrevation.js], with
    further properties of the code.

    Conventions.
    - A JavaScript exception is the outcome [Throw]; a function that
      returns normally yields [Ret].  [Diverge] is the outcome of a
      recursion that ran out of its fuel; every use below comes with a
      proof that the fuel given is enough, except the loop of
      [d3.formatPrefix], which has no bound.
    - JavaScript numbers are [jsnum]: exact rationals together with the
      three special values of IEEE arithmetic.  Rounding, overflow and
      the sign of zero are not represented.
    - JavaScript strings are lists of UTF-16 code units. *)

From Stdlib Require Import QArith Qabs Qminmax Lia Lqa ZArith Ascii String.
From stdpp Require Import base list gmap sorting relations.

Close Scope string_scope.
Open Scope Z_scope.

(** ** Outcomes of JavaScript calls *)

Inductive jsError : Type :=
  | CyclicDependency   (* Error('Cyclic dependency: ...') raised by toposort *)
  | TypeError.         (* property access on undefined *)

Inductive outcome (A : Type) : Type :=
  | Ret (a : A)
  | Throw (e : jsError)
  | Diverge.
Arguments Ret {A} a.
Arguments Throw {A} e.
Arguments Diverge {A}.

Definition obind {A B} (m : outcome A) (k : A → outcome B) : outcome B :=
  match m with
  | Ret a => k a
  | Throw e => Throw e
  | Diverge => Diverge
  end.

Notation "x ←! m ; k" := (obind m (λ x, k))
  (at level 100, m at next level, right associativity, only parsing).

#[global] Instance jsError_eq_dec : EqDecision jsError.
Proof. solve_decision. Defined.

(** ** JavaScript strings *)

Definition jsstring : Type := list N.

(** An ASCII literal as a JavaScript string. *)
Definition str (s : String.string) : jsstring :=
  (λ c, N_of_ascii c) <$> String.list_ascii_of_string s.

(** [Array.prototype.indexOf]: the first index holding [x] (compared with
    [===]), or [-1]. *)
Fixpoint indexOfFrom {A} `{EqDecision A} (x : A) (l : list A) (k : Z) : Z :=
  match l with
  | [] => -1
  | y :: l' => if decide (y = x) then k else indexOfFrom x l' (k + 1)
  end.
Definition indexOf {A} `{EqDecision A} (x : A) (l : list A) : Z :=
  indexOfFrom x l 0.

(** * TopoOrder: [toposort] *)

Module Toposort.
Section defs.
Context {A : Type} `{EqDecision A}.

(** The three variables shared by [toposort] and its inner [visit]:
    [cursor], the array [sorted] (created by [new Array(n)], so every
    slot starts as a hole, [None]) and the object [visited], whose keys
    are the indices marked so far.  [visit] may be called with the index
    [-1] (a child that is not a node), hence keys in [Z]. *)
Record tstate : Type := mkT {
  cursor : Z;
  sorted : list (option A);
  visited : gset Z
}.

(** [visited[i] = true] *)
Definition mark (i : Z) (s : tstate) : tstate :=
  mkT (cursor s) (sorted s) ({[ i ]} ∪ visited s).

(** [sorted[--cursor] = node].  A negative index names a property of
    the array object and leaves its elements alone; the index never
    reaches the length, since [cursor] starts there and only goes
    down. *)
Definition store (node : A) (s : tstate) : tstate :=
  let c := cursor s - 1 in
  mkT c
      (if decide (0 ≤ c) then <[ Z.to_nat c := Some node ]> (sorted s)
       else sorted s)
      (visited s).

(** The [do ... while (i)] loop over [outgoing], from its last edge to
    its first; [l] is the reversed list. *)
Fixpoint visitEach (vis : A → tstate → outcome tstate)
    (l : list (A * A)) (s : tstate) : outcome tstate :=
  match l with
  | [] => Ret s
  | e :: l' => s' ←! vis e.2 s; visitEach vis l' s'
  end.

Definition outgoingOf (edges : list (A * A)) (node : A) : list (A * A) :=
  filter (λ e, e.1 = node) edges.

Fixpoint visit (fuel : nat) (nodes : list A) (edges : list (A * A))
    (node : A) (i : Z) (predecessors : list A) (s : tstate)
    : outcome tstate :=
  match fuel with
  | O => Diverge
  | S fuel' =>
      if decide (node ∈ predecessors) then Throw CyclicDependency
      else if decide (i ∈ visited s) then Ret s
      else
        let s1 := mark i s in
        let outgoing := outgoingOf edges node in
        let preds := predecessors ++ [node] in
        s2 ←! visitEach
                (λ child, visit fuel' nodes edges child
                                (indexOf child nodes) preds)
                (reverse outgoing) s1;
        Ret (store node s2)
  end.

(** [while (i--) if (!visited[i]) visit(nodes[i], i, [])]; [l] lists
    the pairs [(i, nodes[i])] from the last index down to 0. *)
Fixpoint visitRoots (fuel : nat) (nodes : list A) (edges : list (A * A))
    (l : list (nat * A)) (s : tstate) : outcome tstate :=
  match l with
  | [] => Ret s
  | (i, node) :: l' =>
      if decide (Z.of_nat i ∈ visited s) then visitRoots fuel nodes edges l' s
      else s' ←! visit fuel nodes edges node (Z.of_nat i) [] s;
           visitRoots fuel nodes edges l' s'
  end.

Definition indexed (nodes : list A) : list (nat * A) :=
  zip (seq 0 (length nodes)) nodes.

Definition initial (nodes : list A) : tstate :=
  mkT (Z.of_nat (length nodes)) (replicate (length nodes) None) ∅.

(** The depth of the recursion is at most one more than the number of
    edges ([visit_fuel] below), which is the fuel given here. *)
Definition toposort (nodes : list A) (edges : list (A * A))
    : outcome (list (option A)) :=
  s ←! visitRoots (S (length edges)) nodes edges
                  (reverse (indexed nodes)) (initial nodes);
  Ret (sorted s).

(** The edge relation and cycles. *)
Definition edge (edges : list (A * A)) : relation A :=
  λ a b, (a, b) ∈ edges.
Definition cyclic (edges : list (A * A)) : Prop :=
  ∃ a, tc (edge edges) a a.

(** Ghost view of a state, for the proofs: [stk] lists the indices
    whose node has been stored, the latest first, and [pth] the indices
    of the calls of [visit] still running.  [closed stk] says that
    whatever is one edge away from a stored node was stored before
    it. *)
Definition closed (nodes : list A) (edges : list (A * A))
    (stk : list nat) : Prop :=
  ∀ l1 j l2 a b,
    stk = l1 ++ j :: l2 → nodes !! j = Some a → (a, b) ∈ edges →
    ∃ k : nat, indexOf b nodes = Z.of_nat k ∧ k ∈ l2.

Record inv (nodes : list A) (edges : list (A * A))
    (s : tstate) (stk pth : list nat) : Prop := mkInv {
  inv_cursor :
    cursor s = Z.of_nat (length nodes) - Z.of_nat (length stk);
  inv_sorted :
    sorted s = replicate (length nodes - length stk) None
               ++ ((nodes !!.) <$> stk);
  inv_visited :
    ∀ z, z ∈ visited s ↔ ∃ j : nat, z = Z.of_nat j ∧ j ∈ stk ++ pth;
  inv_nodup : NoDup (stk ++ pth);
  inv_range : ∀ j, j ∈ stk ++ pth → (j < length nodes)%nat;
  inv_closed : closed nodes edges stk
}.
End defs.
Arguments tstate : clear implicits.
End Toposort.

(** * JavaScript numbers *)

Module JsNum.

(** A number is a finite value, held exactly, or one of [Infinity],
    [-Infinity], [NaN].  The operations follow IEEE 754 on the special
    values; on finite values they are exact. *)
Inductive jsnum : Type :=
  | Fin (q : Q)
  | PInf
  | NInf
  | NaN.

Definition zero : jsnum := Fin 0.
Definition one : jsnum := Fin 1.

(** [Number.isFinite] *)
Definition isFinite (x : jsnum) : bool :=
  match x with Fin _ => true | _ => false end.

Definition neg (x : jsnum) : jsnum :=
  match x with
  | Fin q => Fin (- q)
  | PInf => NInf
  | NInf => PInf
  | NaN => NaN
  end.

Definition add (x y : jsnum) : jsnum :=
  match x, y with
  | Fin a, Fin b => Fin (a + b)
  | NaN, _ | _, NaN => NaN
  | PInf, NInf | NInf, PInf => NaN
  | PInf, _ | _, PInf => PInf
  | NInf, _ | _, NInf => NInf
  end.

Definition sub (x y : jsnum) : jsnum := add x (neg y).

(** The infinity with the sign of [a], or [NaN] when [a] is zero. *)
Definition signedInf (a : Q) : jsnum :=
  match (a ?= 0)%Q with
  | Gt => PInf
  | Lt => NInf
  | Eq => NaN
  end.

Definition mul (x y : jsnum) : jsnum :=
  match x, y with
  | Fin a, Fin b => Fin (a * b)
  | NaN, _ | _, NaN => NaN
  | Fin a, PInf | PInf, Fin a => signedInf a
  | Fin a, NInf | NInf, Fin a => signedInf (- a)
  | PInf, PInf | NInf, NInf => PInf
  | PInf, NInf | NInf, PInf => NInf
  end.

(** Division; a zero divisor is [+0]. *)
Definition div (x y : jsnum) : jsnum :=
  match x, y with
  | NaN, _ | _, NaN => NaN
  | Fin a, Fin b =>
      match (b ?= 0)%Q with
      | Eq => signedInf a
      | _ => Fin (a / b)
      end
  | Fin _, (PInf | NInf) => Fin 0
  | PInf, Fin b => if Qle_bool 0 b then PInf else NInf
  | NInf, Fin b => if Qle_bool 0 b then NInf else PInf
  | _, _ => NaN
  end.

(** [x < y]; false as soon as one side is [NaN]. *)
Definition lt (x y : jsnum) : bool :=
  match x, y with
  | NaN, _ | _, NaN => false
  | Fin a, Fin b => match (a ?= b)%Q with Lt => true | _ => false end
  | NInf, NInf => false
  | NInf, _ => true
  | _, NInf => false
  | PInf, _ => false
  | Fin _, PInf => true
  end.

Definition gt (x y : jsnum) : bool := lt y x.

(** [x <= y] *)
Definition le (x y : jsnum) : bool :=
  match x, y with
  | NaN, _ | _, NaN => false
  | Fin a, Fin b => Qle_bool a b
  | NInf, _ => true
  | _, PInf => true
  | _, NInf => false
  | PInf, Fin _ => false
  end.

Definition ge (x y : jsnum) : bool := le y x.

(** [x === y] on numbers *)
Definition eqb (x y : jsnum) : bool :=
  match x, y with
  | Fin a, Fin b => Qeq_bool a b
  | PInf, PInf | NInf, NInf => true
  | _, _ => false
  end.

(** [Math.abs] *)
Definition abs (x : jsnum) : jsnum :=
  match x with
  | Fin q => Fin (Qabs q)
  | PInf | NInf => PInf
  | NaN => NaN
  end.

(** [Math.max(x, y)] and [Math.min(x, y)]: [NaN] if an argument is. *)
Definition max (x y : jsnum) : jsnum :=
  match x, y with
  | NaN, _ | _, NaN => NaN
  | _, _ => if lt x y then y else x
  end.

Definition min (x y : jsnum) : jsnum :=
  match x, y with
  | NaN, _ | _, NaN => NaN
  | _, _ => if lt y x then y else x
  end.

(** The value of a finite number (0 for the others). *)
Definition toQ (x : jsnum) : Q :=
  match x with Fin q => q | _ => 0%Q end.

(** The same number: the relation in which the properties are stated
    (two fractions of one value are the same number). *)
Definition same (x y : jsnum) : Prop :=
  match x, y with
  | Fin a, Fin b => (a == b)%Q
  | PInf, PInf | NInf, NInf | NaN, NaN => True
  | _, _ => False
  end.

Definition sameb (x y : jsnum) : bool :=
  match x, y with
  | Fin a, Fin b => Qeq_bool a b
  | PInf, PInf | NInf, NInf | NaN, NaN => true
  | _, _ => false
  end.

End JsNum.

Infix "≈" := JsNum.same (at level 70, no associativity).

(** * DataShaper: [initData] *)

(** [forEach] with a callback that may throw; [forEachI] also passes
    the index. *)
Fixpoint forEach {X St} (f : St → X → outcome St) (l : list X) (s : St)
    : outcome St :=
  match l with
  | [] => Ret s
  | x :: l' => s' ←! f s x; forEach f l' s'
  end.

Fixpoint forEachI {X St} (f : St → nat → X → outcome St)
    (l : list X) (idx : nat) (s : St) : outcome St :=
  match l with
  | [] => Ret s
  | x :: l' => s' ←! f s idx x; forEachI f l' (S idx) s'
  end.

(** [a[k]] for a number [k]: [undefined] outside the array. *)
Definition arrayGet {X} (a : list X) (k : Z) : option X :=
  if decide (0 ≤ k) then a !! Z.to_nat k else None.

Module DataShaper.
Import JsNum.

(** A value that is a string or [undefined]. *)
Definition jsval : Type := option jsstring.

(** A cell of the hypercube: [{qElemNumber, qNum, qText}]. *)
Module Cell.
Record t : Type := mk {
  qElemNumber : Z;
  qNum : jsnum;
  qText : jsstring
}.
End Cell.

(** A row of [inData]; an entry read past the end of a raw row is
    [undefined]. *)
Definition row : Type := list (option Cell.t).

(** [qElemNumber] of a point: one element number, or the pair
    [[e0, e1]] when two dimensions are defined. *)
Inductive elemId : Type :=
  | ElemOne (e : Z)
  | ElemPair (e0 e1 : Z).

(** The object pushed on [v] inside the series loop. *)
Module Slot.
Record t : Type := mk {
  dim2 : jsstring;
  qNum : jsnum;
  qText : jsstring;
  qElemNumber : elemId;
  offset : jsnum
}.
End Slot.

(** An element of [g.flatData] (and of a group's [values]).  [qTextPct]
    is absent on a two-dimensional point that was not normalized. *)
Module Point.
Record t : Type := mk {
  dim1 : jsstring;
  dim2 : jsstring;
  offset : jsnum;
  qNum : jsnum;
  qText : jsstring;
  qTextPct : option jsstring;
  qElemNumber : elemId
}.
End Point.

(** An element of [g.data]; one-dimensional groups carry no [values]. *)
Module Group.
Record t : Type := mk {
  dim1 : jsstring;
  offsetPos : jsnum;
  offsetNeg : jsnum;
  values : option (list Point.t)
}.
End Group.

(** An element of [g.deltas].  [measureNumber] copies a property no
    point has and is always [undefined]; it is left out. *)
Module Delta.
Record t : Type := mk {
  dim1p : jsstring;
  dim1c : jsstring;
  dim2 : jsstring;
  delta : jsnum;
  deltaPct : jsnum;
  points : jsnum * jsnum * jsnum * jsnum
}.
End Delta.

(** The fields of the chart object [g] that [initData] reads or
    writes. *)
Record chart : Type := mkChart {
  defDims : Z;
  defMeas : Z;
  measures : list jsstring;
  rawData : list (list Cell.t);
  normalized : bool;
  showDeltas : bool;
  nDims : Z;
  data : list Group.t;
  flatData : list Point.t;
  allDim2 : list jsval;
  allCol2 : list (option Z);
  deltas : list Delta.t
}.

(** [d[k]] followed by a property read: a [TypeError] when [d[k]] is
    [undefined]. *)
Definition cellAt (d : row) (k : nat) : outcome Cell.t :=
  match d !! k with
  | Some (Some c) => Ret c
  | _ => Throw TypeError
  end.

(** The pseudo-dimension cell made for measure number [j]. *)
Definition measureCell (j : nat) (name : jsstring) : Cell.t :=
  Cell.mk (-1) (Fin (inject_Z (Z.of_nat j + 1))) name.

(** Lines 160-183: the rows the rest of [initData] works on. *)
Definition inputRows (g : chart) : list row :=
  if decide (defDims g = 0) then
    concat (fmap (M:=list)
              (λ raw : list Cell.t,
                 imap (λ j name, [Some (measureCell j name); raw !! j])
                      (measures g))
              (rawData g))
  else if decide (defDims g = 1 ∧ 1 < defMeas g) then
    concat (fmap (M:=list)
              (λ raw : list Cell.t,
                 imap (λ j name,
                         [raw !! 0%nat; Some (measureCell j name); raw !! S j])
                      (measures g))
              (rawData g))
  else
    fmap (M:=list) (fmap (M:=list) Some) (rawData g).

(** [cf]: the color attribute, constantly 0. *)
Definition cf (d : row) : Z := 0.

(** ** One dimension (lines 192-225) *)

Record flat : Type := mkFlat {
  struc1 : list Group.t;
  flatData1 : list Point.t;
  q1 : list jsstring;
  r1 : list Z
}.

Definition flatRow (s : flat) (d : row) : outcome flat :=
  c1 ←! cellAt d 1;
  let offsetNeg := if lt (Cell.qNum c1) zero then Cell.qNum c1 else zero in
  let offsetPos := if lt (Cell.qNum c1) zero then zero else Cell.qNum c1 in
  c0 ←! cellAt d 0;
  let fresh := bool_decide (indexOf (Cell.qText c0) (q1 s) = -1) in
  Ret (mkFlat
         (struc1 s ++ [Group.mk (Cell.qText c0) offsetPos offsetNeg None])
         (flatData1 s ++
            [Point.mk (Cell.qText c0) (Cell.qText c0) zero (Cell.qNum c1)
                      (Cell.qText c1) (Some []) (ElemOne (Cell.qElemNumber c0))])
         (if fresh then q1 s ++ [Cell.qText c0] else q1 s)
         (if fresh then r1 s ++ [cf d] else r1 s)).

(** ** Two dimensions: the scan for [p], [q] and the edges (lines
    230-256) *)

Record scan : Type := mkScan {
  p1 : jsstring;
  p2 : jsval;
  edges : list (jsval * jsval);
  p : list jsstring;
  q : list jsstring;
  r : list Z
}.

Definition scanStart : scan := mkScan [] None [] [] [] [].

Definition scanRow (s : scan) (d : row) : outcome scan :=
  c1 ←! cellAt d 1;
  let c2 := Cell.qText c1 in
  c0 ←! cellAt d 0;
  let d0 := Cell.qText c0 in
  let freshP := bool_decide (indexOf d0 (p s) = -1) in
  let freshQ := bool_decide (indexOf c2 (q s) = -1) in
  let sameRun := bool_decide (d0 = p1 s) in
  let known := bool_decide ((p2 s, Some c2) ∈ edges s) in
  Ret (mkScan
         (if sameRun then p1 s else d0)
         (Some c2)
         (if sameRun && negb known then edges s ++ [(p2 s, Some c2)]
          else edges s)
         (if freshP then p s ++ [d0] else p s)
         (if freshQ then q s ++ [c2] else q s)
         (if freshQ then r s ++ [cf d] else r s)).

(** Lines 259-272: the canonical series order and the colors in that
    order.  An element of the array that [toposort] returns reads as
    [undefined] where the array has a hole. *)
Definition orderSeries (q : list jsstring) (r : list Z)
    (edges : list (jsval * jsval)) : outcome (list jsval * list (option Z)) :=
  let ps := q in
  match Toposort.toposort (Some <$> q) edges with
  | Ret sorted =>
      let qs : list jsval := (λ o : option jsval, o ≫= id) <$> sorted in
      let rs := (λ i : nat,
                   match qs !! i with
                   | Some (Some x) => arrayGet r (indexOf x ps)
                   | _ => None
                   end) <$> seq 0 (length ps) in
      Ret (qs, rs)
  | Throw _ => Ret (Some <$> q, Some <$> r)
  | Diverge => Diverge
  end.

(** ** Grouping (lines 274-290) *)

(** One level of [d3.nest]: the elements grouped under their key, each
    group in the order of the input.  The groups are listed in the order
    their keys first occur; d3 may enumerate them otherwise, and the
    sorts that follow fix the order in either case. *)
Fixpoint insertGroup {X} (k : jsstring) (x : X)
    (acc : list (jsstring * list X)) : list (jsstring * list X) :=
  match acc with
  | [] => [(k, [x])]
  | (k', xs) :: acc' =>
      if decide (k' = k) then (k', xs ++ [x]) :: acc'
      else (k', xs) :: insertGroup k x acc'
  end.

Definition groupBy {X} (key : X → jsstring) (l : list X)
    : list (jsstring * list X) :=
  foldl (λ acc x, insertGroup (key x) x acc) [] l.

(** The key functions [d[0].qText] and [d[1].qText]; the scan has read
    the same properties of every row before. *)
Definition keyText (k : nat) (d : row) : jsstring :=
  match d !! k with
  | Some (Some c) => Cell.qText c
  | _ => []
  end.

Definition nestEntries (inData : list row)
    : list (jsstring * list (jsstring * list row)) :=
  (λ e, (e.1, groupBy (keyText 1) e.2)) <$> groupBy (keyText 0) inData.

(** [a.sort(cmp)] with [cmp] comparing [order.indexOf(key)]. *)
Definition byIndex {K X} `{EqDecision K} (order : list K) (key : X → K)
    : relation X :=
  λ a b, indexOf (key a) order ≤ indexOf (key b) order.

#[global] Instance byIndex_dec {K X} `{EqDecision K}
    (order : list K) (key : X → K) (a b : X) :
  Decision (byIndex order key a b).
Proof. unfold byIndex. apply _. Defined.

Definition sortByIndex {K X} `{EqDecision K} (order : list K) (key : X → K)
    (l : list X) : list X :=
  merge_sort (byIndex order key) l.

Definition sortedEntries (p : list jsstring) (q : list jsval)
    (inData : list row) : list (jsstring * list (jsstring * list row)) :=
  sortByIndex p fst
    ((λ e, (e.1, sortByIndex q (λ x, Some x.1) e.2)) <$> nestEntries inData).

(** ** Stacking one group (lines 292-325) *)

Record stack : Type := mkStack {
  posT : jsnum;
  negT : jsnum;
  v : list Slot.t;
  j : nat
}.

Definition stackStart : stack := mkStack zero zero [] 0.

(** One turn of [for (i ...)], at the series [qi = q[i]].  In the branch
    of a missing series only locals are assigned, and nothing is
    pushed. *)
Definition stackStep (defDims : Z) (vals : list (jsstring * list row))
    (st : stack) (qi : jsval) : outcome stack :=
  match vals !! j st with
  | None => Ret st
  | Some (key, rows) =>
      if decide (Some key = qi) then
        match rows with
        | [] => Throw TypeError
        | row0 :: _ =>
            c2 ←! cellAt row0 2;
            let num := if isFinite (Cell.qNum c2) then Cell.qNum c2 else zero in
            let txt := Cell.qText c2 in
            c0 ←! cellAt row0 0;
            elm ←! (if decide (defDims = 2) then
                      c1 ←! cellAt row0 1;
                      Ret (ElemPair (Cell.qElemNumber c0) (Cell.qElemNumber c1))
                    else Ret (ElemOne (Cell.qElemNumber c0)));
            if lt num zero then
              Ret (mkStack (posT st) (add (negT st) num)
                           (v st ++ [Slot.mk key num txt elm (negT st)])
                           (S (j st)))
            else
              Ret (mkStack (add (posT st) num) (negT st)
                           (v st ++ [Slot.mk key num txt elm (posT st)])
                           (S (j st)))
        end
      else Ret st
  end.

(** ** Normalization, deltas and the model (lines 326-365) *)

(** The locals [struc], [flatData] and [deltas]. *)
Module Acc.
Record t : Type := mk {
  struc : list Group.t;
  flatData : list Point.t;
  deltas : list Delta.t
}.
End Acc.

(** Lines 343-356: the record pushed on [deltas]. *)
Definition deltaOf (pk ck : Point.t) : Delta.t :=
  Delta.mk (Point.dim1 pk) (Point.dim1 ck) (Point.dim2 pk)
           (sub (Point.qNum ck) (Point.qNum pk))
           zero
           (Point.offset pk, Point.offset ck, Point.qNum pk, Point.qNum ck).

(** Lines 341-358: [for (k = 0; k < p.length; k++) if (p[k] && c[k])]. *)
Definition deltaLoop (p c : list Point.t) : list Delta.t :=
  omap (λ k : nat,
          match p !! k, c !! k with
          | Some pk, Some ck => Some (deltaOf pk ck)
          | _, _ => None
          end)
       (seq 0 (length p)).

Section shaper.
(** [d3.format(".1%")], from the d3 library. *)
Variable formatPct : jsnum → jsstring.

(** Lines 326-334: the callback of [v.forEach], for the group with key
    [key] and stack tops [posT], [negT]. *)
Definition finishPoint (normalized : bool) (key : jsstring)
    (posT negT : jsnum) (e : Slot.t) : Point.t :=
  if normalized then
    let n := if lt (Slot.qNum e) zero then neg negT else posT in
    let offset := div (Slot.offset e) n in
    let qNum := div (Slot.qNum e) n in
    Point.mk key (Slot.dim2 e) offset qNum (Slot.qText e)
             (Some (formatPct qNum)) (Slot.qElemNumber e)
  else
    Point.mk key (Slot.dim2 e) (Slot.offset e) (Slot.qNum e) (Slot.qText e)
             None (Slot.qElemNumber e).

(** Lines 291-360: the callback of [n.forEach], for the group [d] at
    index [idx]. *)
Definition groupStep (g : chart) (q : list jsval) (acc : Acc.t) (idx : nat)
    (d : jsstring * list (jsstring * list row)) : outcome Acc.t :=
  st ←! forEach (stackStep (defDims g) d.2) q stackStart;
  let v := finishPoint (normalized g) d.1 (posT st) (negT st) <$> v st in
  let flatData := Acc.flatData acc ++ v in
  let struc :=
    Acc.struc acc ++ [Group.mk d.1 (posT st) (negT st) (Some v)] in
  if bool_decide (0 < idx)%nat && showDeltas g then
    match struc !! (idx - 1)%nat, struc !! idx with
    | Some gp, Some gc =>
        match Group.values gp, Group.values gc with
        | Some p, Some c =>
            Ret (Acc.mk struc flatData (Acc.deltas acc ++ deltaLoop p c))
        | _, _ => Throw TypeError
        end
    | _, _ => Throw TypeError
    end
  else Ret (Acc.mk struc flatData (Acc.deltas acc)).

(** Lines 192-225: the one-dimensional model. *)
Definition shapeOneDim (g : chart) (inData : list row) : outcome chart :=
  s ←! forEach flatRow inData (mkFlat [] [] [] []);
  Ret (mkChart (defDims g) (defMeas g) (measures g) (rawData g)
               false (showDeltas g) 1
               (struc1 s) (flatData1 s)
               (Some <$> q1 s) (Some <$> r1 s) (deltas g)).

(** Lines 227-365: the two-dimensional model. *)
Definition shapeTwoDim (g : chart) (inData : list row) : outcome chart :=
  s ←! forEach scanRow inData scanStart;
  qr ←! orderSeries (q s) (r s) (edges s);
  let n := sortedEntries (p s) qr.1 inData in
  acc ←! forEachI (groupStep g qr.1) n 0%nat (Acc.mk [] [] []);
  Ret (mkChart (defDims g) (defMeas g) (measures g) (rawData g)
               (normalized g) (showDeltas g) 2
               (Acc.struc acc) (Acc.flatData acc)
               qr.1 qr.2 (Acc.deltas acc)).

(** [g.initData()]: the chart object after the call.  The two guards
    return with [g] as it was; [inData[0].length] throws when [inData]
    is empty. *)
Definition initData (g : chart) : outcome chart :=
  match rawData g with
  | [] => Ret g
  | raw0 :: _ =>
      if decide (defDims g + defMeas g ≠ Z.of_nat (length raw0)) then Ret g
      else
        let inData := inputRows g in
        match inData with
        | [] => Throw TypeError
        | d0 :: _ =>
            if decide (length d0 = 2%nat) then shapeOneDim g inData
            else shapeTwoDim g inData
        end
  end.

(** The group that [groupStep] builds from an entry [d] of the nest. *)
Definition groupOf (g : chart) (q : list jsval)
    (d : jsstring * list (jsstring * list row)) (grp : Group.t) : Prop :=
  ∃ st, forEach (stackStep (defDims g) d.2) q stackStart = Ret st
      ∧ grp = Group.mk d.1 (posT st) (negT st)
                (Some (finishPoint (normalized g) d.1
                                   (posT st) (negT st) <$> v st)).
End shaper.

(** ** Vocabulary of the properties *)

(** Which way [initData] goes on [g]. *)
Inductive branch : Type :=
  | Skipped    (* one of the two guards returned *)
  | NoRows     (* inData is empty *)
  | OneDim
  | TwoDim.

Definition branchOf (g : chart) : branch :=
  match rawData g with
  | [] => Skipped
  | raw0 :: _ =>
      if decide (defDims g + defMeas g ≠ Z.of_nat (length raw0)) then Skipped
      else match inputRows g with
           | [] => NoRows
           | d0 :: _ => if decide (length d0 = 2%nat) then OneDim else TwoDim
           end
  end.

(** A row with its two dimension cells and its measure cell. *)
Definition fullRow (d : row) : Prop :=
  ∃ c0 c1 c2, d !! 0%nat = Some (Some c0) ∧ d !! 1%nat = Some (Some c1)
              ∧ d !! 2%nat = Some (Some c2).

(** The values of a list, each once, in the order in which they first
    occur. *)
Fixpoint firstEncounter {K} `{EqDecision K} (l : list K) : list K :=
  match l with
  | [] => []
  | x :: l' => x :: filter (λ y, y ≠ x) (firstEncounter l')
  end.

(** The sum of a list of numbers. *)
Definition sumNum (l : list jsnum) : jsnum := foldr add zero l.

Definition nonNegative (x : jsnum) : Prop := ge x zero = true.
Definition negative (x : jsnum) : Prop := lt x zero = true.

#[global] Instance nonNegative_dec x : Decision (nonNegative x).
Proof. unfold nonNegative. apply _. Defined.
#[global] Instance negative_dec x : Decision (negative x).
Proof. unfold negative. apply _. Defined.

(** The points of a list whose value has the sign of [x]: negative, or
    not. *)
Definition sameSign (x : jsnum) (y : jsnum) : Prop :=
  lt y zero = lt x zero.

#[global] Instance sameSign_dec x y : Decision (sameSign x y).
Proof. unfold sameSign. apply _. Defined.

(** The stack invariant of a group. *)
Definition stackInvariant (grp : Group.t) : Prop :=
  ∃ vs, Group.values grp = Some vs
    ∧ sumNum (filter nonNegative (Point.qNum <$> vs)) ≈ Group.offsetPos grp
    ∧ sumNum (filter negative (Point.qNum <$> vs)) ≈ Group.offsetNeg grp
    ∧ ∀ (k : nat) pt, vs !! k = Some pt →
        Point.offset pt
        ≈ sumNum (filter (sameSign (Point.qNum pt))
                         (Point.qNum <$> take k vs)).

(** Whether a row of [inData] belongs to group [k1] and series [k2]. *)
Definition hasRow (inData : list row) (k1 k2 : jsstring) : Prop :=
  ∃ d, d ∈ inData ∧ keyText 0 d = k1 ∧ keyText 1 d = k2.

#[global] Instance hasRow_dec inData k1 k2 : Decision (hasRow inData k1 k2).
Proof.
  refine (cast_if (decide (Exists (λ d, keyText 0 d = k1 ∧ keyText 1 d = k2)
                                  inData)));
    unfold hasRow; rewrite Exists_exists in *; naive_solver.
Defined.

(** The points of a group ([[]] for a group without [values]). *)
Definition pointsOf (grp : Group.t) : list Point.t :=
  default [] (Group.values grp).

(** [pt] is the point [raw] normalized in a group with the stack tops
    [posT] and [negT]: value and offset divided by [posT], or by [-negT]
    when the raw value is negative, and the percent text made from the
    normalized value. *)
Definition normalizedPoint (formatPct : jsnum → jsstring)
    (posT negT : jsnum) (raw pt : Point.t) : Prop :=
  let n := if lt (Point.qNum raw) zero then neg negT else posT in
  Point.qNum pt = div (Point.qNum raw) n
  ∧ Point.offset pt = div (Point.offset raw) n
  ∧ Point.qTextPct pt = Some (formatPct (Point.qNum pt))
  ∧ Point.dim1 pt = Point.dim1 raw ∧ Point.dim2 pt = Point.dim2 raw
  ∧ Point.qText pt = Point.qText raw
  ∧ Point.qElemNumber pt = Point.qElemNumber raw.

(** [grp] is the group [raw] normalized: the same key and stack tops,
    and the points of [raw] normalized one by one. *)
Definition normalizedGroup (formatPct : jsnum → jsstring)
    (raw grp : Group.t) : Prop :=
  Group.dim1 grp = Group.dim1 raw
  ∧ Group.offsetPos grp = Group.offsetPos raw
  ∧ Group.offsetNeg grp = Group.offsetNeg raw
  ∧ is_Some (Group.values grp)
  ∧ Forall2 (normalizedPoint formatPct (Group.offsetPos raw)
                             (Group.offsetNeg raw))
            (pointsOf raw) (pointsOf grp).

(** The values of a sign sum to one (in size) where the stack top of
    that sign is not zero. *)
Definition unitSums (grp : Group.t) : Prop :=
  (¬ Group.offsetPos grp ≈ zero →
   sumNum (filter nonNegative (Point.qNum <$> pointsOf grp)) ≈ one)
  ∧ (¬ Group.offsetNeg grp ≈ zero →
     sumNum (filter negative (Point.qNum <$> pointsOf grp)) ≈ neg one).

(** The claimed round trip of a point [pt] of [grp]: the values of the
    sign of [pt] sum, in absolute value, to 1 within [1e-9]. *)
Definition sumsToOne (grp : Group.t) (pt : Point.t) : Prop :=
  le (abs (sub (abs (sumNum (filter (sameSign (Point.qNum pt))
                                    (Point.qNum <$> pointsOf grp))))
               one))
     (Fin (1 # 1000000000)) = true.

(** The series-order edges that the scan of the rows records. *)
Definition observedEdges (inData : list row) : list (jsval * jsval) :=
  match forEach scanRow inData scanStart with
  | Ret s => edges s
  | _ => []
  end.

(** The deltas between adjacent groups, slot by slot, as far as both
    groups have a slot. *)
Fixpoint adjacentDeltas (groups : list (list Point.t)) : list Delta.t :=
  match groups with
  | [] => []
  | prev :: rest =>
      match rest with
      | [] => []
      | cur :: _ => zip_with deltaOf prev cur ++ adjacentDeltas rest
      end
  end.


(** [g] with [rawData] replaced, as when the host delivers new rows. *)
Definition withRawData (rows : list (list Cell.t)) (g : chart) : chart :=
  mkChart (defDims g) (defMeas g) (measures g) rows
          (normalized g) (showDeltas g) (nDims g)
          (data g) (flatData g) (allDim2 g) (allCol2 g) (deltas g).

Definition withNormalized (b : bool) (g : chart) : chart :=
  mkChart (defDims g) (defMeas g) (measures g) (rawData g)
          b (showDeltas g) (nDims g)
          (data g) (flatData g) (allDim2 g) (allCol2 g) (deltas g).

(** ** Sample inputs *)

Module Sample.
(** A dimension cell and a measure cell. *)
Definition dimCell (e : Z) (text : String.string) : Cell.t :=
  Cell.mk e NaN (str text).
Definition numCell (n : Z) (text : String.string) : Cell.t :=
  Cell.mk 0 (Fin (inject_Z n)) (str text).

(** A chart object with two dimensions and one measure, before its
    first [initData]. *)
Definition fresh (rows : list (list Cell.t)) (normalized showDeltas : bool)
    : chart :=
  mkChart 2 1 [str "Sales"] rows normalized showDeltas 0 [] [] [] [] [].

(** A stand-in for [d3.format(".1%")] where a concrete function is
    needed; no result below depends on the text it returns. *)
Definition percentText (x : jsnum) : jsstring := str "%".

(** The chart object after [initData] ([g] itself if the call throws). *)
Definition shaped (g : chart) : chart :=
  match initData percentText g with
  | Ret g' => g'
  | _ => g
  end.

(** Q1: East 100, West 50; Q2: East 80, West 70. *)
Definition quarters : list (list Cell.t) :=
  [ [dimCell 0 "Q1"; dimCell 0 "East"; numCell 100 "100"];
    [dimCell 0 "Q1"; dimCell 1 "West"; numCell 50 "50"];
    [dimCell 1 "Q2"; dimCell 0 "East"; numCell 80 "80"];
    [dimCell 1 "Q2"; dimCell 1 "West"; numCell 70 "70"] ].

(** As [quarters], with no row for East in Q2. *)
Definition quartersGap : list (list Cell.t) :=
  [ [dimCell 0 "Q1"; dimCell 0 "East"; numCell 100 "100"];
    [dimCell 0 "Q1"; dimCell 1 "West"; numCell 50 "50"];
    [dimCell 1 "Q2"; dimCell 1 "West"; numCell 70 "70"] ].

(** One group whose only value is zero. *)
Definition allZero : list (list Cell.t) :=
  [ [dimCell 0 "Q1"; dimCell 0 "East"; numCell 0 "0"] ].

(** Three groups in which the series occur in the orders A B, B C and
    C A. *)
Definition cycle : list (list Cell.t) :=
  [ [dimCell 0 "G1"; dimCell 0 "A"; numCell 1 "1"];
    [dimCell 0 "G1"; dimCell 1 "B"; numCell 2 "2"];
    [dimCell 1 "G2"; dimCell 1 "B"; numCell 3 "3"];
    [dimCell 1 "G2"; dimCell 2 "C"; numCell 4 "4"];
    [dimCell 2 "G3"; dimCell 2 "C"; numCell 5 "5"];
    [dimCell 2 "G3"; dimCell 0 "A"; numCell 6 "6"] ].
End Sample.
End DataShaper.

(** * ScaleBuilder: the numeric domain of [initChart] *)

Module ScaleBuilder.
Import JsNum DataShaper.

(** [d3.max(array, f)] and [d3.min(array, f)] of d3 version 3, applied
    to the values [f] returns: the first value [b] with [b >= b] starts
    the result, and a later value replaces it when it is greater, or
    smaller; [undefined] when no value qualifies. *)
Fixpoint d3maxFrom (a : jsnum) (l : list jsnum) : jsnum :=
  match l with
  | [] => a
  | b :: l' => d3maxFrom (if gt b a then b else a) l'
  end.

Fixpoint d3max (l : list jsnum) : option jsnum :=
  match l with
  | [] => None
  | b :: l' => if ge b b then Some (d3maxFrom b l') else d3max l'
  end.

Fixpoint d3minFrom (a : jsnum) (l : list jsnum) : jsnum :=
  match l with
  | [] => a
  | b :: l' => d3minFrom (if gt a b then b else a) l'
  end.

Fixpoint d3min (l : list jsnum) : option jsnum :=
  match l with
  | [] => None
  | b :: l' => if ge b b then Some (d3minFrom b l') else d3min l'
  end.

(** A number used as a condition: false for 0 and [NaN]. *)
Definition truthy (x : jsnum) : bool :=
  match x with
  | Fin q => negb (Qeq_bool q 0)
  | NaN => false
  | _ => true
  end.

(** Lines 494-501: [Math.max(0, d.offsetPos)] raised to every offset of
    [d.values] that exceeds it. *)
Definition maxOffsetOf (d : Group.t) : jsnum :=
  let start := max zero (Group.offsetPos d) in
  match Group.values d with
  | Some vs =>
      foldl (λ maxOffset dataObject,
               if gt (Point.offset dataObject) maxOffset
               then Point.offset dataObject else maxOffset)
            start vs
  | None => start
  end.

(** Lines 511-518. *)
Definition minOffsetOf (d : Group.t) : jsnum :=
  let start := min zero (Group.offsetNeg d) in
  match Group.values d with
  | Some vs =>
      foldl (λ minOffset dataObject,
               if lt (Point.offset dataObject) minOffset
               then Point.offset dataObject else minOffset)
            start vs
  | None => start
  end.

(** Lines 489-504: [g.max]. *)
Definition chartMax (normalized : bool) (gridHeight : jsnum)
    (data : list Group.t) : option jsnum :=
  d3max ((λ d : Group.t,
            if normalized then
              if truthy (Group.offsetPos d) && gt (Group.offsetPos d) zero
              then gridHeight else zero
            else mul (maxOffsetOf d) gridHeight) <$> data).

(** Lines 506-521: [g.min]. *)
Definition chartMin (normalized : bool) (gridHeight : jsnum)
    (data : list Group.t) : option jsnum :=
  d3min ((λ d : Group.t,
            if normalized then
              if truthy (Group.offsetNeg d) && lt (Group.offsetNeg d) zero
              then neg gridHeight else zero
            else mul (minOffsetOf d) gridHeight) <$> data).

(** ** Vocabulary of the property *)

(** The greatest, and the least, of [x] and the numbers of [l]. *)
Definition maximum (x : jsnum) (l : list jsnum) : jsnum := foldr max x l.
Definition minimum (x : jsnum) (l : list jsnum) : jsnum := foldr min x l.

(** [max(0, offsetPos, every point offset)] of a group, and its
    counterpart. *)
Definition groupTop (d : Group.t) : jsnum :=
  maximum zero (Group.offsetPos d :: (Point.offset <$> pointsOf d)).
Definition groupBottom (d : Group.t) : jsnum :=
  minimum zero (Group.offsetNeg d :: (Point.offset <$> pointsOf d)).

(** A group whose stack tops and offsets are finite numbers. *)
Definition finiteGroup (d : Group.t) : Prop :=
  isFinite (Group.offsetPos d) = true ∧ isFinite (Group.offsetNeg d) = true
  ∧ Forall (λ pt, isFinite (Point.offset pt) = true) (pointsOf d).

(** ** Sample model *)

Module Sample.
(** Q1: East 100 on West 50; Q2: East -30 and West 70. *)
Definition point (d1 d2 : String.string) (e offset n : Z) : Point.t :=
  Point.mk (str d1) (str d2) (Fin (inject_Z offset)) (Fin (inject_Z n))
           (str "") None (ElemPair 0 e).
Definition q1 : Group.t :=
  Group.mk (str "Q1") (Fin 150) (Fin 0)
           (Some [point "Q1" "East" 0 0 100; point "Q1" "West" 1 100 50]).
Definition q2 : Group.t :=
  Group.mk (str "Q2") (Fin 70) (Fin (-30))
           (Some [point "Q2" "East" 0 0 (-30); point "Q2" "West" 1 0 70]).
End Sample.
End ScaleBuilder.

(** * TextFitter: the label text of [barText] *)

Module TextFitter.
Import JsNum DataShaper.

Inductive orientationOption : Type := Horizontal | Vertical.
Inductive labelType : Type := InsideBars | TotalPos | TotalNeg.
Inductive hAlignment : Type := HCenter | HLeft | HRight.
Inductive vAlignment : Type := VCenter | VTop | VBottom.
(** [showDim]: 'M', 'D' or 'P'; [showTot]: 'M' or 'D'. *)
Inductive showDimOption : Type := DimMeasure | DimDimension | DimPercent.
Inductive showTotOption : Type := TotMeasure | TotDimension.

(** The properties [barText] and [getBarLabelText] read from [d]: a
    point of [g.flatData] for a label inside a bar, a group of [g.data]
    to which the caller has added [qNum] and [qText] for a total. *)
Module Datum.
Record t : Type := mk {
  dim1 : jsstring;
  dim2 : jsval;
  qNum : jsnum;
  qText : jsval;
  qTextPct : jsval;
  offset : jsnum;
  offsetPos : jsnum;
  offsetNeg : jsnum
}.
End Datum.

(** A point as [d]; the stack tops it does not have read as [NaN] in
    arithmetic. *)
Definition ofPoint (pt : Point.t) : Datum.t :=
  Datum.mk (Point.dim1 pt) (Some (Point.dim2 pt)) (Point.qNum pt)
           (Some (Point.qText pt)) (Point.qTextPct pt) (Point.offset pt)
           NaN NaN.

(** A group as [d], after [d.qNum = ...; d.qText = ...] of lines 950-951
    and 973-974. *)
Definition ofGroup (grp : Group.t) (qNum : jsnum) (qText : jsstring)
    : Datum.t :=
  Datum.mk (Group.dim1 grp) None qNum (Some qText) None NaN
           (Group.offsetPos grp) (Group.offsetNeg grp).

(** What the browser reports for a text in [g.tref] at the font size
    [g.textSize]: [getBBox()] and [getComputedTextLength()]. *)
Record metrics : Type := mkMetrics {
  boxWidth : jsstring → jsnum;
  boxHeight : jsstring → jsnum;
  computedTextLength : jsstring → jsnum
}.

(** The properties of the chart object [barText] reads; [mScale],
    [dScale] and [rangeBand] are the d3 scales built by [initChart]. *)
Record view : Type := mkView {
  orientation : orientationOption;
  rotateLabel : bool;
  hAlign : hAlignment;
  vAlign : vAlignment;
  innerBarPadV : jsnum;
  innerBarPadH : jsnum;
  textDots : bool;
  barGap : jsnum;
  showDim : showDimOption;
  showTot : showTotOption;
  defDims : Z;
  normalized : bool;
  mScale : jsnum → jsnum;
  dScale : jsstring → jsnum;
  rangeBand : jsnum
}.

(** [getBarLabelText] of [src/barLabelText.js]. *)
Definition getBarLabelText (datum : Datum.t) (component : view)
    (total : bool) : jsval :=
  if eqb (Datum.qNum datum) zero then Some []
  else if total then
    match showTot component with
    | TotDimension => Some (Datum.dim1 datum)
    | TotMeasure => Datum.qText datum
    end
  else
    match showDim component with
    | DimDimension =>
        if (1 <? defDims component)%Z then Datum.dim2 datum
        else Some (Datum.dim1 datum)
    | DimPercent =>
        if normalized component then Datum.qTextPct datum
        else Datum.qText datum
    | DimMeasure => Datum.qText datum
    end.

(** The content of a text element after d3's [text(value)]: empty for
    [undefined]. *)
Definition setText (value : jsval) : jsstring := default [] value.

(** The ellipsis character, and the characters '.' and '-'. *)
Definition ellipsis : jsstring := [8230%N].
Definition isDotOrDash (c : N) : bool := (c =? 46)%N || (c =? 45)%N.

(** [txt.slice(0, -1)] *)
Definition sliceLast (txt : jsstring) : jsstring :=
  take (length txt - 1) txt.

(** Lines 1427-1430: the inner loop, which removes trailing dots and
    dashes.  Every pass shortens [txt], so [length txt] passes are
    enough. *)
Fixpoint stripLoop (fuel : nat) (txt : jsstring) : jsstring :=
  match fuel with
  | O => txt
  | S fuel' =>
      match last txt with
      | Some c => if isDotOrDash c then stripLoop fuel' (sliceLast txt)
                  else txt
      | None => txt
      end
  end.

(** The variables of [ellipseText] and the content of [g.tref]. *)
Record fitState : Type := mkFit {
  txt : jsstring;
  tref : jsstring;
  textLength : jsnum
}.

Section fitting.
Variable m : metrics.
Variable maxLength : jsnum.

(** Lines 1425-1433: the outer loop. *)
Fixpoint ellipseLoop (fuel : nat) (st : fitState) : fitState :=
  match fuel with
  | O => st
  | S fuel' =>
      if gt (textLength st) maxLength && (0 <? length (txt st))%nat then
        let txt1 := sliceLast (txt st) in
        let txt2 := stripLoop (length txt1) txt1 in
        let tref' := txt2 ++ ellipsis in
        ellipseLoop fuel' (mkFit txt2 tref' (computedTextLength m tref'))
      else st
  end.

(** Lines 1422-1438: [ellipseText(g, maxLength)] run with [text] in
    [g.tref]; the value it returns. *)
Definition ellipseText (text : jsstring) : jsstring :=
  let st := ellipseLoop (length text)
              (mkFit text text (computedTextLength m text)) in
  if (0 <? length (txt st))%nat then tref st else txt st.

(** Lines 1447-1451 run with [text] in [g.tref]: the fitted text. *)
Definition fitText (text : jsstring) (allowEllipsis : bool) : jsstring :=
  if allowEllipsis then ellipseText text
  else if gt (computedTextLength m text) maxLength then [] else text.
End fitting.

(** The object [barText] returns. *)
Module Placement.
Record t : Type := mk {
  x : jsnum;
  y : jsnum;
  text : jsstring;
  rotation : bool
}.
End Placement.

Definition isInside (type : labelType) : bool :=
  match type with InsideBars => true | _ => false end.
Definition isVertical (o : orientationOption) : bool :=
  match o with Vertical => true | Horizontal => false end.
Definition two : jsnum := Fin 2.

(** [barText(d, type)], lines 1337-1464. *)
Definition barText (m : metrics) (g : view) (d : Datum.t)
    (type : labelType) : Placement.t :=
  let vertical := isVertical (orientation g) in
  let rotation := isInside type && rotateLabel g && vertical in
  let innerBarPadV := innerBarPadV g in
  let innerBarPadH := innerBarPadH g in
  let offset :=
    match type with
    | InsideBars => Datum.offset d
    | TotalPos => Datum.offsetPos d
    | TotalNeg => Datum.offsetNeg d
    end in
  let vAlign :=
    if negb (isInside type) && vertical then VBottom else vAlign g in
  let hAlign :=
    if negb (isInside type) && negb vertical then HLeft else hAlign g in
  let label := setText (getBarLabelText d g (negb (isInside type))) in
  let boxW := boxWidth m label in
  let boxH := boxHeight m label in
  let span := abs (sub (mScale g zero) (mScale g (Datum.qNum d))) in
  let barHeight := if vertical then span else rangeBand g in
  let barWidth := if vertical then rangeBand g else span in
  let top :=
    if vertical then
      match type with
      | TotalNeg =>
          add (add (mScale g (sub offset (Datum.qNum d))) boxH)
              (mul two innerBarPadV)
      | _ =>
          mScale g (if lt (Datum.qNum d) zero then offset
                    else add offset (Datum.qNum d))
      end
    else dScale g (Datum.dim1 d) in
  let left :=
    if vertical then dScale g (Datum.dim1 d)
    else
      match type with
      | TotalNeg =>
          sub (sub (mScale g offset) boxW) (mul two innerBarPadH)
      | _ =>
          mScale g (if lt (Datum.qNum d) zero then add offset (Datum.qNum d)
                    else offset)
      end in
  let textY0 := add (add top boxH) innerBarPadV in
  let textX0 := add left innerBarPadH in
  let room :=
    (rotation && le (add boxH (mul two innerBarPadH)) barWidth)
    || (negb rotation && le (add boxH (mul two innerBarPadV)) barHeight) in
  let textY :=
    if room then
      match vAlign with
      | VCenter => add top (div (add barHeight boxH) two)
      | VBottom => sub (add top barHeight) innerBarPadV
      | VTop => textY0
      end
    else textY0 in
  let textWidth := if rotation then boxH else boxW in
  let textX :=
    if room && le (add textWidth (mul two innerBarPadH)) barWidth then
      match hAlign with
      | HCenter => add left (div (sub barWidth textWidth) two)
      | HRight => sub (sub (add left barWidth) textWidth) innerBarPadH
      | HLeft => textX0
      end
    else textX0 in
  let maxLength :=
    if isInside type then
      if rotation then sub barHeight (mul two innerBarPadV)
      else sub barWidth (mul two innerBarPadH)
    else barWidth in
  let txt := if room then fitText m maxLength label (textDots g) else [] in
  let txt := if eqb (barGap g) one then [] else txt in
  Placement.mk (if isFinite textX then textX else zero)
               (if isFinite textY then textY else zero)
               txt rotation.

(** ** Sample label *)

Module Sample.
(** Seven pixels a code unit, twelve pixels high. *)
Definition monospace : metrics :=
  let width (t : jsstring) := Fin (inject_Z (7 * Z.of_nat (length t))) in
  mkMetrics width (λ _, Fin 12) width.

(** A vertical chart whose bands have collapsed: [barGap] is 1. *)
Definition collapsed : view :=
  mkView Vertical false HCenter VCenter (Fin 2) (Fin 2) true (Fin 1)
         DimMeasure TotMeasure 2 false (λ v, mul v (Fin 3)) (λ _, Fin 40)
         (Fin 0).

Definition east : Datum.t :=
  Datum.mk (str "Q1") (Some (str "East")) (Fin 100) (Some (str "100"))
           None (Fin 0) NaN NaN.
End Sample.
End TextFitter.

(** * Host: the extension definition and the directive *)

Module Host.
Import JsNum DataShaper.

(** [data.dimensions.max] and [data.measures.max] of the extension
    definition, and the width of the page it fetches. *)
Definition dimensionsMax (nMeasures : Z) : Z :=
  if decide (5 < nMeasures) then 0
  else if decide (nMeasures < 2) then 2 else 1.

Definition measuresMax (nDimensions : Z) : Z :=
  if decide (nDimensions = 0) then 10
  else if decide (nDimensions = 1) then 5 else 1.

Definition qWidth : Z := 10.

(** The numbers of dimensions and measures that the property panel
    accepts: each within its [min] and the [max] the other allows. *)
Definition withinLimits (nDimensions nMeasures : Z) : Prop :=
  0 ≤ nDimensions ≤ dimensionsMax nMeasures
  ∧ 1 ≤ nMeasures ≤ measuresMax nDimensions.

(** What [initProps] and [link] read of [$scope.layout], as far as
    [initData] depends on it: the fallback titles of the dimensions and
    of the measures, the first data page, and two properties. *)
Record layout : Type := mkLayout {
  qDimensionInfo : list jsstring;
  qMeasureInfo : list jsstring;
  qMatrix : list (list Cell.t);
  propsNormalized : bool;
  propsShowDeltas : bool
}.

(** [t.startsWith("=") ? t.slice(1) : t] *)
Definition measureName (t : jsstring) : jsstring :=
  match t with
  | 61%N :: t' => t'
  | _ => t
  end.

(** [$scope.initProps], for the fields of [chart].  The title of the
    measure axis is read from [qMeasureInfo[0]] when the measures are
    not renamed, a [TypeError] if there is no measure. *)
Definition initProps (l : layout) (g : chart) : outcome chart :=
  let defDims := Z.of_nat (length (qDimensionInfo l)) in
  let defMeas := Z.of_nat (length (qMeasureInfo l)) in
  if decide (defDims = 0 ∨ (defDims = 1 ∧ 1 < defMeas)) then
    Ret (mkChart defDims defMeas (measureName <$> qMeasureInfo l)
                 (rawData g) (propsNormalized l) (propsShowDeltas l)
                 (nDims g) (data g) (flatData g) (allDim2 g) (allCol2 g)
                 (deltas g))
  else
    match qMeasureInfo l with
    | [] => Throw TypeError
    | _ :: _ =>
        Ret (mkChart defDims defMeas (measures g)
                     (rawData g) (propsNormalized l) (propsShowDeltas l)
                     (nDims g) (data g) (flatData g) (allDim2 g) (allCol2 g)
                     (deltas g))
    end.

(** The data part of [link]: [initProps], [g.rawData = qMatrix],
    [g.initData()]. *)
Definition link (formatPct : jsnum → jsstring) (l : layout) (g : chart)
    : outcome chart :=
  g1 ←! initProps l g;
  initData formatPct (withRawData (qMatrix l) g1).

(** ** Vocabulary of the properties *)

(** The group and the point that the one-dimensional path makes of a
    row. *)
Definition groupOfRow (d : row) (grp : Group.t) : Prop :=
  ∃ c0 c1, d !! 0%nat = Some (Some c0) ∧ d !! 1%nat = Some (Some c1)
    ∧ grp = Group.mk (Cell.qText c0)
              (if lt (Cell.qNum c1) zero then zero else Cell.qNum c1)
              (if lt (Cell.qNum c1) zero then Cell.qNum c1 else zero)
              None.

Definition pointOfRow (d : row) (pt : Point.t) : Prop :=
  ∃ c0 c1, d !! 0%nat = Some (Some c0) ∧ d !! 1%nat = Some (Some c1)
    ∧ pt = Point.mk (Cell.qText c0) (Cell.qText c0) zero (Cell.qNum c1)
             (Cell.qText c1) (Some []) (ElemOne (Cell.qElemNumber c0)).

(** A row whose first two cells are there. *)
Definition pairRow (d : row) : Prop :=
  ∃ c0 c1, d !! 0%nat = Some (Some c0) ∧ d !! 1%nat = Some (Some c1).

(** A bar that lies between [lo] and [hi]: its offset and its end,
    [offset + qNum], are finite numbers in that range. *)
Definition barWithin (lo hi : Q) (offset qNum : jsnum) : Prop :=
  ∃ o x, offset = Fin o ∧ qNum = Fin x
    ∧ (lo <= o <= hi)%Q ∧ (lo <= o + x <= hi)%Q.

(** The first row of [inData] with the keys [k1] and [k2]. *)
Definition firstRow (inData : list row) (k1 k2 : jsstring) : option row :=
  head (filter (λ d, keyText 0 d = k1 ∧ keyText 1 d = k2) inData).

(** The value and the text that stacking takes from a row: those of its
    third cell, with a value that is not finite replaced by 0. *)
Definition measureOf (d : row) (num : jsnum) (txt : jsstring) : Prop :=
  ∃ c2, d !! 2%nat = Some (Some c2)
    ∧ num = (if isFinite (Cell.qNum c2) then Cell.qNum c2 else zero)
    ∧ txt = Cell.qText c2.

(** A sample layout: one dimension, two measures, two rows. *)
Module Sample.
Definition cell (e : Z) (n : Z) (text : String.string) : Cell.t :=
  Cell.mk e (Fin (inject_Z n)) (str text).
Definition sales : layout :=
  mkLayout [str "Quarter"] [str "=Sum(Sales)"; str "Cost"]
    [ [cell 0 0 "Q1"; cell 0 100 "100"; cell 0 60 "60"];
      [cell 1 0 "Q2"; cell 0 80 "80"; cell 0 50 "50"] ]
    false true.
Definition blank : chart := mkChart 0 0 [] [] false false 0 [] [] [] [] [].
(** One dimension, one measure. *)
Definition single : layout :=
  mkLayout [str "Quarter"] [str "Sales"]
    [ [cell 0 0 "Q1"; cell 0 100 "100"];
      [cell 1 0 "Q2"; cell 0 (-80) "-80"];
      [cell 0 0 "Q1"; cell 0 5 "5"] ]
    true true.
(** Two dimensions, with a second row for Q1 and East. *)
Definition repeated : list (list Cell.t) :=
  [ [cell 0 0 "Q1"; cell 0 0 "East"; cell 0 100 "100"];
    [cell 0 0 "Q1"; cell 1 0 "West"; cell 0 50 "50"];
    [cell 0 0 "Q1"; cell 0 0 "East"; cell 0 999 "999"] ].
End Sample.
End Host.

(** * Axis and legend labels: the trimming loops of [updateBars] *)

Module LabelTrimmer.
Import JsNum TextFitter.

(** The variables [text] and [textLength] of the callback, and the
    content of the text element [self]. *)
Record trimState : Type := mkTrim {
  text : jsstring;
  content : jsstring;
  textLength : jsnum
}.

Section trimming.
Variable m : metrics.
Variable maxWidth : jsnum.

(** The [while] loop that [updateBars] runs on every tick label and on
    every legend label.  Every pass shortens [text], so [length text]
    passes are enough. *)
Fixpoint trimLoop (fuel : nat) (st : trimState) : trimState :=
  match fuel with
  | O => st
  | S fuel' =>
      if gt (textLength st) maxWidth && (0 <? length (text st))%nat then
        let text' := sliceLast (text st) in
        let content' := text' ++ ellipsis in
        trimLoop fuel' (mkTrim text' content'
                               (computedTextLength m content'))
      else st
  end.

(** The content of a text element that held [label], after the
    callback. *)
Definition trimLabel (label : jsstring) : jsstring :=
  content (trimLoop (length label)
                    (mkTrim label label (computedTextLength m label))).
End trimming.
End LabelTrimmer.

(** A vertical chart with bands of 60 pixels. *)
Module TextSample.
Import JsNum TextFitter.
Definition regular : view :=
  mkView Vertical false HCenter VCenter (Fin 2) (Fin 2) true (Fin (1 # 5))
         DimMeasure TotMeasure 2 false (λ v, mul v (Fin 3)) (λ _, Fin 40)
         (Fin 60).
Definition nothing : Datum.t :=
  Datum.mk (str "Q1") (Some (str "East")) (Fin 0) (Some (str "0.0"))
           None (Fin 0) NaN NaN.
End TextSample.

(** * LayoutEngine: margins and legend box of [initChart] *)

Module LayoutEngine.
Import JsNum.

(** [labelTitleD], [labelTitleM]: 'B', 'L', 'T' or 'N'; [axisMarginD],
    [axisMarginM], [legendSize], [legendSpacing]: 'W', 'M' or 'N';
    [legendPosition]: 'T', 'R', 'B' or 'L'. *)
Inductive labelTitle : Type := TitleBoth | TitleLabels | TitleTitles | TitleNone.
Inductive sizeOption : Type := Wide | Medium | Narrow.
Inductive legendSide : Type := LegendTop | LegendRight | LegendBottom | LegendLeft.

(** [g.width] and [g.height]: not there, a number, or a string (the
    resize watch stores the halves of a string). *)
Inductive extent : Type :=
  | ExtentUndefined
  | ExtentNumber (x : jsnum)
  | ExtentText (s : jsstring).

Record settings : Type := mkSettings {
  vertical : bool;
  labelTitleD : labelTitle;
  labelTitleM : labelTitle;
  axisMarginD : sizeOption;
  axisMarginM : sizeOption;
  width : extent;
  height : extent;
  showLegend : bool;
  legendPosition : legendSide;
  legendSize : sizeOption;
  legendSpacing : sizeOption
}.

(** The fields of [g.lgn] that are set when the legend is used. *)
Record legendBox : Type := mkLegend {
  use : legendSide;
  lgnWidth : jsnum;
  lgnHeight : jsnum;
  lgnX : jsnum;
  lgnY : jsnum;
  txtWidth : jsnum
}.

(** [g.xAxisHeight], [g.yAxisWidth], the locals [margin], [innerWidth]
    and [innerHeight] after the adjustment for the legend, and [g.lgn]
    ([None] when [g.lgn.use] is the empty string). *)
Record frame : Type := mkFrame {
  xAxisHeight : jsnum;
  yAxisWidth : jsnum;
  marginTop : jsnum;
  marginRight : jsnum;
  marginBottom : jsnum;
  marginLeft : jsnum;
  innerWidth : jsnum;
  innerHeight : jsnum;
  lgn : option legendBox
}.

(** [[a, b, c]["WMN".indexOf(s)]] *)
Definition pick (a b c : Q) (s : sizeOption) : jsnum :=
  match s with Wide => Fin a | Medium => Fin b | Narrow => Fin c end.

(** ["WMN".indexOf(s)] *)
Definition sizeIndex (s : sizeOption) : jsnum :=
  match s with Wide => Fin 0 | Medium => Fin 1 | Narrow => Fin 2 end.

Definition showsLabels (t : labelTitle) : bool :=
  match t with TitleBoth | TitleLabels => true | _ => false end.
Definition showsTitle (t : labelTitle) : bool :=
  match t with TitleBoth | TitleTitles => true | _ => false end.

Definition txtOff : jsnum := Fin 17.
Definition itmHeight : jsnum := Fin 20.

Section frame.
(** The conversion of a string to a number, as subtraction applies
    it. *)
Variable toNumber : jsstring → jsnum.

(** [(!x || x === "undefined" ? 0 : x)] as the subtraction that follows
    reads it. *)
Definition extentValue (x : extent) : jsnum :=
  match x with
  | ExtentUndefined => zero
  | ExtentNumber n => if ScaleBuilder.truthy n then n else zero
  | ExtentText s =>
      if decide (s = [] ∨ s = str "undefined") then zero else toNumber s
  end.

(** The first part of [initChart]: the margins, the inner size and the
    adjustment for the legend. *)
Definition layoutFrame (g : settings) : frame :=
  let xLabelTitle := if vertical g then labelTitleD g else labelTitleM g in
  let xAxisHeight :=
    if showsLabels xLabelTitle
    then pick 70 40 25 (if vertical g then axisMarginD g else axisMarginM g)
    else zero in
  let xTitleHeight := if showsTitle xLabelTitle then Fin 20 else zero in
  let xAxisPad := Fin 20 in
  let yLabelTitle := if vertical g then labelTitleM g else labelTitleD g in
  let yAxisWidth :=
    if showsLabels yLabelTitle
    then pick 90 50 30 (if vertical g then axisMarginM g else axisMarginD g)
    else zero in
  let yTitleWidth := if showsTitle yLabelTitle then Fin 20 else zero in
  let yAxisPad := Fin 20 in
  let top := Fin 10 in
  let right := xAxisPad in
  let bottom := add (add xAxisHeight xTitleHeight) xAxisPad in
  let left := add (add yAxisWidth yTitleWidth) yAxisPad in
  let innerWidth := sub (sub (extentValue (width g)) left) right in
  let innerHeight := sub (sub (extentValue (height g)) top) bottom in
  let plain :=
    mkFrame xAxisHeight yAxisWidth top right bottom left
            innerWidth innerHeight None in
  if showLegend g then
    match legendPosition g with
    | LegendLeft | LegendRight =>
        if le innerWidth (Fin 200) then plain
        else
          let lgnWidth := div innerWidth (pick 4 6 10 (legendSize g)) in
          let innerWidth' := sub innerWidth (add lgnWidth yAxisPad) in
          let lgnHeight := add (add innerHeight xAxisHeight) xTitleHeight in
          let lgnY := top in
          let txtWidth := sub (sub (sub lgnWidth zero) (Fin 5)) (Fin 12) in
          match legendPosition g with
          | LegendLeft =>
              let lgnX := yAxisPad in
              mkFrame xAxisHeight yAxisWidth top right bottom
                      (add left (add lgnWidth lgnX))
                      innerWidth' innerHeight
                      (Some (mkLegend LegendLeft lgnWidth lgnHeight lgnX lgnY
                                      txtWidth))
          | _ =>
              let lgnX := add (add left innerWidth') yAxisPad in
              mkFrame xAxisHeight yAxisWidth top right bottom left
                      innerWidth' innerHeight
                      (Some (mkLegend LegendRight lgnWidth lgnHeight lgnX lgnY
                                      txtWidth))
          end
    | LegendTop | LegendBottom =>
        if le innerHeight (Fin 100) then plain
        else
          let lgnWidth := add (add innerWidth yAxisWidth) yTitleWidth in
          let lgnHeight :=
            mul itmHeight (sub (Fin 3) (sizeIndex (legendSize g))) in
          let innerHeight' := sub innerHeight lgnHeight in
          let lgnX := yAxisPad in
          let txtWidth := pick 100 75 50 (legendSpacing g) in
          match legendPosition g with
          | LegendTop =>
              mkFrame xAxisHeight yAxisWidth (add top lgnHeight) right bottom
                      left innerWidth innerHeight'
                      (Some (mkLegend LegendTop lgnWidth lgnHeight lgnX top
                                      txtWidth))
          | _ =>
              mkFrame xAxisHeight yAxisWidth top right bottom left
                      innerWidth (sub innerHeight' (Fin 10))
                      (Some (mkLegend LegendBottom lgnWidth lgnHeight lgnX
                                      (add bottom innerHeight') txtWidth))
          end
    end
  else plain.
End frame.

(** ** Vocabulary of the properties *)

(** What the legend takes to the right of the plot and below it: its
    width and the pad of 20 for a legend on the right, its height and
    the 10 pixels taken from the plot for a legend at the bottom. *)
Definition rightOfPlot (f : frame) : jsnum :=
  match lgn f with
  | Some lg =>
      match use lg with
      | LegendRight => add (Fin 20) (lgnWidth lg)
      | _ => zero
      end
  | None => zero
  end.

Definition belowPlot (f : frame) : jsnum :=
  match lgn f with
  | Some lg =>
      match use lg with
      | LegendBottom => add (lgnHeight lg) (Fin 10)
      | _ => zero
      end
  | None => zero
  end.

Definition isSide (p : legendSide) : bool :=
  match p with LegendLeft | LegendRight => true | _ => false end.

(** A chart of 640 by 480 pixels with a legend on the right. *)
Module Sample.
Definition wide : settings :=
  mkSettings true TitleBoth TitleBoth Medium Medium
             (ExtentNumber (Fin 640)) (ExtentNumber (Fin 480))
             true LegendRight Medium Medium.
Definition noText (s : jsstring) : jsnum := NaN.
End Sample.
End LayoutEngine.

(** * The text color on a bar: [txtColor] *)

Module TextColor.
Import JsNum.

(** White space and line terminators, which [parseInt] skips at the
    start of the string. *)
Definition isWhiteSpace (c : N) : bool :=
  bool_decide (c ∈ [9; 10; 11; 12; 13; 32; 160; 5760; 8192; 8193; 8194;
                    8195; 8196; 8197; 8198; 8199; 8200; 8201; 8202; 8232;
                    8233; 8239; 8287; 12288; 65279]%N).

Fixpoint skipWhiteSpace (s : jsstring) : jsstring :=
  match s with
  | c :: s' => if isWhiteSpace c then skipWhiteSpace s' else s
  | [] => []
  end.

(** The value of a digit of radix 16. *)
Definition hexDigit (c : N) : option Z :=
  if (48 <=? c)%N && (c <=? 57)%N then Some (Z.of_N c - 48)
  else if (97 <=? c)%N && (c <=? 102)%N then Some (Z.of_N c - 87)
  else if (65 <=? c)%N && (c <=? 70)%N then Some (Z.of_N c - 55)
  else None.

(** The value of the longest prefix of [s] made of digits, after the
    digits of value [acc]; [None] if there is no digit at all. *)
Fixpoint hexDigits (s : jsstring) (acc : option Z) : option Z :=
  match s with
  | c :: s' =>
      match hexDigit c with
      | Some d => hexDigits s' (Some (16 * default 0 acc + d))
      | None => acc
      end
  | [] => acc
  end.

(** [parseInt(s, 16)] for a string [s]. *)
Definition parseInt16 (s : jsstring) : jsnum :=
  let s1 := skipWhiteSpace s in
  let signed :=
    match s1 with
    | 45%N :: t => (-1, t)
    | 43%N :: t => (1, t)
    | _ => (1, s1)
    end in
  let s3 :=
    match signed.2 with
    | 48%N :: 120%N :: t => t
    | 48%N :: 88%N :: t => t
    | s2 => s2
    end in
  match hexDigits s3 None with
  | Some v => Fin (inject_Z (signed.1 * v))
  | None => NaN
  end.

(** [s.substr(start, length)] for [start] from 0 on. *)
Definition substr (start length : nat) (s : jsstring) : jsstring :=
  take length (drop start s).

Definition black : jsstring := str "black".
Definition white : jsstring := str "white".

(** [txtColor(hexcolor)] *)
Definition txtColor (hexcolor : jsstring) : jsstring :=
  let r := parseInt16 (substr 1 2 hexcolor) in
  let g := parseInt16 (substr 3 2 hexcolor) in
  let b := parseInt16 (substr 5 2 hexcolor) in
  let yiq :=
    div (add (add (mul r (Fin 299)) (mul g (Fin 587))) (mul b (Fin 114)))
        (Fin 1000) in
  if ge yiq (Fin 160) then black else white.

(** ** Vocabulary of the properties *)

(** The color [#rrggbb] of three bytes, with the digits a to f in lower
    or in upper case. *)
Definition hexChar (upper : bool) (d : Z) : N :=
  if d <? 10 then Z.to_N (d + 48)
  else if upper then Z.to_N (d + 55) else Z.to_N (d + 87).

Definition hexByte (upper : bool) (v : Z) : jsstring :=
  [hexChar upper (v / 16); hexChar upper (v mod 16)].

Definition hexColor (upper : bool) (r g b : Z) : jsstring :=
  35%N :: hexByte upper r ++ hexByte upper g ++ hexByte upper b.

(** [x] is the integer [v]. *)
Definition isInteger (x : jsnum) (v : Z) : bool :=
  match x with
  | Fin (n # d) => (n =? v) && (d =? 1)%positive
  | _ => false
  end.
End TextColor.

(** * The color schemas: [colorSchemas.js] *)

Module ColorSchemas.
Import DataShaper.

(** A schema: [{label, component, value, colors}].  The default schema
    has no label; [colors] is [undefined] for a pyramid without a
    scale. *)
Record schema : Type := mkSchema {
  label : jsval;
  colors : option (list jsstring)
}.

(** A palette of the theme: [{type, name, scale}], where [scale] is a
    list of lists of colors for the type 'pyramid' and a list of colors
    for the type 'row'. *)
Inductive palette : Type :=
  | Pyramid (name : jsval) (scale : list (list jsstring))
  | Row (name : jsval) (scale : list jsstring)
  | Other (type : jsstring) (name : jsval).

Definition defaultColorSchema : schema :=
  mkSchema None (Some [str "#999999"; str "#333333"]).

(** The callbacks of [filter] and [map] in [updateColorSchemas]. *)
Definition usable (p : palette) : bool :=
  match p with Pyramid _ _ | Row _ _ => true | Other _ _ => false end.

Definition schemaOf (p : palette) : schema :=
  match p with
  | Pyramid name scale => mkSchema name (last scale)
  | Row name scale => mkSchema name (Some scale)
  | Other _ name => mkSchema name (Some [])
  end.

(** The value [updateColorSchemas] stores in [colorSchemas], for the
    palettes of the applied theme. *)
Definition updateColorSchemas (data : list palette) : list schema :=
  schemaOf <$> filter (λ p, usable p = true) data.

(** [Array.prototype.find] *)
Fixpoint arrayFind {A} (f : A → bool) (l : list A) : option A :=
  match l with
  | [] => None
  | x :: l' => if f x then Some x else arrayFind f l'
  end.

(** [getDefaultColorSchema] and [getColorSchemaByName], for the value
    [colorSchemas] of the module variable. *)
Definition getDefaultColorSchema (colorSchemas : list schema) : schema :=
  default defaultColorSchema (head colorSchemas).

Definition getColorSchemaByName (colorSchemas : list schema) (name : jsval)
    : schema :=
  default (getDefaultColorSchema colorSchemas)
          (arrayFind (λ s, bool_decide (label s = name)) colorSchemas).

(** ** Vocabulary of the property *)

Definition paletteName (p : palette) : jsval :=
  match p with Pyramid n _ | Row n _ | Other _ n => n end.
End ColorSchemas.

(** * NumAbbrev: [overrideD3FormatPrefix] of [src/numerical-abbrevation.js] *)

Module NumAbbrev.
Import JsNum DataShaper.

(** [String.prototype.split] with a separator of one code unit. *)
Fixpoint split (sep : N) (s : jsstring) : list jsstring :=
  match s with
  | [] => [[]]
  | c :: s' =>
      if (c =? sep)%N then [] :: split sep s'
      else match split sep s' with
           | w :: ws => (c :: w) :: ws
           | [] => [[c]]
           end
  end.

(** [x % y]: the remainder has the sign of [x]. *)
Definition trunc (q : Q) : Z := Z.quot (Qnum q) (Z.pos (Qden q)).

Definition rem (x y : jsnum) : jsnum :=
  match x, y with
  | NaN, _ | _, NaN => NaN
  | (PInf | NInf), _ => NaN
  | Fin a, (PInf | NInf) => Fin a
  | Fin a, Fin b =>
      if Qeq_bool b 0 then NaN
      else Fin (a - b * inject_Z (trunc (a / b)))
  end.

(** An entry of [d3NumAbs]: [{scale, symbol}].  [scale] is the identity
    or multiplies by [Math.pow(10, exponent)]. *)
Inductive scaleFn : Type :=
  | Identity
  | TimesPow10 (exponent : jsnum).

Record abbreviation : Type := mkAbb {
  scale : scaleFn;
  symbol : jsstring
}.

(** The object [d3NumAbs].  Its property names are numbers turned into
    strings, so two keys are one property when they are the same
    number. *)
Definition dict : Type := list (jsnum * abbreviation).

(** [d3NumAbs[key]], [undefined] when [!(key in d3NumAbs)] *)
Fixpoint entry (d : dict) (key : jsnum) : option abbreviation :=
  match d with
  | [] => None
  | (k, u) :: d' => if sameb k key then Some u else entry d' key
  end.

(** [d3NumAbs[key] = u] *)
Fixpoint assign (d : dict) (key : jsnum) (u : abbreviation) : dict :=
  match d with
  | [] => [(key, u)]
  | (k, u') :: d' =>
      if sameb k key then (k, u) :: d' else (k, u') :: assign d' key u
  end.

(** The state of the module and of the library: [overriddenAbbsStr], and
    the table of [d3.formatPrefix] once it is overridden. *)
Record state : Type := mkState {
  overriddenAbbsStr : jsstring;
  formatPrefixTable : option dict
}.

Definition initial : state := mkState [] None.

(** [precision += precision < 0 ? 3 : -3] *)
Definition step (precision : jsnum) : jsnum :=
  add precision (if lt precision zero then Fin 3 else Fin (-3)).

(** The [while] loop of [d3.formatPrefix] and the [return] after it.
    The loop has no bound: [Diverge] for every [fuel] is a call that
    does not return. *)
Fixpoint seek (fuel : nat) (d : dict) (precision : jsnum)
    : outcome (option abbreviation) :=
  match fuel with
  | O => Diverge
  | S fuel' =>
      match entry d precision with
      | Some u => Ret (Some u)
      | None => seek fuel' d (step precision)
      end
  end.

(** [!precision] for an argument that is a number or is left out. *)
Definition noPrecision (precision : option jsnum) : bool :=
  match precision with
  | None => true
  | Some p => negb (ScaleBuilder.truthy p)
  end.

Section override.
(** The conversion of a string to a number, and the exponent
    [Math.floor(Math.log10(q))] of a positive number as the engine
    computes it. *)
Variable toNumber : jsstring → jsnum.
Variable ilog10 : Q → Z.

(** The callback of [qlikNumAbbs.forEach]; 58 is the colon. *)
Definition addPair (d : dict) (pairStr : jsstring) : dict :=
  match split 58 pairStr with
  | [p0; p1] =>
      match toNumber p0 with
      | NaN => d
      | precision => assign d precision (mkAbb (TimesPow10 (neg precision)) p1)
      end
  | _ => d
  end.

(** The dictionary built from [qlikNumAbbsStr]; 59 is the semicolon. *)
Definition d3NumAbs (qlikNumAbbsStr : jsstring) : dict :=
  foldl addPair [(zero, mkAbb Identity [])] (split 59 qlikNumAbbsStr).

Definition overrideD3FormatPrefix (qlikNumAbbsStr : jsval) (st : state)
    : state :=
  match qlikNumAbbsStr with
  | None => st
  | Some s =>
      if decide (s = [] ∨ s = overriddenAbbsStr st) then st
      else mkState s (Some (d3NumAbs s))
  end.

(** [Math.floor(Math.log10(value))] *)
Definition floorLog10 (value : jsnum) : jsnum :=
  match value with
  | Fin q =>
      match (q ?= 0)%Q with
      | Gt => Fin (inject_Z (ilog10 q))
      | Eq => NInf
      | Lt => NaN
      end
  | PInf => PInf
  | NInf | NaN => NaN
  end.

(** The function assigned to [d3.formatPrefix], for the table [d]. *)
Definition formatPrefix (fuel : nat) (d : dict) (value : jsnum)
    (precision : option jsnum) : outcome (option abbreviation) :=
  if noPrecision precision then
    if negb (ScaleBuilder.truthy value) then Ret (entry d zero)
    else
      let log10 := floorLog10 value in
      let rest := rem log10 (Fin 3) in
      seek fuel d (sub log10 rest)
  else seek fuel d (default NaN precision).
End override.

(** ** Vocabulary of the properties *)

(** The exponent [3 * j]. *)
Definition thousands (j : Z) : jsnum := Fin (inject_Z (3 * j)).

(** [j] lies between 0 and [k], [k] included. *)
Definition towardsZero (k j : Z) : Prop := 0 ≤ j ≤ k ∨ k ≤ j ≤ 0.

(** [i] lies between [j] and [k], further from zero than [j]. *)
Definition beyond (k j i : Z) : Prop := j < i ≤ k ∨ k ≤ i < j.

Module Sample.
(** Decimal integers with an optional sign; [NaN] for the rest. *)
Fixpoint digits (acc : Z) (s : jsstring) : jsnum :=
  match s with
  | [] => Fin (inject_Z acc)
  | c :: s' =>
      if ((48 <=? c) && (c <=? 57))%N
      then digits (10 * acc + Z.of_N (c - 48)) s'
      else NaN
  end.

Definition toNumber (s : jsstring) : jsnum :=
  match s with
  | [] => Fin 0
  | [45%N] => NaN
  | 45%N :: s' => neg (digits 0 s')
  | _ => digits 0 s
  end.

(** The exponent of a number that is at least 1. *)
Definition ilog10 (q : Q) : Z :=
  match Qnum q / Z.pos (Qden q) with
  | Z.pos p => Z.of_nat (Decimal.nb_digits (Pos.to_uint p)) - 1
  | _ => 0
  end.

Definition abbreviations : jsstring := str "3:k;6:M;9:G;-3:m;-6:u".
End Sample.
End NumAbbrev.

(** * The scale domain when values are not numbers *)

Module ScaleDomain.
Import JsNum DataShaper ScaleBuilder.

(** A value that is a number: any but [NaN]. *)
Definition isNumber (x : jsnum) : bool :=
  match x with NaN => false | _ => true end.

(** The numbers of a list. *)
Definition numbers (l : list jsnum) : list jsnum :=
  filter (λ x, isNumber x = true) l.

(** The greatest and the least number of a list; [None] if the list
    holds no number. *)
Definition greatest (l : list jsnum) : option jsnum :=
  match numbers l with
  | [] => None
  | x :: l' => Some (maximum x l')
  end.

Definition least (l : list jsnum) : option jsnum :=
  match numbers l with
  | [] => None
  | x :: l' => Some (minimum x l')
  end.

(** max(0, positive stack top, every point offset that is a number) of
    a group whose positive stack top is a number, and [NaN] for a group
    whose top is not; and the counterpart for the negative top. *)
Definition numberTop (d : Group.t) : jsnum :=
  if isNumber (Group.offsetPos d)
  then maximum zero
         (Group.offsetPos d :: numbers (Point.offset <$> pointsOf d))
  else NaN.

Definition numberBottom (d : Group.t) : jsnum :=
  if isNumber (Group.offsetNeg d)
  then minimum zero
         (Group.offsetNeg d :: numbers (Point.offset <$> pointsOf d))
  else NaN.

(** A group whose stack tops and offsets are all numbers. *)
Definition numberGroup (d : Group.t) : Prop :=
  isNumber (Group.offsetPos d) = true ∧ isNumber (Group.offsetNeg d) = true
  ∧ Forall (λ pt, isNumber (Point.offset pt) = true) (pointsOf d).

(** [m] is the best number of [l] for a strict order [strictly]: it is
    one of the numbers of [l], and no number of [l] is strictly better
    than it. *)
Definition isBest (strictly : jsnum → jsnum → bool) (m : jsnum)
    (l : list jsnum) : Prop :=
  isNumber m = true
  ∧ (∃ x, x ∈ l ∧ m ≈ x)
  ∧ ∀ x, x ∈ l → isNumber x = true → strictly x m = false.

Module Sample.
(** One dimension and one measure; the measure of the second row is not
    a number. *)
Definition gapRows : list (list Cell.t) :=
  [ [Cell.mk 0 (Fin 0) (str "A"); Cell.mk 0 (Fin 5) (str "5")];
    [Cell.mk 1 (Fin 0) (str "B"); Cell.mk 0 NaN (str "-")] ].
Definition gapChart : chart :=
  mkChart 1 1 [] gapRows false false 0 [] [] [] [] [].
(** A group of the one-dimensional kind whose value is not a number. *)
Definition q3 : Group.t := Group.mk (str "Q3") NaN (Fin 0) None.
End Sample.
End ScaleDomain.

(** * The percent text of a normalized value *)

Module PercentText.
Import JsNum DataShaper.

(** Two parts of the percent format below.  The decimal digits of a
    natural number, the last digit first put in front of [acc]; the
    number has fewer digits than bits, which bounds the recursion. *)
Fixpoint digitsFrom (fuel : nat) (n : Z) (acc : jsstring) : jsstring :=
  match fuel with
  | O => acc
  | S fuel' =>
      let acc' := Z.to_N (48 + n mod 10) :: acc in
      if n <? 10 then acc' else digitsFrom fuel' (n / 10) acc'
  end.

Definition decimal (n : Z) : jsstring :=
  digitsFrom (S (Z.to_nat (Z.log2 n))) n [].

(** The size of [q] in thousandths, rounded to the nearest integer, a
    tie upwards. *)
Definition thousandths (q : Q) : Z :=
  (2000 * Z.abs (Qnum q) + Z.pos (Qden q)) / (2 * Z.pos (Qden q)).

(** Modelled from the spec: [d3.format(".1%")], the function that
    [initData] applies to a normalized value; the d3 library is not
    among the sources.  The spec has it format a percentage display
    string with 1 decimal place, as in 37.4%: the number times 100 with
    one digit after the point and the percent sign.  The rounding is
    that of [toFixed(1)], to the nearest tenth and away from zero at a
    tie, with the minus sign of a negative number kept; a value that is
    not finite prints its name. *)
Definition format (x : jsnum) : jsstring :=
  match x with
  | Fin q =>
      let n := thousandths q in
      (match (q ?= 0)%Q with Lt => [45%N] | _ => [] end)
      ++ decimal (n / 10) ++ [46%N] ++ decimal (n mod 10) ++ [37%N]
  | PInf => str "Infinity%"
  | NInf => str "-Infinity%"
  | NaN => str "NaN%"
  end.

(** ** Vocabulary of the property: reading a percent text back *)

Definition digitValue (c : N) : option Z :=
  if ((48 <=? c) && (c <=? 57))%N then Some (Z.of_N c - 48) else None.

(** The number written by the digits at the start of [s], after digits
    of value [acc], and the rest of [s]. *)
Fixpoint readDigits (s : jsstring) (acc : Z) : Z * jsstring :=
  match s with
  | c :: s' =>
      match digitValue c with
      | Some d => readDigits s' (10 * acc + d)
      | None => (acc, s)
      end
  | [] => (acc, [])
  end.

(** The fraction that a percent text with one decimal stands for:
    -12.3% is -123/1000.  [None] for a text of another shape. *)
Definition parse (s : jsstring) : option Q :=
  let signed :=
    match s with
    | c :: t => if (c =? 45)%N then (-1, t) else (1, s)
    | [] => (1, s)
    end in
  let whole := readDigits signed.2 0 in
  match whole.2 with
  | [46%N; f; 37%N] =>
      match digitValue f with
      | Some d => Some ((signed.1 * (10 * whole.1 + d)) # 1000)
      | None => None
      end
  | _ => None
  end.

(** A text with one decimal place and the percent sign: it ends with a
    point, one digit and the percent sign, after at least one digit. *)
Definition oneDecimal (s : jsstring) : Prop :=
  ∃ sign whole f,
    s = sign ++ whole ++ [46%N; f; 37%N]
    ∧ (sign = [] ∨ sign = [45%N])
    ∧ whole ≠ [] ∧ Forall (λ c, is_Some (digitValue c)) whole
    ∧ is_Some (digitValue f).

(** The values of a sign sum to one (in size) in a group whose stack
    top of that sign is a finite number other than zero. *)
Definition finiteUnitSums (grp : Group.t) : Prop :=
  (∀ t, Group.offsetPos grp = Fin t → ¬ (t == 0)%Q →
        sumNum (filter nonNegative (Point.qNum <$> pointsOf grp)) ≈ one)
  ∧ (∀ t, Group.offsetNeg grp = Fin t → ¬ (t == 0)%Q →
          sumNum (filter negative (Point.qNum <$> pointsOf grp))
          ≈ neg one).

(** A value that is a finite number lies between -1 and 1. *)
Definition fraction (pt : Point.t) : Prop :=
  ∀ x, Point.qNum pt = Fin x → (-1 <= x <= 1)%Q.

(** The percent text of a point reads back as its value, to half a
    thousandth. *)
Definition readsBack (pt : Point.t) : Prop :=
  ∀ x, Point.qNum pt = Fin x →
    ∃ txt p, Point.qTextPct pt = Some txt
      ∧ oneDecimal txt
      ∧ parse txt = Some p
      ∧ (x - (1 # 2000) <= p <= x + (1 # 2000))%Q.

Module Sample.
(** The chart object after [initData] with the percent format ([g]
    itself if the call throws). *)
Definition shaped (g : chart) : chart :=
  match initData format g with
  | Ret g' => g'
  | _ => g
  end.
End Sample.
End PercentText.

(** * Series and slots *)

Module SeriesSlots.
Import JsNum DataShaper.

(** The series of the points of a group, slot by slot. *)
Definition seriesOf (grp : Group.t) : list jsstring :=
  Point.dim2 <$> pointsOf grp.

(** Two groups whose slots hold the same series as far as both have
    slots: the series of one are the first series of the other. *)
Definition alignedSeries (prev cur : Group.t) : Prop :=
  seriesOf prev `prefix_of` seriesOf cur
  ∨ seriesOf cur `prefix_of` seriesOf prev.

#[global] Instance alignedSeries_dec prev cur :
  Decision (alignedSeries prev cur).
Proof. unfold alignedSeries. apply _. Defined.
End SeriesSlots.

(** * Facts about [indexOf] *)

Section indexOf_facts.
Context {A : Type} `{EqDecision A}.

Lemma indexOfFrom_elem (x : A) (l : list A) (z : Z) :
  x ∈ l →
  ∃ k : nat, indexOfFrom x l z = z + Z.of_nat k ∧ l !! k = Some x
             ∧ ∀ j : nat, (j < k)%nat → l !! j ≠ Some x.
Proof.
  revert z. induction l as [|y l IH]; intros z Hin.
  - by apply elem_of_nil in Hin.
  - simpl. destruct (decide (y = x)) as [->|Hne].
    + exists 0%nat. split; [lia|]. split; [done|]. intros j Hj. lia.
    + apply elem_of_cons in Hin as [->|Hin]; [done|].
      destruct (IH (z + 1) Hin) as (k & Hk & Hlk & Hfirst).
      exists (S k). split; [lia|]. split; [done|].
      intros [|j] Hj; simpl; [congruence|]. apply Hfirst. lia.
Qed.

Lemma indexOfFrom_not_elem (x : A) (l : list A) (z : Z) :
  x ∉ l → indexOfFrom x l z = -1.
Proof.
  revert z. induction l as [|y l IH]; intros z Hin; [done|].
  simpl. apply not_elem_of_cons in Hin as [Hne Hin].
  destruct (decide (y = x)); [congruence|]. by apply IH.
Qed.

Lemma indexOf_elem (x : A) (l : list A) :
  x ∈ l → ∃ k : nat, indexOf x l = Z.of_nat k ∧ l !! k = Some x.
Proof.
  intros Hin. destruct (indexOfFrom_elem x l 0 Hin) as (k & Hk & Hl & _).
  exists k. split; [|done]. unfold indexOf. lia.
Qed.

Lemma indexOf_first (x : A) (l : list A) (k : nat) :
  indexOf x l = Z.of_nat k →
  l !! k = Some x ∧ ∀ j : nat, (j < k)%nat → l !! j ≠ Some x.
Proof.
  intros Hk. destruct (decide (x ∈ l)) as [Hin|Hin].
  - destruct (indexOfFrom_elem x l 0 Hin) as (k' & Hk' & Hl & Hf).
    unfold indexOf in Hk. assert (k' = k) as -> by lia. done.
  - unfold indexOf in Hk. rewrite indexOfFrom_not_elem in Hk by done. lia.
Qed.

Lemma indexOf_NoDup (l : list A) (k : nat) (x : A) :
  NoDup l → l !! k = Some x → indexOf x l = Z.of_nat k.
Proof.
  intros Hnd Hk.
  destruct (indexOf_elem x l) as (k' & Hk' & Hl);
    [by eapply list_elem_of_lookup_2|].
  rewrite Hk'. f_equal. by eapply NoDup_lookup.
Qed.
End indexOf_facts.

(** * Facts about [toposort] *)

Lemma NoDup_incl_length {B} (l k : list B) :
  NoDup l → (∀ x, x ∈ l → x ∈ k) → (length l ≤ length k)%nat.
Proof. intros Hnd Hsub. by apply submseteq_length, NoDup_submseteq. Qed.

Lemma NoDup_bounded_length (l : list nat) (n : nat) :
  NoDup l → (∀ j, j ∈ l → (j < n)%nat) → (length l ≤ n)%nat.
Proof.
  intros Hnd Hlt. trans (length (seq 0 n)); [|by rewrite length_seq].
  apply NoDup_incl_length; [done|].
  intros j Hj. apply elem_of_seq. specialize (Hlt j Hj). lia.
Qed.

Section toposort_facts.
Context {A : Type} `{EqDecision A}.
Import Toposort.
Variables (nodes : list A) (edges : list (A * A)).
Implicit Types (s : tstate A) (stk pth : list nat).

Lemma visitEach_no_diverge (vis : A → tstate A → outcome (tstate A)) l s :
  (∀ e s', e ∈ l → vis e.2 s' ≠ Diverge) → visitEach vis l s ≠ Diverge.
Proof.
  revert s. induction l as [|e l IH]; intros s Hv; simpl; [done|].
  destruct (vis e.2 s) eqn:E; simpl.
  - apply IH. intros e' s' He'. apply Hv. by right.
  - done.
  - exfalso. eapply Hv; [|exact E]. by left.
Qed.

(** The recursion never runs out of fuel: the predecessors are distinct
    sources of edges, so the depth is bounded by the number of edges. *)
Lemma visit_fuel fuel node i preds s :
  NoDup preds → (∀ p, p ∈ preds → p ∈ edges.*1) →
  (length edges < fuel + length preds)%nat →
  visit fuel nodes edges node i preds s ≠ Diverge.
Proof.
  revert node i preds s.
  induction fuel as [|fuel IH]; intros node i preds s Hnd Hsub Hlt.
  - exfalso. pose proof (NoDup_incl_length preds (edges.*1) Hnd Hsub) as Hle.
    rewrite length_fmap in Hle. lia.
  - simpl. destruct (decide (node ∈ preds)); [done|].
    destruct (decide (i ∈ visited s)); [done|].
    match goal with |- obind ?m _ ≠ _ => assert (m ≠ Diverge) as Hm end.
    { apply visitEach_no_diverge. intros e s' He. apply IH.
      - apply NoDup_app. split; [done|]. split; [|apply NoDup_singleton].
        intros x Hx Hx'. apply list_elem_of_singleton in Hx'. by subst.
      - intros p Hp. apply elem_of_app in Hp as [Hp|Hp]; [by apply Hsub|].
        apply list_elem_of_singleton in Hp as ->.
        apply elem_of_reverse, list_elem_of_filter in He as [He1 He2].
        apply list_elem_of_fmap. by exists e.
      - rewrite length_app. simpl. lia. }
    destruct (visitEach _ _ _); simpl; done.
Qed.

Lemma visitRoots_fuel fuel l s :
  (length edges < fuel)%nat →
  visitRoots fuel nodes edges l s ≠ Diverge.
Proof.
  intros Hfuel. revert s. induction l as [|[i node] l IH]; intros s; simpl; [done|].
  destruct (decide (Z.of_nat i ∈ visited s)); [apply IH|].
  destruct (visit _ _ _ _ _ _ _) eqn:E; simpl; [apply IH|done|].
  exfalso. eapply visit_fuel; [| |  |exact E].
  - apply NoDup_nil_2.
  - intros p Hp. by apply elem_of_nil in Hp.
  - simpl. lia.
Qed.

(** A thrown error reports a real cycle: the predecessors always form
    a chain of edges ending in the node being visited. *)
Lemma visitEach_throw (vis : A → tstate A → outcome (tstate A)) l s e :
  visitEach vis l s = Throw e →
  ∃ c s', c ∈ l ∧ vis c.2 s' = Throw e.
Proof.
  revert s. induction l as [|c l IH]; intros s; simpl; [done|].
  destruct (vis c.2 s) eqn:E; simpl; intros Hv.
  - destruct (IH _ Hv) as (c' & s' & Hc' & Hv'). exists c', s'. split; [by right|done].
  - inversion Hv; subst. exists c, s. split; [by left|done].
  - done.
Qed.

Lemma visit_throw fuel node i preds s e :
  visit fuel nodes edges node i preds s = Throw e →
  (∀ p, p ∈ preds → tc (edge edges) p node) →
  e = CyclicDependency ∧ cyclic edges.
Proof.
  revert node i preds s.
  induction fuel as [|fuel IH]; intros node i preds s; simpl; [done|].
  destruct (decide (node ∈ preds)) as [Hin|Hnin].
  { intros [= <-] Hch. split; [done|]. exists node. by apply Hch. }
  destruct (decide (i ∈ visited s)); [done|].
  destruct (visitEach _ _ _) eqn:E; simpl; [done| |done].
  intros [= <-] Hch.
  apply visitEach_throw in E as (c & s' & Hc & Hv).
  apply elem_of_reverse, list_elem_of_filter in Hc as [Hc1 Hc2].
  assert (edge edges node c.2) as Hedge.
  { unfold edge. rewrite <-Hc1. by destruct c. }
  eapply IH; [exact Hv|].
  intros p Hp. apply elem_of_app in Hp as [Hp|Hp].
  - eapply tc_r; [by apply Hch|done].
  - apply list_elem_of_singleton in Hp as ->. by apply tc_once.
Qed.

Lemma visitRoots_throw fuel l s e :
  visitRoots fuel nodes edges l s = Throw e →
  e = CyclicDependency ∧ cyclic edges.
Proof.
  revert s. induction l as [|[i node] l IH]; intros s; simpl; [done|].
  destruct (decide (Z.of_nat i ∈ visited s)); [apply IH|].
  destruct (visit _ _ _ _ _ _ _) eqn:E; simpl; [apply IH| |done].
  intros [= <-]. eapply visit_throw; [exact E|].
  intros p Hp. by apply elem_of_nil in Hp.
Qed.
End toposort_facts.

Section toposort_inv.
Context {A : Type} `{EqDecision A}.
Import Toposort.
Variables (nodes : list A) (edges : list (A * A)).
Hypothesis targets_in_nodes : ∀ e, e ∈ edges → e.2 ∈ nodes.
Implicit Types (s : tstate A) (stk pth : list nat).

Local Abbreviation inv := (inv nodes edges).
Local Abbreviation closed := (closed nodes edges).

Lemma inv_initial : inv (initial nodes) [] [].
Proof.
  split; simpl.
  - lia.
  - by rewrite Nat.sub_0_r, app_nil_r.
  - intros z. split; [set_solver|]. intros (j & _ & Hj). by apply elem_of_nil in Hj.
  - apply NoDup_nil_2.
  - intros j Hj. by apply elem_of_nil in Hj.
  - intros l1 j l2 a b Hl. by destruct l1.
Qed.

Lemma inv_mark s stk pth (i : nat) :
  inv s stk pth → Z.of_nat i ∉ visited s → (i < length nodes)%nat →
  inv (mark (Z.of_nat i) s) stk (pth ++ [i]).
Proof.
  intros [Hc Hs Hv Hnd Hr Hcl] Hi Hlt.
  assert (i ∉ stk ++ pth) as Hnin.
  { intros Hin. apply Hi, Hv. by exists i. }
  split; simpl; try done.
  - intros z. rewrite elem_of_union, elem_of_singleton, Hv.
    split.
    + intros [->|(j & -> & Hj)]; [exists i|exists j]; (split; [done|]);
        rewrite !elem_of_app in *; rewrite ?list_elem_of_singleton; tauto.
    + intros (j & -> & Hj). rewrite !elem_of_app, list_elem_of_singleton in Hj.
      destruct Hj as [Hj|[Hj| ->]]; [right|right|by left]; exists j;
        rewrite elem_of_app; tauto.
  - rewrite app_assoc. apply NoDup_app. split; [done|].
    split; [|apply NoDup_singleton].
    intros x Hx Hx'. apply list_elem_of_singleton in Hx'. by subst.
  - intros j. rewrite app_assoc, elem_of_app, list_elem_of_singleton.
    intros [Hj| ->]; [by apply Hr|done].
Qed.

Lemma insert_replicate_hole (m : nat) (x : option A) (vals : list (option A)) :
  <[ m := x ]> (replicate (S m) None ++ vals) = replicate m None ++ x :: vals.
Proof.
  rewrite replicate_S_end, <-app_assoc. simpl.
  rewrite insert_app_r_alt by (rewrite length_replicate; lia).
  rewrite length_replicate, Nat.sub_diag. done.
Qed.

Lemma inv_store s stk pth (i : nat) node :
  inv s stk (pth ++ [i]) → nodes !! i = Some node →
  (∀ b, (node, b) ∈ edges →
        ∃ k : nat, indexOf b nodes = Z.of_nat k ∧ k ∈ stk) →
  inv (store node s) (i :: stk) pth.
Proof.
  intros [Hc Hs Hv Hnd Hr Hcl] Hi Hch.
  assert (length (stk ++ pth ++ [i]) ≤ length nodes)%nat as Hlen
    by (by apply NoDup_bounded_length).
  rewrite !length_app in Hlen. simpl in Hlen.
  assert (∀ j, j ∈ (i :: stk) ++ pth ↔ j ∈ stk ++ pth ++ [i]) as Hmem.
  { intros j. simpl. rewrite elem_of_cons, !elem_of_app, list_elem_of_singleton. tauto. }
  split; simpl.
  - rewrite Hc. lia.
  - rewrite Hc, Hs. destruct (decide _) as [_|Hneg]; [|lia].
    replace (length nodes - length stk)%nat
      with (S (length nodes - S (length stk))) by lia.
    replace (Z.to_nat (Z.of_nat (length nodes) - Z.of_nat (length stk) - 1))
      with (length nodes - S (length stk))%nat by lia.
    rewrite insert_replicate_hole. by rewrite Hi.
  - intros z. rewrite Hv. by setoid_rewrite Hmem.
  - rewrite app_assoc in Hnd. apply NoDup_app in Hnd as (Hn1 & Hdis & _).
    simpl. apply NoDup_cons. split; [|done].
    intros Hin. apply (Hdis i Hin). by left.
  - intros j Hj. apply Hr. by apply Hmem.
  - intros l1 j l2 a b Hl Ha Hab. destruct l1 as [|j' l1]; simpl in Hl.
    + injection Hl as <- <-. rewrite Hi in Ha. injection Ha as <-. by apply Hch.
    + injection Hl as <- ->. by eapply Hcl.
Qed.

Lemma Forall2_path_elem pth (preds : list A) (i : nat) node :
  Forall2 (λ j x, nodes !! j = Some x) pth preds →
  i ∈ pth → nodes !! i = Some node → node ∈ preds.
Proof.
  induction 1 as [|j x pth preds Hjx _ IH]; intros Hin Hi.
  - by apply elem_of_nil in Hin.
  - apply elem_of_cons in Hin as [->|Hin].
    + rewrite Hi in Hjx. injection Hjx as ->. by left.
    + right. by apply IH.
Qed.

Lemma visitEach_ret (vis : A → tstate A → outcome (tstate A)) pth l s stk s2 :
  (∀ c s stk s', c ∈ l → inv s stk pth → vis c.2 s = Ret s' →
       ∃ new (k : nat), inv s' (new ++ stk) pth
                ∧ indexOf c.2 nodes = Z.of_nat k ∧ k ∈ new ++ stk) →
  inv s stk pth → visitEach vis l s = Ret s2 →
  ∃ new, inv s2 (new ++ stk) pth
         ∧ ∀ c, c ∈ l → ∃ k : nat, indexOf c.2 nodes = Z.of_nat k ∧ k ∈ new ++ stk.
Proof.
  revert s stk. induction l as [|c l IH]; intros s stk Hvis Hinv; simpl.
  - intros [= <-]. exists []. split; [done|]. intros c Hc. by apply elem_of_nil in Hc.
  - destruct (vis c.2 s) as [s1| |] eqn:E; simpl; [|done|done]. intros Hrest.
    destruct (Hvis c s stk s1) as (new1 & k & Hinv1 & Hk & Hkin); [by left|done|done|].
    destruct (IH s1 (new1 ++ stk)) as (new2 & Hinv2 & Hall); [|done|done|].
    { intros c' s' stk' s'' Hc'. apply Hvis. by right. }
    exists (new2 ++ new1). rewrite <-app_assoc. split; [done|].
    intros c' Hc'. apply elem_of_cons in Hc' as [->|Hc']; [|by apply Hall].
    exists k. split; [done|]. rewrite elem_of_app. by right.
Qed.

Lemma visit_ret fuel node (i : nat) preds s stk pth s' :
  inv s stk pth → nodes !! i = Some node →
  Forall2 (λ j x, nodes !! j = Some x) pth preds →
  visit fuel nodes edges node (Z.of_nat i) preds s = Ret s' →
  ∃ new, inv s' (new ++ stk) pth ∧ i ∈ new ++ stk.
Proof.
  revert node i preds s stk pth s'.
  induction fuel as [|fuel IH]; intros node i preds s stk pth s' Hinv Hi Hpth;
    simpl; [done|].
  destruct (decide (node ∈ preds)) as [|Hnp]; [done|].
  destruct (decide (Z.of_nat i ∈ visited s)) as [Hv|Hnv].
  - intros [= <-]. exists []. split; [done|]. simpl.
    apply (inv_visited _ _ _ _ _ Hinv) in Hv as (j & Hj & Hin).
    assert (j = i) as -> by lia.
    apply elem_of_app in Hin as [Hin|Hin]; [done|].
    exfalso. apply Hnp. by eapply Forall2_path_elem.
  - destruct (visitEach _ _ _) as [s2| |] eqn:E; simpl; [|done|done].
    intros [= <-].
    assert (i < length nodes)%nat as Hlt by (by eapply lookup_lt_Some).
    pose proof (inv_mark s stk pth i Hinv Hnv Hlt) as Hinv1.
    eapply visitEach_ret in E as (new & Hinv2 & Hall); [| |exact Hinv1].
    + exists (i :: new). split; [|by left].
      simpl. apply inv_store; [done|done|].
      intros b Hb. destruct (Hall (node, b)) as (k & Hk & Hkin); [|by exists k].
      apply elem_of_reverse, list_elem_of_filter. done.
    + intros c s0 stk0 s0' Hc Hinv0 Hvis.
      apply elem_of_reverse, list_elem_of_filter in Hc as [Hc1 Hc2].
      destruct (indexOf_elem c.2 nodes) as (k & Hk & Hlk);
        [by apply targets_in_nodes|].
      rewrite Hk in Hvis.
      eapply IH in Hvis as (new0 & Hinv0' & Hkin); [|done|done|].
      * by exists new0, k.
      * apply Forall2_app; [done|]. by constructor.
Qed.

Lemma visitRoots_ret fuel l s stk s' :
  inv s stk [] → (∀ i node, (i, node) ∈ l → nodes !! i = Some node) →
  visitRoots fuel nodes edges l s = Ret s' →
  ∃ new, inv s' (new ++ stk) []
         ∧ ∀ i node, (i, node) ∈ l → i ∈ new ++ stk.
Proof.
  revert s stk. induction l as [|[i node] l IH]; intros s stk Hinv Hl; simpl.
  - intros [= <-]. exists []. split; [done|]. intros i node Hin. by apply elem_of_nil in Hin.
  - assert (∀ i' node', (i', node') ∈ l → nodes !! i' = Some node') as Hl'.
    { intros i' node' Hin. apply Hl. by right. }
    destruct (decide (Z.of_nat i ∈ visited s)) as [Hv|Hnv].
    + intros Hrest. destruct (IH s stk Hinv Hl' Hrest) as (new & Hinv' & Hall).
      exists new. split; [done|]. intros i' node' Hin.
      apply elem_of_cons in Hin as [[= -> ->]|Hin]; [|by eapply Hall].
      apply (inv_visited _ _ _ _ _ Hinv) in Hv as (j & Hj & Hjin).
      assert (j = i) as -> by lia. rewrite app_nil_r in Hjin.
      rewrite elem_of_app. by right.
    + destruct (visit _ _ _ _ _ _ _) as [s1| |] eqn:E; simpl; [|done|done].
      intros Hrest.
      eapply visit_ret in E as (new1 & Hinv1 & Hin1); [|done|by apply Hl; left|constructor].
      destruct (IH s1 (new1 ++ stk) Hinv1 Hl' Hrest) as (new2 & Hinv2 & Hall).
      exists (new2 ++ new1). rewrite <-app_assoc. split; [done|].
      intros i' node' Hin.
      apply elem_of_cons in Hin as [[= -> ->]|Hin]; [|by eapply Hall].
      rewrite elem_of_app. by right.
Qed.
End toposort_inv.

Lemma indexed_elem {A} `{EqDecision A} (l : list A) (k i : nat) (x : A) :
  (i, x) ∈ zip (seq k (length l)) l ↔ (k ≤ i)%nat ∧ l !! (i - k)%nat = Some x.
Proof.
  revert k. induction l as [|y l IH]; intros k; simpl.
  - rewrite elem_of_nil. split; [done|]. by intros [_ ?].
  - rewrite elem_of_cons, IH. split.
    + intros [[= -> ->]|[Hle Hl]].
      * split; [lia|]. by rewrite Nat.sub_diag.
      * split; [lia|]. replace (i - k)%nat with (S (i - S k)) by lia. done.
    + intros [Hle Hl]. destruct (decide (i = k)) as [->|Hne].
      * left. rewrite Nat.sub_diag in Hl. simpl in Hl. congruence.
      * right. split; [lia|].
        replace (i - k)%nat with (S (i - S k)) in Hl by lia. done.
Qed.

Section toposort_results.
Context {A : Type} `{EqDecision A}.
Import Toposort.
Variables (nodes : list A) (edges : list (A * A)).
Hypothesis targets_in_nodes : ∀ e, e ∈ edges → e.2 ∈ nodes.

Lemma indexed_lookup (i : nat) (x : A) :
  (i, x) ∈ reverse (indexed nodes) ↔ nodes !! i = Some x.
Proof.
  rewrite elem_of_reverse. unfold indexed. rewrite indexed_elem.
  rewrite Nat.sub_0_r. split; [by intros [_ ?]|]. intros ?. split; [lia|done].
Qed.

(** What a normal return of [toposort] looks like: every index stored
    once, each node after whatever it has an edge to. *)
Lemma toposort_ret_stack srt :
  toposort nodes edges = Ret srt →
  ∃ stk, stk ≡ₚ seq 0 (length nodes) ∧ srt = (nodes !!.) <$> stk
         ∧ closed nodes edges stk.
Proof.
  unfold toposort.
  destruct (visitRoots _ _ _ _ _) as [s| |] eqn:E; simpl; [|done|done].
  intros [= <-].
  destruct (visitRoots_ret nodes edges targets_in_nodes _ _ _ [] s
              (inv_initial nodes edges targets_in_nodes)
              (λ i x, proj1 (indexed_lookup i x)) E) as (stk & Hinv & Hall).
  rewrite app_nil_r in *.
  destruct Hinv as [_ Hs _ Hnd Hr Hcl]. rewrite app_nil_r in *.
  assert (stk ≡ₚ seq 0 (length nodes)) as Hperm.
  { apply NoDup_Permutation; [done|apply NoDup_seq|].
    intros j. rewrite elem_of_seq. split.
    - intros Hj. specialize (Hr j Hj). lia.
    - intros [_ Hj]. destruct (lookup_lt_is_Some_2 nodes j) as [x Hx]; [lia|].
      eapply Hall, indexed_lookup, Hx. }
  exists stk. split; [done|]. split; [|done].
  rewrite Hs. apply Permutation_length in Hperm. rewrite length_seq in Hperm.
  by rewrite Hperm, Nat.sub_diag.
Qed.

Lemma closed_reach stk x y :
  closed nodes edges stk → tc (edge edges) x y →
  ∀ l1 j l2, stk = l1 ++ j :: l2 → nodes !! j = Some x →
  ∃ l2a k l2b, l2 = l2a ++ k :: l2b ∧ nodes !! k = Some y.
Proof.
  intros Hcl. induction 1 as [x y Hxy|x y z Hxy _ IH]; intros l1 j l2 Hstk Hj.
  - destruct (Hcl l1 j l2 x y Hstk Hj Hxy) as (k & Hk & Hkin).
    apply indexOf_first in Hk as [Hk _].
    apply list_elem_of_split in Hkin as (l2a & l2b & ->). by exists l2a, k, l2b.
  - destruct (Hcl l1 j l2 x y Hstk Hj Hxy) as (k & Hk & Hkin).
    apply indexOf_first in Hk as [Hk _].
    apply list_elem_of_split in Hkin as (l2a & l2b & ->).
    destruct (IH (l1 ++ j :: l2a) k l2b) as (l2c & k' & l2d & -> & Hk');
      [by rewrite <-app_assoc|done|].
    exists (l2a ++ k :: l2c), k', l2d. by rewrite <-app_assoc.
Qed.

Lemma closed_no_cycle stk a :
  closed nodes edges stk → tc (edge edges) a a →
  ∀ n l1 j l2, (length l2 < n)%nat → stk = l1 ++ j :: l2 →
               nodes !! j = Some a → False.
Proof.
  intros Hcl Hcyc. induction n as [|n IH]; intros l1 j l2 Hlen Hstk Hj; [lia|].
  destruct (closed_reach stk a a Hcl Hcyc l1 j l2 Hstk Hj)
    as (l2a & k & l2b & -> & Hk).
  apply (IH (l1 ++ j :: l2a) k l2b); [|by rewrite Hstk, <-app_assoc|done].
  rewrite length_app in Hlen. simpl in Hlen. lia.
Qed.

Lemma tc_edge_target x y : tc (edge edges) x y → ∃ z, edge edges z y.
Proof. induction 1; eauto. Qed.

(** A cycle among the edges makes [toposort] throw. *)
Lemma toposort_cyclic_throws :
  cyclic edges → toposort nodes edges = Throw CyclicDependency.
Proof.
  intros [a Hcyc].
  destruct (toposort nodes edges) as [srt|e|] eqn:E.
  - exfalso. apply toposort_ret_stack in E as (stk & Hperm & _ & Hcl).
    destruct (tc_edge_target a a Hcyc) as [z Hz].
    apply targets_in_nodes in Hz. simpl in Hz.
    apply list_elem_of_lookup_1 in Hz as [j Hj].
    assert (j ∈ stk) as Hin.
    { rewrite Hperm. apply elem_of_seq. apply lookup_lt_Some in Hj. lia. }
    apply list_elem_of_split in Hin as (l1 & l2 & Hstk).
    apply (closed_no_cycle stk a Hcl Hcyc (S (length l2)) l1 j l2);
      [lia|done|done].
  - unfold toposort in E.
    destruct (visitRoots _ _ _ _ _) as [s|e'|] eqn:E'; simpl in E; [done| |done].
    injection E as <-. apply visitRoots_throw in E' as [-> _]. done.
  - unfold toposort in E.
    destruct (visitRoots _ _ _ _ _) as [s|e'|] eqn:E'; simpl in E; [done|done|].
    exfalso. eapply visitRoots_fuel; [|exact E']. lia.
Qed.
End toposort_results.

Section toposort_acyclic.
Context {A : Type} `{EqDecision A}.
Import Toposort.
Variables (nodes : list A) (edges : list (A * A)).

(** Without a cycle [toposort] returns. *)
Lemma toposort_acyclic_returns :
  ¬ cyclic edges → ∃ srt, toposort nodes edges = Ret srt.
Proof.
  intros Hac. unfold toposort.
  destruct (visitRoots _ _ _ _ _) as [s|e|] eqn:E; simpl.
  - by eexists.
  - apply visitRoots_throw in E as [_ Hc]. done.
  - exfalso. eapply visitRoots_fuel; [|exact E]. lia.
Qed.

Lemma lookup_all_Some (stk : list nat) :
  (∀ j, j ∈ stk → (j < length nodes)%nat) →
  ∃ l, (nodes !!.) <$> stk = Some <$> l
       ∧ Forall2 (λ j x, nodes !! j = Some x) stk l.
Proof.
  induction stk as [|j stk IH]; intros Hr.
  - exists []. split; [done|constructor].
  - destruct IH as (l & Hl & Hf); [intros j' Hj'; apply Hr; by right|].
    destruct (lookup_lt_is_Some_2 nodes j) as [x Hx]; [apply Hr; by left|].
    exists (x :: l). split; [|by constructor].
    rewrite !fmap_cons. by rewrite Hx, Hl.
Qed.

Lemma lookup_seq_all : (nodes !!.) <$> seq 0 (length nodes) = Some <$> nodes.
Proof.
  apply list_eq. intros i. rewrite !list_lookup_fmap.
  destruct (decide (i < length nodes)%nat) as [Hlt|Hge].
  - rewrite lookup_seq_lt by done. simpl.
    destruct (lookup_lt_is_Some_2 nodes i Hlt) as [x Hx]. by rewrite Hx.
  - rewrite lookup_seq_ge by lia. rewrite lookup_ge_None_2 by lia. done.
Qed.
End toposort_acyclic.

Lemma omap_id_Some {A} (l : list A) : omap id (Some <$> l) = l.
Proof. induction l as [|x l IH]; [done|]. csimpl. by rewrite IH. Qed.

Lemma fmap_Some_Permutation_inv {A} (l k : list A) :
  Some <$> l ≡ₚ Some <$> k → l ≡ₚ k.
Proof.
  intros Hp. rewrite <-(omap_id_Some l), <-(omap_id_Some k). by rewrite Hp.
Qed.

(** C10.  For a node list and an edge list whose endpoints all occur
    among the nodes: when the edges have no directed cycle, [toposort]
    returns a permutation of the node list in which every occurrence of
    [a] has [b] somewhere after it, for each edge [(a, b)], and when in
    addition the nodes are pairwise distinct, [a] stands before [b];
    when the edges have a cycle, [toposort] throws its
    cyclic-dependency error. *)
Theorem toposort_sorts {A} `{EqDecision A}
    (nodes : list A) (edges : list (A * A)) :
  (∀ a b, (a, b) ∈ edges → a ∈ nodes ∧ b ∈ nodes) →
  (¬ Toposort.cyclic edges →
   ∃ l, Toposort.toposort nodes edges = Ret (Some <$> l)
        ∧ l ≡ₚ nodes
        ∧ (∀ a b (i : nat), (a, b) ∈ edges → l !! i = Some a →
             ∃ j : nat, (i < j)%nat ∧ l !! j = Some b)
        ∧ (NoDup nodes →
           ∀ a b (i j : nat), (a, b) ∈ edges →
             l !! i = Some a → l !! j = Some b → (i < j)%nat))
  ∧ (Toposort.cyclic edges →
     Toposort.toposort nodes edges = Throw CyclicDependency).
Proof.
  intros Hend.
  assert (∀ e, e ∈ edges → e.2 ∈ nodes) as Htgt.
  { intros [a b] He. by apply (Hend a b). }
  split; [|by apply toposort_cyclic_throws].
  intros Hac.
  destruct (toposort_acyclic_returns nodes edges Hac) as [srt E].
  destruct (toposort_ret_stack nodes edges Htgt srt E) as (stk & Hperm & -> & Hcl).
  destruct (lookup_all_Some nodes stk) as (l & Hl & Hf).
  { intros j Hj. rewrite Hperm in Hj. apply elem_of_seq in Hj. lia. }
  assert (l ≡ₚ nodes) as Hpl.
  { apply fmap_Some_Permutation_inv. rewrite <-Hl, Hperm. by rewrite lookup_seq_all. }
  assert (∀ a b (i : nat), (a, b) ∈ edges → l !! i = Some a →
             ∃ j : nat, (i < j)%nat ∧ l !! j = Some b) as Hmid.
  { intros a b i Hab Hi.
    destruct (Forall2_lookup_r _ _ _ _ _ Hf Hi) as (j & Hj & Hja).
    destruct (Hcl (take i stk) j (drop (S i) stk) a b) as (k & Hk & Hkin);
      [by rewrite take_drop_middle|done|done|].
    apply indexOf_first in Hk as [Hk _].
    apply list_elem_of_lookup_1 in Hkin as [q Hq]. rewrite lookup_drop in Hq.
    destruct (Forall2_lookup_l _ _ _ _ _ Hf Hq) as (x & Hx & Hkx).
    exists (S i + q)%nat. split; [lia|]. rewrite Hx. congruence. }
  exists l. rewrite E, Hl. split; [done|]. split; [done|]. split; [done|].
  intros Hnd a b i j Hab Hi Hj.
  destruct (Hmid a b i Hab Hi) as (j' & Hlt & Hj').
  assert (NoDup l) as Hndl by (by rewrite Hpl).
  by rewrite (NoDup_lookup l j j' b Hndl Hj Hj').
Qed.

Lemma toposort_sorts_witness :
  let nodes := [1; 2; 3]%nat in
  let edges := [(3, 1); (1, 2)]%nat in
  (∀ a b, (a, b) ∈ edges → a ∈ nodes ∧ b ∈ nodes)
  ∧ ¬ Toposort.cyclic edges
  ∧ ∃ l, Toposort.toposort nodes edges = Ret (Some <$> l) ∧ l ≡ₚ nodes.
Proof.
  intros nodes edges.
  assert (∀ a b, (a, b) ∈ edges → a ∈ nodes ∧ b ∈ nodes) as Hend.
  { intros a b Hab. unfold edges, nodes in *.
    repeat (apply elem_of_cons in Hab as [[= -> ->]|Hab]);
      [split; apply list_elem_of_In; simpl; tauto ..|].
    by apply elem_of_nil in Hab. }
  destruct (toposort_sorts nodes edges Hend) as [Hret Hthrow].
  assert (¬ Toposort.cyclic edges) as Hac.
  { intros Hc. specialize (Hthrow Hc). vm_compute in Hthrow. discriminate. }
  split; [exact Hend|]. split; [exact Hac|].
  destruct (Hret Hac) as (l & Hl & Hp & _). by exists l.
Defined.

(** * Facts about [initData] *)

Section initData_guards.
Import JsNum DataShaper.
Variable formatPct : jsnum → jsstring.

Lemma initData_skipped g :
  branchOf g = Skipped → initData formatPct g = Ret g.
Proof.
  unfold branchOf, initData. destruct (rawData g) as [|raw0 rest]; [done|].
  destruct (decide _); [done|].
  destruct (inputRows g) as [|d0 ?]; [done|]. by destruct (decide _).
Qed.

Lemma initData_twoDim g :
  branchOf g = TwoDim →
  initData formatPct g = shapeTwoDim formatPct g (inputRows g).
Proof.
  unfold branchOf, initData. destruct (rawData g) as [|raw0 rest]; [done|].
  destruct (decide _); [done|].
  destruct (inputRows g) as [|d0 ?]; [done|]. by destruct (decide _).
Qed.

Lemma initData_oneDim g :
  branchOf g = OneDim →
  initData formatPct g = shapeOneDim g (inputRows g).
Proof.
  unfold branchOf, initData. destruct (rawData g) as [|raw0 rest]; [done|].
  destruct (decide _); [done|].
  destruct (inputRows g) as [|d0 ?]; [done|]. by destruct (decide _).
Qed.
End initData_guards.

(** C7, as the code has it.  When there are no raw rows, or when the
    number of dimensions plus the number of measures differs from the
    width of the first raw row, [initData] returns without throwing and
    leaves the chart object, with the model it held before, as it
    was. *)
Theorem initData_guard_keeps_model
    (formatPct : JsNum.jsnum → jsstring) (g : DataShaper.chart) :
  (DataShaper.rawData g = []
   ∨ ∃ raw0 rest, DataShaper.rawData g = raw0 :: rest
       ∧ DataShaper.defDims g + DataShaper.defMeas g
         ≠ Z.of_nat (length raw0)) →
  DataShaper.initData formatPct g = Ret g.
Proof.
  intros Hg. apply initData_skipped. unfold DataShaper.branchOf.
  destruct Hg as [->|(raw0 & rest & -> & Hne)]; [done|].
  by destruct (decide _).
Qed.

Lemma initData_guard_keeps_model_witness :
  let g := DataShaper.Sample.fresh [] true true in
  DataShaper.initData DataShaper.Sample.percentText g = Ret g.
Proof.
  intros g.
  apply (initData_guard_keeps_model DataShaper.Sample.percentText g).
  left. reflexivity.
Defined.

(** C7 as stated fails: after a model has been built, a delivery
    without rows leaves that model in place, groups, flat data and
    deltas included. *)
Lemma initData_guard_not_empty :
  ¬ (∀ g : DataShaper.chart,
       DataShaper.rawData g = [] →
       ∃ g', DataShaper.initData DataShaper.Sample.percentText g = Ret g'
             ∧ DataShaper.data g' = [] ∧ DataShaper.flatData g' = []
             ∧ DataShaper.deltas g' = []).
Proof.
  intros Hall.
  destruct (DataShaper.initData DataShaper.Sample.percentText
              (DataShaper.Sample.fresh DataShaper.Sample.quarters false true))
    as [g1| |] eqn:E1; [|by vm_compute in E1..].
  destruct (Hall (DataShaper.withRawData [] g1) eq_refl)
    as (g' & Hret & Hdata & _).
  rewrite initData_skipped in Hret by done.
  injection Hret as <-. vm_compute in E1. injection E1 as <-.
  discriminate Hdata.
Qed.

(** * Facts about numbers *)

Section jsnum_facts.
Import JsNum.

#[global] Instance same_refl : Reflexive same.
Proof. intros [a| | |]; simpl; done. Qed.
#[global] Instance same_sym : Symmetric same.
Proof. intros [a| | |] [b| | |]; simpl; first [done | by intros H; symmetry]. Qed.
#[global] Instance same_trans : Transitive same.
Proof.
  intros [a| | |] [b| | |] [c| | |]; simpl;
    first [done | by intros H1 H2; rewrite H1].
Qed.
#[global] Instance same_equivalence : Equivalence same.
Proof. split; apply _. Qed.

#[global] Instance add_proper : Proper (same ==> same ==> same) add.
Proof.
  intros [a| | |] [a'| | |] Ha [b| | |] [b'| | |] Hb; simpl in *;
    first [done | by rewrite Ha, Hb].
Qed.

#[global] Instance neg_proper : Proper (same ==> same) neg.
Proof.
  intros [a| | |] [a'| | |] Ha; simpl in *; first [done | by rewrite Ha].
Qed.

#[global] Instance sub_proper : Proper (same ==> same ==> same) sub.
Proof. intros x x' Hx y y' Hy. unfold sub. by rewrite Hx, Hy. Qed.

Lemma add_assoc x y z : add x (add y z) ≈ add (add x y) z.
Proof. destruct x, y, z; simpl; first [done | apply Qplus_assoc]. Qed.

Lemma add_comm x y : add x y ≈ add y x.
Proof. destruct x, y; simpl; first [done | apply Qplus_comm]. Qed.

Lemma add_zero_l x : add zero x ≈ x.
Proof. destruct x; simpl; first [done | apply Qplus_0_l]. Qed.

Lemma add_zero_r x : add x zero ≈ x.
Proof. destruct x; simpl; first [done | apply Qplus_0_r]. Qed.

Lemma lt_zero_Fin a : lt (Fin a) zero = true ↔ (a < 0)%Q.
Proof.
  rewrite Qlt_alt. unfold lt, zero.
  destruct (a ?= 0)%Q; split; done.
Qed.

Lemma ge_zero_Fin a : ge (Fin a) zero = true ↔ (0 <= a)%Q.
Proof. simpl. apply Qle_bool_iff. Qed.

Lemma lt_zero_false_ge x :
  x ≠ NaN → (lt x zero = false ↔ ge x zero = true).
Proof.
  destruct x as [a| | |]; try done.
  intros _. rewrite ge_zero_Fin. split.
  - intros Hlt. destruct (Qlt_le_dec a 0) as [H|H]; [|done].
    apply lt_zero_Fin in H. congruence.
  - intros Hle. destruct (lt (Fin a) zero) eqn:E; [|done].
    apply lt_zero_Fin in E. exfalso. by eapply Qlt_not_le.
Qed.

Lemma isFinite_Fin x : isFinite x = true ↔ ∃ a, x = Fin a.
Proof. destruct x; simpl; split; try done; try (by intros [? ?]). by eexists. Qed.
End jsnum_facts.

(** * Facts about [forEach] *)

Section forEach_facts.
Context {X St : Type}.
Implicit Types (f : St → X → outcome St) (l : list X) (s : St).

Lemma forEach_app f l1 l2 s :
  forEach f (l1 ++ l2) s = (s' ←! forEach f l1 s; forEach f l2 s').
Proof.
  revert s. induction l1 as [|x l1 IH]; intros s; simpl; [done|].
  destruct (f s x); simpl; [apply IH|done|done].
Qed.

Lemma forEach_invariant (P : St → Prop) f l s s' :
  (∀ s x s', x ∈ l → P s → f s x = Ret s' → P s') →
  P s → forEach f l s = Ret s' → P s'.
Proof.
  revert s. induction l as [|x l IH]; intros s Hstep Hs; simpl.
  - by intros [= <-].
  - destruct (f s x) as [s1| |] eqn:E; simpl; [|done|done].
    apply IH.
    + intros s2 y s2' Hy. apply Hstep. by right.
    + eapply Hstep; [by left|done|done].
Qed.

Lemma forEach_returns (P : St → Prop) f l s :
  (∀ s x, x ∈ l → P s → ∃ s', f s x = Ret s' ∧ P s') →
  P s → ∃ s', forEach f l s = Ret s' ∧ P s'.
Proof.
  revert s. induction l as [|x l IH]; intros s Hstep Hs; simpl.
  - by exists s.
  - destruct (Hstep s x) as (s1 & -> & Hs1); [by left|done|]. simpl.
    apply IH; [|done]. intros s2 y Hy. apply Hstep. by right.
Qed.
End forEach_facts.

(** * Facts about lists *)

Lemma filter_all {A} (P : A → Prop) `{∀ x, Decision (P x)} (l : list A) :
  (∀ x, x ∈ l → P x) → filter P l = l.
Proof.
  induction l as [|x l IH]; intros Hall; [done|].
  rewrite filter_cons_True by (apply Hall; by left).
  f_equal. apply IH. intros y Hy. apply Hall. by right.
Qed.

Lemma filter_none {A} (P : A → Prop) `{∀ x, Decision (P x)} (l : list A) :
  (∀ x, x ∈ l → ¬ P x) → filter P l = [].
Proof.
  induction l as [|x l IH]; intros Hall; [done|].
  rewrite filter_cons_False by (apply Hall; by left).
  apply IH. intros y Hy. apply Hall. by right.
Qed.

Lemma filter_ext_in {A} (P Q : A → Prop)
    `{∀ x, Decision (P x)} `{∀ x, Decision (Q x)} (l : list A) :
  (∀ x, x ∈ l → P x ↔ Q x) → filter P l = filter Q l.
Proof.
  induction l as [|x l IH]; intros Hall; [done|].
  assert (filter P l = filter Q l) as Hl.
  { apply IH. intros y Hy. apply Hall. by right. }
  destruct (decide (P x)) as [HP|HP].
  - rewrite !filter_cons_True; [by f_equal|by apply Hall; [left|]|done].
  - rewrite !filter_cons_False; [done| |done].
    intros HQ. apply HP, Hall; [by left|done].
Qed.

(** * Facts about first-encounter order *)

Section firstEncounter_facts.
Import DataShaper.
Context {K : Type} `{EqDecision K}.
Implicit Types (l seen : list K).

Lemma indexOf_not_elem (x : K) l : indexOf x l = -1 ↔ x ∉ l.
Proof.
  split.
  - intros Hi Hin. destruct (indexOf_elem x l Hin) as (k & Hk & _). lia.
  - apply indexOfFrom_not_elem.
Qed.

Lemma elem_of_firstEncounter (x : K) l : x ∈ firstEncounter l ↔ x ∈ l.
Proof.
  induction l as [|y l IH]; simpl; [done|].
  rewrite !elem_of_cons, list_elem_of_filter, IH.
  destruct (decide (x = y)); naive_solver.
Qed.

Lemma NoDup_firstEncounter l : NoDup (firstEncounter l).
Proof.
  induction l as [|y l IH]; simpl; [apply NoDup_nil_2|].
  apply NoDup_cons. split; [|by apply NoDup_filter].
  rewrite list_elem_of_filter. naive_solver.
Qed.

Lemma firstEncounter_step seen (k : K) l :
  let seen' := if decide (k ∈ seen) then seen else seen ++ [k] in
  seen' ++ filter (λ y, y ∉ seen') l
  = seen ++ filter (λ y, y ∉ seen) (k :: filter (λ y, y ≠ k) l).
Proof.
  simpl. destruct (decide (k ∈ seen)) as [Hin|Hnin].
  - f_equal. rewrite filter_cons_False by naive_solver.
    rewrite list_filter_filter. apply list_filter_iff.
    intros y. naive_solver.
  - rewrite <-app_assoc. f_equal. simpl.
    rewrite filter_cons_True by done. f_equal.
    rewrite list_filter_filter. apply list_filter_iff.
    intros y. rewrite elem_of_app, list_elem_of_singleton. naive_solver.
Qed.
End firstEncounter_facts.

(** * Facts about the scan of the rows *)

Section scan_facts.
Import JsNum DataShaper.

Lemma cellAt_ret d k c : cellAt d k = Ret c ↔ d !! k = Some (Some c).
Proof.
  unfold cellAt. destruct (d !! k) as [[c'|]|]; split; intros H;
    first [done | congruence].
Qed.

Lemma fullRow_cells d :
  fullRow d →
  ∃ c0 c1 c2, cellAt d 0 = Ret c0 ∧ cellAt d 1 = Ret c1 ∧ cellAt d 2 = Ret c2.
Proof.
  intros (c0 & c1 & c2 & H0 & H1 & H2). exists c0, c1, c2.
  by rewrite !cellAt_ret.
Qed.

Lemma scanRow_ret s d s' :
  scanRow s d = Ret s' →
  let k1 := keyText 0 d in
  let k2 := keyText 1 d in
  q s' = (if decide (k2 ∈ q s) then q s else q s ++ [k2])
  ∧ p s' = (if decide (k1 ∈ p s) then p s else p s ++ [k1])
  ∧ (edges s' = edges s ∨ edges s' = edges s ++ [(p2 s, Some k2)]).
Proof.
  unfold scanRow, keyText.
  destruct (cellAt d 1) as [c1| |] eqn:E1; simpl; [|done|done].
  destruct (cellAt d 0) as [c0| |] eqn:E0; simpl; [|done|done].
  apply cellAt_ret in E0, E1. rewrite E0, E1.
  intros [= <-]. simpl. split; [|split].
  - destruct (decide (Cell.qText c1 ∈ q s)) as [Hin|Hnin].
    + rewrite bool_decide_eq_false_2; [done|]. by intros H%indexOf_not_elem.
    + rewrite bool_decide_eq_true_2; [done|]. by rewrite indexOf_not_elem.
  - destruct (decide (Cell.qText c0 ∈ p s)) as [Hin|Hnin].
    + rewrite bool_decide_eq_false_2; [done|]. by intros H%indexOf_not_elem.
    + rewrite bool_decide_eq_true_2; [done|]. by rewrite indexOf_not_elem.
  - destruct (_ && _); [by right|by left].
Qed.

Lemma scan_order rows s s' :
  forEach scanRow rows s = Ret s' →
  q s' = q s ++ filter (λ y, y ∉ q s) (firstEncounter (keyText 1 <$> rows))
  ∧ p s' = p s ++ filter (λ y, y ∉ p s) (firstEncounter (keyText 0 <$> rows)).
Proof.
  revert s. induction rows as [|d rows IH]; intros s; simpl.
  - intros [= <-]. by rewrite !app_nil_r.
  - destruct (scanRow s d) as [s1| |] eqn:E; simpl; [|done|done].
    intros Hrest. destruct (IH s1 Hrest) as [Hq Hp].
    apply scanRow_ret in E as (Hq1 & Hp1 & _). simpl in Hq1, Hp1.
    rewrite Hq, Hp, Hq1, Hp1. split; apply firstEncounter_step.
Qed.

Lemma scan_firstEncounter rows s :
  forEach scanRow rows scanStart = Ret s →
  q s = firstEncounter (keyText 1 <$> rows)
  ∧ p s = firstEncounter (keyText 0 <$> rows).
Proof.
  intros Hs. apply scan_order in Hs as [-> ->]. simpl.
  split; (rewrite filter_all; [done|]); intros x _; apply not_elem_of_nil.
Qed.

Lemma scan_targets rows s :
  forEach scanRow rows scanStart = Ret s →
  ∀ e, e ∈ edges s → e.2 ∈ Some <$> q s.
Proof.
  apply (forEach_invariant (λ s, ∀ e, e ∈ edges s → e.2 ∈ Some <$> q s)).
  - intros s0 d s1 _ Hinv Hstep e He.
    apply scanRow_ret in Hstep as (Hq & _ & He1). simpl in Hq.
    assert (∀ x, x ∈ q s0 → x ∈ q s1) as Hmono.
    { intros x Hx. rewrite Hq. destruct (decide _); [done|].
      rewrite elem_of_app. by left. }
    assert (keyText 1 d ∈ q s1) as Hk.
    { rewrite Hq. destruct (decide _); [done|].
      rewrite elem_of_app, list_elem_of_singleton. by right. }
    assert (e ∈ edges s0 ∨ e = (p2 s0, Some (keyText 1 d))) as [He0| ->].
    { destruct He1 as [Heq|Heq]; rewrite Heq in He; [by left|].
      apply elem_of_app in He as [He|He]; [by left|].
      apply list_elem_of_singleton in He. by right. }
    + specialize (Hinv e He0). apply list_elem_of_fmap in Hinv as (x & -> & Hx).
      apply list_elem_of_fmap_2, Hmono, Hx.
    + simpl. by apply list_elem_of_fmap_2.
  - intros e He. by apply elem_of_nil in He.
Qed.

Lemma scan_returns rows :
  Forall fullRow rows → ∃ s, forEach scanRow rows scanStart = Ret s.
Proof.
  intros Hrows.
  destruct (forEach_returns (λ _, True) scanRow rows scanStart) as (s & Hs & _);
    [|done|by exists s].
  intros s d Hd _. rewrite Forall_forall in Hrows.
  destruct (fullRow_cells d (Hrows d Hd)) as (c0 & c1 & c2 & H0 & H1 & _).
  unfold scanRow. rewrite H1. simpl. rewrite H0. simpl. by eexists.
Qed.
End scan_facts.

(** * Facts about the stacking of a group *)

Section stack_facts.
Import JsNum DataShaper.

Lemma sumNum_snoc l x : sumNum (l ++ [x]) ≈ add (sumNum l) x.
Proof.
  induction l as [|y l IH].
  - apply add_comm.
  - change (add y (sumNum (l ++ [x])) ≈ add (add y (sumNum l)) x).
    rewrite IH. apply add_assoc.
Qed.

Lemma sumNum_proper_fin l : Forall (λ x, isFinite x = true) l → isFinite (sumNum l) = true.
Proof.
  induction 1 as [|x l Hx _ IH]; [done|].
  change (isFinite (add x (sumNum l)) = true).
  apply isFinite_Fin in Hx as [a ->]. apply isFinite_Fin in IH as [b ->].
  done.
Qed.

Lemma finite_signs x :
  isFinite x = true → (nonNegative x ↔ ¬ negative x).
Proof.
  intros Hx. unfold nonNegative, negative.
  rewrite <-lt_zero_false_ge by (by destruct x).
  by destruct (lt x zero).
Qed.

(** What one turn of the series loop does. *)
Lemma stackStep_ret defDims vals st qi st' :
  stackStep defDims vals st qi = Ret st' →
  st' = st
  ∨ ∃ key rows num txt elm,
      vals !! j st = Some (key, rows) ∧ Some key = qi
      ∧ isFinite num = true
      ∧ st' = mkStack (if lt num zero then posT st else add (posT st) num)
                      (if lt num zero then add (negT st) num else negT st)
                      (v st ++ [Slot.mk key num txt elm
                                        (if lt num zero then negT st else posT st)])
                      (S (j st)).
Proof.
  unfold stackStep. destruct (vals !! j st) as [[key rows]|]; [|by left; congruence].
  destruct (decide (Some key = qi)) as [Hk|]; [|by left; congruence].
  destruct rows as [|row0 rows]; [done|].
  destruct (cellAt row0 2) as [c2| |]; simpl; [|done|done].
  destruct (cellAt row0 0) as [c0| |]; simpl; [|done|done].
  set (num := if isFinite (Cell.qNum c2) then Cell.qNum c2 else zero).
  assert (isFinite num = true) as Hfin.
  { unfold num. by destruct (isFinite (Cell.qNum c2)) eqn:E. }
  destruct (decide (defDims = 2)).
  - destruct (cellAt row0 1) as [c1| |]; simpl; [|done|done].
    destruct (lt num zero) eqn:Hlt; intros [= <-]; right;
      eexists key, _, num, _, _; rewrite Hlt; done.
  - simpl. destruct (lt num zero) eqn:Hlt; intros [= <-]; right;
      eexists key, _, num, _, _; rewrite Hlt; done.
Qed.

(** The invariant of the series loop: the tops are the sums of the
    values pushed so far, by sign, and each offset is the top of its
    sign before the push. *)
Lemma stack_invariant defDims vals q st :
  forEach (stackStep defDims vals) q stackStart = Ret st →
  Forall (λ e, isFinite (Slot.qNum e) = true) (v st)
  ∧ posT st ≈ sumNum (filter nonNegative (Slot.qNum <$> v st))
  ∧ negT st ≈ sumNum (filter negative (Slot.qNum <$> v st))
  ∧ ∀ (k : nat) e, v st !! k = Some e →
      Slot.offset e
      ≈ sumNum (filter (sameSign (Slot.qNum e)) (Slot.qNum <$> take k (v st))).
Proof.
  apply (forEach_invariant (λ st,
    Forall (λ e, isFinite (Slot.qNum e) = true) (v st)
    ∧ posT st ≈ sumNum (filter nonNegative (Slot.qNum <$> v st))
    ∧ negT st ≈ sumNum (filter negative (Slot.qNum <$> v st))
    ∧ ∀ (k : nat) e, v st !! k = Some e →
        Slot.offset e
        ≈ sumNum (filter (sameSign (Slot.qNum e))
                         (Slot.qNum <$> take k (v st))))).
  2:{ simpl. split; [constructor|]. split; [done|]. split; [done|].
      intros k e Hk. by rewrite lookup_nil in Hk. }
  intros s qi s' _ (Hfin & Hpos & Hneg & Hoff) Hstep.
  apply stackStep_ret in Hstep
    as [->|(key & rows & num & txt & elm & _ & _ & Hnum & ->)]; [done|].
  simpl.
  assert (Forall (λ x, isFinite x = true) (Slot.qNum <$> v s)) as Hfin'.
  { by apply Forall_fmap. }
  split; [|split; [|split]].
  - apply Forall_app. split; [done|]. by repeat constructor.
  - rewrite fmap_app, filter_app. simpl.
    destruct (lt num zero) eqn:Hlt.
    + rewrite filter_cons_False, app_nil_r; [done|].
      rewrite finite_signs by done. intros Hn. by apply Hn.
    + rewrite filter_cons_True, sumNum_snoc; [by rewrite <-Hpos|].
      rewrite finite_signs by done. unfold negative. by rewrite Hlt.
  - rewrite fmap_app, filter_app. simpl.
    destruct (lt num zero) eqn:Hlt.
    + rewrite filter_cons_True, sumNum_snoc; [by rewrite <-Hneg|done].
    + rewrite filter_cons_False, app_nil_r; [done|].
      unfold negative. by rewrite Hlt.
  - intros k e Hk.
    destruct (decide (k < length (v s))%nat) as [Hlt|Hge].
    + rewrite lookup_app_l in Hk by done.
      rewrite take_app_le by lia. by apply Hoff.
    + rewrite lookup_app_r in Hk by lia.
      destruct (k - length (v s))%nat as [|k'] eqn:Ek; [|by destruct k'].
      injection Hk as <-. simpl.
      assert (k = length (v s)) as -> by lia.
      rewrite take_app_length.
      destruct (lt num zero) eqn:Hlt.
      * rewrite Hneg. apply reflexive_eq. f_equal.
        apply filter_ext_in. intros x _. unfold negative, sameSign.
        by rewrite Hlt.
      * rewrite Hpos. apply reflexive_eq. f_equal.
        apply filter_ext_in. intros x Hx. unfold sameSign. rewrite Hlt.
        rewrite Forall_forall in Hfin'.
        rewrite finite_signs by (by apply Hfin'). unfold negative.
        by destruct (lt x zero).
Qed.
End stack_facts.

(** * Facts about the deltas *)

Section delta_facts.
Import JsNum DataShaper.

Lemma deltaLoop_shift (p c : list Point.t) (n : nat) :
  omap (λ k : nat,
          match p !! (k - n)%nat, c !! (k - n)%nat with
          | Some pk, Some ck => Some (deltaOf pk ck)
          | _, _ => None
          end) (seq n (length p))
  = zip_with deltaOf p c.
Proof.
  revert c n. induction p as [|x p IH]; intros c n; [done|].
  simpl. rewrite Nat.sub_diag. simpl.
  destruct c as [|y c]; simpl.
  - rewrite (list_omap_ext _ (λ _ : nat, None) _ (seq (S n) (length p))).
    + clear. generalize (seq (S n) (length p)). by induction l.
    + apply Forall2_same_length_lookup. split; [done|].
      intros i a b Ha Hb. by destruct ((x :: p) !! _).
  - f_equal. rewrite <-(IH c (S n)). apply list_omap_ext.
    apply Forall2_same_length_lookup. split; [done|].
    intros i a b Ha Hb. assert (a = b) as <- by congruence.
    apply lookup_seq in Ha as [-> _].
    replace (S n + i - n)%nat with (S i) by lia.
    replace (S n + i - S n)%nat with i by lia. done.
Qed.

(** The loop over [k] pairs the two groups slot by slot, as far as both
    have one. *)
Lemma deltaLoop_zip (p c : list Point.t) :
  deltaLoop p c = zip_with deltaOf p c.
Proof.
  rewrite <-(deltaLoop_shift p c 0). unfold deltaLoop.
  apply list_omap_ext. apply Forall2_same_length_lookup. split; [done|].
  intros i a b Ha Hb. assert (a = b) as <- by congruence.
  by rewrite Nat.sub_0_r.
Qed.

Lemma adjacentDeltas_snoc (groups : list (list Point.t)) (c : list Point.t) :
  adjacentDeltas (groups ++ [c])
  = adjacentDeltas groups
    ++ match last groups with
       | Some p => zip_with deltaOf p c
       | None => []
       end.
Proof.
  induction groups as [|p groups IH]; [done|].
  destruct groups as [|p' groups]; [simpl; by rewrite app_nil_r|].
  change (zip_with deltaOf p p' ++ adjacentDeltas ((p' :: groups) ++ [c])
          = (zip_with deltaOf p p' ++ adjacentDeltas (p' :: groups))
            ++ match last (p' :: groups) with
               | Some p => zip_with deltaOf p c
               | None => []
               end).
  by rewrite IH, app_assoc.
Qed.
End delta_facts.

(** * Facts about the loop over the groups *)

Section forEachI_facts.
Context {X St : Type}.

Lemma forEachI_invariant (P : nat → list X → St → Prop)
    (f : St → nat → X → outcome St) (l : list X) s s' :
  (∀ s i x s' done, P i done s → f s i x = Ret s' →
                    P (S i) (done ++ [x]) s') →
  P 0%nat [] s → forEachI f l 0 s = Ret s' → P (length l) l s'.
Proof.
  intros Hstep.
  assert (∀ done i s, P i done s → forEachI f l i s = Ret s' →
            P (i + length l)%nat (done ++ l) s') as Hgen.
  { induction l as [|x l IH]; intros done i s0 Hs; simpl.
    - intros [= <-]. by rewrite Nat.add_0_r, app_nil_r.
    - destruct (f s0 i x) as [s1| |] eqn:E; simpl; [|done|done].
      intros Hrest. replace (i + S (length l))%nat with (S i + length l)%nat by lia.
      rewrite (cons_middle x done l), app_assoc.
      eapply IH; [|done]. by eapply Hstep. }
  intros Hs Hrun. by apply (Hgen [] 0%nat s).
Qed.
End forEachI_facts.

Section group_facts.
Import JsNum DataShaper.
Variable formatPct : jsnum → jsstring.

Lemma groupStep_ret g q acc idx d acc' :
  groupStep formatPct g q acc idx d = Ret acc' →
  ∃ grp, groupOf formatPct g q d grp
    ∧ Acc.struc acc' = Acc.struc acc ++ [grp]
    ∧ Acc.flatData acc' = Acc.flatData acc ++ pointsOf grp
    ∧ Acc.deltas acc'
      = if bool_decide (0 < idx)%nat && showDeltas g then
          match (Acc.struc acc ++ [grp]) !! (idx - 1)%nat,
                (Acc.struc acc ++ [grp]) !! idx with
          | Some gp, Some gc =>
              Acc.deltas acc ++ deltaLoop (pointsOf gp) (pointsOf gc)
          | _, _ => Acc.deltas acc
          end
        else Acc.deltas acc.
Proof.
  unfold groupStep.
  destruct (forEach _ _ _) as [st| |] eqn:E; simpl; [|done|done].
  set (grp := Group.mk _ _ _ _).
  intros Hret. exists grp. split; [by exists st|].
  destruct (bool_decide (0 < idx)%nat && showDeltas g).
  - destruct (_ !! (idx - 1)%nat) as [gp|]; [|done].
    destruct (_ !! idx) as [gc|]; [|done].
    unfold pointsOf.
    destruct (Group.values gp) as [p|]; [|done].
    destruct (Group.values gc) as [c|]; [|done].
    by injection Hret as <-.
  - by injection Hret as <-.
Qed.

(** The model built by the loop over the groups. *)
Lemma groups_shaped g q n acc :
  forEachI (groupStep formatPct g q) n 0 (Acc.mk [] [] []) = Ret acc →
  Forall2 (groupOf formatPct g q) n (Acc.struc acc)
  ∧ Acc.flatData acc = concat (pointsOf <$> Acc.struc acc)
  ∧ Acc.deltas acc
    = if showDeltas g then adjacentDeltas (pointsOf <$> Acc.struc acc)
      else [].
Proof.
  intros Hrun.
  apply (forEachI_invariant (λ i done acc,
      i = length (Acc.struc acc)
      ∧ Forall2 (groupOf formatPct g q) done (Acc.struc acc)
      ∧ Acc.flatData acc = concat (pointsOf <$> Acc.struc acc)
      ∧ Acc.deltas acc
        = if showDeltas g then adjacentDeltas (pointsOf <$> Acc.struc acc)
          else [])) in Hrun.
  - by destruct Hrun as (_ & ? & ? & ?).
  - clear. intros acc i d acc' done (-> & Hall & Hflat & Hdel) Hstep.
    apply groupStep_ret in Hstep as (grp & Hgrp & Hs & Hf & Hd).
    rewrite Hs, Hf, Hd. split; [rewrite length_app; simpl; lia|].
    split; [apply Forall2_app; [done|by constructor]|].
    split.
    { rewrite fmap_app, concat_app, Hflat. simpl. by rewrite app_nil_r. }
    rewrite fmap_app. simpl. rewrite adjacentDeltas_snoc.
    rewrite (list_lookup_middle _ [] grp (length (Acc.struc acc))) by done.
    destruct (showDeltas g); [|by rewrite andb_false_r].
    rewrite andb_true_r, Hdel. clear.
    generalize (Acc.struc acc). intros gs.
    destruct gs as [|g0 gs _] using rev_ind; [done|].
    rewrite length_app. simpl.
    rewrite bool_decide_eq_true_2 by lia.
    replace (length gs + 1 - 1)%nat with (length gs) by lia.
    rewrite <-app_assoc.
    change ([g0] ++ [grp]) with (g0 :: [grp]).
    rewrite (list_lookup_middle gs [grp] g0 (length gs)) by done.
    rewrite fmap_app, list_fmap_singleton, last_snoc. by rewrite deltaLoop_zip.
  - simpl. split; [done|]. split; [constructor|]. split; [done|].
    by destruct (showDeltas g).
Qed.
End group_facts.

(** * The two-dimensional model *)

Section twoDim_facts.
Import JsNum DataShaper.
Variable formatPct : jsnum → jsstring.

Lemma shapeTwoDim_ret g inData g' :
  shapeTwoDim formatPct g inData = Ret g' →
  ∃ s qs rs acc,
    forEach scanRow inData scanStart = Ret s
    ∧ orderSeries (q s) (r s) (edges s) = Ret (qs, rs)
    ∧ forEachI (groupStep formatPct g qs) (sortedEntries (p s) qs inData)
               0 (Acc.mk [] [] []) = Ret acc
    ∧ g' = mkChart (defDims g) (defMeas g) (measures g) (rawData g)
                   (normalized g) (showDeltas g) 2
                   (Acc.struc acc) (Acc.flatData acc) qs rs (Acc.deltas acc).
Proof.
  unfold shapeTwoDim.
  destruct (forEach scanRow _ _) as [s| |] eqn:Es; simpl; [|done|done].
  destruct (orderSeries _ _ _) as [[qs rs]| |] eqn:Eo; simpl; [|done|done].
  destruct (forEachI _ _ _ _) as [acc| |] eqn:Ea; simpl; [|done|done].
  intros [= <-]. by exists s, qs, rs, acc.
Qed.

(** Every group of the model comes from one entry of the nest. *)
Lemma twoDim_groups g g' :
  branchOf g = TwoDim → initData formatPct g = Ret g' →
  ∃ s n,
    forEach scanRow (inputRows g) scanStart = Ret s
    ∧ n = sortedEntries (p s) (allDim2 g') (inputRows g)
    ∧ (∃ rs, orderSeries (q s) (r s) (edges s) = Ret (allDim2 g', rs))
    ∧ Forall2 (groupOf formatPct g (allDim2 g')) n (data g')
    ∧ normalized g' = normalized g
    ∧ flatData g' = concat (pointsOf <$> data g')
    ∧ deltas g' = if showDeltas g then adjacentDeltas (pointsOf <$> data g')
                  else [].
Proof.
  intros Hb Hret. rewrite initData_twoDim in Hret by done.
  apply shapeTwoDim_ret in Hret as (s & qs & rs & acc & Hs & Ho & Hacc & ->).
  apply groups_shaped in Hacc as (Hall & Hflat & Hdel). simpl.
  exists s, (sortedEntries (p s) qs (inputRows g)).
  split; [done|]. split; [done|]. split; [by exists rs|]. done.
Qed.

Lemma finishPoint_raw key posT negT (vs : list Slot.t) :
  Point.qNum <$> (finishPoint formatPct false key posT negT <$> vs)
  = Slot.qNum <$> vs.
Proof. rewrite <-list_fmap_compose. by apply list_fmap_ext. Qed.

Lemma groupOf_stackInvariant g q d grp :
  normalized g = false → groupOf formatPct g q d grp → stackInvariant grp.
Proof.
  intros Hn (st & Hst & ->). rewrite Hn.
  destruct (stack_invariant _ _ _ _ Hst) as (_ & Hpos & Hneg & Hoff).
  eexists. split; [done|]. simpl. rewrite finishPoint_raw.
  split; [by symmetry|]. split; [by symmetry|].
  intros k pt Hk. rewrite list_lookup_fmap in Hk.
  destruct (v st !! k) as [e|] eqn:Ee; [|done]. injection Hk as <-. simpl.
  rewrite <-fmap_take, finishPoint_raw. by apply Hoff.
Qed.
End twoDim_facts.

(** C1, as the code has it.  On the two-dimensional path, when
    [normalized] is off, every group of the resulting model satisfies
    the stack invariant: the values that are at least 0 sum to
    [offsetPos], the values below 0 sum to [offsetNeg], and each point's
    [offset] is the sum of the values of its own sign among the points
    before it in the group. *)
Theorem initData_stack_invariant
    (formatPct : JsNum.jsnum → jsstring) (g g' : DataShaper.chart) :
  DataShaper.branchOf g = DataShaper.TwoDim →
  DataShaper.normalized g = false →
  DataShaper.initData formatPct g = Ret g' →
  Forall DataShaper.stackInvariant (DataShaper.data g').
Proof.
  intros Hb Hn Hret.
  destruct (twoDim_groups formatPct g g' Hb Hret)
    as (s & n & _ & _ & _ & Hall & _).
  apply Forall_forall. intros grp Hgrp.
  apply list_elem_of_lookup_1 in Hgrp as [i Hi].
  destruct (Forall2_lookup_r _ _ _ _ _ Hall Hi) as (d & _ & Hd).
  by eapply groupOf_stackInvariant.
Qed.

Lemma initData_stack_invariant_witness :
  let g := DataShaper.Sample.fresh DataShaper.Sample.quartersGap false true in
  Forall DataShaper.stackInvariant (DataShaper.data (DataShaper.Sample.shaped g)).
Proof.
  intros g.
  apply (initData_stack_invariant DataShaper.Sample.percentText g).
  - vm_compute. reflexivity.
  - reflexivity.
  - vm_compute. reflexivity.
Defined.

(** C1 as stated fails when [normalized] is on: the values of a group
    are divided by the stack top and sum to 1, while [offsetPos] keeps
    the top itself. *)
Lemma initData_stack_invariant_normalized :
  ¬ (∀ g g' : DataShaper.chart,
       DataShaper.branchOf g = DataShaper.TwoDim →
       DataShaper.initData DataShaper.Sample.percentText g = Ret g' →
       Forall DataShaper.stackInvariant (DataShaper.data g')).
Proof.
  intros Hall.
  pose (g := DataShaper.Sample.fresh DataShaper.Sample.quarters true true).
  assert (DataShaper.branchOf g = DataShaper.TwoDim) as Hb
    by (vm_compute; reflexivity).
  destruct (DataShaper.initData DataShaper.Sample.percentText g)
    as [g'| |] eqn:Hret; [|by vm_compute in Hret..].
  specialize (Hall g g' Hb Hret).
  vm_compute in Hret. injection Hret as <-.
  cbn [DataShaper.data] in Hall.
  apply Forall_inv in Hall. destruct Hall as (vs & Hvs & Hpos & _).
  cbn [DataShaper.Group.values] in Hvs. injection Hvs as <-.
  vm_compute in Hpos. discriminate Hpos.
Qed.

Section adjacentDeltas_facts.
Import JsNum DataShaper.

Lemma elem_of_adjacentDeltas (groups : list (list Point.t)) δ :
  δ ∈ adjacentDeltas groups ↔
  ∃ (i k : nat) prev cur pk ck,
    groups !! i = Some prev ∧ groups !! S i = Some cur
    ∧ prev !! k = Some pk ∧ cur !! k = Some ck ∧ δ = deltaOf pk ck.
Proof.
  induction groups as [|p groups IH].
  { split; [by intros ?%elem_of_nil|]. by intros (i & k & ? & ? & ? & ? & ? & _). }
  destruct groups as [|c groups].
  { split; [by intros ?%elem_of_nil|].
    intros (i & k & ? & ? & ? & ? & _ & Hc & _). by destruct i. }
  change (adjacentDeltas (p :: c :: groups))
    with (zip_with deltaOf p c ++ adjacentDeltas (c :: groups)).
  rewrite elem_of_app, IH. split.
  - intros [Hz|(i & k & prev & cur & pk & ck & H1 & H2 & H3 & H4 & ->)].
    + apply elem_of_lookup_zip_with in Hz as (k & pk & ck & -> & Hp & Hc).
      by exists 0%nat, k, p, c, pk, ck.
    + by exists (S i), k, prev, cur, pk, ck.
  - intros (i & k & prev & cur & pk & ck & H1 & H2 & H3 & H4 & ->).
    destruct i as [|i].
    + left. simpl in H1, H2. injection H1 as <-. injection H2 as <-.
      apply elem_of_lookup_zip_with. by exists k, pk, ck.
    + right. by exists i, k, prev, cur, pk, ck.
Qed.
End adjacentDeltas_facts.

(** What the loop of lines 338-359 emits, for every input.  With
    [showDeltas] on, on the two-dimensional path, the deltas are those
    of each group and the group just before it, paired by the index in
    the two [values] arrays: there is a record for a pair of adjacent
    groups and an index exactly when both groups have a point at that
    index, and its [delta] is the current point's [qNum] minus the
    previous point's.  The index is the slot of a series only where no
    series is missing. *)
Theorem initData_deltas
    (formatPct : JsNum.jsnum → jsstring) (g g' : DataShaper.chart) :
  DataShaper.branchOf g = DataShaper.TwoDim →
  DataShaper.showDeltas g = true →
  DataShaper.initData formatPct g = Ret g' →
  DataShaper.deltas g'
  = DataShaper.adjacentDeltas (DataShaper.pointsOf <$> DataShaper.data g')
  ∧ ∀ δ, δ ∈ DataShaper.deltas g' ↔
      ∃ (i k : nat) prev cur pk ck,
        DataShaper.data g' !! i = Some prev
        ∧ DataShaper.data g' !! S i = Some cur
        ∧ DataShaper.pointsOf prev !! k = Some pk
        ∧ DataShaper.pointsOf cur !! k = Some ck
        ∧ δ = DataShaper.deltaOf pk ck
        ∧ DataShaper.Delta.delta δ
          = JsNum.sub (DataShaper.Point.qNum ck) (DataShaper.Point.qNum pk).
Proof.
  intros Hb Hshow Hret.
  destruct (twoDim_groups formatPct g g' Hb Hret)
    as (s & n & _ & _ & _ & _ & _ & _ & Hdel).
  rewrite Hshow in Hdel. split; [done|].
  intros δ. rewrite Hdel, elem_of_adjacentDeltas. split.
  - intros (i & k & prev & cur & pk & ck & H1 & H2 & H3 & H4 & ->).
    rewrite !list_lookup_fmap in H1, H2.
    destruct (DataShaper.data g' !! i) as [gp|] eqn:Ep; [|done].
    destruct (DataShaper.data g' !! S i) as [gc|] eqn:Ec; [|done].
    simpl in H1, H2. injection H1 as <-. injection H2 as <-.
    by exists i, k, gp, gc, pk, ck.
  - intros (i & k & prev & cur & pk & ck & H1 & H2 & H3 & H4 & -> & _).
    exists i, k, (DataShaper.pointsOf prev), (DataShaper.pointsOf cur), pk, ck.
    rewrite !list_lookup_fmap, H1, H2. done.
Qed.

Lemma initData_deltas_witness :
  let g := DataShaper.Sample.fresh DataShaper.Sample.quartersGap false true in
  let g' := DataShaper.Sample.shaped g in
  DataShaper.deltas g'
  = DataShaper.adjacentDeltas (DataShaper.pointsOf <$> DataShaper.data g')
  ∧ length (DataShaper.deltas g') = 1%nat.
Proof.
  intros g g'. split; [|vm_compute; reflexivity].
  apply (initData_deltas DataShaper.Sample.percentText g g').
  - vm_compute. reflexivity.
  - reflexivity.
  - vm_compute. reflexivity.
Defined.

(** * Facts about the canonical series order *)

Section orderSeries_facts.
Import JsNum DataShaper.

Lemma toposort_no_diverge {A} `{EqDecision A} (nodes : list A) edges :
  Toposort.toposort nodes edges ≠ Diverge.
Proof.
  unfold Toposort.toposort.
  destruct (Toposort.visitRoots _ _ _ _ _) as [s|e|] eqn:E; simpl; [done|done|].
  exfalso. eapply visitRoots_fuel; [|exact E]. lia.
Qed.

Lemma toposort_ret_permutation {A} `{EqDecision A} (nodes : list A) edges srt :
  (∀ e, e ∈ edges → e.2 ∈ nodes) →
  Toposort.toposort nodes edges = Ret srt →
  ∃ l, srt = Some <$> l ∧ l ≡ₚ nodes.
Proof.
  intros Htgt E.
  destruct (toposort_ret_stack nodes edges Htgt srt E) as (stk & Hperm & -> & _).
  destruct (lookup_all_Some nodes stk) as (l & Hl & _).
  { intros j Hj. rewrite Hperm in Hj. apply elem_of_seq in Hj. lia. }
  exists l. split; [done|].
  apply fmap_Some_Permutation_inv. rewrite <-Hl, Hperm. by rewrite lookup_seq_all.
Qed.

Lemma fmap_Some_omap_id {A} (l : list (option A)) :
  Forall is_Some l → Some <$> omap id l = l.
Proof.
  induction 1 as [|x l [a ->] _ IH]; [done|]. csimpl. by rewrite IH.
Qed.

Lemma Permutation_fmap_Some {A} (l' : list (option A)) (q : list A) :
  l' ≡ₚ Some <$> q → ∃ l, l' = Some <$> l ∧ l ≡ₚ q.
Proof.
  intros Hp. exists (omap id l'). split.
  - symmetry. apply fmap_Some_omap_id. apply Forall_forall. intros x Hx.
    rewrite Hp in Hx. apply list_elem_of_fmap in Hx as (a & -> & _). by eexists.
  - rewrite Hp. by rewrite omap_id_Some.
Qed.

(** The canonical order is a rearrangement of the first-encounter
    order, and that order itself when the edges have a cycle. *)
Lemma orderSeries_ret (q : list jsstring) (r : list Z) edges :
  (∀ e, e ∈ edges → e.2 ∈ Some <$> q) →
  ∃ l rs, orderSeries q r edges = Ret (Some <$> l, rs)
          ∧ l ≡ₚ q ∧ (Toposort.cyclic edges → l = q).
Proof.
  intros Htgt. unfold orderSeries.
  destruct (Toposort.toposort (Some <$> q) edges) as [srt|e|] eqn:E.
  - destruct (toposort_ret_permutation _ _ _ Htgt E) as (l' & -> & Hl').
    destruct (Permutation_fmap_Some l' q Hl') as (l & -> & Hl).
    exists l. eexists. split; [|split; [done|]].
    + f_equal. f_equal. rewrite <-list_fmap_compose.
      rewrite <-(list_fmap_id (Some <$> l)) at 2. by apply list_fmap_ext.
    + intros Hc. rewrite (toposort_cyclic_throws _ _ Htgt Hc) in E. done.
  - exists q. eexists. done.
  - by apply toposort_no_diverge in E.
Qed.
End orderSeries_facts.

(** * Facts about grouping and sorting *)

Section groupBy_facts.
Import DataShaper.
Context {X : Type}.
Implicit Types (key : X → jsstring) (l : list X).

Lemma firstEncounter_snoc {K} `{EqDecision K} (l : list K) (x : K) :
  firstEncounter (l ++ [x])
  = if decide (x ∈ l) then firstEncounter l else firstEncounter l ++ [x].
Proof.
  induction l as [|y l IH]; [done|].
  simpl. rewrite IH. destruct (decide (x = y)) as [->|Hne].
  - destruct (decide (y ∈ y :: l)) as [_|Hn]; [|exfalso; apply Hn; by left].
    destruct (decide (y ∈ l)); [done|].
    rewrite filter_app, filter_cons_False, app_nil_r; [done|]. naive_solver.
  - destruct (decide (x ∈ l)) as [Hin|Hnin].
    + destruct (decide (x ∈ y :: l)) as [_|Hn]; [done|].
      exfalso; apply Hn; by right.
    + destruct (decide (x ∈ y :: l)) as [Hn|_].
      { apply elem_of_cons in Hn as [?|?]; done. }
      rewrite filter_app, filter_cons_True by done. done.
Qed.

Lemma insertGroup_fmap (G : jsstring → list X) (ks : list jsstring) kx x :
  NoDup ks →
  insertGroup kx x ((λ k, (k, G k)) <$> ks)
  = ((λ k, (k, if decide (k = kx) then G k ++ [x] else G k)) <$> ks)
    ++ (if decide (kx ∈ ks) then [] else [(kx, [x])]).
Proof.
  induction ks as [|k ks IH]; intros Hnd; [done|].
  apply NoDup_cons in Hnd as [Hk Hnd]. csimpl.
  destruct (decide (k = kx)) as [->|Hne].
  - destruct (decide (kx ∈ kx :: ks)) as [_|Hn]; [|exfalso; apply Hn; by left].
    rewrite app_nil_r. f_equal.
    apply list_fmap_ext. intros i k' Hk'.
    rewrite decide_False; [done|]. intros ->.
    by apply list_elem_of_lookup_2 in Hk'.
  - rewrite IH by done. f_equal. f_equal.
    destruct (decide (kx ∈ ks)) as [Hin|Hnin].
    + destruct (decide (kx ∈ k :: ks)) as [_|Hn]; [done|].
      exfalso; apply Hn; by right.
    + destruct (decide (kx ∈ k :: ks)) as [Hn|_]; [|done].
      apply elem_of_cons in Hn as [?|?]; done.
Qed.

(** [groupBy]: one group for each key, in first-encounter order, holding
    the elements with that key in their order. *)
Lemma groupBy_spec key l :
  groupBy key l
  = (λ k, (k, filter (λ x, key x = k) l)) <$> firstEncounter (key <$> l).
Proof.
  induction l as [|x l IH] using rev_ind; [done|].
  unfold groupBy in *. rewrite foldl_snoc, IH.
  rewrite insertGroup_fmap by apply NoDup_firstEncounter.
  replace (key <$> l ++ [x]) with ((key <$> l) ++ [key x])
    by (by rewrite fmap_app).
  rewrite firstEncounter_snoc.
  assert (∀ k, (if decide (k = key x) then filter (λ y, key y = k) l ++ [x]
                else filter (λ y, key y = k) l)
               = filter (λ y, key y = k) (l ++ [x])) as Hfil.
  { intros k. rewrite filter_app. destruct (decide (k = key x)) as [->|Hne].
    - by rewrite filter_cons_True.
    - rewrite filter_cons_False by done. by rewrite app_nil_r. }
  destruct (decide (key x ∈ firstEncounter (key <$> l))) as [Hin|Hnin].
  - rewrite decide_True by (by apply elem_of_firstEncounter).
    rewrite app_nil_r. apply list_fmap_ext. intros i k _. by rewrite Hfil.
  - rewrite decide_False by (by rewrite <-elem_of_firstEncounter).
    rewrite fmap_app. f_equal.
    + apply list_fmap_ext. intros i k _. by rewrite Hfil.
    + simpl. f_equal. f_equal. rewrite filter_app, filter_cons_True by done.
      rewrite (filter_none _ l); [done|].
      intros y Hy Hkey. apply Hnin, elem_of_firstEncounter.
      rewrite <-Hkey. by apply list_elem_of_fmap_2.
Qed.
End groupBy_facts.

Section sorting_facts.
Import DataShaper.

Lemma StronglySorted_sublist {A} (R : relation A) (l1 l2 : list A) :
  l1 `sublist_of` l2 → StronglySorted R l2 → StronglySorted R l1.
Proof.
  induction 1 as [|x l1 l2 Hsub IH|x l1 l2 Hsub IH]; intros Hs.
  - constructor.
  - apply StronglySorted_inv in Hs as [Hs Hall]. constructor; [by apply IH|].
    apply Forall_forall. intros y Hy. rewrite Forall_forall in Hall.
    apply Hall. by eapply elem_of_sublist.
  - apply StronglySorted_inv in Hs as [Hs _]. by apply IH.
Qed.

Lemma StronglySorted_lookup_intro {A} (R : relation A) (l : list A) :
  (∀ (i j : nat) x y, (i < j)%nat → l !! i = Some x → l !! j = Some y → R x y) →
  StronglySorted R l.
Proof.
  induction l as [|x l IH]; intros Hl; constructor.
  - apply IH. intros i j a b Hij Ha Hb. by apply (Hl (S i) (S j)); [lia|..].
  - apply Forall_forall. intros y Hy. apply list_elem_of_lookup_1 in Hy as [j Hj].
    by apply (Hl 0%nat (S j)); [lia|..].
Qed.

Lemma StronglySorted_by_index {K} `{EqDecision K} (order : list K) :
  NoDup order →
  StronglySorted (λ a b, indexOf a order ≤ indexOf b order) order.
Proof.
  intros Hnd. apply StronglySorted_lookup_intro. intros i j x y Hij Hx Hy.
  rewrite (indexOf_NoDup order i x), (indexOf_NoDup order j y) by done. lia.
Qed.

Lemma filter_fmap {A B} (f : A → B) (P : B → Prop) `{∀ y, Decision (P y)}
    (l : list A) :
  filter P (f <$> l) = f <$> filter (λ x, P (f x)) l.
Proof.
  induction l as [|x l IH]; [done|]. csimpl.
  destruct (decide (P (f x))) as [HP|HP].
  - rewrite !filter_cons_True by done. csimpl. by rewrite IH.
  - rewrite !filter_cons_False by done. done.
Qed.

#[global] Instance byIndex_total {K X} `{EqDecision K}
    (order : list K) (key : X → K) : Total (byIndex order key).
Proof. intros x y. unfold byIndex. lia. Qed.

#[global] Instance byIndex_trans {K X} `{EqDecision K}
    (order : list K) (key : X → K) : Transitive (byIndex order key).
Proof. intros x y z. unfold byIndex. lia. Qed.

Lemma sortByIndex_Permutation {K X} `{EqDecision K}
    (order : list K) (key : X → K) (l : list X) :
  sortByIndex order key l ≡ₚ l.
Proof. apply merge_sort_Permutation. Qed.

(** Sorting by position in [order] lists the keys as [order] does. *)
Lemma sortByIndex_keys {K X} `{EqDecision K}
    (order : list K) (key : X → K) (l : list X) :
  NoDup order → NoDup (key <$> l) → (∀ x, x ∈ l → key x ∈ order) →
  key <$> sortByIndex order key l = filter (λ k, k ∈ key <$> l) order.
Proof.
  intros Hord Hl Hin.
  apply (StronglySorted_unique_strong
           (λ a b, indexOf a order ≤ indexOf b order)).
  - intros k1 k2 Hk1 Hk2 H12 H21.
    apply list_elem_of_filter in Hk2 as [_ Hk2].
    apply list_elem_of_fmap in Hk1 as (x & -> & Hx).
    rewrite sortByIndex_Permutation in Hx. apply Hin in Hx.
    destruct (indexOf_elem _ _ Hx) as (i & Hi & Hix).
    destruct (indexOf_elem _ _ Hk2) as (i2 & Hi2 & Hix2).
    assert (i = i2) as -> by lia. congruence.
  - apply (StronglySorted_fmap _ (byIndex order key)); [done|].
    apply Sorted_StronglySorted; [apply _|]. apply Sorted_merge_sort. apply _.
  - eapply StronglySorted_sublist; [apply sublist_filter|].
    by apply StronglySorted_by_index.
  - apply NoDup_Permutation.
    + by rewrite sortByIndex_Permutation.
    + by apply NoDup_filter.
    + intros k. rewrite sortByIndex_Permutation, list_elem_of_filter.
      split; [|by intros [? _]]. intros Hk. split; [done|].
      apply list_elem_of_fmap in Hk as (x & -> & Hx). by apply Hin.
Qed.

(** An entry of the sorted nest: a first-dimension value that occurs,
    with the rows of that value grouped by series and sorted. *)
Lemma sortedEntries_elem p (qs : list jsval) inData d :
  d ∈ sortedEntries p qs inData →
  d.1 ∈ keyText 0 <$> inData
  ∧ d.2 = sortByIndex qs (λ x, Some x.1)
            (groupBy (keyText 1) (filter (λ d', keyText 0 d' = d.1) inData)).
Proof.
  unfold sortedEntries. rewrite sortByIndex_Permutation.
  intros (e & -> & He)%list_elem_of_fmap. simpl.
  unfold nestEntries in He. apply list_elem_of_fmap in He as (e0 & -> & He0).
  rewrite groupBy_spec in He0.
  apply list_elem_of_fmap in He0 as (k1 & -> & Hk1). simpl.
  split; [by apply elem_of_firstEncounter|done].
Qed.

Lemma sortedEntries_rows p (qs : list jsval) inData d e :
  d ∈ sortedEntries p qs inData → e ∈ d.2 →
  e.2 = filter (λ d', keyText 1 d' = e.1)
               (filter (λ d', keyText 0 d' = d.1) inData)
  ∧ e.2 ≠ [].
Proof.
  intros [_ Hd]%sortedEntries_elem He. rewrite Hd in He.
  rewrite sortByIndex_Permutation, groupBy_spec in He.
  apply list_elem_of_fmap in He as (k2 & -> & Hk2). simpl.
  split; [done|].
  apply (proj1 (elem_of_firstEncounter _ _)) in Hk2.
  apply list_elem_of_fmap in Hk2 as (row & -> & Hrow).
  apply (elem_of_not_nil row). by apply list_elem_of_filter.
Qed.

(** The series of an entry are the series that have a row in its group,
    in canonical order. *)
Lemma sortedEntries_keys p (c : list jsstring) inData d :
  NoDup c → (∀ k, k ∈ keyText 1 <$> inData → k ∈ c) →
  d ∈ sortedEntries p (Some <$> c) inData →
  d.2.*1 = filter (hasRow inData d.1) c.
Proof.
  intros Hc Hall [_ Hd]%sortedEntries_elem.
  set (rows1 := filter (λ d', keyText 0 d' = d.1) inData) in *.
  assert (∀ k, k ∈ keyText 1 <$> rows1 ↔ hasRow inData d.1 k) as Hhas.
  { intros k. unfold hasRow, rows1. rewrite list_elem_of_fmap.
    setoid_rewrite list_elem_of_filter. naive_solver. }
  assert ((λ x : jsstring * list row, Some x.1)
            <$> groupBy (keyText 1) rows1
          = Some <$> firstEncounter (keyText 1 <$> rows1)) as Hkeys.
  { rewrite groupBy_spec, <-!list_fmap_compose. done. }
  apply (inj (fmap Some)).
  trans (filter (λ k, k ∈ Some <$> firstEncounter (keyText 1 <$> rows1))
                (Some <$> c)).
  2:{ rewrite filter_fmap. f_equal. apply filter_ext_in. intros k _.
      rewrite (list_elem_of_fmap_inj Some), elem_of_firstEncounter.
      apply Hhas. }
  rewrite <-Hkeys, <-sortByIndex_keys.
  - rewrite Hd, <-!list_fmap_compose. done.
  - by apply (NoDup_fmap_2 Some).
  - rewrite Hkeys. apply (NoDup_fmap_2 Some), NoDup_firstEncounter.
  - intros x Hx. apply list_elem_of_fmap_2, Hall.
    rewrite groupBy_spec in Hx. apply list_elem_of_fmap in Hx as (k & -> & Hk).
    apply (proj1 (elem_of_firstEncounter _ _)) in Hk. simpl.
    apply list_elem_of_fmap in Hk as (row & -> & Hrow).
    apply list_elem_of_fmap_2. by apply list_elem_of_filter in Hrow as [_ ?].
Qed.
End sorting_facts.

(** * The walk along the canonical order *)

Section walk_facts.
Import JsNum DataShaper.

Lemma stackStep_cases defDims vals st qi st' :
  stackStep defDims vals st qi = Ret st' →
  (st' = st
   ∧ (vals !! j st = None
      ∨ ∃ key rows, vals !! j st = Some (key, rows) ∧ Some key ≠ qi))
  ∨ ∃ key rows slot,
      vals !! j st = Some (key, rows) ∧ Some key = qi
      ∧ Slot.dim2 slot = key ∧ v st' = v st ++ [slot] ∧ j st' = S (j st).
Proof.
  unfold stackStep.
  destruct (vals !! j st) as [[key rows]|] eqn:Ev.
  2:{ intros [= <-]. left. split; [done|by left]. }
  destruct (decide (Some key = qi)) as [Hk|Hk].
  2:{ intros [= <-]. left. split; [done|]. right. by exists key, rows. }
  destruct rows as [|row0 rows]; [done|].
  destruct (cellAt row0 2); simpl; [|done|done].
  destruct (cellAt row0 0); simpl; [|done|done].
  destruct (decide (defDims = 2)).
  - destruct (cellAt row0 1); simpl; [|done|done].
    destruct (lt _ _); intros [= <-]; right;
      eexists key, _, _; simpl;
      (split; [done|]; split; [done|]; split; [|split; [reflexivity|done]]);
      done.
  - simpl. destruct (lt _ _); intros [= <-]; right;
      eexists key, _, _; simpl;
      (split; [done|]; split; [done|]; split; [|split; [reflexivity|done]]);
      done.
Qed.

Lemma sublist_tail {A} (x : A) (l k : list A) :
  x :: l `sublist_of` k → l `sublist_of` k.
Proof. intros H. etrans; [|exact H]. by constructor. Qed.

(** When the series of a group lie along the canonical order, the walk
    meets every one of them. *)
Lemma stack_walk defDims vals q st st' :
  forEach (stackStep defDims vals) q st = Ret st' →
  Some <$> (drop (j st) vals).*1 `sublist_of` q →
  Slot.dim2 <$> v st' = (Slot.dim2 <$> v st) ++ (drop (j st) vals).*1.
Proof.
  revert st. induction q as [|qi q IH]; intros st; simpl.
  - intros [= <-] Hsub. apply sublist_nil_r in Hsub.
    apply fmap_nil_inv in Hsub. by rewrite Hsub, app_nil_r.
  - destruct (stackStep defDims vals st qi) as [st1| |] eqn:E; simpl; [|done|done].
    intros Hrest Hsub.
    apply stackStep_cases in E
      as [[-> [Hnone|(key & rows & Hv & Hne)]]
         |(key & rows & slot & Hv & Hk & Hdim & Hvs & Hj)].
    + apply IH; [done|].
      rewrite drop_ge by (by apply lookup_ge_None). apply sublist_nil_l.
    + apply IH; [done|].
      rewrite (drop_S _ _ _ Hv) in Hsub |- *. csimpl in *.
      apply sublist_cons_r in Hsub as [Hsub|(l' & [= Heq _] & _)]; [done|].
      by destruct Hne.
    + rewrite (drop_S _ _ _ Hv) in Hsub |- *. csimpl in *.
      rewrite (IH st1 Hrest).
      * rewrite Hvs, Hj, fmap_app, <-app_assoc. simpl. by rewrite Hdim.
      * rewrite Hj. subst qi.
        apply sublist_cons_r in Hsub as [Hsub|(l' & [= <-] & Hsub)]; [|done].
        by eapply sublist_tail.
Qed.
End walk_facts.

(** * The series of each group *)

Section series_facts.
Import JsNum DataShaper.
Variable formatPct : jsnum → jsstring.

(** The canonical order of the model: the first-encounter order
    rearranged, and left as it is when the observed edges have a
    cycle. *)
Lemma twoDim_canonical g g' :
  branchOf g = TwoDim → initData formatPct g = Ret g' →
  ∃ c, allDim2 g' = Some <$> c
       ∧ c ≡ₚ firstEncounter (keyText 1 <$> inputRows g)
       ∧ (Toposort.cyclic (observedEdges (inputRows g)) →
          c = firstEncounter (keyText 1 <$> inputRows g)).
Proof.
  intros Hb Hret.
  destruct (twoDim_groups formatPct g g' Hb Hret)
    as (s & n & Hs & _ & (rs & Ho) & _).
  destruct (orderSeries_ret (q s) (r s) (edges s) (scan_targets _ _ Hs))
    as (c & rs' & Ho' & Hperm & Hcyc).
  rewrite Ho in Ho'. injection Ho' as Hc _.
  destruct (scan_firstEncounter _ _ Hs) as [Hq _].
  exists c. rewrite <-Hq. split; [done|]. split; [done|].
  unfold observedEdges. by rewrite Hs.
Qed.

Lemma finishPoint_dim2 b key posT negT (vs : list Slot.t) :
  Point.dim2 <$> (finishPoint formatPct b key posT negT <$> vs)
  = Slot.dim2 <$> vs.
Proof.
  rewrite <-list_fmap_compose. apply list_fmap_ext. intros i e _.
  by destruct b.
Qed.

Lemma groupOf_series g (c : list jsstring) p inData d grp :
  NoDup c → (∀ k, k ∈ keyText 1 <$> inData → k ∈ c) →
  d ∈ sortedEntries p (Some <$> c) inData →
  groupOf formatPct g (Some <$> c) d grp →
  Group.dim1 grp = d.1
  ∧ ∃ vs, Group.values grp = Some vs
          ∧ Point.dim2 <$> vs = filter (hasRow inData d.1) c.
Proof.
  intros Hc Hall Hd (st & Hst & ->). simpl. split; [done|].
  eexists. split; [done|]. rewrite finishPoint_dim2.
  pose proof (sortedEntries_keys p c inData d Hc Hall Hd) as Hkeys.
  rewrite (stack_walk _ _ _ _ _ Hst); simpl.
  - by rewrite drop_0.
  - rewrite drop_0, Hkeys. apply fmap_sublist, sublist_filter.
Qed.
End series_facts.

(** What the loop of lines 293-325 stores, for every input.  On the
    two-dimensional path the [values] of a group hold one point for each
    series that has a row in the group, in canonical order, and nothing
    else: the placeholder values of a series without a row are assigned
    to locals and never pushed.  This is the defect behind C2 and C3. *)
Theorem initData_series_slots
    (formatPct : JsNum.jsnum → jsstring) (g g' : DataShaper.chart) :
  DataShaper.branchOf g = DataShaper.TwoDim →
  DataShaper.initData formatPct g = Ret g' →
  ∃ canonical,
    DataShaper.allDim2 g' = Some <$> canonical
    ∧ Forall (λ grp,
        ∃ vs, DataShaper.Group.values grp = Some vs
          ∧ DataShaper.Point.dim2 <$> vs
            = filter (DataShaper.hasRow (DataShaper.inputRows g)
                                        (DataShaper.Group.dim1 grp))
                     canonical
          ∧ ∀ k, ¬ DataShaper.hasRow (DataShaper.inputRows g)
                                     (DataShaper.Group.dim1 grp) k →
                 k ∉ DataShaper.Point.dim2 <$> vs)
        (DataShaper.data g').
Proof.
  intros Hb Hret.
  destruct (twoDim_canonical formatPct g g' Hb Hret) as (c & Hc & Hperm & _).
  destruct (twoDim_groups formatPct g g' Hb Hret)
    as (s & n & _ & -> & _ & Hall & _).
  exists c. split; [done|]. rewrite Hc in Hall.
  assert (NoDup c) as Hnd by (rewrite Hperm; apply NoDup_firstEncounter).
  assert (∀ k, k ∈ DataShaper.keyText 1 <$> DataShaper.inputRows g → k ∈ c)
    as Hin.
  { intros k Hk. rewrite Hperm. by apply elem_of_firstEncounter. }
  apply Forall_forall. intros grp Hgrp.
  apply list_elem_of_lookup_1 in Hgrp as [i Hi].
  destruct (Forall2_lookup_r _ _ _ _ _ Hall Hi) as (d & Hd & Hgd).
  apply list_elem_of_lookup_2 in Hd.
  destruct (groupOf_series formatPct g c _ _ d grp Hnd Hin Hd Hgd)
    as (Hdim & vs & Hvs & Hkeys).
  exists vs. rewrite Hdim. split; [done|]. split; [done|].
  intros k Hk. rewrite Hkeys, list_elem_of_filter. by intros [? _].
Qed.

Lemma initData_series_slots_witness :
  let g := DataShaper.Sample.fresh DataShaper.Sample.quartersGap false true in
  ∃ canonical,
    DataShaper.allDim2 (DataShaper.Sample.shaped g) = Some <$> canonical
    ∧ Forall (λ grp,
        ∃ vs, DataShaper.Group.values grp = Some vs
          ∧ DataShaper.Point.dim2 <$> vs
            = filter (DataShaper.hasRow (DataShaper.inputRows g)
                                        (DataShaper.Group.dim1 grp))
                     canonical
          ∧ ∀ k, ¬ DataShaper.hasRow (DataShaper.inputRows g)
                                     (DataShaper.Group.dim1 grp) k →
                 k ∉ DataShaper.Point.dim2 <$> vs)
        (DataShaper.data (DataShaper.Sample.shaped g)).
Proof.
  intros g.
  apply (initData_series_slots DataShaper.Sample.percentText g).
  - vm_compute. reflexivity.
  - vm_compute. reflexivity.
Defined.

(** The placeholder of C2 is missing: Q2 has no row for East, the first
    series of the canonical order, and the first slot of Q2 holds the
    point of West, not a placeholder for East. *)
Lemma initData_no_placeholder :
  ¬ (∀ (g g' : DataShaper.chart) grp (k : jsstring) (i : nat),
       DataShaper.branchOf g = DataShaper.TwoDim →
       DataShaper.initData DataShaper.Sample.percentText g = Ret g' →
       grp ∈ DataShaper.data g' →
       DataShaper.allDim2 g' !! i = Some (Some k) →
       ¬ DataShaper.hasRow (DataShaper.inputRows g)
                           (DataShaper.Group.dim1 grp) k →
       ∃ pt, DataShaper.pointsOf grp !! i = Some pt
             ∧ DataShaper.Point.dim2 pt = k
             ∧ DataShaper.Point.qNum pt ≈ JsNum.zero
             ∧ DataShaper.Point.qText pt = str "-").
Proof.
  intros Hall.
  pose (g := DataShaper.Sample.fresh DataShaper.Sample.quartersGap false true).
  assert (DataShaper.branchOf g = DataShaper.TwoDim) as Hb
    by (vm_compute; reflexivity).
  destruct (DataShaper.initData DataShaper.Sample.percentText g)
    as [g'| |] eqn:Hret; [|by vm_compute in Hret..].
  pose proof (λ grp k i, Hall g g' grp k i Hb Hret) as Hg. clear Hall.
  vm_compute in Hret. injection Hret as <-.
  cbn [DataShaper.data DataShaper.allDim2] in Hg.
  match type of Hg with
  | ∀ grp k i, grp ∈ [_; ?q2] → _ =>
      destruct (Hg q2 (str "East") 0%nat) as (pt & Hpt & Hdim & _)
  end.
  - right. left.
  - reflexivity.
  - apply (bool_decide_eq_false_1 _). vm_compute. reflexivity.
  - vm_compute in Hpt. injection Hpt as <-. vm_compute in Hdim. discriminate Hdim.
Qed.

(** * [initData] returns on well-formed rows *)

Section forEachI_returns.
Context {X St : Type}.

Lemma forEachI_returns (P : nat → St → Prop)
    (f : St → nat → X → outcome St) (l : list X) (i : nat) (s : St) :
  (∀ s i x, x ∈ l → P i s → ∃ s', f s i x = Ret s' ∧ P (S i) s') →
  P i s → ∃ s', forEachI f l i s = Ret s'.
Proof.
  revert i s. induction l as [|x l IH]; intros i s Hstep Hs; simpl.
  - by exists s.
  - destruct (Hstep s i x) as (s1 & -> & Hs1); [by left|done|]. simpl.
    apply IH; [|done]. intros s2 i2 y Hy. apply Hstep. by right.
Qed.
End forEachI_returns.

Section returns_facts.
Import JsNum DataShaper.
Variable formatPct : jsnum → jsstring.

Lemma stackStep_returns defDims vals st qi :
  Forall (λ e : jsstring * list row,
            ∃ row0 rest, e.2 = row0 :: rest ∧ fullRow row0) vals →
  ∃ st', stackStep defDims vals st qi = Ret st'.
Proof.
  intros Hvals. unfold stackStep.
  destruct (vals !! j st) as [[key rows]|] eqn:Ev; [|by eexists].
  destruct (decide (Some key = qi)); [|by eexists].
  rewrite Forall_forall in Hvals.
  destruct (Hvals (key, rows)) as (row0 & rest & Hrows & Hfull);
    [by eapply list_elem_of_lookup_2|].
  simpl in Hrows. subst rows.
  destruct (fullRow_cells row0 Hfull) as (c0 & c1 & c2 & -> & -> & ->). simpl.
  destruct (decide (defDims = 2)); simpl; destruct (lt _ _); by eexists.
Qed.

Lemma groupStep_returns g q acc idx d :
  (∃ st, forEach (stackStep (defDims g) d.2) q stackStart = Ret st) →
  idx = length (Acc.struc acc) →
  Forall (λ grp, is_Some (Group.values grp)) (Acc.struc acc) →
  ∃ acc', groupStep formatPct g q acc idx d = Ret acc'
          ∧ S idx = length (Acc.struc acc')
          ∧ Forall (λ grp, is_Some (Group.values grp)) (Acc.struc acc').
Proof.
  intros [st Hst] -> Hall. unfold groupStep. rewrite Hst. simpl.
  set (grp := Group.mk _ _ _ _).
  assert (Forall (λ grp, is_Some (Group.values grp)) (Acc.struc acc ++ [grp]))
    as Hall'.
  { apply Forall_app. split; [done|]. repeat constructor. by eexists. }
  assert (S (length (Acc.struc acc)) = length (Acc.struc acc ++ [grp])) as Hlen.
  { rewrite length_app. simpl. lia. }
  destruct (bool_decide (0 < length (Acc.struc acc))%nat && showDeltas g)
    eqn:Hcond; [|by eexists].
  apply andb_true_iff in Hcond as [Hpos%bool_decide_eq_true _].
  destruct (lookup_lt_is_Some_2 (Acc.struc acc ++ [grp])
              (length (Acc.struc acc) - 1)) as [gp Hgp]; [lia|].
  destruct (lookup_lt_is_Some_2 (Acc.struc acc ++ [grp])
              (length (Acc.struc acc))) as [gc Hgc]; [lia|].
  rewrite Hgp, Hgc. rewrite Forall_forall in Hall'.
  destruct (Hall' gp) as [p Hp]; [by eapply list_elem_of_lookup_2|].
  destruct (Hall' gc) as [c Hc]; [by eapply list_elem_of_lookup_2|].
  rewrite Hp, Hc. eexists. split; [done|]. split; [done|].
  by apply Forall_forall.
Qed.

Lemma sortedEntries_fullRows p (qs : list jsval) inData d :
  Forall fullRow inData → d ∈ sortedEntries p qs inData →
  Forall (λ e : jsstring * list row,
            ∃ row0 rest, e.2 = row0 :: rest ∧ fullRow row0) d.2.
Proof.
  intros Hfull Hd. apply Forall_forall. intros e He.
  destruct (sortedEntries_rows p qs inData d e Hd He) as [Hrows Hne].
  destruct (e.2) as [|row0 rest] eqn:E2; [done|].
  exists row0, rest. split; [done|].
  rewrite Forall_forall in Hfull. apply Hfull.
  assert (row0 ∈ row0 :: rest) as Hin by (by left).
  rewrite Hrows in Hin.
  by apply list_elem_of_filter in Hin as [_ [_ ?]%list_elem_of_filter].
Qed.

(** On rows that have their three cells the two-dimensional path runs
    to its end. *)
Lemma shapeTwoDim_returns g inData :
  Forall fullRow inData → ∃ g', shapeTwoDim formatPct g inData = Ret g'.
Proof.
  intros Hfull. unfold shapeTwoDim.
  destruct (scan_returns inData Hfull) as [s Hs]. rewrite Hs. simpl.
  destruct (orderSeries_ret (q s) (r s) (edges s) (scan_targets _ _ Hs))
    as (c & rs & -> & _). simpl.
  destruct (forEachI_returns
              (λ i acc, i = length (Acc.struc acc)
                        ∧ Forall (λ grp, is_Some (Group.values grp))
                                 (Acc.struc acc))
              (groupStep formatPct g (Some <$> c))
              (sortedEntries (p s) (Some <$> c) inData) 0
              (Acc.mk [] [] [])) as [acc ->]; [| |by eexists].
  - intros acc i d Hd [Hi Hall].
    destruct (groupStep_returns g (Some <$> c) acc i d) as (acc' & ? & ? & ?);
      [|done|done|by exists acc'].
    destruct (forEach_returns (λ _, True) (stackStep (defDims g) d.2)
                (Some <$> c) stackStart) as (st & Hst & _); [|done|by exists st].
    intros st qi _ _.
    destruct (stackStep_returns (defDims g) d.2 st qi) as [st' Hst'];
      [by eapply sortedEntries_fullRows|by exists st'].
  - split; [done|constructor].
Qed.
End returns_facts.

(** C5.  For a two-dimensional input (every row with its two dimension
    cells and its measure cell) whose observed series-order edges have a
    cycle, [initData] does not throw, and the canonical series order of
    the model is the first-encounter order of the second-dimension
    values. *)
Theorem initData_cyclic_fallback
    (formatPct : JsNum.jsnum → jsstring) (g : DataShaper.chart) :
  DataShaper.branchOf g = DataShaper.TwoDim →
  Forall DataShaper.fullRow (DataShaper.inputRows g) →
  Toposort.cyclic (DataShaper.observedEdges (DataShaper.inputRows g)) →
  ∃ g', DataShaper.initData formatPct g = Ret g'
        ∧ DataShaper.allDim2 g'
          = Some <$> DataShaper.firstEncounter
                       (DataShaper.keyText 1 <$> DataShaper.inputRows g).
Proof.
  intros Hb Hfull Hcyc.
  destruct (shapeTwoDim_returns formatPct g _ Hfull) as [g' Hg'].
  rewrite <-initData_twoDim in Hg' by done.
  exists g'. split; [done|].
  destruct (twoDim_canonical formatPct g g' Hb Hg') as (c & -> & _ & Hc).
  by rewrite (Hc Hcyc).
Qed.

Lemma initData_cyclic_fallback_witness :
  let g := DataShaper.Sample.fresh DataShaper.Sample.cycle false true in
  ∃ g', DataShaper.initData DataShaper.Sample.percentText g = Ret g'
        ∧ DataShaper.allDim2 g' = [Some (str "A"); Some (str "B"); Some (str "C")].
Proof.
  intros g.
  destruct (initData_cyclic_fallback DataShaper.Sample.percentText g)
    as (g' & Hret & Hdim).
  - vm_compute. reflexivity.
  - unfold DataShaper.fullRow. vm_compute DataShaper.inputRows.
    repeat constructor; eexists _, _, _; repeat split; reflexivity.
  - assert (DataShaper.observedEdges (DataShaper.inputRows g)
            = [(Some (str "A"), Some (str "B"));
               (Some (str "B"), Some (str "C"));
               (Some (str "C"), Some (str "A"))]) as ->
      by (vm_compute; reflexivity).
    exists (Some (str "A")).
    eapply tc_l; [|eapply tc_l; [|apply tc_once]];
      unfold Toposort.edge; apply list_elem_of_In; simpl; tauto.
  - exists g'. split; [done|]. rewrite Hdim. vm_compute. reflexivity.
Defined.

(** * Facts about normalization *)

Section division_facts.
Import JsNum DataShaper.

Lemma div_Fin_nonzero a b : ¬ (b == 0)%Q → div (Fin a) (Fin b) = Fin (a / b).
Proof.
  intros Hb. unfold div. destruct (b ?= 0)%Q eqn:E; [|done|done].
  by apply Qeq_alt in E.
Qed.

Lemma div_Fin_zero a b : (b == 0)%Q → div (Fin a) (Fin b) = signedInf a.
Proof.
  intros Hb. unfold div. destruct (b ?= 0)%Q eqn:E; [done|..].
  - apply Qlt_alt in E. rewrite Hb in E. by apply Qlt_irrefl in E.
  - apply Qgt_alt in E. rewrite Hb in E. by apply Qlt_irrefl in E.
Qed.

Lemma signedInf_neg a : (a < 0)%Q → signedInf a = NInf.
Proof.
  intros Ha. unfold signedInf. destruct (a ?= 0)%Q eqn:E; [|done|].
  - apply Qeq_alt in E. rewrite E in Ha. by apply Qlt_irrefl in Ha.
  - apply Qgt_alt in E. exfalso. eapply Qlt_irrefl. by etrans.
Qed.

Lemma signedInf_nonneg a : (0 <= a)%Q → signedInf a = PInf ∨ signedInf a = NaN.
Proof.
  intros Ha. unfold signedInf. destruct (a ?= 0)%Q eqn:E; [by right| |by left].
  apply Qlt_alt in E. exfalso. by eapply Qlt_not_le.
Qed.

Lemma sumNum_cons x l : sumNum (x :: l) = add x (sumNum l).
Proof. done. Qed.

Lemma sumNum_nonneg l :
  Forall (λ x, ∃ a, x = Fin a ∧ (0 <= a)%Q) l →
  ∃ b, sumNum l = Fin b ∧ (0 <= b)%Q.
Proof.
  induction 1 as [|x l (a & -> & Ha) _ (b & Hb & Hb0)].
  - by exists 0%Q.
  - exists (a + b)%Q. rewrite sumNum_cons, Hb. split; [done|].
    replace 0%Q with (0 + 0)%Q by done. by apply Qplus_le_compat.
Qed.

Lemma sumNum_nonpos l :
  Forall (λ x, ∃ a, x = Fin a ∧ (a <= 0)%Q) l →
  ∃ b, sumNum l = Fin b ∧ (b <= 0)%Q.
Proof.
  induction 1 as [|x l (a & -> & Ha) _ (b & Hb & Hb0)].
  - by exists 0%Q.
  - exists (a + b)%Q. rewrite sumNum_cons, Hb. split; [done|].
    replace 0%Q with (0 + 0)%Q by done. by apply Qplus_le_compat.
Qed.

Lemma sumNum_div l b :
  Forall (λ x, isFinite x = true) l → ¬ (b == 0)%Q →
  sumNum ((λ x, div x (Fin b)) <$> l) ≈ div (sumNum l) (Fin b).
Proof.
  intros Hl Hb. induction Hl as [|x l Hx Hl IH].
  - change (Fin 0 ≈ div (Fin 0) (Fin b)).
    rewrite div_Fin_nonzero by done. simpl. unfold Qdiv. ring.
  - rewrite fmap_cons, !sumNum_cons, IH.
    apply isFinite_Fin in Hx as [a ->].
    apply sumNum_proper_fin, isFinite_Fin in Hl as [s ->].
    cbn [add]. rewrite !div_Fin_nonzero by done.
    cbn [add same]. unfold Qdiv. ring.
Qed.

Lemma same_Fin_r x a : x ≈ Fin a → ∃ a', x = Fin a' ∧ (a' == a)%Q.
Proof. destruct x as [a'| | |]; simpl; [|done..]. intros H. by exists a'. Qed.

(** Normalizing keeps the sign classes apart: where the positive top
    is not zero the values at least 0 stay so, and the negative ones
    stay negative. *)
Lemma normalized_nonNegative (b c : Q) (nums : list jsnum) :
  Forall (λ x, isFinite x = true) nums →
  (0 <= b)%Q → ¬ (b == 0)%Q → (c <= 0)%Q →
  filter nonNegative
    ((λ x, div x (if lt x zero then neg (Fin c) else Fin b)) <$> nums)
  = (λ x, div x (Fin b)) <$> filter nonNegative nums.
Proof.
  intros Hfin Hb Hb0 Hc. induction Hfin as [|x nums Hx _ IH]; [done|].
  apply isFinite_Fin in Hx as [a ->]. rewrite fmap_cons.
  destruct (lt (Fin a) zero) eqn:Hlt.
  - apply lt_zero_Fin in Hlt.
    rewrite (filter_cons_False _ (Fin a)).
    2:{ unfold nonNegative. rewrite ge_zero_Fin. by apply Qlt_not_le. }
    rewrite filter_cons_False; [done|]. simpl neg.
    destruct (Qeq_dec (- c) 0) as [Hz|Hnz].
    + rewrite div_Fin_zero, signedInf_neg by done. done.
    + rewrite div_Fin_nonzero by done. unfold nonNegative.
      rewrite ge_zero_Fin. apply Qlt_not_le.
      assert (0 < - c)%Q as Hpos.
      { apply Qle_lteq in Hc as [Hc|Hc].
        - rewrite <-(Qopp_opp 0). by apply Qopp_lt_compat in Hc.
        - exfalso. apply Hnz. rewrite Hc. done. }
      unfold Qdiv. rewrite <-(Qmult_0_l (/ - c)).
      apply Qmult_lt_compat_r; [by apply Qinv_lt_0_compat|done].
  - assert (0 <= a)%Q as Ha.
    { apply ge_zero_Fin. apply lt_zero_false_ge; done. }
    rewrite (filter_cons_True _ (Fin a)) by (by apply ge_zero_Fin).
    rewrite fmap_cons, <-IH. rewrite filter_cons_True; [done|].
    rewrite div_Fin_nonzero by done. unfold nonNegative. rewrite ge_zero_Fin.
    apply Qle_shift_div_l; [|by rewrite Qmult_0_l].
    apply Qle_lteq in Hb as [Hb|Hb]; [done|]. exfalso. apply Hb0. by symmetry.
Qed.

Lemma normalized_negative (b c : Q) (nums : list jsnum) :
  Forall (λ x, isFinite x = true) nums →
  (0 <= b)%Q → (c <= 0)%Q → ¬ (c == 0)%Q →
  filter negative
    ((λ x, div x (if lt x zero then neg (Fin c) else Fin b)) <$> nums)
  = (λ x, div x (Fin (- c))) <$> filter negative nums.
Proof.
  intros Hfin Hb Hc Hc0. induction Hfin as [|x nums Hx _ IH]; [done|].
  apply isFinite_Fin in Hx as [a ->]. rewrite fmap_cons.
  assert (0 < - c)%Q as Hpos.
  { apply Qle_lteq in Hc as [Hc|Hc]; [|done].
    rewrite <-(Qopp_opp 0). by apply Qopp_lt_compat in Hc. }
  assert (¬ (- c == 0)%Q) as Hnz.
  { intros Hz. rewrite Hz in Hpos. by apply Qlt_irrefl in Hpos. }
  destruct (lt (Fin a) zero) eqn:Hlt.
  - rewrite (filter_cons_True _ (Fin a)) by done.
    rewrite fmap_cons, <-IH. simpl neg. rewrite filter_cons_True; [done|].
    rewrite div_Fin_nonzero by done. unfold negative. rewrite lt_zero_Fin.
    apply lt_zero_Fin in Hlt.
    unfold Qdiv. rewrite <-(Qmult_0_l (/ - c)).
    apply Qmult_lt_compat_r; [by apply Qinv_lt_0_compat|done].
  - assert (0 <= a)%Q as Ha.
    { apply ge_zero_Fin. apply lt_zero_false_ge; done. }
    rewrite (filter_cons_False _ (Fin a)) by (unfold negative; by rewrite Hlt).
    rewrite filter_cons_False; [done|].
    destruct (Qeq_dec b 0) as [Hz|Hbnz].
    + rewrite div_Fin_zero by done.
      by destruct (signedInf_nonneg a Ha) as [-> | ->].
    + rewrite div_Fin_nonzero by done. unfold negative. rewrite lt_zero_Fin.
      apply Qle_not_lt. apply Qle_shift_div_l; [|by rewrite Qmult_0_l].
      apply Qle_lteq in Hb as [Hb|Hb]; [done|]. exfalso. apply Hbnz. by symmetry.
Qed.
End division_facts.

Lemma Forall2_common {A B C} (P : A → B → Prop) (Q : A → C → Prop)
    (R : B → C → Prop) (l : list A) (lb : list B) (lc : list C) :
  Forall2 P l lb → Forall2 Q l lc →
  (∀ a b c, a ∈ l → P a b → Q a c → R b c) → Forall2 R lb lc.
Proof.
  intros HP. revert lc. induction HP as [|a b l lb Hab _ IH]; intros lc HQ HR.
  - inversion HQ. constructor.
  - inversion HQ as [|? c ? lc' Hac HQ']; subst. constructor.
    + eapply HR; [by left|done|done].
    + apply IH; [done|]. intros a' b' c' Ha'. apply HR. by right.
Qed.

Section normalized_facts.
Import JsNum DataShaper.
Variable formatPct : jsnum → jsstring.

Lemma finishPoint_normalized key posT negT (e : Slot.t) :
  normalizedPoint formatPct posT negT
    (finishPoint formatPct false key posT negT e)
    (finishPoint formatPct true key posT negT e).
Proof. unfold normalizedPoint, finishPoint. simpl. done. Qed.

Lemma groupOf_normalized g g0 q d raw grp :
  normalized g = true → normalized g0 = false → defDims g0 = defDims g →
  groupOf formatPct g0 q d raw → groupOf formatPct g q d grp →
  normalizedGroup formatPct raw grp.
Proof.
  intros Hn Hn0 Hdims (st0 & Hst0 & ->) (st & Hst & ->).
  rewrite Hdims, Hst in Hst0. injection Hst0 as <-.
  rewrite Hn, Hn0. unfold normalizedGroup, pointsOf. simpl.
  split; [done|]. split; [done|]. split; [done|]. split; [by eexists|].
  apply Forall2_fmap, Forall_Forall2_diag, Forall_forall.
  intros e _. apply finishPoint_normalized.
Qed.

Lemma finishPoint_nums key posT negT (vs : list Slot.t) :
  Point.qNum <$> (finishPoint formatPct true key posT negT <$> vs)
  = (λ x, div x (if lt x zero then neg negT else posT)) <$> (Slot.qNum <$> vs).
Proof. rewrite <-!list_fmap_compose. by apply list_fmap_ext. Qed.

(** In exact arithmetic the normalized values of a sign sum to one. *)
Lemma groupOf_unitSums g q d grp :
  normalized g = true → groupOf formatPct g q d grp → unitSums grp.
Proof.
  intros Hn (st & Hst & ->). rewrite Hn.
  destruct (stack_invariant _ _ _ _ Hst) as (Hfin & Hpos & Hneg & _).
  set (nums := Slot.qNum <$> v st) in *.
  assert (Forall (λ x, isFinite x = true) nums) as Hnums.
  { unfold nums. by apply Forall_fmap. }
  destruct (sumNum_nonneg (filter nonNegative nums)) as (b0 & Hb0 & Hb0pos).
  { apply Forall_forall. intros x [Hx Hin]%list_elem_of_filter.
    rewrite Forall_forall in Hnums. apply Hnums, isFinite_Fin in Hin as [a ->].
    exists a. split; [done|]. by apply ge_zero_Fin. }
  destruct (sumNum_nonpos (filter negative nums)) as (c0 & Hc0 & Hc0neg).
  { apply Forall_forall. intros x [Hx Hin]%list_elem_of_filter.
    rewrite Forall_forall in Hnums. apply Hnums, isFinite_Fin in Hin as [a ->].
    exists a. split; [done|]. apply Qlt_le_weak. by apply lt_zero_Fin. }
  rewrite Hb0 in Hpos. rewrite Hc0 in Hneg.
  apply same_Fin_r in Hpos as (b & Hb & Hbb0).
  apply same_Fin_r in Hneg as (c & Hc & Hcc0).
  assert (0 <= b)%Q as Hbpos by (by rewrite Hbb0).
  assert (c <= 0)%Q as Hcneg by (by rewrite Hcc0).
  assert (∀ P `{∀ x, Decision (P x)},
            Forall (λ x, isFinite x = true) (filter P nums)) as Hfil.
  { intros P ?. apply Forall_forall. intros x [_ Hx]%list_elem_of_filter.
    rewrite Forall_forall in Hnums. by apply Hnums. }
  unfold unitSums, pointsOf. simpl. rewrite finishPoint_nums. fold nums.
  rewrite Hb, Hc. split.
  - intros Hb0'. assert (¬ (b == 0)%Q) as Hbnz by done.
    rewrite normalized_nonNegative by done.
    rewrite sumNum_div by done.
    rewrite Hb0, div_Fin_nonzero by done. simpl. rewrite <-Hbb0.
    unfold Qdiv. by apply Qmult_inv_r.
  - intros Hc0'. assert (¬ (c == 0)%Q) as Hcnz by done.
    assert (¬ (- c == 0)%Q) as Hcnz'.
    { intros Hz. apply Hcnz. rewrite <-(Qopp_opp c), Hz. done. }
    rewrite normalized_negative by done.
    rewrite sumNum_div by done.
    rewrite Hc0, div_Fin_nonzero by done. simpl. rewrite <-Hcc0.
    field. done.
Qed.

(** The model that [initData] builds with [normalized] off exists
    whenever the one with [normalized] on does. *)
Lemma twoDim_raw g g' :
  branchOf g = TwoDim → normalized g = true →
  initData formatPct g = Ret g' →
  ∃ raw, initData formatPct (withNormalized false g) = Ret raw
         ∧ Forall2 (normalizedGroup formatPct) (data raw) (data g').
Proof.
  intros Hb Hn Hret.
  assert (branchOf (withNormalized false g) = TwoDim) as Hb0 by done.
  pose proof Hret as Hret'.
  rewrite initData_twoDim in Hret' by done.
  apply shapeTwoDim_ret in Hret' as (s & qs & rs & acc & Hs & Ho & Hacc & ->).
  pose proof (groups_shaped _ _ _ _ _ Hacc) as (Hall & _).
  assert (∃ raw, initData formatPct (withNormalized false g) = Ret raw)
    as [raw Hraw].
  { rewrite initData_twoDim by done. unfold shapeTwoDim.
    change (inputRows (withNormalized false g)) with (inputRows g).
    rewrite Hs. simpl. rewrite Ho. simpl.
    destruct (forEachI_returns
                (λ i acc, i = length (Acc.struc acc)
                          ∧ Forall (λ grp, is_Some (Group.values grp))
                                   (Acc.struc acc))
                (groupStep formatPct (withNormalized false g) qs)
                (sortedEntries (p s) qs (inputRows g)) 0
                (Acc.mk [] [] [])) as [acc0 ->]; [| |by eexists].
    - intros acc0 i d Hd [Hi Hall0].
      destruct (groupStep_returns formatPct (withNormalized false g) qs acc0 i d)
        as (acc' & ? & ? & ?); [|done|done|by exists acc'].
      apply list_elem_of_lookup_1 in Hd as [k Hk].
      destruct (Forall2_lookup_l _ _ _ _ _ Hall Hk) as (grp & _ & st & Hst & _).
      by exists st.
    - split; [done|constructor]. }
  exists raw. split; [done|].
  pose proof Hraw as Hraw'.
  rewrite initData_twoDim in Hraw' by done.
  apply shapeTwoDim_ret in Hraw'
    as (s0 & qs0 & rs0 & acc0 & Hs0 & Ho0 & Hacc0 & ->).
  change (inputRows (withNormalized false g)) with (inputRows g) in *.
  rewrite Hs in Hs0. injection Hs0 as <-.
  rewrite Ho in Ho0. injection Ho0 as <- <-.
  pose proof (groups_shaped _ _ _ _ _ Hacc0) as (Hall0 & _).
  simpl. eapply Forall2_common; [exact Hall0|exact Hall|].
  intros d rawgrp grp _ Hd0 Hd.
  by apply (groupOf_normalized g (withNormalized false g) qs d).
Qed.
End normalized_facts.

(** C4 as stated fails for a group whose values are all zero: its top
    is 0, the only value becomes 0/0, and no sum of its values is 1. *)
Lemma initData_normalized_zero_group :
  ¬ (∀ g g' : DataShaper.chart,
       DataShaper.branchOf g = DataShaper.TwoDim →
       DataShaper.normalized g = true →
       DataShaper.initData DataShaper.Sample.percentText g = Ret g' →
       Forall (λ grp, Forall (DataShaper.sumsToOne grp)
                             (DataShaper.pointsOf grp))
              (DataShaper.data g')).
Proof.
  intros Hall.
  pose (g := DataShaper.Sample.fresh DataShaper.Sample.allZero true true).
  assert (DataShaper.branchOf g = DataShaper.TwoDim) as Hb
    by (vm_compute; reflexivity).
  destruct (DataShaper.initData DataShaper.Sample.percentText g)
    as [g'| |] eqn:Hret; [|by vm_compute in Hret..].
  specialize (Hall g g' Hb eq_refl Hret).
  vm_compute in Hret. injection Hret as <-.
  cbn [DataShaper.data] in Hall.
  apply Forall_inv in Hall.
  cbn [DataShaper.pointsOf DataShaper.Group.values default] in Hall.
  apply Forall_inv in Hall. vm_compute in Hall. discriminate Hall.
Qed.

(** * Facts about the numeric domain *)

Section fold_facts.
Import JsNum.
Variables (op : jsnum → jsnum → jsnum) (qop : Q → Q → Q).
Hypothesis op_Fin : ∀ a b, ∃ c, op (Fin a) (Fin b) = Fin c ∧ (c == qop a b)%Q.
Hypothesis qop_proper : Proper (Qeq ==> Qeq ==> Qeq) qop.
Hypothesis qop_assoc : ∀ a b c, (qop a (qop b c) == qop (qop a b) c)%Q.
Hypothesis qop_comm : ∀ a b, (qop a b == qop b a)%Q.

Lemma foldl_qop_proper (a a' : Q) (l : list Q) :
  (a == a')%Q → (foldl qop a l == foldl qop a' l)%Q.
Proof.
  revert a a'. induction l as [|x l IH]; intros a a' Ha; [done|].
  simpl. apply IH. by rewrite Ha.
Qed.

Lemma foldl_hom (a : Q) (l : list jsnum) :
  Forall (λ x, isFinite x = true) l →
  ∃ c, foldl op (Fin a) l = Fin c ∧ (c == foldl qop a (toQ <$> l))%Q.
Proof.
  intros Hl. revert a. induction Hl as [|x l Hx _ IH]; intros a.
  - by exists a.
  - apply isFinite_Fin in Hx as [b ->]. simpl.
    destruct (op_Fin a b) as (c & -> & Hc).
    destruct (IH c) as (r & -> & Hr). exists r. split; [done|].
    rewrite Hr. by apply foldl_qop_proper.
Qed.

Lemma foldr_hom (a : Q) (l : list jsnum) :
  Forall (λ x, isFinite x = true) l →
  ∃ c, foldr op (Fin a) l = Fin c ∧ (c == foldr qop a (toQ <$> l))%Q.
Proof.
  induction 1 as [|x l Hx _ (r & Hr & Hrq)].
  - by exists a.
  - apply isFinite_Fin in Hx as [b ->]. simpl. rewrite Hr.
    destruct (op_Fin b r) as (c & -> & Hc). exists c. split; [done|].
    rewrite Hc. by rewrite Hrq.
Qed.

Lemma foldr_qop_shift (a x : Q) (l : list Q) :
  (foldr qop (qop a x) l == qop x (foldr qop a l))%Q.
Proof.
  induction l as [|y l IH]; simpl; [apply qop_comm|].
  rewrite IH. rewrite !qop_assoc. by rewrite (qop_comm y x).
Qed.

Lemma foldl_foldr_qop (a : Q) (l : list Q) :
  (foldl qop a l == foldr qop a l)%Q.
Proof.
  revert a. induction l as [|x l IH]; intros a; [done|].
  simpl. rewrite IH. apply foldr_qop_shift.
Qed.

(** Scaling by [h] goes through the folds when it goes through [qop]. *)
Lemma foldl_qop_scale (h a : Q) (l : list Q) :
  (∀ x y, qop (x * h) (y * h) == qop x y * h)%Q →
  (foldl qop (a * h) ((λ x, x * h)%Q <$> l) == foldl qop a l * h)%Q.
Proof.
  intros Hscale. revert a. induction l as [|x l IH]; intros a; [done|].
  csimpl. rewrite <-IH. apply foldl_qop_proper, Hscale.
Qed.
End fold_facts.

Section domain_generic.
Import JsNum DataShaper.
Variables (op : jsnum → jsnum → jsnum) (qop : Q → Q → Q).
Hypothesis op_Fin : ∀ a b, ∃ c, op (Fin a) (Fin b) = Fin c ∧ (c == qop a b)%Q.
Hypothesis qop_proper : Proper (Qeq ==> Qeq ==> Qeq) qop.
Hypothesis qop_assoc : ∀ a b c, (qop a (qop b c) == qop (qop a b) c)%Q.
Hypothesis qop_comm : ∀ a b, (qop a b == qop b a)%Q.
Hypothesis qop_scale :
  ∀ h, (0 <= h)%Q → ∀ x y, (qop (x * h) (y * h) == qop x y * h)%Q.
Variable top : Group.t → jsnum.

Local Abbreviation offsets d := (Point.offset <$> pointsOf d).
Local Abbreviation codeBound d := (foldl op (op zero (top d)) (offsets d)).
Local Abbreviation specBound d := (foldr op zero (top d :: offsets d)).
Local Abbreviation fin d :=
  (isFinite (top d) = true ∧ Forall (λ x, isFinite x = true) (offsets d)).

Lemma foldr_qop_proper_list (a a' : Q) (l l' : list Q) :
  (a == a')%Q → Forall2 Qeq l l' → (foldr qop a l == foldr qop a' l')%Q.
Proof.
  intros Ha. induction 1 as [|x y l l' Hxy _ IH]; [done|].
  simpl. by rewrite Hxy, IH.
Qed.

Lemma codeBound_spec d :
  fin d → ∃ c t, codeBound d = Fin c ∧ specBound d = Fin t ∧ (c == t)%Q.
Proof.
  intros [Htop Hoff]. apply isFinite_Fin in Htop as [p Hp]. rewrite Hp.
  destruct (op_Fin 0 p) as (s & Hs & Hsq). unfold zero. rewrite Hs.
  destruct (foldl_hom op qop op_Fin qop_proper s (offsets d) Hoff)
    as (c & Hc & Hcq).
  destruct (foldr_hom op qop op_Fin qop_proper 0 (Fin p :: offsets d))
    as (t & Ht & Htq); [by constructor|].
  exists c, t. split; [done|]. split; [done|].
  rewrite Hcq, Htq. csimpl.
  rewrite (foldl_qop_proper qop qop_proper s (qop 0 p)) by done.
  change (foldl qop (qop 0 p) (toQ <$> offsets d))
    with (foldl qop 0%Q (p :: (toQ <$> offsets d))).
  by rewrite (foldl_foldr_qop qop qop_proper qop_assoc qop_comm).
Qed.

(** The fold over the scaled bounds of the groups is the scaled fold
    over their bounds. *)
Lemma scaled_bounds (h : Q) (g0 : Group.t) (gs : list Group.t) :
  (0 <= h)%Q → fin g0 → Forall (λ d, fin d) gs →
  ∃ r, foldl op (mul (codeBound g0) (Fin h))
             ((λ d, mul (codeBound d) (Fin h)) <$> gs) = Fin r
       ∧ Fin r ≈ mul (Fin h) (foldr op (specBound g0) ((λ d, specBound d) <$> gs)).
Proof.
  intros Hh H0 Hgs.
  destruct (codeBound_spec g0 H0) as (c0 & t0 & Hc0 & Ht0 & Hct0).
  rewrite Hc0, Ht0.
  assert (∃ cs ts, (λ d, mul (codeBound d) (Fin h)) <$> gs
                   = (λ c, Fin (c * h)) <$> cs
                   ∧ (λ d, specBound d) <$> gs = Fin <$> ts ∧ Forall2 Qeq cs ts)
    as (cs & ts & Hcs & Hts & Hcts).
  { clear -Hgs op_Fin qop_proper qop_assoc qop_comm.
    induction Hgs as [|d gs Hd _ (cs & ts & Hcs & Hts & Hcts)].
    - exists [], []. by repeat split.
    - destruct (codeBound_spec d Hd) as (c & t & Hc & Ht & Hct).
      exists (c :: cs), (t :: ts). rewrite !fmap_cons, Hcs, Hts, Hc, Ht.
      split; [done|]. split; [done|]. by constructor. }
  rewrite Hcs, Hts.
  destruct (foldl_hom op qop op_Fin qop_proper (c0 * h)
              ((λ c, Fin (c * h)) <$> cs)) as (r & Hr & Hrq).
  { apply Forall_fmap, Forall_forall. by intros c _. }
  destruct (foldr_hom op qop op_Fin qop_proper t0 (Fin <$> ts))
    as (r' & Hr' & Hrq').
  { apply Forall_fmap, Forall_forall. by intros c _. }
  exists r. split; [done|]. rewrite Hr'. simpl. rewrite Hrq, Hrq'.
  rewrite <-!list_fmap_compose.
  replace (toQ ∘ (λ c : Q, Fin (c * h)) <$> cs) with ((λ x, x * h)%Q <$> cs)
    by (by apply list_fmap_ext).
  replace (toQ ∘ Fin <$> ts) with ts
    by (rewrite <-(list_fmap_id ts) at 1; by apply list_fmap_ext).
  rewrite (foldl_qop_scale qop qop_proper h c0 cs (qop_scale h Hh)).
  rewrite (foldl_foldr_qop qop qop_proper qop_assoc qop_comm).
  rewrite (foldr_qop_proper_list c0 t0 cs ts Hct0 Hcts). apply Qmult_comm.
Qed.
End domain_generic.

(** * The numeric domain of [initChart] *)

Section scale_facts.
Import JsNum DataShaper ScaleBuilder.

Lemma max_Fin a b : ∃ c, max (Fin a) (Fin b) = Fin c ∧ (c == Qmax a b)%Q.
Proof.
  unfold max, lt. destruct (a ?= b)%Q eqn:E.
  - exists a. split; [done|]. apply Qeq_alt in E.
    symmetry. apply Q.max_l. lra.
  - exists b. split; [done|]. apply Qlt_alt in E.
    symmetry. apply Q.max_r. lra.
  - exists a. split; [done|]. apply Qgt_alt in E.
    symmetry. apply Q.max_l. lra.
Qed.

Lemma min_Fin a b : ∃ c, min (Fin a) (Fin b) = Fin c ∧ (c == Qmin a b)%Q.
Proof.
  unfold min, lt. destruct (b ?= a)%Q eqn:E.
  - exists a. split; [done|]. apply Qeq_alt in E.
    symmetry. apply Q.min_l. lra.
  - exists b. split; [done|]. apply Qlt_alt in E.
    symmetry. apply Q.min_r. lra.
  - exists a. split; [done|]. apply Qgt_alt in E.
    symmetry. apply Q.min_l. lra.
Qed.

Lemma Qmax_scale h :
  (0 <= h)%Q → ∀ x y, (Qmax (x * h) (y * h) == Qmax x y * h)%Q.
Proof.
  intros Hh x y. apply (Q.max_mono (λ z, z * h)%Q).
  - intros a b Hab. by rewrite Hab.
  - intros a b Hab. by apply Qmult_le_compat_r.
Qed.

Lemma Qmin_scale h :
  (0 <= h)%Q → ∀ x y, (Qmin (x * h) (y * h) == Qmin x y * h)%Q.
Proof.
  intros Hh x y. apply (Q.min_mono (λ z, z * h)%Q).
  - intros a b Hab. by rewrite Hab.
  - intros a b Hab. by apply Qmult_le_compat_r.
Qed.

(** A sweep that keeps the greater, or the smaller, of two finite
    numbers is a fold of [Math.max], or [Math.min]. *)
Lemma foldl_step_op (op step : jsnum → jsnum → jsnum) :
  (∀ a b, ∃ c, op (Fin a) (Fin b) = Fin c) →
  (∀ a b, step (Fin a) (Fin b) = op (Fin a) (Fin b)) →
  ∀ l m, Forall (λ x, isFinite x = true) l →
  foldl step (Fin m) l = foldl op (Fin m) l.
Proof.
  intros Hop Hstep l m Hl. revert m.
  induction Hl as [|x l Hx _ IH]; intros m; [done|].
  apply isFinite_Fin in Hx as [b ->]. simpl. rewrite Hstep.
  destruct (Hop m b) as [c ->]. apply IH.
Qed.

Lemma d3maxFrom_foldl a l :
  d3maxFrom a l = foldl (λ a b, if gt b a then b else a) a l.
Proof. revert a. induction l as [|b l IH]; intros a; [done|]. apply IH. Qed.

Lemma d3minFrom_foldl a l :
  d3minFrom a l = foldl (λ a b, if gt a b then b else a) a l.
Proof. revert a. induction l as [|b l IH]; intros a; [done|]. apply IH. Qed.

Lemma max_Fin_ex a b : ∃ c, max (Fin a) (Fin b) = Fin c.
Proof. destruct (max_Fin a b) as (c & ? & _). by exists c. Qed.

Lemma min_Fin_ex a b : ∃ c, min (Fin a) (Fin b) = Fin c.
Proof. destruct (min_Fin a b) as (c & ? & _). by exists c. Qed.

Lemma finiteGroup_offsets d :
  finiteGroup d →
  Forall (λ x, isFinite x = true) (Point.offset <$> pointsOf d).
Proof. intros (_ & _ & H). by apply Forall_fmap. Qed.

Lemma maxOffsetOf_fold d :
  finiteGroup d →
  maxOffsetOf d
  = foldl max (max zero (Group.offsetPos d)) (Point.offset <$> pointsOf d).
Proof.
  intros Hd. pose proof (finiteGroup_offsets d Hd) as Hoff.
  destruct Hd as (Hp & _ & _). apply isFinite_Fin in Hp as [p Hp].
  unfold maxOffsetOf, pointsOf in *. rewrite Hp.
  destruct (max_Fin_ex 0 p) as [s Hs]. unfold zero. rewrite Hs.
  destruct (Group.values d) as [vs|]; [|done]. simpl in *.
  rewrite <-(foldl_step_op max (λ a b, if gt b a then b else a)
               max_Fin_ex) by done.
  by rewrite foldl_fmap.
Qed.

Lemma minOffsetOf_fold d :
  finiteGroup d →
  minOffsetOf d
  = foldl min (min zero (Group.offsetNeg d)) (Point.offset <$> pointsOf d).
Proof.
  intros Hd. pose proof (finiteGroup_offsets d Hd) as Hoff.
  destruct Hd as (_ & Hp & _). apply isFinite_Fin in Hp as [p Hp].
  unfold minOffsetOf, pointsOf in *. rewrite Hp.
  destruct (min_Fin_ex 0 p) as [s Hs]. unfold zero. rewrite Hs.
  destruct (Group.values d) as [vs|]; [|done]. simpl in *.
  rewrite <-(foldl_step_op min (λ a b, if lt b a then b else a)
               min_Fin_ex) by done.
  by rewrite foldl_fmap.
Qed.
End scale_facts.

Section domain_facts.
Import JsNum DataShaper ScaleBuilder.

Lemma ge_Fin_refl c : ge (Fin c) (Fin c) = true.
Proof. unfold ge, le. apply Qle_bool_iff. lra. Qed.

Lemma finiteGroup_top d :
  finiteGroup d →
  isFinite (Group.offsetPos d) = true
  ∧ Forall (λ x, isFinite x = true) (Point.offset <$> pointsOf d).
Proof. intros Hd. split; [apply Hd | by apply finiteGroup_offsets]. Qed.

Lemma finiteGroup_bottom d :
  finiteGroup d →
  isFinite (Group.offsetNeg d) = true
  ∧ Forall (λ x, isFinite x = true) (Point.offset <$> pointsOf d).
Proof. intros Hd. split; [apply Hd | by apply finiteGroup_offsets]. Qed.

Lemma chartMax_raw (h : Q) (g0 : Group.t) (gs : list Group.t) :
  (0 <= h)%Q → Forall finiteGroup (g0 :: gs) →
  ∃ hi, chartMax false (Fin h) (g0 :: gs) = Some hi
        ∧ hi ≈ mul (Fin h) (maximum (groupTop g0) (groupTop <$> gs)).
Proof.
  intros Hh Hall. apply Forall_cons in Hall as [H0 Hgs].
  destruct (scaled_bounds max Qmax max_Fin _ Q.max_assoc Q.max_comm
              Qmax_scale Group.offsetPos h g0 gs Hh
              (finiteGroup_top g0 H0)) as (r & Hr & Hsame).
  { eapply Forall_impl; [exact Hgs|]. apply finiteGroup_top. }
  exists (Fin r). split; [|exact Hsame].
  unfold chartMax. rewrite fmap_cons. cbv beta iota.
  rewrite <-(maxOffsetOf_fold g0 H0) in Hr.
  assert (∃ c0, mul (maxOffsetOf g0) (Fin h) = Fin c0) as [c0 Hc0].
  { destruct (codeBound_spec max Qmax max_Fin _ Q.max_assoc Q.max_comm
                Group.offsetPos g0 (finiteGroup_top g0 H0))
      as (c & _ & Hc & _). rewrite (maxOffsetOf_fold g0 H0), Hc. by eexists. }
  rewrite Hc0 in Hr |- *. cbn [d3max]. rewrite ge_Fin_refl. f_equal.
  rewrite <-Hr, d3maxFrom_foldl.
  assert (Forall (λ d, mul (maxOffsetOf d) (Fin h)
                       = mul (foldl max (max zero (Group.offsetPos d))
                                (Point.offset <$> pointsOf d)) (Fin h)) gs)
    as Hext.
  { eapply Forall_impl; [exact Hgs|]. intros d Hd. simpl.
    by rewrite (maxOffsetOf_fold d Hd). }
  rewrite <-(Forall_fmap_ext_1 _ _ _ Hext).
  apply (foldl_step_op max (λ a b, if gt b a then b else a) max_Fin_ex);
    [done|].
  apply Forall_fmap. eapply Forall_impl; [exact Hgs|]. intros d Hd. simpl.
  destruct (codeBound_spec max Qmax max_Fin _ Q.max_assoc Q.max_comm
              Group.offsetPos d (finiteGroup_top d Hd)) as (c & _ & Hc & _).
  by rewrite (maxOffsetOf_fold d Hd), Hc.
Qed.
Lemma chartMin_raw (h : Q) (g0 : Group.t) (gs : list Group.t) :
  (0 <= h)%Q → Forall finiteGroup (g0 :: gs) →
  ∃ lo, chartMin false (Fin h) (g0 :: gs) = Some lo
        ∧ lo ≈ mul (Fin h) (minimum (groupBottom g0) (groupBottom <$> gs)).
Proof.
  intros Hh Hall. apply Forall_cons in Hall as [H0 Hgs].
  destruct (scaled_bounds min Qmin min_Fin _ Q.min_assoc Q.min_comm
              Qmin_scale Group.offsetNeg h g0 gs Hh
              (finiteGroup_bottom g0 H0)) as (r & Hr & Hsame).
  { eapply Forall_impl; [exact Hgs|]. apply finiteGroup_bottom. }
  exists (Fin r). split; [|exact Hsame].
  unfold chartMin. rewrite fmap_cons. cbv beta iota.
  rewrite <-(minOffsetOf_fold g0 H0) in Hr.
  assert (∃ c0, mul (minOffsetOf g0) (Fin h) = Fin c0) as [c0 Hc0].
  { destruct (codeBound_spec min Qmin min_Fin _ Q.min_assoc Q.min_comm
                Group.offsetNeg g0 (finiteGroup_bottom g0 H0))
      as (c & _ & Hc & _). rewrite (minOffsetOf_fold g0 H0), Hc. by eexists. }
  rewrite Hc0 in Hr |- *. cbn [d3min]. rewrite ge_Fin_refl. f_equal.
  rewrite <-Hr, d3minFrom_foldl.
  assert (Forall (λ d, mul (minOffsetOf d) (Fin h)
                       = mul (foldl min (min zero (Group.offsetNeg d))
                                (Point.offset <$> pointsOf d)) (Fin h)) gs)
    as Hext.
  { eapply Forall_impl; [exact Hgs|]. intros d Hd. simpl.
    by rewrite (minOffsetOf_fold d Hd). }
  rewrite <-(Forall_fmap_ext_1 _ _ _ Hext).
  apply (foldl_step_op min (λ a b, if gt a b then b else a) min_Fin_ex);
    [done|].
  apply Forall_fmap. eapply Forall_impl; [exact Hgs|]. intros d Hd. simpl.
  destruct (codeBound_spec min Qmin min_Fin _ Q.min_assoc Q.min_comm
              Group.offsetNeg d (finiteGroup_bottom d Hd)) as (c & _ & Hc & _).
  by rewrite (minOffsetOf_fold d Hd), Hc.
Qed.

Lemma truthy_gt x : truthy x && gt x zero = gt x zero.
Proof.
  destruct x as [q| | |]; try done. unfold truthy, gt, lt, zero.
  destruct (0 ?= q)%Q eqn:E; rewrite ?andb_false_r; try done.
  apply Qlt_alt in E. rewrite andb_true_r.
  destruct (Qeq_bool q 0) eqn:Eq; [|done]. apply Qeq_bool_iff in Eq. lra.
Qed.

Lemma truthy_lt x : truthy x && lt x zero = lt x zero.
Proof.
  destruct x as [q| | |]; try done. unfold truthy, lt, zero.
  destruct (q ?= 0)%Q eqn:E; rewrite ?andb_false_r; try done.
  apply Qlt_alt in E. rewrite andb_true_r.
  destruct (Qeq_bool q 0) eqn:Eq; [|done]. apply Qeq_bool_iff in Eq. lra.
Qed.

Lemma lt_Fin_true a b : (a < b)%Q → lt (Fin a) (Fin b) = true.
Proof.
  intros H. unfold lt. destruct (a ?= b)%Q eqn:E; try done.
  - apply Qeq_alt in E. lra.
  - apply Qgt_alt in E. lra.
Qed.

Lemma lt_Fin_false a b : (b <= a)%Q → lt (Fin a) (Fin b) = false.
Proof.
  intros H. unfold lt. destruct (a ?= b)%Q eqn:E; try done.
  apply Qlt_alt in E. lra.
Qed.

(** [d3.max] of values that are each [h] or 0, with [h] positive. *)
Lemma d3maxFrom_gated {A} (h : Q) (p : A → bool) (b : bool) (l : list A) :
  (0 < h)%Q →
  d3maxFrom (if b then Fin h else zero)
            ((λ d, if p d then Fin h else zero) <$> l)
  = if b || existsb p l then Fin h else zero.
Proof.
  intros Hh. revert b. induction l as [|d l IH]; intros b.
  - by rewrite orb_false_r.
  - rewrite fmap_cons. cbn [d3maxFrom existsb]. unfold gt, zero in *.
    destruct b, (p d); simpl orb.
    + rewrite lt_Fin_false by lra. apply (IH true).
    + rewrite lt_Fin_false by lra. apply (IH true).
    + rewrite lt_Fin_true by lra. apply (IH true).
    + rewrite lt_Fin_false by lra. apply (IH false).
Qed.

Lemma d3minFrom_gated {A} (h : Q) (p : A → bool) (b : bool) (l : list A) :
  (0 < h)%Q →
  d3minFrom (if b then neg (Fin h) else zero)
            ((λ d, if p d then neg (Fin h) else zero) <$> l)
  = if b || existsb p l then neg (Fin h) else zero.
Proof.
  intros Hh. revert b. induction l as [|d l IH]; intros b.
  - by rewrite orb_false_r.
  - rewrite fmap_cons. cbn [d3minFrom existsb]. unfold gt, zero, neg in *.
    destruct b, (p d); simpl orb.
    + rewrite lt_Fin_false by lra. apply (IH true).
    + rewrite lt_Fin_false by lra. apply (IH true).
    + rewrite lt_Fin_true by lra. apply (IH true).
    + rewrite lt_Fin_false by lra. apply (IH false).
Qed.

Lemma chartMax_normalized (h : Q) (g0 : Group.t) (gs : list Group.t) :
  (0 < h)%Q →
  chartMax true (Fin h) (g0 :: gs)
  = Some (if existsb (λ d, gt (Group.offsetPos d) zero) (g0 :: gs)
          then Fin h else zero).
Proof.
  intros Hh. unfold chartMax. cbv beta iota.
  rewrite (list_fmap_ext _ (λ d, if gt (Group.offsetPos d) zero
                                 then Fin h else zero) (g0 :: gs))
    by (intros; by rewrite truthy_gt).
  rewrite fmap_cons. cbn [d3max existsb].
  replace (ge _ _) with true
    by (symmetry; destruct (gt _ _); apply ge_Fin_refl).
  by rewrite d3maxFrom_gated.
Qed.

Lemma chartMin_normalized (h : Q) (g0 : Group.t) (gs : list Group.t) :
  (0 < h)%Q →
  chartMin true (Fin h) (g0 :: gs)
  = Some (if existsb (λ d, lt (Group.offsetNeg d) zero) (g0 :: gs)
          then neg (Fin h) else zero).
Proof.
  intros Hh. unfold chartMin. cbv beta iota.
  rewrite (list_fmap_ext _ (λ d, if lt (Group.offsetNeg d) zero
                                 then neg (Fin h) else zero) (g0 :: gs))
    by (intros; by rewrite truthy_lt).
  rewrite fmap_cons. cbn [d3min existsb].
  replace (ge _ _) with true
    by (symmetry; destruct (lt _ _); apply ge_Fin_refl).
  by rewrite d3minFrom_gated.
Qed.
End domain_facts.

(** * The label text of [barText] *)

Section fitting_facts.
Import JsNum TextFitter.
Variable m : metrics.
Variable maxLength : jsnum.

Lemma length_sliceLast (t : jsstring) :
  length (sliceLast t) = (length t - 1)%nat.
Proof. unfold sliceLast. rewrite length_take. lia. Qed.

Lemma length_stripLoop fuel (t : jsstring) :
  (length (stripLoop fuel t) ≤ length t)%nat.
Proof.
  revert t. induction fuel as [|fuel IH]; intros t; [done|]. simpl.
  destruct (last t) as [c|]; [|done]. destruct (isDotOrDash c); [|done].
  etrans; [apply IH|]. rewrite length_sliceLast. lia.
Qed.

(** The inner loop has stopped when it returns: the text is empty or
    ends with neither a dot nor a dash. *)
Lemma stripLoop_exit fuel (t : jsstring) c :
  (length t ≤ fuel)%nat →
  last (stripLoop fuel t) = Some c → isDotOrDash c = false.
Proof.
  revert t. induction fuel as [|fuel IH]; intros t Hlen Hlast.
  - destruct t; [done|simpl in Hlen; lia].
  - simpl in Hlast. destruct (last t) as [c'|] eqn:Ht; [|congruence].
    destruct (isDotOrDash c') eqn:Hc'.
    + apply (IH (sliceLast t)); [|done]. rewrite length_sliceLast. lia.
    + congruence.
Qed.

(** The state in which the outer loop returns: [textLength] is the
    length of the content of [g.tref]; the content is the one the loop
    started with, or [txt] and the ellipsis; and the condition of the
    loop is false. *)
Lemma ellipseLoop_exit fuel st :
  textLength st = computedTextLength m (tref st) →
  (length (txt st) ≤ fuel)%nat →
  let r := ellipseLoop m maxLength fuel st in
  textLength r = computedTextLength m (tref r)
  ∧ (r = st ∨ tref r = txt r ++ ellipsis)
  ∧ gt (textLength r) maxLength && (0 <? length (txt r))%nat = false.
Proof.
  revert st. induction fuel as [|fuel IH]; intros st Hm Hlen; simpl.
  - split; [done|]. split; [by left|].
    replace (length (txt st)) with 0%nat by lia. apply andb_false_r.
  - destruct (gt (textLength st) maxLength && (0 <? length (txt st))%nat)
      eqn:Hcond; [|by split; [|split; [left|]]].
    set (t2 := stripLoop _ _).
    destruct (IH (mkFit t2 (t2 ++ ellipsis)
                    (computedTextLength m (t2 ++ ellipsis))))
      as (H1 & H2 & H3); [done| |].
    { simpl. subst t2. etrans; [apply length_stripLoop|].
      rewrite length_sliceLast. lia. }
    split; [done|]. split; [|done]. right.
    destruct H2 as [-> | H2]; done.
Qed.

Lemma ellipseText_fits (text : jsstring) :
  gt (computedTextLength m text) maxLength = false →
  ellipseText m maxLength text = text.
Proof.
  intros Hfit. unfold ellipseText.
  destruct text as [|c text]; [done|].
  cbn [length ellipseLoop textLength]. rewrite Hfit. simpl. done.
Qed.

Lemma ellipseText_idempotent (text : jsstring) :
  ellipseText m maxLength (ellipseText m maxLength text)
  = ellipseText m maxLength text.
Proof.
  unfold ellipseText at 2 3.
  destruct (ellipseLoop_exit (length text)
              (mkFit text text (computedTextLength m text)))
    as (H1 & H2 & H3); [done..|].
  set (r := ellipseLoop _ _ _ _) in *.
  destruct (0 <? length (txt r))%nat eqn:Hne.
  - apply ellipseText_fits. rewrite andb_true_r in H3. by rewrite <-H1.
  - apply Nat.ltb_ge in Hne. destruct (txt r); [done|simpl in Hne; lia].
Qed.
End fitting_facts.

(** Claim C8.  When [barGap] is 1, the text [barText] returns is empty,
    for every datum, every label type, every measurement of texts and
    every other setting of the chart. *)
Theorem barText_barGap_one (m : TextFitter.metrics) (g : TextFitter.view)
    (d : TextFitter.Datum.t) (type : TextFitter.labelType) :
  TextFitter.barGap g ≈ JsNum.one →
  TextFitter.Placement.text (TextFitter.barText m g d type) = [].
Proof.
  intros Hgap. unfold TextFitter.barText. cbn [TextFitter.Placement.text].
  replace (JsNum.eqb (TextFitter.barGap g) JsNum.one) with true; [done|].
  symmetry. destruct (TextFitter.barGap g); try done.
  by apply Qeq_bool_iff.
Qed.

Lemma barText_barGap_one_witness :
  TextFitter.Placement.text
    (TextFitter.barText TextFitter.Sample.monospace
       TextFitter.Sample.collapsed TextFitter.Sample.east
       TextFitter.InsideBars) = [].
Proof.
  apply (barText_barGap_one TextFitter.Sample.monospace
           TextFitter.Sample.collapsed TextFitter.Sample.east
           TextFitter.InsideBars).
  reflexivity.
Defined.

(** Claim C9.  Fitting with the ellipsis allowed is idempotent: fitting
    the fitted text again, for the same maximum width, returns it
    unchanged.  With the ellipsis not allowed the fitted text is the
    text itself unless its measured length exceeds the maximum width,
    and the empty string if it does. *)
Theorem fitText_idempotent (m : TextFitter.metrics) (w : JsNum.jsnum)
    (text : jsstring) :
  TextFitter.fitText m w (TextFitter.fitText m w text true) true
  = TextFitter.fitText m w text true
  ∧ TextFitter.fitText m w text false
    = if JsNum.gt (TextFitter.computedTextLength m text) w then []
      else text.
Proof. split; [apply ellipseText_idempotent | done]. Qed.

(** * Further properties of the code *)

(** * The one-dimensional model *)

Section oneDim_facts.
Import JsNum DataShaper Host.

Lemma flatRow_ret s d s' :
  flatRow s d = Ret s' →
  ∃ grp pt, groupOfRow d grp ∧ pointOfRow d pt
    ∧ struc1 s' = struc1 s ++ [grp]
    ∧ flatData1 s' = flatData1 s ++ [pt]
    ∧ q1 s' = (if decide (keyText 0 d ∈ q1 s) then q1 s
               else q1 s ++ [keyText 0 d])
    ∧ length (r1 s') = (if decide (keyText 0 d ∈ q1 s) then length (r1 s)
                        else S (length (r1 s))).
Proof.
  unfold flatRow, keyText.
  destruct (cellAt d 1) as [c1| |] eqn:E1; simpl; [|done|done].
  destruct (cellAt d 0) as [c0| |] eqn:E0; simpl; [|done|done].
  apply cellAt_ret in E0, E1. rewrite E0. intros [= <-]. simpl.
  eexists _, _. split; [by exists c0, c1|]. split; [by exists c0, c1|].
  split; [done|]. split; [done|].
  destruct (decide (Cell.qText c0 ∈ q1 s)) as [Hin|Hnin].
  - rewrite bool_decide_eq_false_2; [done|]. by intros H%indexOf_not_elem.
  - rewrite bool_decide_eq_true_2 by (by rewrite indexOf_not_elem).
    split; [done|]. rewrite length_app. simpl. lia.
Qed.

Lemma flat_rows rows s s' :
  forEach flatRow rows s = Ret s' →
  ∃ grps pts,
    struc1 s' = struc1 s ++ grps ∧ Forall2 groupOfRow rows grps
    ∧ flatData1 s' = flatData1 s ++ pts ∧ Forall2 pointOfRow rows pts
    ∧ q1 s' = q1 s ++ filter (λ y, y ∉ q1 s)
                        (firstEncounter (keyText 0 <$> rows)).
Proof.
  revert s. induction rows as [|d rows IH]; intros s; simpl.
  - intros [= <-]. exists [], []. rewrite !app_nil_r. by repeat split.
  - destruct (flatRow s d) as [s1| |] eqn:E; simpl; [|done|done].
    intros Hrest.
    destruct (IH s1 Hrest) as (grps & pts & Hs & Hg & Hf & Hp & Hq).
    apply flatRow_ret in E as (grp & pt & Hgrp & Hpt & Hs1 & Hf1 & Hq1 & _).
    exists (grp :: grps), (pt :: pts).
    rewrite Hs, Hs1, Hf, Hf1, <-!app_assoc. simpl.
    split; [done|]. split; [by constructor|].
    split; [done|]. split; [by constructor|].
    rewrite Hq, Hq1. apply firstEncounter_step.
Qed.

Lemma flat_returns rows s :
  Forall pairRow rows → ∃ s', forEach flatRow rows s = Ret s'.
Proof.
  intros Hrows.
  destruct (forEach_returns (λ _, True) flatRow rows s) as (s' & Hs & _);
    [|done|by exists s'].
  intros s0 d Hd _. rewrite Forall_forall in Hrows.
  destruct (Hrows d Hd) as (c0 & c1 & H0 & H1).
  apply cellAt_ret in H0, H1. unfold flatRow. rewrite H1. simpl.
  rewrite H0. simpl. by eexists.
Qed.
End oneDim_facts.

(** X1.  On the one-dimensional path, with the first two cells of every row
    there, [initData] returns a model with one group and one point for each
    row, in the order of the rows: [nDims] is 1, [normalized] is switched
    off, the series are the first-dimension texts in the order in which they
    first occur, and [deltas] is left as it was. *)
Theorem initData_oneDim_model
    (formatPct : JsNum.jsnum → jsstring) (g : DataShaper.chart) :
  DataShaper.branchOf g = DataShaper.OneDim →
  Forall Host.pairRow (DataShaper.inputRows g) →
  ∃ g', DataShaper.initData formatPct g = Ret g'
    ∧ DataShaper.nDims g' = 1
    ∧ DataShaper.normalized g' = false
    ∧ Forall2 Host.groupOfRow (DataShaper.inputRows g) (DataShaper.data g')
    ∧ Forall2 Host.pointOfRow (DataShaper.inputRows g)
                              (DataShaper.flatData g')
    ∧ DataShaper.allDim2 g'
      = Some <$> DataShaper.firstEncounter
                   (DataShaper.keyText 0 <$> DataShaper.inputRows g)
    ∧ DataShaper.deltas g' = DataShaper.deltas g.
Proof.
  intros Hb Hrows. rewrite (initData_oneDim formatPct g Hb).
  unfold DataShaper.shapeOneDim.
  destruct (flat_returns (DataShaper.inputRows g)
              (DataShaper.mkFlat [] [] [] []) Hrows) as [s Hs].
  rewrite Hs. simpl. eexists. split; [done|]. simpl.
  destruct (flat_rows _ _ _ Hs) as (grps & pts & -> & Hg & -> & Hp & ->).
  simpl. repeat split; try done.
  f_equal. apply filter_all. intros x _. apply not_elem_of_nil.
Qed.

Lemma initData_oneDim_model_witness :
  ∃ g', Host.link DataShaper.Sample.percentText Host.Sample.single
                  Host.Sample.blank = Ret g'
    ∧ DataShaper.nDims g' = 1
    ∧ DataShaper.normalized g' = false
    ∧ length (DataShaper.data g') = 3%nat
    ∧ DataShaper.allDim2 g' = [Some (str "Q1"); Some (str "Q2")].
Proof.
  pose (g := DataShaper.withRawData (Host.qMatrix Host.Sample.single)
               (DataShaper.mkChart 1 1 [] [] true true 0 [] [] [] [] [])).
  destruct (initData_oneDim_model DataShaper.Sample.percentText g)
    as (g' & Hret & Hn & Hnorm & Hdata & _ & Hdim & _).
  - vm_compute. reflexivity.
  - vm_compute DataShaper.inputRows. unfold Host.pairRow.
    repeat constructor; eexists _, _; split; reflexivity.
  - exists g'. split; [exact Hret|]. split; [exact Hn|].
    split; [exact Hnorm|]. split.
    + apply Forall2_length in Hdata. rewrite <-Hdata. reflexivity.
    + rewrite Hdim. vm_compute. reflexivity.
Defined.

(** * The groups of the two-dimensional model *)

Section twoDim_more.
Import JsNum DataShaper.
Variable formatPct : jsnum → jsstring.

Lemma sortedEntries_order rows s qs :
  forEach scanRow rows scanStart = Ret s →
  (sortedEntries (p s) qs rows).*1 = firstEncounter (keyText 0 <$> rows).
Proof.
  intros Hs. destruct (scan_firstEncounter _ _ Hs) as [_ Hp].
  unfold sortedEntries.
  rewrite (sortByIndex_keys (p s) fst).
  - rewrite <-list_fmap_compose. unfold nestEntries.
    rewrite <-list_fmap_compose, groupBy_spec, <-list_fmap_compose.
    rewrite Hp. simpl.
    erewrite (list_fmap_ext _ id); [|by intros].
    rewrite list_fmap_id. apply filter_all. by intros.
  - rewrite Hp. apply NoDup_firstEncounter.
  - rewrite <-list_fmap_compose. unfold nestEntries.
    rewrite <-list_fmap_compose, groupBy_spec, <-list_fmap_compose.
    erewrite (list_fmap_ext _ id); [|by intros].
    rewrite list_fmap_id. apply NoDup_firstEncounter.
  - intros x Hx. apply (list_elem_of_fmap_2 fst) in Hx.
    rewrite <-list_fmap_compose in Hx. unfold nestEntries in Hx.
    rewrite <-list_fmap_compose, groupBy_spec, <-list_fmap_compose in Hx.
    erewrite (list_fmap_ext _ id) in Hx; [|by intros].
    rewrite list_fmap_id in Hx. by rewrite Hp.
Qed.

Lemma groupOf_dim1 g q d grp :
  groupOf formatPct g q d grp →
  Group.dim1 grp = d.1
  ∧ Forall (λ pt, Point.dim1 pt = d.1) (pointsOf grp).
Proof.
  intros (st & _ & ->). split; [done|]. simpl.
  apply Forall_fmap, Forall_forall. intros e _. simpl.
  unfold finishPoint. by destruct (normalized g).
Qed.
End twoDim_more.

Section twoDim_order.
Import JsNum DataShaper.
Variable formatPct : jsnum → jsstring.

Lemma twoDim_order g g' :
  branchOf g = TwoDim → initData formatPct g = Ret g' →
  Group.dim1 <$> data g' = firstEncounter (keyText 0 <$> inputRows g)
  ∧ flatData g' = concat (pointsOf <$> data g')
  ∧ Forall (λ grp, Forall (λ pt, Point.dim1 pt = Group.dim1 grp)
                          (pointsOf grp)) (data g').
Proof.
  intros Hb Hret.
  destruct (twoDim_groups formatPct g g' Hb Hret)
    as (s & n & Hs & -> & _ & Hall & _ & Hflat & _).
  split; [|split; [done|]].
  - rewrite <-(sortedEntries_order _ s (allDim2 g') Hs).
    clear -Hall. induction Hall as [|d grp n grps Hd _ IH]; [done|].
    csimpl. rewrite IH. f_equal.
    by destruct (groupOf_dim1 formatPct g _ d grp Hd).
  - clear -Hall. induction Hall as [|d grp n grps Hd _ IH]; [done|].
    constructor; [|done].
    destruct (groupOf_dim1 formatPct g _ d grp Hd) as [-> ?]. done.
Qed.

Lemma twoDim_series_NoDup g g' :
  branchOf g = TwoDim → initData formatPct g = Ret g' →
  Forall (λ grp, NoDup (Point.dim2 <$> pointsOf grp)) (data g').
Proof.
  intros Hb Hret.
  destruct (twoDim_canonical formatPct g g' Hb Hret) as (c & Hc & Hperm & _).
  destruct (twoDim_groups formatPct g g' Hb Hret)
    as (s & n & _ & -> & _ & Hall & _).
  rewrite Hc in Hall.
  assert (NoDup c) as Hnd by (rewrite Hperm; apply NoDup_firstEncounter).
  assert (∀ k, k ∈ keyText 1 <$> inputRows g → k ∈ c) as Hin.
  { intros k Hk. rewrite Hperm. by apply elem_of_firstEncounter. }
  apply Forall_forall. intros grp Hgrp.
  apply list_elem_of_lookup_1 in Hgrp as [i Hi].
  destruct (Forall2_lookup_r _ _ _ _ _ Hall Hi) as (d & Hd & Hgd).
  apply list_elem_of_lookup_2 in Hd.
  destruct (groupOf_series formatPct g c _ _ d grp Hnd Hin Hd Hgd)
    as (_ & vs & Hvs & Hkeys).
  unfold pointsOf. rewrite Hvs. simpl. rewrite Hkeys. by apply NoDup_filter.
Qed.
End twoDim_order.

(** X2.  In the two-dimensional model the groups are the first-dimension
    values, each once, in the order in which they first occur in the rows;
    [flatData] lists the points of the groups, group after group; and every
    point carries the key of its group. *)
Theorem initData_groups_order
    (formatPct : JsNum.jsnum → jsstring) (g g' : DataShaper.chart) :
  DataShaper.branchOf g = DataShaper.TwoDim →
  DataShaper.initData formatPct g = Ret g' →
  DataShaper.Group.dim1 <$> DataShaper.data g'
  = DataShaper.firstEncounter
      (DataShaper.keyText 0 <$> DataShaper.inputRows g)
  ∧ DataShaper.flatData g'
    = concat (DataShaper.pointsOf <$> DataShaper.data g')
  ∧ Forall (λ grp,
      Forall (λ pt, DataShaper.Point.dim1 pt = DataShaper.Group.dim1 grp)
             (DataShaper.pointsOf grp))
      (DataShaper.data g').
Proof. apply twoDim_order. Qed.

Lemma initData_groups_order_witness :
  let g := DataShaper.Sample.fresh DataShaper.Sample.quartersGap false true in
  DataShaper.Group.dim1 <$> DataShaper.data (DataShaper.Sample.shaped g)
  = [str "Q1"; str "Q2"].
Proof.
  intros g.
  destruct (initData_groups_order DataShaper.Sample.percentText g
              (DataShaper.Sample.shaped g)) as (Hord & _).
  - vm_compute. reflexivity.
  - vm_compute. reflexivity.
  - rewrite Hord. vm_compute. reflexivity.
Defined.

Section unique_facts.
Import JsNum DataShaper.

Lemma elem_of_concat {A} (x : A) (ls : list (list A)) :
  x ∈ concat ls ↔ ∃ l, x ∈ l ∧ l ∈ ls.
Proof.
  induction ls as [|l ls IH]; simpl.
  - split; [by intros ?%elem_of_nil|]. by intros (? & _ & ?%elem_of_nil).
  - rewrite elem_of_app, IH. split.
    + intros [?|(l' & ? & ?)]; [exists l|exists l']; split; try done;
        [by left|by right].
    + intros (l' & Hx & [->|?]%elem_of_cons); [by left|right; by exists l'].
Qed.

Lemma NoDup_group_points (groups : list Group.t) :
  NoDup (Group.dim1 <$> groups) →
  Forall (λ grp, Forall (λ pt, Point.dim1 pt = Group.dim1 grp) (pointsOf grp)
                 ∧ NoDup (Point.dim2 <$> pointsOf grp)) groups →
  NoDup ((λ pt, (Point.dim1 pt, Point.dim2 pt))
           <$> concat (pointsOf <$> groups)).
Proof.
  intros Hnd Hall. induction Hall as [|grp groups [Hkey Hser] Htail IH];
    [apply NoDup_nil_2|].
  csimpl in *. apply NoDup_cons in Hnd as [Hfresh Hnd].
  rewrite fmap_app. apply NoDup_app. split; [|split; [|by apply IH]].
  - apply (NoDup_fmap_1 snd). by rewrite <-list_fmap_compose.
  - intros [k1 k2] Hin Hin'.
    apply list_elem_of_fmap in Hin as (pt & [= -> ->] & Hpt).
    apply list_elem_of_fmap in Hin' as (pt' & [= Hk1 _] & Hpt').
    apply elem_of_concat in Hpt' as (pts & Hpt' & Hpts).
    apply list_elem_of_fmap in Hpts as (grp' & -> & Hgrp').
    rewrite Forall_forall in Hkey. rewrite (Hkey pt Hpt) in Hk1.
    apply Hfresh. rewrite Hk1.
    rewrite Forall_forall in Htail. destruct (Htail grp' Hgrp') as [Hkey' _].
    rewrite Forall_forall in Hkey'. rewrite (Hkey' pt' Hpt').
    by apply list_elem_of_fmap_2.
Qed.
End unique_facts.

(** X3.  In the two-dimensional model no two points of [flatData] have the
    same pair of keys [(dim1, dim2)]: rows that repeat a pair add no point. *)
Theorem initData_unique_points
    (formatPct : JsNum.jsnum → jsstring) (g g' : DataShaper.chart) :
  DataShaper.branchOf g = DataShaper.TwoDim →
  DataShaper.initData formatPct g = Ret g' →
  NoDup ((λ pt, (DataShaper.Point.dim1 pt, DataShaper.Point.dim2 pt))
           <$> DataShaper.flatData g').
Proof.
  intros Hb Hret.
  destruct (twoDim_order formatPct g g' Hb Hret) as (Hord & -> & Hkeys).
  pose proof (twoDim_series_NoDup formatPct g g' Hb Hret) as Hser.
  apply NoDup_group_points.
  - rewrite Hord. apply NoDup_firstEncounter.
  - rewrite Forall_forall in *. intros grp Hgrp. split; auto.
Qed.

Lemma initData_unique_points_witness :
  let g := DataShaper.Sample.fresh
             (DataShaper.Sample.quarters ++ DataShaper.Sample.quarters)
             false true in
  NoDup ((λ pt, (DataShaper.Point.dim1 pt, DataShaper.Point.dim2 pt))
           <$> DataShaper.flatData (DataShaper.Sample.shaped g)).
Proof.
  intros g.
  apply (initData_unique_points DataShaper.Sample.percentText g).
  - vm_compute. reflexivity.
  - vm_compute. reflexivity.
Defined.

(** * The row behind each point *)

Section first_row.
Import JsNum DataShaper Host.
Variable formatPct : jsnum → jsstring.

Lemma stackStep_source defDims vals st qi st' :
  stackStep defDims vals st qi = Ret st' →
  st' = st
  ∨ ∃ key rows row0 slot,
      (key, rows) ∈ vals ∧ head rows = Some row0
      ∧ measureOf row0 (Slot.qNum slot) (Slot.qText slot)
      ∧ Slot.dim2 slot = key ∧ v st' = v st ++ [slot].
Proof.
  unfold stackStep.
  destruct (vals !! j st) as [[key rows]|] eqn:Ev; [|intros [= <-]; by left].
  destruct (decide (Some key = qi)); [|intros [= <-]; by left].
  destruct rows as [|row0 rest]; [done|].
  destruct (cellAt row0 2) as [c2| |] eqn:E2; simpl; [|done|done].
  destruct (cellAt row0 0) as [c0| |] eqn:E0; simpl; [|done|done].
  apply cellAt_ret in E2.
  assert ((key, row0 :: rest) ∈ vals) as Hin
    by (by eapply list_elem_of_lookup_2).
  destruct (decide (defDims = 2)); simpl.
  - destruct (cellAt row0 1) as [c1| |]; simpl; [|done|done].
    destruct (lt _ _); intros [= <-]; right;
      eexists key, _, row0, (Slot.mk key _ _ _ _);
      (split; [exact Hin|]); (split; [done|]);
      (split; [by exists c2|]); done.
  - destruct (lt _ _); intros [= <-]; right;
      eexists key, _, row0, (Slot.mk key _ _ _ _);
      (split; [exact Hin|]); (split; [done|]);
      (split; [by exists c2|]); done.
Qed.

Lemma stack_sources defDims vals q st :
  forEach (stackStep defDims vals) q stackStart = Ret st →
  Forall (λ slot, ∃ rows row0,
            (Slot.dim2 slot, rows) ∈ vals ∧ head rows = Some row0
            ∧ measureOf row0 (Slot.qNum slot) (Slot.qText slot)) (v st).
Proof.
  apply (forEach_invariant
           (λ st, Forall (λ slot, ∃ rows row0,
                            (Slot.dim2 slot, rows) ∈ vals
                            ∧ head rows = Some row0
                            ∧ measureOf row0 (Slot.qNum slot)
                                        (Slot.qText slot)) (v st))).
  - intros s qi s' _ Hinv Hstep.
    apply stackStep_source in Hstep
      as [-> | (key & rows & row0 & slot & Hin & Hhead & Hm & Hk & ->)];
      [done|].
    apply Forall_app. split; [done|]. constructor; [|done].
    exists rows, row0. by rewrite Hk.
  - constructor.
Qed.

Lemma filter_filter_and {A} (P Q : A → Prop)
    `{∀ x, Decision (P x)} `{∀ x, Decision (Q x)} (l : list A) :
  filter Q (filter P l) = filter (λ x, P x ∧ Q x) l.
Proof.
  induction l as [|x l IH]; [done|].
  destruct (decide (P x)) as [HP|HP].
  - rewrite (filter_cons_True P) by done.
    destruct (decide (Q x)) as [HQ|HQ].
    + rewrite !filter_cons_True by done. by rewrite IH.
    + rewrite !filter_cons_False by tauto. done.
  - rewrite (filter_cons_False P) by done.
    rewrite (filter_cons_False (λ x, P x ∧ Q x)) by tauto. done.
Qed.

Lemma twoDim_sources g g' :
  branchOf g = TwoDim → normalized g = false →
  initData formatPct g = Ret g' →
  Forall (λ pt, ∃ row0,
            firstRow (inputRows g) (Point.dim1 pt) (Point.dim2 pt) = Some row0
            ∧ measureOf row0 (Point.qNum pt) (Point.qText pt))
         (flatData g').
Proof.
  intros Hb Hn Hret.
  destruct (twoDim_groups formatPct g g' Hb Hret)
    as (s & n & _ & -> & _ & Hall & _ & -> & _).
  apply Forall_forall. intros pt Hpt.
  apply elem_of_concat in Hpt as (pts & Hpt & Hpts).
  apply list_elem_of_fmap in Hpts as (grp & -> & Hgrp).
  apply list_elem_of_lookup_1 in Hgrp as [i Hi].
  destruct (Forall2_lookup_r _ _ _ _ _ Hall Hi) as (d & Hd & st & Hst & ->).
  apply list_elem_of_lookup_2 in Hd.
  unfold pointsOf in Hpt. simpl in Hpt.
  apply list_elem_of_fmap in Hpt as (slot & -> & Hslot).
  pose proof (stack_sources _ _ _ _ Hst) as Hsrc.
  rewrite Forall_forall in Hsrc.
  destruct (Hsrc slot Hslot) as (rows & row0 & Hin & Hhead & Hm).
  destruct (sortedEntries_rows _ _ _ d _ Hd Hin) as [Hrows _].
  simpl in Hrows. exists row0. unfold finishPoint. rewrite Hn. simpl.
  split; [|done]. unfold firstRow.
  rewrite <-(filter_filter_and (λ d', keyText 0 d' = d.1)
               (λ d', keyText 1 d' = Slot.dim2 slot)).
  by rewrite <-Hrows.
Qed.
End first_row.

(** X4.  With [normalized] off, every point of the two-dimensional model
    shows the first row of the input that has its pair of keys: the point's
    text is the text of that row's measure cell and its value is the cell's
    value, or 0 if that is not a finite number. Later rows with the same
    pair are not shown. *)
Theorem initData_first_row_wins
    (formatPct : JsNum.jsnum → jsstring) (g g' : DataShaper.chart) :
  DataShaper.branchOf g = DataShaper.TwoDim →
  DataShaper.normalized g = false →
  DataShaper.initData formatPct g = Ret g' →
  Forall (λ pt, ∃ row0,
            Host.firstRow (DataShaper.inputRows g)
              (DataShaper.Point.dim1 pt) (DataShaper.Point.dim2 pt)
            = Some row0
            ∧ Host.measureOf row0 (DataShaper.Point.qNum pt)
                             (DataShaper.Point.qText pt))
         (DataShaper.flatData g').
Proof. apply twoDim_sources. Qed.

Lemma initData_first_row_wins_witness :
  let g := DataShaper.Sample.fresh Host.Sample.repeated false true in
  Forall (λ pt, ∃ row0,
            Host.firstRow (DataShaper.inputRows g)
              (DataShaper.Point.dim1 pt) (DataShaper.Point.dim2 pt)
            = Some row0
            ∧ Host.measureOf row0 (DataShaper.Point.qNum pt)
                             (DataShaper.Point.qText pt))
         (DataShaper.flatData (DataShaper.Sample.shaped g))
  ∧ DataShaper.Point.qText <$> DataShaper.flatData (DataShaper.Sample.shaped g)
    = [str "100"; str "50"].
Proof.
  intros g. split.
  - apply (initData_first_row_wins DataShaper.Sample.percentText g).
    + vm_compute. reflexivity.
    + reflexivity.
    + vm_compute. reflexivity.
  - vm_compute. reflexivity.
Defined.

(** * Finite models *)

Section finite_model.
Import JsNum DataShaper ScaleBuilder.
Variable formatPct : jsnum → jsstring.

Lemma same_finite x y : x ≈ y → isFinite y = true → isFinite x = true.
Proof. by destruct x, y. Qed.

Lemma Forall_filter_weak {A} (P : A → Prop) (Q : A → Prop)
    `{∀ x, Decision (Q x)} (l : list A) :
  Forall P l → Forall P (filter Q l).
Proof.
  intros Hl. apply Forall_forall. intros x [_ Hx]%list_elem_of_filter.
  rewrite Forall_forall in Hl. auto.
Qed.

Lemma groupOf_finite g q d grp :
  normalized g = false → groupOf formatPct g q d grp → finiteGroup grp.
Proof.
  intros Hn (st & Hst & ->).
  destruct (stack_invariant _ _ _ _ Hst) as (Hfin & Hpos & Hneg & Hoff).
  assert (Forall (λ x, isFinite x = true) (Slot.qNum <$> v st)) as Hnums
    by (by apply Forall_fmap).
  unfold finiteGroup, pointsOf. simpl. split; [|split].
  - eapply same_finite; [exact Hpos|].
    by apply sumNum_proper_fin, Forall_filter_weak.
  - eapply same_finite; [exact Hneg|].
    by apply sumNum_proper_fin, Forall_filter_weak.
  - apply Forall_fmap, Forall_forall. intros e He.
    apply list_elem_of_lookup_1 in He as [k Hk]. simpl.
    unfold finishPoint. rewrite Hn. simpl.
    eapply same_finite; [exact (Hoff k e Hk)|].
    apply sumNum_proper_fin, Forall_filter_weak.
    rewrite <-(take_drop k (v st)), fmap_app in Hnums.
    by apply Forall_app in Hnums as [? _].
Qed.

Lemma twoDim_finite g g' :
  branchOf g = TwoDim → normalized g = false →
  initData formatPct g = Ret g' →
  Forall finiteGroup (data g') ∧ data g' ≠ [].
Proof.
  intros Hb Hn Hret.
  destruct (twoDim_order formatPct g g' Hb Hret) as (Hord & _).
  destruct (twoDim_groups formatPct g g' Hb Hret)
    as (s & n & _ & -> & _ & Hall & _).
  split.
  - apply Forall_forall. intros grp Hgrp.
    apply list_elem_of_lookup_1 in Hgrp as [i Hi].
    destruct (Forall2_lookup_r _ _ _ _ _ Hall Hi) as (d & _ & Hgd).
    by eapply groupOf_finite.
  - intros Hnil. rewrite Hnil in Hord. simpl in Hord.
    unfold branchOf in Hb.
    destruct (rawData g) as [|raw0 ?]; [done|].
    destruct (decide _); [done|].
    destruct (inputRows g) as [|d0 rows]; [done|]. done.
Qed.
End finite_model.

(** * The domain and the bars *)

Section domain_bounds.
Import JsNum DataShaper ScaleBuilder.

Lemma maximum_bounds (a : Q) (l : list jsnum) :
  Forall (λ x, isFinite x = true) l →
  ∃ m, maximum (Fin a) l = Fin m ∧ (a <= m)%Q
       ∧ ∀ x, Fin x ∈ l → (x <= m)%Q.
Proof.
  unfold maximum. induction 1 as [|y l Hy _ (m & Hm & Ham & Hl)]; simpl.
  - exists a. split; [done|]. split; [lra|]. by intros x ?%elem_of_nil.
  - apply isFinite_Fin in Hy as [b ->]. rewrite Hm.
    destruct (max_Fin b m) as (c & -> & Hc). exists c. split; [done|].
    pose proof (Q.le_max_l b m). pose proof (Q.le_max_r b m).
    split; [lra|]. intros x [[= ->]|Hx]%elem_of_cons; [lra|].
    specialize (Hl x Hx). lra.
Qed.

Lemma minimum_bounds (a : Q) (l : list jsnum) :
  Forall (λ x, isFinite x = true) l →
  ∃ m, minimum (Fin a) l = Fin m ∧ (m <= a)%Q
       ∧ ∀ x, Fin x ∈ l → (m <= x)%Q.
Proof.
  unfold minimum. induction 1 as [|y l Hy _ (m & Hm & Ham & Hl)]; simpl.
  - exists a. split; [done|]. split; [lra|]. by intros x ?%elem_of_nil.
  - apply isFinite_Fin in Hy as [b ->]. rewrite Hm.
    destruct (min_Fin b m) as (c & -> & Hc). exists c. split; [done|].
    pose proof (Q.le_min_l b m). pose proof (Q.le_min_r b m).
    split; [lra|]. intros x [[= ->]|Hx]%elem_of_cons; [lra|].
    specialize (Hl x Hx). lra.
Qed.

(** The top of a finite group is at least 0, its positive stack top and
    every offset; its bottom is at most 0, its negative stack top and
    every offset. *)
Lemma groupTop_bounds d :
  finiteGroup d →
  ∃ t, groupTop d = Fin t ∧ (0 <= t)%Q
       ∧ (∀ x, Group.offsetPos d = Fin x → (x <= t)%Q)
       ∧ ∀ pt x, pt ∈ pointsOf d → Point.offset pt = Fin x → (x <= t)%Q.
Proof.
  intros Hd. destruct (finiteGroup_top d Hd) as [Hp Hoff].
  destruct (maximum_bounds 0 (Group.offsetPos d :: (Point.offset <$> pointsOf d)))
    as (t & Ht & H0 & Hall); [by constructor|].
  exists t. split; [done|]. split; [done|]. split.
  - intros x Hx. apply Hall. rewrite <-Hx. by left.
  - intros pt x Hpt Hx. apply Hall. right. rewrite <-Hx.
    by apply list_elem_of_fmap_2.
Qed.

Lemma groupBottom_bounds d :
  finiteGroup d →
  ∃ t, groupBottom d = Fin t ∧ (t <= 0)%Q
       ∧ (∀ x, Group.offsetNeg d = Fin x → (t <= x)%Q)
       ∧ ∀ pt x, pt ∈ pointsOf d → Point.offset pt = Fin x → (t <= x)%Q.
Proof.
  intros Hd. destruct (finiteGroup_bottom d Hd) as [Hp Hoff].
  destruct (minimum_bounds 0 (Group.offsetNeg d :: (Point.offset <$> pointsOf d)))
    as (t & Ht & H0 & Hall); [by constructor|].
  exists t. split; [done|]. split; [done|]. split.
  - intros x Hx. apply Hall. rewrite <-Hx. by left.
  - intros pt x Hpt Hx. apply Hall. right. rewrite <-Hx.
    by apply list_elem_of_fmap_2.
Qed.

(** The greatest top, and the least bottom, of the groups. *)
Lemma tops_bounds g0 gs :
  Forall finiteGroup (g0 :: gs) →
  ∃ m, maximum (groupTop g0) (groupTop <$> gs) = Fin m ∧ (0 <= m)%Q
       ∧ ∀ d t, d ∈ g0 :: gs → groupTop d = Fin t → (t <= m)%Q.
Proof.
  intros [H0 Hgs]%Forall_cons.
  destruct (groupTop_bounds g0 H0) as (t0 & Ht0 & Hpos & _).
  destruct (maximum_bounds t0 (groupTop <$> gs)) as (m & Hm & Hle & Hall).
  { apply Forall_fmap. eapply Forall_impl; [exact Hgs|]. intros d Hd. simpl.
    destruct (groupTop_bounds d Hd) as (t & -> & _). done. }
  exists m. rewrite Ht0. split; [done|]. split; [lra|].
  intros d t [->|Hd]%elem_of_cons Ht.
  - rewrite Ht0 in Ht. injection Ht as <-. done.
  - apply Hall. rewrite <-Ht. by apply list_elem_of_fmap_2.
Qed.

Lemma bottoms_bounds g0 gs :
  Forall finiteGroup (g0 :: gs) →
  ∃ m, minimum (groupBottom g0) (groupBottom <$> gs) = Fin m ∧ (m <= 0)%Q
       ∧ ∀ d t, d ∈ g0 :: gs → groupBottom d = Fin t → (m <= t)%Q.
Proof.
  intros [H0 Hgs]%Forall_cons.
  destruct (groupBottom_bounds g0 H0) as (t0 & Ht0 & Hpos & _).
  destruct (minimum_bounds t0 (groupBottom <$> gs)) as (m & Hm & Hle & Hall).
  { apply Forall_fmap. eapply Forall_impl; [exact Hgs|]. intros d Hd. simpl.
    destruct (groupBottom_bounds d Hd) as (t & -> & _). done. }
  exists m. rewrite Ht0. split; [done|]. split; [lra|].
  intros d t [->|Hd]%elem_of_cons Ht.
  - rewrite Ht0 in Ht. injection Ht as <-. done.
  - apply Hall. rewrite <-Ht. by apply list_elem_of_fmap_2.
Qed.

(** The domain of a finite model that is not normalized, in rationals:
    [lo = h * bottom] and [hi = h * top], where [top] bounds every
    stack top and offset from above and [bottom] from below. *)
Lemma raw_domain (h : Q) g0 gs :
  (0 <= h)%Q → Forall finiteGroup (g0 :: gs) →
  ∃ lo hi bottom top,
    chartMin false (Fin h) (g0 :: gs) = Some (Fin lo)
    ∧ chartMax false (Fin h) (g0 :: gs) = Some (Fin hi)
    ∧ (lo == h * bottom)%Q ∧ (hi == h * top)%Q
    ∧ (bottom <= 0)%Q ∧ (0 <= top)%Q
    ∧ ∀ d, d ∈ g0 :: gs →
        (∀ x, Group.offsetPos d = Fin x → (x <= top)%Q)
        ∧ (∀ x, Group.offsetNeg d = Fin x → (bottom <= x)%Q)
        ∧ ∀ pt x, pt ∈ pointsOf d → Point.offset pt = Fin x →
            (bottom <= x <= top)%Q.
Proof.
  intros Hh Hall.
  destruct (chartMax_raw h g0 gs Hh Hall) as (hi & Hhi & Hhis).
  destruct (chartMin_raw h g0 gs Hh Hall) as (lo & Hlo & Hlos).
  destruct (tops_bounds g0 gs Hall) as (top & Htop & Htop0 & Htops).
  destruct (bottoms_bounds g0 gs Hall) as (bot & Hbot & Hbot0 & Hbots).
  rewrite Htop in Hhis. rewrite Hbot in Hlos.
  destruct hi as [hi| | |]; try done. destruct lo as [lo| | |]; try done.
  simpl in Hhis, Hlos.
  exists lo, hi, bot, top. repeat (split; [done|]).
  intros d Hd. rewrite Forall_forall in Hall. specialize (Hall d Hd).
  destruct (groupTop_bounds d Hall) as (t & Ht & _ & Htp & Hto).
  destruct (groupBottom_bounds d Hall) as (b & Hb & _ & Hbn & Hbo).
  specialize (Htops d t Hd Ht). specialize (Hbots d b Hd Hb).
  split; [|split].
  - intros x Hx. specialize (Htp x Hx). lra.
  - intros x Hx. specialize (Hbn x Hx). lra.
  - intros pt x Hpt Hx. specialize (Hto pt x Hpt Hx).
    specialize (Hbo pt x Hpt Hx). lra.
Qed.
End domain_bounds.

Section bars_within.
Import JsNum DataShaper ScaleBuilder Host.
Variable formatPct : jsnum → jsstring.

Lemma barWithin_mono lo hi lo' hi' o x :
  (lo' <= lo)%Q → (hi <= hi')%Q →
  barWithin lo hi o x → barWithin lo' hi' o x.
Proof.
  intros Hlo Hhi (a & b & -> & -> & H1 & H2). exists a, b.
  repeat split; lra.
Qed.

Lemma stack_within defDims vals q st :
  forEach (stackStep defDims vals) q stackStart = Ret st →
  ∃ p n, posT st = Fin p ∧ negT st = Fin n ∧ (n <= 0 <= p)%Q
    ∧ Forall (λ e, barWithin n p (Slot.offset e) (Slot.qNum e)) (v st).
Proof.
  apply (forEach_invariant
           (λ st, ∃ p n, posT st = Fin p ∧ negT st = Fin n ∧ (n <= 0 <= p)%Q
              ∧ Forall (λ e, barWithin n p (Slot.offset e) (Slot.qNum e))
                       (v st))).
  - intros s qi s' _ (p & n & Hp & Hn & Hpn & Hv) Hstep.
    apply stackStep_ret in Hstep
      as [-> | (key & rows & num & txt & elm & _ & _ & Hfin & ->)];
      [by exists p, n|].
    apply isFinite_Fin in Hfin as [x ->]. rewrite Hp, Hn.
    destruct (lt (Fin x) zero) eqn:Hlt; cbn [posT negT v add].
    + apply lt_zero_Fin in Hlt. exists p, (n + x)%Q.
      split; [done|]. split; [done|]. split; [lra|].
      apply Forall_app. split.
      * eapply Forall_impl; [exact Hv|]. intros e He.
        eapply barWithin_mono; [| |exact He]; lra.
      * constructor; [|done]. exists n, x. simpl. repeat split; lra.
    + assert (0 <= x)%Q as Hx.
      { apply ge_zero_Fin, lt_zero_false_ge; done. }
      exists (p + x)%Q, n. split; [done|]. split; [done|]. split; [lra|].
      apply Forall_app. split.
      * eapply Forall_impl; [exact Hv|]. intros e He.
        eapply barWithin_mono; [| |exact He]; lra.
      * constructor; [|done]. exists p, x. simpl. repeat split; lra.
  - exists 0%Q, 0%Q. repeat split; try done; try lra.
Qed.

Lemma groupOf_within g q d grp :
  normalized g = false → groupOf formatPct g q d grp →
  ∃ p n, Group.offsetPos grp = Fin p ∧ Group.offsetNeg grp = Fin n
    ∧ Forall (λ pt, barWithin n p (Point.offset pt) (Point.qNum pt))
             (pointsOf grp).
Proof.
  intros Hn (st & Hst & ->).
  destruct (stack_within _ _ _ _ Hst) as (p & n & Hp & Hnn & _ & Hv).
  exists p, n. simpl. split; [done|]. split; [done|].
  unfold pointsOf. simpl. apply Forall_fmap.
  eapply Forall_impl; [exact Hv|]. intros e He. simpl.
  unfold finishPoint. by rewrite Hn.
Qed.

Lemma twoDim_within (h : Q) g g' :
  branchOf g = TwoDim → normalized g = false →
  initData formatPct g = Ret g' → (1 <= h)%Q →
  ∃ lo hi,
    chartMin false (Fin h) (data g') = Some (Fin lo)
    ∧ chartMax false (Fin h) (data g') = Some (Fin hi)
    ∧ (lo <= 0 <= hi)%Q
    ∧ Forall (λ pt, barWithin lo hi (Point.offset pt) (Point.qNum pt))
             (flatData g').
Proof.
  intros Hb Hn Hret Hh.
  destruct (twoDim_finite formatPct g g' Hb Hn Hret) as [Hfin Hne].
  destruct (twoDim_groups formatPct g g' Hb Hret)
    as (s & n & _ & -> & _ & Hall & _ & Hflat & _).
  destruct (data g') as [|g0 gs] eqn:Hdata; [done|].
  destruct (raw_domain h g0 gs) as
    (lo & hi & bot & top & Hlo & Hhi & Eqlo & Eqhi & Hbot & Htop & Hcover);
    [lra|done|].
  exists lo, hi. split; [done|]. split; [done|].
  assert (lo <= bot)%Q as Hlb by nra.
  assert (top <= hi)%Q as Hth by nra.
  split; [lra|]. rewrite Hflat.
  apply Forall_forall. intros pt Hpt.
  apply elem_of_concat in Hpt as (pts & Hpt & Hpts).
  apply list_elem_of_fmap in Hpts as (grp & -> & Hgrp).
  destruct (Hcover grp Hgrp) as (Hpos & Hneg & _).
  apply list_elem_of_lookup_1 in Hgrp as [i Hi].
  destruct (Forall2_lookup_r _ _ _ _ _ Hall Hi) as (d & _ & Hgd).
  destruct (groupOf_within g _ d grp Hn Hgd) as (p & m & Hp & Hm & Hpts).
  rewrite Forall_forall in Hpts.
  specialize (Hpos p Hp). specialize (Hneg m Hm).
  eapply barWithin_mono; [| |exact (Hpts pt Hpt)]; lra.
Qed.
End bars_within.

(** X5.  With [normalized] off and a [gridHeight] of at least 1, the numeric
    domain that [initChart] computes from the two-dimensional model of
    [initData] is defined, contains 0, and contains every bar of the model:
    the offset of every point and its end, offset plus value. *)
Theorem initChart_bars_within_domain
    (formatPct : JsNum.jsnum → jsstring) (h : Q)
    (g g' : DataShaper.chart) :
  DataShaper.branchOf g = DataShaper.TwoDim →
  DataShaper.normalized g = false →
  DataShaper.initData formatPct g = Ret g' →
  (1 <= h)%Q →
  ∃ lo hi,
    ScaleBuilder.chartMin false (JsNum.Fin h) (DataShaper.data g')
    = Some (JsNum.Fin lo)
    ∧ ScaleBuilder.chartMax false (JsNum.Fin h) (DataShaper.data g')
      = Some (JsNum.Fin hi)
    ∧ (lo <= 0 <= hi)%Q
    ∧ Forall (λ pt, Host.barWithin lo hi (DataShaper.Point.offset pt)
                                   (DataShaper.Point.qNum pt))
             (DataShaper.flatData g').
Proof. apply twoDim_within. Qed.

Lemma initChart_bars_within_domain_witness :
  let g := DataShaper.Sample.fresh DataShaper.Sample.quarters false true in
  ∃ lo hi,
    ScaleBuilder.chartMin false (JsNum.Fin 1)
      (DataShaper.data (DataShaper.Sample.shaped g)) = Some (JsNum.Fin lo)
    ∧ ScaleBuilder.chartMax false (JsNum.Fin 1)
        (DataShaper.data (DataShaper.Sample.shaped g)) = Some (JsNum.Fin hi)
    ∧ (lo <= 0 <= hi)%Q
    ∧ Forall (λ pt, Host.barWithin lo hi (DataShaper.Point.offset pt)
                                   (DataShaper.Point.qNum pt))
             (DataShaper.flatData (DataShaper.Sample.shaped g)).
Proof.
  intros g.
  apply (initChart_bars_within_domain DataShaper.Sample.percentText 1 g).
  - vm_compute. reflexivity.
  - reflexivity.
  - vm_compute. reflexivity.
  - vm_compute. discriminate.
Defined.

(** X6.  For a finite model that is not normalized and a positive
    [gridHeight], the numeric domain is defined, contains 0, and contains
    [gridHeight] times every stack top and every offset of the model. *)
Theorem initChart_domain_covers (h : Q)
    (g0 : DataShaper.Group.t) (gs : list DataShaper.Group.t) :
  (0 < h)%Q → Forall ScaleBuilder.finiteGroup (g0 :: gs) →
  ∃ lo hi,
    ScaleBuilder.chartMin false (JsNum.Fin h) (g0 :: gs)
    = Some (JsNum.Fin lo)
    ∧ ScaleBuilder.chartMax false (JsNum.Fin h) (g0 :: gs)
      = Some (JsNum.Fin hi)
    ∧ (lo <= 0 <= hi)%Q
    ∧ ∀ d, d ∈ g0 :: gs →
        (∀ x, DataShaper.Group.offsetPos d = JsNum.Fin x → (h * x <= hi)%Q)
        ∧ (∀ x, DataShaper.Group.offsetNeg d = JsNum.Fin x →
             (lo <= h * x)%Q)
        ∧ ∀ pt x, pt ∈ DataShaper.pointsOf d →
            DataShaper.Point.offset pt = JsNum.Fin x →
            (lo <= h * x <= hi)%Q.
Proof.
  intros Hh Hall.
  destruct (raw_domain h g0 gs) as
    (lo & hi & bot & top & Hlo & Hhi & Eqlo & Eqhi & Hbot & Htop & Hcover);
    [lra|done|].
  exists lo, hi. split; [done|]. split; [done|]. split; [nra|].
  intros d Hd. destruct (Hcover d Hd) as (Hp & Hn & Ho).
  split; [|split].
  - intros x Hx. specialize (Hp x Hx). nra.
  - intros x Hx. specialize (Hn x Hx). nra.
  - intros pt x Hpt Hx. specialize (Ho pt x Hpt Hx). split; nra.
Qed.

Lemma initChart_domain_covers_witness :
  ∃ lo hi,
    ScaleBuilder.chartMin false (JsNum.Fin 2)
      [ScaleBuilder.Sample.q1; ScaleBuilder.Sample.q2] = Some (JsNum.Fin lo)
    ∧ ScaleBuilder.chartMax false (JsNum.Fin 2)
        [ScaleBuilder.Sample.q1; ScaleBuilder.Sample.q2]
      = Some (JsNum.Fin hi)
    ∧ (lo <= 0 <= hi)%Q.
Proof.
  destruct (initChart_domain_covers 2 ScaleBuilder.Sample.q1
              [ScaleBuilder.Sample.q2]) as (lo & hi & Hlo & Hhi & H0 & _).
  - reflexivity.
  - unfold ScaleBuilder.finiteGroup. simpl. repeat constructor.
  - exists lo, hi. split; [exact Hlo|]. split; [exact Hhi|]. exact H0.
Defined.

(** * Running [initData] again *)

Section rerun.
Import JsNum DataShaper.
Variable formatPct : jsnum → jsstring.

Lemma forEachI_ext {X St} (f f' : St → nat → X → outcome St) l i s :
  (∀ s i x, f s i x = f' s i x) → forEachI f l i s = forEachI f' l i s.
Proof.
  intros Hf. revert i s. induction l as [|x l IH]; intros i s; [done|].
  simpl. rewrite Hf. destruct (f' s i x); simpl; [apply IH|done|done].
Qed.

Lemma groupStep_inputs g1 g2 q acc idx d :
  defDims g1 = defDims g2 → normalized g1 = normalized g2 →
  showDeltas g1 = showDeltas g2 →
  groupStep formatPct g1 q acc idx d = groupStep formatPct g2 q acc idx d.
Proof. unfold groupStep. by intros -> -> ->. Qed.

(** [initData] reads six fields of the chart object, and [deltas] on
    the one-dimensional path. *)
Lemma initData_inputs g1 g2 :
  defDims g1 = defDims g2 → defMeas g1 = defMeas g2 →
  measures g1 = measures g2 → rawData g1 = rawData g2 →
  normalized g1 = normalized g2 → showDeltas g1 = showDeltas g2 →
  (branchOf g1 = OneDim → deltas g1 = deltas g2) →
  branchOf g1 ≠ Skipped →
  initData formatPct g1 = initData formatPct g2.
Proof.
  intros Hd Hm Hs Hr Hn Hsd Hdl Hb.
  assert (inputRows g1 = inputRows g2) as Hrows.
  { unfold inputRows. by rewrite Hd, Hm, Hs, Hr. }
  unfold initData, branchOf in *. rewrite <-Hr, <-Hd, <-Hm, <-Hrows.
  destruct (rawData g1) as [|raw0 ?] eqn:Hraw; [done|].
  destruct (decide _); [done|].
  destruct (inputRows g1) as [|d0 rows]; [done|].
  destruct (decide _).
  - unfold shapeOneDim. by rewrite <-Hd, <-Hm, <-Hs, <-Hr, <-Hsd, <-Hdl, Hraw.
  - unfold shapeTwoDim. rewrite <-Hd, <-Hm, <-Hs, <-Hr, <-Hsd, <-Hn, Hraw.
    destruct (forEach scanRow _ _) as [s| |]; simpl; [|done|done].
    destruct (orderSeries _ _ _) as [qr| |]; simpl; [|done|done].
    rewrite (forEachI_ext _ (groupStep formatPct g2 qr.1)); [done|].
    intros. by apply groupStep_inputs.
Qed.

Lemma initData_fixpoint g g' :
  initData formatPct g = Ret g' → initData formatPct g' = Ret g'.
Proof.
  intros Hret. destruct (branchOf g) eqn:Hb.
  - rewrite (initData_skipped formatPct g Hb) in Hret.
    injection Hret as <-. by apply initData_skipped.
  - unfold initData, branchOf in *.
    destruct (rawData g) as [|raw0 ?]; [done|].
    destruct (decide _); [done|].
    destruct (inputRows g) as [|d0 rows]; [done|]. by destruct (decide _).
  - pose proof Hret as Hret'.
    rewrite (initData_oneDim formatPct g Hb) in Hret'.
    unfold shapeOneDim in Hret'.
    destruct (forEach flatRow _ _) as [s| |] eqn:Hs; simpl in Hret';
      [|done|done].
    injection Hret' as Hg'.
    assert (normalized g' = false) as Hn by (by rewrite <-Hg').
    rewrite <-Hret.
    transitivity (initData formatPct (withNormalized false g)).
    + apply initData_inputs; try (by rewrite <-Hg').
      unfold branchOf in *. rewrite <-Hg'. simpl.
      change (inputRows (mkChart _ _ _ _ _ _ _ _ _ _ _ _))
        with (inputRows g).
      destruct (rawData g) as [|raw0 ?]; [done|].
      destruct (decide _); [done|].
      destruct (inputRows g) as [|d0 rows]; [done|]. by destruct (decide _).
    + clear Hret. unfold initData, withNormalized, branchOf in *. simpl.
      change (inputRows (mkChart _ _ _ _ _ _ _ _ _ _ _ _))
        with (inputRows g).
      destruct (rawData g) as [|raw0 ?] eqn:Hraw; [done|].
      destruct (decide _); [done|].
      destruct (inputRows g) as [|d0 rows]; [done|].
      destruct (decide _); [|done].
      unfold shapeOneDim. simpl. by rewrite Hraw.
  - pose proof Hret as Hret'.
    rewrite (initData_twoDim formatPct g Hb) in Hret'.
    apply shapeTwoDim_ret in Hret' as (s & qs & rs & acc & _ & _ & _ & Hg').
    assert (branchOf g' = TwoDim) as Hb'.
    { unfold branchOf in *. rewrite Hg'. simpl.
      change (inputRows (mkChart _ _ _ _ _ _ _ _ _ _ _ _))
        with (inputRows g).
      done. }
    rewrite <-Hret.
    apply initData_inputs; try (by rewrite Hg'); by rewrite Hb'.
Qed.
End rerun.

(** X7.  [initData] run on its own result returns it unchanged: the model
    depends on the data and the settings alone, and the only setting
    [initData] writes, [normalized] on the one-dimensional path, is not read
    on that path. *)
Theorem initData_idempotent
    (formatPct : JsNum.jsnum → jsstring) (g g' : DataShaper.chart) :
  DataShaper.initData formatPct g = Ret g' →
  DataShaper.initData formatPct g' = Ret g'.
Proof. apply initData_fixpoint. Qed.

Lemma initData_idempotent_witness :
  let g := DataShaper.Sample.fresh DataShaper.Sample.quartersGap true true in
  DataShaper.initData DataShaper.Sample.percentText
    (DataShaper.Sample.shaped g)
  = Ret (DataShaper.Sample.shaped g).
Proof.
  intros g.
  apply (initData_idempotent DataShaper.Sample.percentText g).
  vm_compute. reflexivity.
Defined.

(** * The rows made of the hypercube *)

Section rows_facts.
Import JsNum DataShaper Host.

(** The number of cells of the rows of [inData]. *)
Local Abbreviation rowWidth nd nm :=
  (if decide (nd = 0)%nat then 2%nat
   else if decide (nd = 1 ∧ 1 < nm)%nat then 3%nat
   else (nd + nm)%nat).

Lemma imap_rows {A B} (f : nat → A → B) (P : B → Prop) (l : list A) :
  (∀ j x, l !! j = Some x → P (f j x)) → Forall P (imap f l).
Proof.
  intros Hf. apply Forall_forall. intros y Hy.
  apply elem_of_lookup_imap in Hy as (j & x & -> & Hx). by apply Hf.
Qed.

Lemma Forall_concat {A} (P : A → Prop) (ls : list (list A)) :
  Forall (Forall P) ls → Forall P (concat ls).
Proof.
  induction 1 as [|l ls Hl _ IH]; simpl; [done|]. by apply Forall_app.
Qed.

Lemma inputRows_defined g (nd nm : nat) :
  defDims g = Z.of_nat nd → defMeas g = Z.of_nat nm →
  (nd = 0%nat ∨ (nd = 1%nat ∧ (1 < nm)%nat) → length (measures g) = nm) →
  Forall (λ raw, length raw = (nd + nm)%nat) (rawData g) →
  Forall (λ d, Forall is_Some d ∧ length d = rowWidth nd nm) (inputRows g).
Proof.
  intros Hd Hm Hlen Hraw. unfold inputRows.
  destruct (decide (defDims g = 0)) as [H0|H0].
  - assert (nd = 0%nat) as -> by lia. rewrite decide_True by done.
    specialize (Hlen (or_introl eq_refl)).
    apply Forall_concat, Forall_fmap. eapply Forall_impl; [exact Hraw|].
    intros raw Hr. simpl in *. apply imap_rows. intros j x Hx.
    apply lookup_lt_Some in Hx.
    destruct (lookup_lt_is_Some_2 raw j) as [c Hc]; [lia|]. rewrite Hc.
    split; [|done]. repeat constructor; by eexists.
  - rewrite (decide_False (P := nd = 0%nat)) by lia.
    destruct (decide (defDims g = 1 ∧ 1 < defMeas g)) as [[H1 Hmm]|H1].
    + assert (nd = 1%nat) as -> by lia.
      rewrite decide_True by (split; [done|lia]).
      assert (length (measures g) = nm) as Hlen'
        by (apply Hlen; right; split; [done|lia]).
      apply Forall_concat, Forall_fmap. eapply Forall_impl; [exact Hraw|].
      intros raw Hr. simpl in *. apply imap_rows. intros j x Hx.
      apply lookup_lt_Some in Hx.
      destruct (lookup_lt_is_Some_2 raw 0) as [c0 Hc0]; [lia|].
      destruct (lookup_lt_is_Some_2 raw (S j)) as [c Hc]; [lia|].
      rewrite Hc0, Hc. split; [|done]. repeat constructor; by eexists.
    + rewrite decide_False by lia.
      apply Forall_fmap. eapply Forall_impl; [exact Hraw|].
      intros raw Hr. simpl. rewrite length_fmap. split; [|done].
      apply Forall_fmap, Forall_forall. intros c _. by eexists.
Qed.

Lemma inputRows_nonempty g (nd nm : nat) :
  defDims g = Z.of_nat nd → defMeas g = Z.of_nat nm →
  (nd = 0%nat ∨ (nd = 1%nat ∧ (1 < nm)%nat) → length (measures g) = nm) →
  (0 < nm)%nat →
  rawData g ≠ [] → inputRows g ≠ [].
Proof.
  intros Hd Hm Hlen Hnm Hraw. unfold inputRows.
  destruct (rawData g) as [|raw rest]; [done|].
  destruct (decide (defDims g = 0)) as [H0|H0].
  - destruct (measures g) as [|name names]; [|done].
    simpl in Hlen. lia.
  - destruct (decide (defDims g = 1 ∧ 1 < defMeas g)) as [[H1 Hmm]|H1];
      [|done].
    destruct (measures g) as [|name names]; [|done].
    simpl in Hlen. lia.
Qed.

Lemma defined_pairRow d :
  Forall is_Some d → (2 <= length d)%nat → pairRow d.
Proof.
  intros Hd Hlen.
  destruct d as [|o0 [|o1 d]]; [simpl in Hlen; lia..|].
  apply Forall_cons in Hd as [[c0 ->] Hd].
  apply Forall_cons in Hd as [[c1 ->] _]. by exists c0, c1.
Qed.

Lemma defined_fullRow d :
  Forall is_Some d → (3 <= length d)%nat → fullRow d.
Proof.
  intros Hd Hlen.
  destruct d as [|o0 [|o1 [|o2 d]]]; [simpl in Hlen; lia..|].
  apply Forall_cons in Hd as [[c0 ->] Hd].
  apply Forall_cons in Hd as [[c1 ->] Hd].
  apply Forall_cons in Hd as [[c2 ->] _]. by exists c0, c1, c2.
Qed.
End rows_facts.

(** * From the layout to the model *)

Section link_facts.
Import JsNum DataShaper Host.
Variable formatPct : jsnum → jsstring.

Lemma initProps_ret l g :
  qMeasureInfo l ≠ [] →
  ∃ g1, initProps l g = Ret g1
    ∧ defDims g1 = Z.of_nat (length (qDimensionInfo l))
    ∧ defMeas g1 = Z.of_nat (length (qMeasureInfo l))
    ∧ normalized g1 = propsNormalized l
    ∧ showDeltas g1 = propsShowDeltas l
    ∧ ((length (qDimensionInfo l) = 0%nat
        ∨ (length (qDimensionInfo l) = 1%nat
           ∧ (1 < length (qMeasureInfo l))%nat)) →
       measures g1 = measureName <$> qMeasureInfo l).
Proof.
  intros Hm. unfold initProps. destruct (decide _) as [H|H].
  - eexists. split; [done|]. by repeat split.
  - destruct (qMeasureInfo l) as [|t ts] eqn:E; [done|].
    eexists. split; [done|]. repeat split. intros H'. destruct H. simpl in *.
    lia.
Qed.

Lemma link_model l g :
  qMeasureInfo l ≠ [] →
  Forall (λ raw, length raw
                 = (length (qDimensionInfo l) + length (qMeasureInfo l))%nat)
         (qMatrix l) →
  ∃ g', link formatPct l g = Ret g'
    ∧ (qMatrix l ≠ [] →
       nDims g'
       = if decide (length (qDimensionInfo l) + length (qMeasureInfo l) = 2
                    ∨ length (qDimensionInfo l) = 0)%nat
         then 1 else 2).
Proof.
  intros Hm Hrect.
  destruct (initProps_ret l g Hm) as (g1 & Hg1 & Hd & Hme & _ & _ & Hnames).
  unfold link. rewrite Hg1. simpl.
  set (g2 := withRawData (qMatrix l) g1).
  set (nd := length (qDimensionInfo l)) in *.
  set (nm := length (qMeasureInfo l)) in *.
  assert (0 < nm)%nat as Hnm.
  { subst nm. destruct (qMeasureInfo l); [done|simpl; lia]. }
  assert (nd = 0%nat ∨ (nd = 1%nat ∧ (1 < nm)%nat) →
          length (measures g2) = nm) as Hlen.
  { intros H. simpl. rewrite (Hnames H). by rewrite length_fmap. }
  pose proof (inputRows_defined g2 nd nm Hd Hme Hlen Hrect) as Hrows.
  destruct (qMatrix l) as [|raw0 rest] eqn:Hq.
  { exists g2. by split. }
  assert (inputRows g2 ≠ []) as Hne.
  { by apply (inputRows_nonempty g2 nd nm). }
  assert (defDims g2 + defMeas g2 = Z.of_nat (length raw0)) as Hguard.
  { apply Forall_cons in Hrect as [-> _]. subst g2. simpl. lia. }
  destruct (inputRows g2) as [|d0 rows] eqn:Hin; [done|].
  unfold initData. change (rawData g2) with (raw0 :: rest).
  cbv beta iota zeta.
  destruct (decide (defDims g2 + defMeas g2 ≠ Z.of_nat (length raw0)))
    as [Hx|_]; [by destruct Hx|].
  rewrite Hin.
  pose proof (Forall_inv Hrows) as [_ Hlen0]. simpl in Hlen0.
  destruct (decide (length d0 = 2%nat)) as [H2|H2].
  - assert (Forall pairRow (d0 :: rows)) as Hpairs.
    { eapply Forall_impl; [exact Hrows|]. intros d [Hdef Hl]. simpl in Hl.
      apply defined_pairRow; [done|]. rewrite Hl, <-Hlen0, H2. done. }
    destruct (flat_returns (d0 :: rows) (mkFlat [] [] [] []) Hpairs)
      as [s Hs].
    unfold shapeOneDim. rewrite Hs. simpl. eexists. split; [done|].
    intros _. simpl. rewrite decide_True; [done|].
    rewrite Hlen0 in H2. destruct (decide (nd = 0%nat)); [by right|].
    destruct (decide _); [done|]. by left.
  - assert (Forall fullRow (d0 :: rows)) as Hfull.
    { eapply Forall_impl; [exact Hrows|]. intros d [Hdef Hl]. simpl in Hl.
      apply defined_fullRow; [done|]. rewrite Hl, <-Hlen0.
      rewrite Hlen0 in *. destruct (decide (nd = 0%nat)); [done|].
      destruct (decide _); [done|]. lia. }
    destruct (shapeTwoDim_returns formatPct g2 _ Hfull) as [g' Hg'].
    exists g'. split; [done|]. intros _.
    apply shapeTwoDim_ret in Hg' as (? & ? & ? & ? & _ & _ & _ & ->). simpl.
    rewrite decide_False; [done|].
    rewrite Hlen0 in H2. destruct (decide (nd = 0%nat)); [done|].
    destruct (decide _) as [[? ?]|?]; lia.
Qed.

Lemma inputRows_no_measure g :
  defDims g = 0 → measures g = [] → inputRows g = [].
Proof.
  intros Hd Hm. unfold inputRows. rewrite decide_True by done. rewrite Hm.
  induction (rawData g) as [|raw rest IH]; [done|]. exact IH.
Qed.

Lemma link_no_measure l g :
  qMeasureInfo l = [] →
  qDimensionInfo l ≠ [] ∨ (∃ rest, qMatrix l = [] :: rest) →
  link formatPct l g = Throw TypeError.
Proof.
  intros Hm Hcase. unfold link, initProps. rewrite Hm.
  destruct (decide _) as [[H0|[_ H1]]|Hn]; [|simpl in H1; lia|done].
  destruct Hcase as [Hd|[rest Hq]].
  { destruct (qDimensionInfo l); [done|simpl in H0; lia]. }
  cbn [obind]. set (g1 := mkChart _ _ _ _ _ _ _ _ _ _ _ _).
  unfold initData. cbn [withRawData rawData]. rewrite Hq.
  destruct (decide _) as [Hx|_].
  { destruct Hx. cbn [defDims defMeas withRawData]. subst g1. simpl.
    rewrite H0. done. }
  rewrite inputRows_no_measure; [done| |done].
  subst g1. simpl. exact H0.
Qed.
End link_facts.

(** X8.  For a layout with at least one measure whose data page is
    rectangular (every row has one cell for each dimension and each
    measure), [initProps] followed by [initData] returns; and if the page
    has a row, the model is one-dimensional exactly when there is no
    dimension or one dimension with one measure. *)
Theorem link_returns
    (formatPct : JsNum.jsnum → jsstring) (l : Host.layout)
    (g : DataShaper.chart) :
  Host.qMeasureInfo l ≠ [] →
  Forall (λ raw, length raw
                 = (length (Host.qDimensionInfo l)
                    + length (Host.qMeasureInfo l))%nat)
         (Host.qMatrix l) →
  ∃ g', Host.link formatPct l g = Ret g'
    ∧ (Host.qMatrix l ≠ [] →
       DataShaper.nDims g'
       = if decide (length (Host.qDimensionInfo l)
                    + length (Host.qMeasureInfo l) = 2
                    ∨ length (Host.qDimensionInfo l) = 0)%nat
         then 1 else 2).
Proof. apply link_model. Qed.

Lemma link_returns_witness :
  ∃ g', Host.link DataShaper.Sample.percentText Host.Sample.sales
                  Host.Sample.blank = Ret g'
    ∧ DataShaper.nDims g' = 2.
Proof.
  destruct (link_returns DataShaper.Sample.percentText Host.Sample.sales
              Host.Sample.blank) as (g' & Hret & Hn).
  - discriminate.
  - repeat constructor.
  - exists g'. split; [exact Hret|]. apply Hn. discriminate.
Defined.

(** X9.  Without a measure the same steps throw a [TypeError]: in
    [initProps] if there is a dimension, and in [initData] if there is none
    and the data page has a row. *)
Theorem link_no_measure_throws
    (formatPct : JsNum.jsnum → jsstring) (l : Host.layout)
    (g : DataShaper.chart) :
  Host.qMeasureInfo l = [] →
  Host.qDimensionInfo l ≠ [] ∨ (∃ rest, Host.qMatrix l = [] :: rest) →
  Host.link formatPct l g = Throw TypeError.
Proof. apply link_no_measure. Qed.

Lemma link_no_measure_throws_witness :
  Host.link DataShaper.Sample.percentText
    (Host.mkLayout [str "Quarter"] [] [[Host.Sample.cell 0 0 "Q1"]] false false)
    Host.Sample.blank
  = Throw TypeError.
Proof.
  apply (link_no_measure_throws DataShaper.Sample.percentText).
  - reflexivity.
  - left. discriminate.
Defined.

(** * The panel limits and the measure cells *)

Section limits_facts.
Import JsNum DataShaper Host.

Lemma withinLimits_cases (nd nm : Z) :
  withinLimits nd nm ↔
  (nd = 0 ∧ 1 ≤ nm ≤ 10) ∨ (nd = 1 ∧ 1 ≤ nm ≤ 5) ∨ (nd = 2 ∧ nm = 1).
Proof.
  unfold withinLimits, dimensionsMax, measuresMax.
  repeat destruct (decide _); lia.
Qed.

Lemma fmap_concat {A B} (f : A → B) (ls : list (list A)) :
  f <$> concat ls = concat (fmap (M:=list) (fmap f) ls).
Proof.
  induction ls as [|l ls IH]; [done|]. simpl. by rewrite fmap_app, IH.
Qed.

Lemma last_cells_spread {A} (a : nat → A → option Cell.t) (names : list A)
    (raw : list Cell.t) :
  length names = length raw →
  last <$> imap (λ j name, [a j name; raw !! j]) names
  = (λ c, Some (Some c)) <$> raw.
Proof.
  intros Hlen. apply list_eq. intros i.
  rewrite !list_lookup_fmap, list_lookup_imap.
  destruct (names !! i) as [name|] eqn:En; simpl.
  - apply lookup_lt_Some in En.
    destruct (lookup_lt_is_Some_2 raw i) as [c Hc]; [lia|]. by rewrite Hc.
  - apply lookup_ge_None in En. rewrite lookup_ge_None_2 by lia. done.
Qed.

Lemma last_cells_series {A} (a : nat → A → option Cell.t) (names : list A)
    (raw : list Cell.t) :
  S (length names) = length raw →
  last <$> imap (λ j name, [raw !! 0%nat; a j name; raw !! S j]) names
  = (λ c, Some (Some c)) <$> drop 1 raw.
Proof.
  intros Hlen. apply list_eq. intros i.
  rewrite !list_lookup_fmap, list_lookup_imap, lookup_drop.
  destruct (names !! i) as [name|] eqn:En; simpl.
  - apply lookup_lt_Some in En.
    destruct (lookup_lt_is_Some_2 raw (S i)) as [c Hc]; [lia|]. by rewrite Hc.
  - apply lookup_ge_None in En. rewrite lookup_ge_None_2 by lia. done.
Qed.

Lemma last_cell_single (nd : nat) (raw : list Cell.t) :
  length raw = S nd →
  [last (Some <$> raw)] = (λ c, Some (Some c)) <$> drop nd raw.
Proof.
  intros Hlen. rewrite fmap_last, last_lookup, Hlen. simpl.
  destruct (lookup_lt_is_Some_2 raw nd) as [c Hc]; [lia|].
  rewrite Hc. simpl.
  rewrite (drop_S _ c _ Hc). rewrite drop_ge by lia. done.
Qed.

Lemma limits_keep_measures l g g1 :
  withinLimits (Z.of_nat (length (qDimensionInfo l)))
               (Z.of_nat (length (qMeasureInfo l))) →
  Forall (λ raw, length raw
                 = (length (qDimensionInfo l) + length (qMeasureInfo l))%nat)
         (qMatrix l) →
  initProps l g = Ret g1 →
  Z.of_nat (length (qDimensionInfo l) + length (qMeasureInfo l)) ≤ qWidth
  ∧ last <$> inputRows (withRawData (qMatrix l) g1)
    = (λ c, Some (Some c))
        <$> concat (drop (length (qDimensionInfo l)) <$> qMatrix l).
Proof.
  intros Hlim Hrect Hg1.
  set (nd := length (qDimensionInfo l)) in *.
  set (nm := length (qMeasureInfo l)) in *.
  apply withinLimits_cases in Hlim.
  split; [unfold qWidth; lia|].
  assert (qMeasureInfo l ≠ []) as Hm.
  { intros E. subst nm. rewrite E in Hlim. simpl in Hlim. lia. }
  destruct (initProps_ret l g Hm) as (g1' & Hg1' & Hd & Hme & _ & _ & Hnames).
  rewrite Hg1 in Hg1'. injection Hg1' as <-.
  fold nd nm in Hd, Hme, Hnames.
  rewrite fmap_concat. unfold inputRows. cbn [withRawData defDims defMeas
    measures rawData]. rewrite Hd, Hme.
  destruct (decide (Z.of_nat nd = 0)) as [H0|H0].
  - rewrite Hnames by lia. rewrite fmap_concat. f_equal.
    rewrite <-!list_fmap_compose. apply Forall_fmap_ext_1.
    eapply Forall_impl; [exact Hrect|]. intros raw Hr. simpl.
    cbv beta in Hr. replace nd with 0%nat by lia. rewrite drop_0.
    apply last_cells_spread. rewrite length_fmap. subst nd nm. lia.
  - destruct (decide (Z.of_nat nd = 1 ∧ 1 < Z.of_nat nm)) as [[H1 Hmm]|H1].
    + rewrite Hnames by lia. rewrite fmap_concat. f_equal.
      rewrite <-!list_fmap_compose. apply Forall_fmap_ext_1.
      eapply Forall_impl; [exact Hrect|]. intros raw Hr. simpl.
      cbv beta in Hr. replace nd with 1%nat by lia.
      apply last_cells_series. rewrite length_fmap. subst nd nm. lia.
    + assert (nm = 1%nat) as Hnm1 by lia.
      rewrite <-list_fmap_compose.
      clear -Hrect Hnm1. induction Hrect as [|raw rest Hr _ IH]; [done|].
      csimpl. rewrite IH.
      rewrite <-(last_cell_single nd raw) by lia. done.
Qed.
End limits_facts.

(** X10.  Within the limits of the property panel the hypercube fits the
    page that is fetched, and no measure cell is left out: the last cells of
    the rows that [initData] works on are the measure cells of the data
    page, row by row. *)
Theorem panel_limits_keep_measures (l : Host.layout)
    (g g1 : DataShaper.chart) :
  Host.withinLimits (Z.of_nat (length (Host.qDimensionInfo l)))
                    (Z.of_nat (length (Host.qMeasureInfo l))) →
  Forall (λ raw, length raw
                 = (length (Host.qDimensionInfo l)
                    + length (Host.qMeasureInfo l))%nat)
         (Host.qMatrix l) →
  Host.initProps l g = Ret g1 →
  Z.of_nat (length (Host.qDimensionInfo l) + length (Host.qMeasureInfo l))
  ≤ Host.qWidth
  ∧ last <$> DataShaper.inputRows
               (DataShaper.withRawData (Host.qMatrix l) g1)
    = (λ c, Some (Some c))
        <$> concat (drop (length (Host.qDimensionInfo l)) <$> Host.qMatrix l).
Proof. apply limits_keep_measures. Qed.

Lemma panel_limits_keep_measures_witness :
  ∃ g1, Host.initProps Host.Sample.sales Host.Sample.blank = Ret g1
    ∧ Z.of_nat (length (Host.qDimensionInfo Host.Sample.sales)
                + length (Host.qMeasureInfo Host.Sample.sales))
      ≤ Host.qWidth
    ∧ last <$> DataShaper.inputRows
                 (DataShaper.withRawData (Host.qMatrix Host.Sample.sales) g1)
      = (λ c, Some (Some c))
          <$> concat (drop (length (Host.qDimensionInfo Host.Sample.sales))
                        <$> Host.qMatrix Host.Sample.sales).
Proof.
  eexists. split; [reflexivity|].
  apply (panel_limits_keep_measures Host.Sample.sales Host.Sample.blank).
  - vm_compute. intuition discriminate.
  - repeat constructor.
  - reflexivity.
Defined.

(** * The fitted text *)

Section fit_shape.
Import JsNum TextFitter.
Variable m : metrics.
Variable maxLength : jsnum.

Lemma sliceLast_prefix (t : jsstring) : sliceLast t `prefix_of` t.
Proof. unfold sliceLast. apply prefix_take. Qed.

Lemma stripLoop_prefix fuel (t : jsstring) : stripLoop fuel t `prefix_of` t.
Proof.
  revert t. induction fuel as [|fuel IH]; intros t; [done|]. simpl.
  destruct (last t) as [c|]; [|done]. destruct (isDotOrDash c); [|done].
  etrans; [apply IH|apply sliceLast_prefix].
Qed.

(** What the outer loop leaves when it has run at least once: [txt] is
    a shorter prefix of the text it started with, it does not end with a
    dot or a dash, and the text element holds [txt] and the ellipsis. *)
Lemma ellipseLoop_prefix fuel st :
  let r := ellipseLoop m maxLength fuel st in
  r = st
  ∨ (txt r `prefix_of` txt st ∧ (length (txt r) < length (txt st))%nat
     ∧ (∀ c, last (txt r) = Some c → isDotOrDash c = false)
     ∧ tref r = txt r ++ ellipsis).
Proof.
  revert st. induction fuel as [|fuel IH]; intros st; simpl; [by left|].
  destruct (gt (textLength st) maxLength && (0 <? length (txt st))%nat)
    eqn:Hcond; [|by left].
  apply andb_true_iff in Hcond as [_ Hne%Nat.ltb_lt].
  set (t2 := stripLoop _ _).
  assert (t2 `prefix_of` txt st) as Hpre.
  { subst t2. etrans; [apply stripLoop_prefix|apply sliceLast_prefix]. }
  assert (length t2 < length (txt st))%nat as Hlt.
  { subst t2. eapply Nat.le_lt_trans; [apply length_stripLoop|].
    rewrite length_sliceLast. lia. }
  right.
  destruct (IH (mkFit t2 (t2 ++ ellipsis)
                  (computedTextLength m (t2 ++ ellipsis))))
    as [-> | (Hp & Hl & Hc & Ht)]; simpl in *.
  - split; [done|]. split; [done|]. split; [|done].
    intros c. subst t2. by apply stripLoop_exit.
  - split; [by etrans|]. split; [lia|]. done.
Qed.

Lemma fitText_cases (text : jsstring) (allowEllipsis : bool) :
  let r := fitText m maxLength text allowEllipsis in
  r = [] ∨ r = text
  ∨ (allowEllipsis = true
     ∧ ∃ pre suf, r = pre ++ ellipsis ∧ text = pre ++ suf
         ∧ pre ≠ [] ∧ suf ≠ []
         ∧ ∀ c, last pre = Some c → isDotOrDash c = false).
Proof.
  unfold fitText. destruct allowEllipsis; [|destruct (gt _ _); auto].
  unfold ellipseText.
  destruct (ellipseLoop_prefix (length text)
              (mkFit text text (computedTextLength m text)))
    as [-> | (Hp & Hl & Hc & Ht)]; simpl in *.
  - destruct text; simpl; auto.
  - set (r := ellipseLoop _ _ _ _) in *.
    destruct (0 <? length (txt r))%nat eqn:Hne.
    + apply Nat.ltb_lt in Hne. right. right. split; [done|].
      destruct Hp as [suf Hsuf]. exists (txt r), suf. rewrite Ht.
      split; [done|]. split; [done|].
      split; [by destruct (txt r); [simpl in Hne; lia|]|].
      split; [|done]. intros ->. rewrite app_nil_r in Hsuf.
      rewrite <-Hsuf in Hl. lia.
    + apply Nat.ltb_ge in Hne. left.
      destruct (txt r); [done|simpl in Hne; lia].
Qed.

Lemma fitText_within (text : jsstring) (allowEllipsis : bool) :
  let r := fitText m maxLength text allowEllipsis in
  r = [] ∨ gt (computedTextLength m r) maxLength = false.
Proof.
  unfold fitText. destruct allowEllipsis.
  - unfold ellipseText.
    destruct (ellipseLoop_exit m maxLength (length text)
                (mkFit text text (computedTextLength m text)))
      as (H1 & _ & H3); [done..|].
    set (r := ellipseLoop _ _ _ _) in *.
    destruct (0 <? length (txt r))%nat eqn:Hne.
    + right. rewrite andb_true_r in H3. by rewrite <-H1.
    + apply Nat.ltb_ge in Hne. left.
      destruct (txt r); [done|simpl in Hne; lia].
  - destruct (gt _ _) eqn:E; auto.
Qed.

Lemma fitText_empty (allowEllipsis : bool) :
  fitText m maxLength [] allowEllipsis = [].
Proof. unfold fitText. destruct allowEllipsis; [done|]. by destruct (gt _ _). Qed.
End fit_shape.

(** X11.  The fitted text is empty, or the text itself, or, with the
    ellipsis allowed, a prefix of the text followed by the ellipsis, where
    the prefix is not empty, is shorter than the text, and does not end with
    a dot or a dash. *)
Theorem fitText_shape (m : TextFitter.metrics) (w : JsNum.jsnum)
    (text : jsstring) (allowEllipsis : bool) :
  let r := TextFitter.fitText m w text allowEllipsis in
  r = [] ∨ r = text
  ∨ (allowEllipsis = true
     ∧ ∃ pre suf, r = pre ++ TextFitter.ellipsis ∧ text = pre ++ suf
         ∧ pre ≠ [] ∧ suf ≠ []
         ∧ ∀ c, last pre = Some c → TextFitter.isDotOrDash c = false).
Proof. apply fitText_cases. Qed.

(** X12.  A fitted text that is not empty is never measured longer than the
    maximum width, with the ellipsis allowed or not. *)
Theorem fitText_fits (m : TextFitter.metrics) (w : JsNum.jsnum)
    (text : jsstring) (allowEllipsis : bool) :
  let r := TextFitter.fitText m w text allowEllipsis in
  r = [] ∨ JsNum.gt (TextFitter.computedTextLength m r) w = false.
Proof. apply fitText_within. Qed.

(** X13.  A datum whose value is 0 gets no label: [barText] returns the
    empty text for it, for every label type, every setting and every
    measurement of texts. *)
Theorem barText_zero_value (m : TextFitter.metrics) (g : TextFitter.view)
    (d : TextFitter.Datum.t) (type : TextFitter.labelType) :
  TextFitter.Datum.qNum d ≈ JsNum.zero →
  TextFitter.Placement.text (TextFitter.barText m g d type) = [].
Proof.
  intros Hzero. unfold TextFitter.barText.
  cbn [TextFitter.Placement.text].
  assert (TextFitter.getBarLabelText d g (negb (TextFitter.isInside type))
          = Some []) as ->.
  { unfold TextFitter.getBarLabelText.
    destruct (TextFitter.Datum.qNum d) as [q| | |]; try done.
    simpl in *. replace (Qeq_bool q 0) with true; [done|].
    symmetry. by apply Qeq_bool_iff. }
  cbn [TextFitter.setText default]. rewrite fitText_empty.
  destruct (JsNum.eqb _ _); [done|]. by destruct (_ || _).
Qed.

Lemma barText_zero_value_witness :
  TextFitter.Placement.text
    (TextFitter.barText TextFitter.Sample.monospace TextSample.regular
       TextSample.nothing TextFitter.InsideBars) = [].
Proof.
  apply (barText_zero_value TextFitter.Sample.monospace TextSample.regular).
  reflexivity.
Defined.

(** * Tick and legend labels *)

Section trim_facts.
Import JsNum TextFitter LabelTrimmer.
Variable m : metrics.
Variable maxWidth : jsnum.

(** The state in which the loop returns. *)
Lemma trimLoop_exit fuel st :
  textLength st = computedTextLength m (content st) →
  (length (text st) ≤ fuel)%nat →
  let r := trimLoop m maxWidth fuel st in
  textLength r = computedTextLength m (content r)
  ∧ gt (textLength r) maxWidth && (0 <? length (text r))%nat = false
  ∧ (r = st
     ∨ (text r `prefix_of` text st
        ∧ (length (text r) < length (text st))%nat
        ∧ content r = text r ++ ellipsis)).
Proof.
  revert st. induction fuel as [|fuel IH]; intros st Hm Hlen; simpl.
  - split; [done|]. split; [|by left].
    replace (length (text st)) with 0%nat by lia. apply andb_false_r.
  - destruct (gt (textLength st) maxWidth && (0 <? length (text st))%nat)
      eqn:Hcond; [|by split; [|split; [|left]]].
    apply andb_true_iff in Hcond as [_ Hne%Nat.ltb_lt].
    set (t2 := sliceLast (text st)).
    assert (length t2 = (length (text st) - 1)%nat) as Hl2
      by apply length_sliceLast.
    destruct (IH (mkTrim t2 (t2 ++ ellipsis)
                    (computedTextLength m (t2 ++ ellipsis))))
      as (H1 & H2 & H3); [done|simpl; lia|].
    split; [done|]. split; [done|]. right.
    destruct H3 as [-> | (Hp & Hl & Hc)]; simpl in *.
    + split; [apply sliceLast_prefix|]. split; [lia|done].
    + split; [etrans; [exact Hp|apply sliceLast_prefix]|].
      split; [lia|done].
Qed.

Lemma trimLabel_cases (label : jsstring) :
  let r := trimLabel m maxWidth label in
  (r = label
   ∨ ∃ pre suf, r = pre ++ ellipsis ∧ label = pre ++ suf ∧ suf ≠ [])
  ∧ (label ≠ [] → r ≠ [])
  ∧ (gt (computedTextLength m r) maxWidth = false
     ∨ r = ellipsis ∨ r = []).
Proof.
  unfold trimLabel.
  destruct (trimLoop_exit (length label)
              (mkTrim label label (computedTextLength m label)))
    as (H1 & H2 & H3); [done..|].
  set (r := trimLoop _ _ _ _) in *. simpl in H3.
  destruct H3 as [Hr | ([suf Hsuf] & Hl & Hc)].
  - rewrite Hr in *. simpl in *. split; [by left|]. split; [done|].
    destruct label; [by right; right|]. left.
    by rewrite andb_true_r in H2.
  - split; [|split].
    + right. exists (text r), suf. split; [done|]. split; [done|].
      intros ->. rewrite app_nil_r in Hsuf. rewrite <-Hsuf in Hl. lia.
    + intros _. rewrite Hc. by destruct (text r).
    + rewrite <-H1. destruct (text r) as [|c t] eqn:Et.
      * right. left. by rewrite Hc.
      * left. by rewrite andb_true_r in H2.
Qed.

Lemma trimLabel_fixpoint (label : jsstring) :
  trimLabel m maxWidth (trimLabel m maxWidth label)
  = trimLabel m maxWidth label.
Proof.
  destruct (trimLabel_cases label) as (_ & _ & Hfit).
  set (r := trimLabel m maxWidth label) in *.
  destruct Hfit as [Hfit | [-> | ->]].
  - unfold trimLabel at 1. destruct r as [|c r]; [done|].
    cbn [length trimLoop textLength]. by rewrite Hfit.
  - unfold trimLabel, ellipsis. simpl.
    destruct (gt _ _); [|done]. simpl. done.
  - done.
Qed.
End trim_facts.

(** X14.  A tick or legend label after trimming is the label itself or a
    shorter prefix of it followed by the ellipsis; a label that is not empty
    never becomes empty; and the result is not measured longer than the
    maximum width unless it is the bare ellipsis (or the label was empty). *)
Theorem trimLabel_shape (m : TextFitter.metrics) (w : JsNum.jsnum)
    (label : jsstring) :
  let r := LabelTrimmer.trimLabel m w label in
  (r = label
   ∨ ∃ pre suf, r = pre ++ TextFitter.ellipsis ∧ label = pre ++ suf
                ∧ suf ≠ [])
  ∧ (label ≠ [] → r ≠ [])
  ∧ (JsNum.gt (TextFitter.computedTextLength m r) w = false
     ∨ r = TextFitter.ellipsis ∨ r = []).
Proof. apply trimLabel_cases. Qed.

(** X15.  Trimming a trimmed label again, for the same maximum width, leaves
    it as it is. *)
Theorem trimLabel_idempotent (m : TextFitter.metrics) (w : JsNum.jsnum)
    (label : jsstring) :
  LabelTrimmer.trimLabel m w (LabelTrimmer.trimLabel m w label)
  = LabelTrimmer.trimLabel m w label.
Proof. apply trimLabel_fixpoint. Qed.

(** * The frame of the chart *)

Section frame_facts.
Import JsNum LayoutEngine.
Variable toNumber : jsstring → jsnum.

Lemma pick_Fin a b c s : ∃ x, pick a b c s = Fin x
  ∧ (x == a ∨ x == b ∨ x == c)%Q.
Proof. destruct s; eexists; (split; [done|]); auto with *. Qed.

Lemma div_Fin_pos a b : (0 < b)%Q → div (Fin a) (Fin b) = Fin (a / b).
Proof.
  intros Hb. unfold div. destruct (b ?= 0)%Q eqn:E; [|done..].
  apply Qeq_alt in E. lra.
Qed.

Lemma le_Fin_false a b : le (Fin a) (Fin b) = false → (b < a)%Q.
Proof.
  unfold le. intros H. destruct (Qlt_le_dec b a) as [|Hle]; [done|].
  apply Qle_bool_iff in Hle. congruence.
Qed.

Lemma le_Fin_true a b : le (Fin a) (Fin b) = true → (a <= b)%Q.
Proof. unfold le. apply Qle_bool_iff. Qed.

(** The numbers of the frame of a chart whose width and height are
    finite numbers. *)
Lemma frame_numbers g w h :
  extentValue toNumber (width g) = Fin w →
  extentValue toNumber (height g) = Fin h →
  let f := layoutFrame toNumber g in
  ∃ ml mt mb iw ih,
    marginLeft f = Fin ml ∧ marginTop f = Fin mt
    ∧ marginRight f = Fin 20 ∧ marginBottom f = Fin mb
    ∧ innerWidth f = Fin iw ∧ innerHeight f = Fin ih
    ∧ (20 <= ml)%Q ∧ (10 <= mt)%Q ∧ (20 <= mb)%Q
    ∧ match lgn f with
      | None =>
          (ml + iw + 20 == w)%Q ∧ (mt + ih + mb == h)%Q
          ∧ (showLegend g = true →
             if isSide (legendPosition g) then (iw <= 200)%Q
             else (ih <= 100)%Q)
      | Some lg =>
          showLegend g = true ∧ use lg = legendPosition g
          ∧ ∃ lw lh lx ly,
              lgnWidth lg = Fin lw ∧ lgnHeight lg = Fin lh
              ∧ lgnX lg = Fin lx ∧ lgnY lg = Fin ly
              ∧ match use lg with
                | LegendLeft =>
                    (ml + iw + 20 == w)%Q ∧ (mt + ih + mb == h)%Q
                    ∧ (130 < iw)%Q ∧ (20 < lw)%Q
                    ∧ (lx == 20)%Q ∧ (lx + lw + 20 <= ml)%Q
                | LegendRight =>
                    (ml + iw + 20 + lw + 20 == w)%Q
                    ∧ (mt + ih + mb == h)%Q
                    ∧ (130 < iw)%Q ∧ (20 < lw)%Q
                    ∧ (lx == ml + iw + 20)%Q
                | LegendTop =>
                    (ml + iw + 20 == w)%Q ∧ (mt + ih + mb == h)%Q
                    ∧ (40 < ih)%Q ∧ (20 <= lh <= 60)%Q
                    ∧ (ly == 10)%Q ∧ (ly + lh == mt)%Q
                | LegendBottom =>
                    (ml + iw + 20 == w)%Q
                    ∧ (mt + ih + (lh + 10) + mb == h)%Q
                    ∧ (30 < ih)%Q ∧ (20 <= lh <= 60)%Q
                    ∧ (ly == mb + ih + 10)%Q
                end
      end.
Proof.
  intros Hw Hh. unfold layoutFrame. rewrite Hw, Hh.
  set (xl := if vertical g then labelTitleD g else labelTitleM g).
  set (yl := if vertical g then labelTitleM g else labelTitleD g).
  destruct (pick_Fin 70 40 25 (if vertical g then axisMarginD g
                               else axisMarginM g)) as (xa & -> & Hxa).
  destruct (pick_Fin 90 50 30 (if vertical g then axisMarginM g
                               else axisMarginD g)) as (ya & -> & Hya).
  assert (∃ xh, (if showsLabels xl then Fin xa else zero) = Fin xh
                ∧ (0 <= xh)%Q) as (xh & -> & Hxh).
  { destruct (showsLabels xl); eexists; (split; [done|]); lra. }
  assert (∃ yw, (if showsLabels yl then Fin ya else zero) = Fin yw
                ∧ (0 <= yw)%Q) as (yw & -> & Hyw).
  { destruct (showsLabels yl); eexists; (split; [done|]); lra. }
  assert (∃ xt, (if showsTitle xl then Fin 20 else zero) = Fin xt
                ∧ (0 <= xt)%Q) as (xt & -> & Hxt).
  { destruct (showsTitle xl); eexists; (split; [done|]); lra. }
  assert (∃ yt, (if showsTitle yl then Fin 20 else zero) = Fin yt
                ∧ (0 <= yt)%Q) as (yt & -> & Hyt).
  { destruct (showsTitle yl); eexists; (split; [done|]); lra. }
  clear Hxa Hya xl yl.
  destruct (showLegend g).
  2:{ cbn. eexists _, _, _, _, _. repeat (split; [reflexivity|]).
      repeat split; try done; lra. }
  destruct (legendPosition g), (legendSize g);
    cbn [add sub neg mul pick sizeIndex itmHeight isSide];
    match goal with
    | |- context [le (Fin ?a) (Fin ?b)] =>
        destruct (le (Fin a) (Fin b)) eqn:Hle;
          [apply le_Fin_true in Hle | apply le_Fin_false in Hle]
    end;
    try rewrite !div_Fin_pos by lra;
    cbn [add sub neg mul marginLeft marginTop marginRight marginBottom
         innerWidth innerHeight lgn use lgnWidth lgnHeight lgnX lgnY];
    unfold Qdiv;
    try change (/ 4)%Q with (1 # 4)%Q; try change (/ 6)%Q with (1 # 6)%Q;
    try change (/ 10)%Q with (1 # 10)%Q;
    eexists _, _, _, _, _; repeat (split; [reflexivity|]);
    (split; [lra|]); (split; [lra|]); (split; [lra|]);
    first [ by (split; [lra|]; split; [lra|]; intros _; lra)
          | split; [done|]; split; [done|];
            eexists _, _, _, _; repeat (split; [reflexivity|]);
            repeat split; lra ].
Qed.
End frame_facts.

(** X16.  For a chart whose width and height are finite numbers, the frame
    adds up: the left margin, the inner width, what a legend on the right
    takes, and the right margin make the width; the top margin, the inner
    height, what a legend at the bottom takes, and the bottom margin make
    the height. (A legend on the left or at the top is part of the margin on
    that side.) *)
Theorem layoutFrame_budget (toNumber : jsstring → JsNum.jsnum)
    (g : LayoutEngine.settings) (w h : Q) :
  LayoutEngine.extentValue toNumber (LayoutEngine.width g) = JsNum.Fin w →
  LayoutEngine.extentValue toNumber (LayoutEngine.height g) = JsNum.Fin h →
  let f := LayoutEngine.layoutFrame toNumber g in
  JsNum.add (JsNum.add (JsNum.add (LayoutEngine.marginLeft f)
                                  (LayoutEngine.innerWidth f))
                       (LayoutEngine.rightOfPlot f))
            (LayoutEngine.marginRight f) ≈ JsNum.Fin w
  ∧ JsNum.add (JsNum.add (JsNum.add (LayoutEngine.marginTop f)
                                    (LayoutEngine.innerHeight f))
                         (LayoutEngine.belowPlot f))
              (LayoutEngine.marginBottom f) ≈ JsNum.Fin h.
Proof.
  intros Hw Hh f.
  destruct (frame_numbers toNumber g w h Hw Hh)
    as (ml & mt & mb & iw & ih & Hml & Hmt & Hmr & Hmb & Hiw & Hih
        & _ & _ & _ & Hl).
  fold f in Hml, Hmt, Hmr, Hmb, Hiw, Hih, Hl.
  unfold LayoutEngine.rightOfPlot, LayoutEngine.belowPlot.
  rewrite Hml, Hmt, Hmr, Hmb, Hiw, Hih.
  destruct (LayoutEngine.lgn f) as [lg|].
  - destruct Hl as (_ & _ & lw & lh & lx & ly & -> & -> & _ & _ & Hl).
    destruct (LayoutEngine.use lg); simpl; split; lra.
  - simpl. split; lra.
Qed.

Lemma layoutFrame_budget_witness :
  let f := LayoutEngine.layoutFrame LayoutEngine.Sample.noText
             LayoutEngine.Sample.wide in
  JsNum.add (JsNum.add (JsNum.add (LayoutEngine.marginLeft f)
                                  (LayoutEngine.innerWidth f))
                       (LayoutEngine.rightOfPlot f))
            (LayoutEngine.marginRight f) ≈ JsNum.Fin 640
  ∧ JsNum.add (JsNum.add (JsNum.add (LayoutEngine.marginTop f)
                                    (LayoutEngine.innerHeight f))
                         (LayoutEngine.belowPlot f))
              (LayoutEngine.marginBottom f) ≈ JsNum.Fin 480.
Proof.
  apply (layoutFrame_budget LayoutEngine.Sample.noText
           LayoutEngine.Sample.wide 640 480); reflexivity.
Defined.

(** X17.  For a chart whose width and height are finite numbers: a legend
    that is shown leaves the plot more than 130 pixels of width if it is on
    a side and more than 30 pixels of height if it is at the top or the
    bottom, and a legend on the right ends 20 pixels before the right edge
    of the chart; a legend that was asked for and is not shown means a plot
    of at most 200 pixels of width (sides) or 100 pixels of height (top,
    bottom). *)
Theorem layoutFrame_legend_room (toNumber : jsstring → JsNum.jsnum)
    (g : LayoutEngine.settings) (w h : Q) :
  LayoutEngine.extentValue toNumber (LayoutEngine.width g) = JsNum.Fin w →
  LayoutEngine.extentValue toNumber (LayoutEngine.height g) = JsNum.Fin h →
  let f := LayoutEngine.layoutFrame toNumber g in
  match LayoutEngine.lgn f with
  | Some lg =>
      LayoutEngine.showLegend g = true
      ∧ LayoutEngine.use lg = LayoutEngine.legendPosition g
      ∧ (if LayoutEngine.isSide (LayoutEngine.use lg)
         then JsNum.lt (JsNum.Fin 130) (LayoutEngine.innerWidth f) = true
         else JsNum.lt (JsNum.Fin 30) (LayoutEngine.innerHeight f) = true)
      ∧ (LayoutEngine.use lg = LayoutEngine.LegendRight →
         JsNum.add (LayoutEngine.lgnX lg) (LayoutEngine.lgnWidth lg)
         ≈ JsNum.Fin (w - 20))
  | None =>
      LayoutEngine.showLegend g = true →
      if LayoutEngine.isSide (LayoutEngine.legendPosition g)
      then JsNum.le (LayoutEngine.innerWidth f) (JsNum.Fin 200) = true
      else JsNum.le (LayoutEngine.innerHeight f) (JsNum.Fin 100) = true
  end.
Proof.
  intros Hw Hh f.
  destruct (frame_numbers toNumber g w h Hw Hh)
    as (ml & mt & mb & iw & ih & Hml & Hmt & Hmr & Hmb & Hiw & Hih
        & _ & _ & _ & Hl).
  fold f in Hml, Hmt, Hmr, Hmb, Hiw, Hih, Hl.
  rewrite Hiw, Hih.
  destruct (LayoutEngine.lgn f) as [lg|].
  - destruct Hl as (Hs & Hu & lw & lh & lx & ly & Hlw & _ & Hlx & _ & Hl).
    rewrite Hlw, Hlx. split; [done|]. split; [done|].
    destruct (LayoutEngine.use lg); simpl; split;
      try (apply lt_Fin_true; lra); try done.
    intros _. lra.
  - destruct Hl as (_ & _ & Hl). intros Hs. specialize (Hl Hs).
    destruct (LayoutEngine.isSide _); unfold JsNum.le;
      by apply Qle_bool_iff.
Qed.

Lemma layoutFrame_legend_room_witness :
  let f := LayoutEngine.layoutFrame LayoutEngine.Sample.noText
             LayoutEngine.Sample.wide in
  match LayoutEngine.lgn f with
  | Some lg =>
      LayoutEngine.showLegend LayoutEngine.Sample.wide = true
      ∧ LayoutEngine.use lg
        = LayoutEngine.legendPosition LayoutEngine.Sample.wide
      ∧ (if LayoutEngine.isSide (LayoutEngine.use lg)
         then JsNum.lt (JsNum.Fin 130) (LayoutEngine.innerWidth f) = true
         else JsNum.lt (JsNum.Fin 30) (LayoutEngine.innerHeight f) = true)
      ∧ (LayoutEngine.use lg = LayoutEngine.LegendRight →
         JsNum.add (LayoutEngine.lgnX lg) (LayoutEngine.lgnWidth lg)
         ≈ JsNum.Fin (640 - 20))
  | None =>
      LayoutEngine.showLegend LayoutEngine.Sample.wide = true →
      if LayoutEngine.isSide
           (LayoutEngine.legendPosition LayoutEngine.Sample.wide)
      then JsNum.le (LayoutEngine.innerWidth f) (JsNum.Fin 200) = true
      else JsNum.le (LayoutEngine.innerHeight f) (JsNum.Fin 100) = true
  end.
Proof.
  apply (layoutFrame_legend_room LayoutEngine.Sample.noText
           LayoutEngine.Sample.wide 640 480); reflexivity.
Defined.

(** * The text color *)

Section color_facts.
Import JsNum TextColor.

Lemma isInteger_eq x v : isInteger x v = true → x = Fin (inject_Z v).
Proof.
  destruct x as [[n d]| | |]; unfold isInteger; try done.
  intros [Hn Hd]%andb_true_iff. apply Z.eqb_eq in Hn.
  apply Pos.eqb_eq in Hd. by subst.
Qed.

(** [parseInt] reads back a byte written with two digits. *)
Lemma hexByte_roundtrip upper v :
  0 ≤ v < 256 → parseInt16 (hexByte upper v) = Fin (inject_Z v).
Proof.
  intros Hv. apply isInteger_eq.
  assert (forallb (λ v, isInteger (parseInt16 (hexByte upper v)) v)
                  (seqZ 0 256) = true) as Hall
    by (destruct upper; vm_compute; reflexivity).
  rewrite forallb_forall in Hall. apply Hall.
  apply list_elem_of_In, elem_of_seqZ. lia.
Qed.

Lemma txtColor_hexColor upper r g b :
  0 ≤ r < 256 → 0 ≤ g < 256 → 0 ≤ b < 256 →
  txtColor (hexColor upper r g b)
  = if decide (160000 ≤ 299 * r + 587 * g + 114 * b) then black else white.
Proof.
  intros Hr Hg Hb. unfold txtColor.
  change (substr 1 2 (hexColor upper r g b)) with (hexByte upper r).
  change (substr 3 2 (hexColor upper r g b)) with (hexByte upper g).
  change (substr 5 2 (hexColor upper r g b)) with (hexByte upper b).
  rewrite !hexByte_roundtrip by done. cbn [mul add].
  rewrite div_Fin_pos by lra. unfold ge, le.
  set (y := (inject_Z r * 299 + inject_Z g * 587 + inject_Z b * 114)%Q).
  assert (y == inject_Z (299 * r + 587 * g + 114 * b))%Q as Hy.
  { subst y. rewrite !inject_Z_plus, !inject_Z_mult. ring. }
  assert ((160 <= y / 1000)%Q ↔ 160000 ≤ 299 * r + 587 * g + 114 * b)
    as Hiff.
  { rewrite Zle_Qle, <-Hy. change (inject_Z 160000) with 160000%Q.
    unfold Qdiv. change (/ 1000)%Q with (1 # 1000)%Q. split; intros; lra. }
  destruct (decide _) as [Hge|Hlt].
  - rewrite (proj2 (Qle_bool_iff _ _)); [done|by apply Hiff].
  - destruct (Qle_bool 160 (y / 1000)) eqn:E; [|done].
    apply Qle_bool_iff, Hiff in E. done.
Qed.

Lemma parseInt16_empty : parseInt16 [] = NaN.
Proof. done. Qed.

Lemma txtColor_short (hexcolor : jsstring) :
  (length hexcolor ≤ 5)%nat → txtColor hexcolor = white.
Proof.
  intros Hlen. unfold txtColor.
  assert (substr 5 2 hexcolor = []) as ->.
  { unfold substr. rewrite drop_ge by lia. done. }
  rewrite parseInt16_empty. change (mul NaN (Fin 114)) with NaN.
  by destruct (add (mul _ _) (mul _ _)).
Qed.
End color_facts.

(** X18.  For a color written [#rrggbb], with the digits in either case,
    [txtColor] answers 'black' exactly when 299 r + 587 g + 114 b is at
    least 160000, and 'white' otherwise. *)
Theorem txtColor_brightness (upper : bool) (r g b : Z) :
  0 ≤ r < 256 → 0 ≤ g < 256 → 0 ≤ b < 256 →
  TextColor.txtColor (TextColor.hexColor upper r g b)
  = if decide (160000 ≤ 299 * r + 587 * g + 114 * b)
    then TextColor.black else TextColor.white.
Proof. apply txtColor_hexColor. Qed.

Lemma txtColor_brightness_witness :
  TextColor.txtColor (TextColor.hexColor false 68 119 170) = TextColor.white.
Proof.
  rewrite (txtColor_brightness false 68 119 170); [reflexivity|lia..].
Defined.

(** X19.  A color string of at most five characters, such as the short form
    [#rgb], always gets 'white': its blue part is empty and reads as [NaN]. *)
Theorem txtColor_short_is_white (hexcolor : jsstring) :
  (length hexcolor ≤ 5)%nat →
  TextColor.txtColor hexcolor = TextColor.white.
Proof. apply txtColor_short. Qed.

Lemma txtColor_short_is_white_witness :
  TextColor.txtColor (str "#fff") = TextColor.white.
Proof. apply txtColor_short_is_white. simpl. lia. Defined.

(** * The color schemas *)

Section schema_facts.
Import DataShaper ColorSchemas.

Lemma arrayFind_fmap_filter {A B} (f : A → B) (p : B → bool) (q : A → bool)
    (l : list A) :
  arrayFind p (f <$> filter (λ x, q x = true) l)
  = f <$> arrayFind (λ x, q x && p (f x)) l.
Proof.
  induction l as [|x l IH]; [done|].
  destruct (q x) eqn:Hq.
  - rewrite filter_cons_True by done. csimpl. rewrite Hq. simpl.
    by destruct (p (f x)).
  - rewrite filter_cons_False by (by rewrite Hq). simpl. by rewrite Hq.
Qed.

Lemma label_schemaOf p : label (schemaOf p) = paletteName p.
Proof. by destruct p. Qed.

Lemma schema_lookup (data : list palette) (name : jsval) :
  getColorSchemaByName (updateColorSchemas data) name
  = match arrayFind (λ p, usable p && bool_decide (paletteName p = name))
                    data with
    | Some p => schemaOf p
    | None =>
        match arrayFind usable data with
        | Some p => schemaOf p
        | None => defaultColorSchema
        end
    end.
Proof.
  unfold getColorSchemaByName, updateColorSchemas.
  rewrite (arrayFind_fmap_filter schemaOf).
  assert (∀ l, arrayFind (λ x, usable x
                               && bool_decide (label (schemaOf x) = name)) l
               = arrayFind (λ p, usable p
                                 && bool_decide (paletteName p = name)) l)
    as ->.
  { induction l as [|p l IH]; [done|]. simpl.
    by rewrite label_schemaOf, IH. }
  destruct (arrayFind _ data) as [p|]; [done|]. simpl.
  unfold getDefaultColorSchema.
  clear. induction data as [|p data IH]; [done|].
  destruct (usable p) eqn:Hp.
  - rewrite filter_cons_True by done. simpl. by rewrite Hp.
  - rewrite filter_cons_False by (by rewrite Hp). simpl. by rewrite Hp.
Qed.
End schema_facts.

(** X20.  After [updateColorSchemas] has stored the palettes of a theme,
    [getColorSchemaByName] answers with the first palette of type 'pyramid'
    or 'row' that has the name asked for: the last scale of a pyramid, the
    scale of a row. If there is none it answers with the first palette of
    one of the two types, and with the default schema of two colors if the
    theme has none. *)
Theorem getColorSchemaByName_lookup (data : list ColorSchemas.palette)
    (name : DataShaper.jsval) :
  ColorSchemas.getColorSchemaByName (ColorSchemas.updateColorSchemas data)
                                    name
  = match ColorSchemas.arrayFind
            (λ p, ColorSchemas.usable p
                  && bool_decide (ColorSchemas.paletteName p = name)) data
    with
    | Some p => ColorSchemas.schemaOf p
    | None =>
        match ColorSchemas.arrayFind ColorSchemas.usable data with
        | Some p => ColorSchemas.schemaOf p
        | None => ColorSchemas.defaultColorSchema
        end
    end.
Proof. apply schema_lookup. Qed.

(** * The numerical abbreviations *)

Section abbreviation_facts.
Import JsNum DataShaper NumAbbrev.

Lemma sameb_same x y : sameb x y = true ↔ x ≈ y.
Proof.
  destruct x, y; simpl; try (split; [done|tauto]); try done.
  apply Qeq_bool_iff.
Qed.

Lemma sameb_proper k x y : x ≈ y → sameb k x = sameb k y.
Proof.
  intros Hxy. destruct (sameb k x) eqn:Hx, (sameb k y) eqn:Hy; try done.
  - apply sameb_same in Hx. assert (sameb k y = true) as Hy'
      by (apply sameb_same; by etrans). congruence.
  - apply sameb_same in Hy. assert (sameb k x = true) as Hx'
      by (apply sameb_same; etrans; [done|by symmetry]). congruence.
Qed.

Lemma sameb_proper_l k k' x : k ≈ k' → sameb k x = sameb k' x.
Proof.
  intros Hk. destruct (sameb k x) eqn:Hx, (sameb k' x) eqn:Hy; try done.
  - apply sameb_same in Hx. assert (sameb k' x = true) as Hy'
      by (apply sameb_same; etrans; [by symmetry|done]). congruence.
  - apply sameb_same in Hy. assert (sameb k x = true) as Hx'
      by (apply sameb_same; by etrans). congruence.
Qed.

Lemma entry_same d x y : x ≈ y → entry d x = entry d y.
Proof.
  intros Hxy. induction d as [|[k u] d IH]; [done|]. simpl.
  by rewrite (sameb_proper k x y), IH.
Qed.

Lemma step_same x y : x ≈ y → step x ≈ step y.
Proof.
  unfold step.
  destruct x as [a| | |], y as [b| | |]; simpl; try done.
  intros Hab. unfold lt, zero.
  rewrite (Qcompare_comp a b Hab 0%Q 0%Q (Qeq_refl 0%Q)).
  destruct (b ?= 0)%Q; simpl; lra.
Qed.

Lemma seek_same fuel d x y : x ≈ y → seek fuel d x = seek fuel d y.
Proof.
  revert x y. induction fuel as [|fuel IH]; [done|]. intros x y Hxy. simpl.
  rewrite (entry_same d x y Hxy).
  destruct (entry d y); [done|]. apply IH. by apply step_same.
Qed.

Lemma entry_assign d key u key' :
  entry (assign d key u) key'
  = if sameb key key' then Some u else entry d key'.
Proof.
  induction d as [|[k u'] d IH]; [done|]. simpl.
  destruct (sameb k key) eqn:Hk; simpl.
  - apply sameb_same in Hk.
    rewrite <- (sameb_proper_l k key key' Hk). by destruct (sameb k key').
  - rewrite IH. destruct (sameb k key') eqn:Hk'; [|done].
    destruct (sameb key key') eqn:Hkk; [|done].
    apply sameb_same in Hk', Hkk.
    assert (sameb k key = true) as Hk2
      by (apply sameb_same; etrans; [done|by symmetry]). congruence.
Qed.

Variable toNumber : jsstring → jsnum.
Variable ilog10 : Q → Z.

Lemma addPair_keeps d p key :
  entry d key ≠ None → entry (addPair toNumber d p) key ≠ None.
Proof.
  intros Hd. unfold addPair.
  destruct (split 58 p) as [|p0 [|p1 [|? ?]]]; try done.
  destruct (toNumber p0); try done; rewrite entry_assign;
    by destruct (sameb _ key).
Qed.

Lemma addPair_NaN d p :
  entry d NaN = None → entry (addPair toNumber d p) NaN = None.
Proof.
  intros Hd. unfold addPair.
  destruct (split 58 p) as [|p0 [|p1 [|? ?]]]; try done.
  destruct (toNumber p0); try done; by rewrite entry_assign.
Qed.

Lemma d3NumAbs_zero s : entry (d3NumAbs toNumber s) zero ≠ None.
Proof.
  unfold d3NumAbs.
  assert (entry [(zero, mkAbb Identity [])] zero ≠ None) as H by done.
  revert H. generalize [(zero, mkAbb Identity [])].
  induction (split 59 s) as [|p ps IH]; intros d Hd; [done|].
  simpl. apply IH. by apply addPair_keeps.
Qed.

Lemma d3NumAbs_NaN s : entry (d3NumAbs toNumber s) NaN = None.
Proof.
  unfold d3NumAbs.
  assert (entry [(zero, mkAbb Identity [])] NaN = None) as H by done.
  revert H. generalize [(zero, mkAbb Identity [])].
  induction (split 59 s) as [|p ps IH]; intros d Hd; [done|].
  simpl. apply IH. by apply addPair_NaN.
Qed.

Lemma seek_down d (n : nat) :
  entry d zero ≠ None →
  ∃ j u, 0 ≤ j ≤ Z.of_nat n
    ∧ entry d (thousands j) = Some u
    ∧ (∀ i, j < i ≤ Z.of_nat n → entry d (thousands i) = None)
    ∧ ∀ fuel, (n < fuel)%nat →
        seek fuel d (thousands (Z.of_nat n)) = Ret (Some u).
Proof.
  intros Hz. induction n as [|n IH].
  - change (thousands (Z.of_nat 0)) with zero.
    destruct (entry d zero) as [u|] eqn:Hu; [|done].
    exists 0, u. repeat split; try done; try lia.
    intros [|fuel] ?; [lia|]. simpl. by rewrite Hu.
  - destruct (entry d (thousands (Z.of_nat (S n)))) as [u|] eqn:Hu.
    + exists (Z.of_nat (S n)), u. repeat split; try done; try lia.
      intros [|fuel] ?; [lia|]. simpl. by rewrite Hu.
    + destruct IH as (j & u & Hj & Hju & Hnone & Hrun).
      exists j, u. repeat split; try done; try lia.
      * intros i Hi. destruct (decide (i = Z.of_nat (S n))) as [->|]; [done|].
        apply Hnone. lia.
      * intros [|fuel] ?; [lia|]. simpl. rewrite Hu.
        rewrite (seek_same fuel d _ (thousands (Z.of_nat n))).
        { apply Hrun. lia. }
        unfold step, thousands, lt, zero.
        assert (0 < inject_Z (3 * Z.of_nat (S n)))%Q as Hpos
          by (rewrite <- (Zlt_Qlt 0); lia).
        destruct (inject_Z (3 * Z.of_nat (S n)) ?= 0)%Q eqn:Hc.
        -- apply Qeq_alt in Hc. lra.
        -- apply Qlt_alt in Hc. lra.
        -- simpl. rewrite !inject_Z_mult, Nat2Z.inj_succ.
           unfold Z.succ. rewrite inject_Z_plus. ring.
Qed.

Lemma seek_up d (n : nat) :
  entry d zero ≠ None →
  ∃ j u, - Z.of_nat n ≤ j ≤ 0
    ∧ entry d (thousands j) = Some u
    ∧ (∀ i, - Z.of_nat n ≤ i < j → entry d (thousands i) = None)
    ∧ ∀ fuel, (n < fuel)%nat →
        seek fuel d (thousands (- Z.of_nat n)) = Ret (Some u).
Proof.
  intros Hz. induction n as [|n IH].
  - change (thousands (- Z.of_nat 0)) with zero.
    destruct (entry d zero) as [u|] eqn:Hu; [|done].
    exists 0, u. repeat split; try done; try lia.
    intros [|fuel] ?; [lia|]. simpl. by rewrite Hu.
  - destruct (entry d (thousands (- Z.of_nat (S n)))) as [u|] eqn:Hu.
    + exists (- Z.of_nat (S n)), u. repeat split; try done; try lia.
      intros [|fuel] ?; [lia|]. simpl. by rewrite Hu.
    + destruct IH as (j & u & Hj & Hju & Hnone & Hrun).
      exists j, u. repeat split; try done; try lia.
      * intros i Hi.
        destruct (decide (i = - Z.of_nat (S n))) as [->|]; [done|].
        apply Hnone. lia.
      * intros [|fuel] ?; [lia|]. simpl. rewrite Hu.
        rewrite (seek_same fuel d _ (thousands (- Z.of_nat n))).
        { apply Hrun. lia. }
        unfold step, thousands, lt, zero.
        assert (inject_Z (3 * - Z.of_nat (S n)) < 0)%Q as Hneg
          by (rewrite <- (Zlt_Qlt _ 0); lia).
        destruct (inject_Z (3 * - Z.of_nat (S n)) ?= 0)%Q eqn:Hc.
        -- apply Qeq_alt in Hc. lra.
        -- simpl. rewrite !inject_Z_mult, !inject_Z_opp, Nat2Z.inj_succ.
           unfold Z.succ. rewrite inject_Z_plus. ring.
        -- apply Qgt_alt in Hc. lra.
Qed.

Lemma seek_thousands d (k : Z) :
  entry d zero ≠ None →
  ∃ j u, towardsZero k j
    ∧ entry d (thousands j) = Some u
    ∧ (∀ i, beyond k j i → entry d (thousands i) = None)
    ∧ ∀ fuel, (Z.abs_nat k < fuel)%nat →
        seek fuel d (thousands k) = Ret (Some u).
Proof.
  intros Hz. unfold towardsZero, beyond. destruct (decide (0 ≤ k)) as [Hk|Hk].
  - destruct (seek_down d (Z.abs_nat k) Hz) as (j & u & Hj & Hu & Hnone & Hrun).
    rewrite Zabs2Nat.id_abs, Z.abs_eq in * by done.
    exists j, u. split; [lia|]. split; [done|]. split; [|done].
    intros i Hi. apply Hnone. lia.
  - destruct (seek_up d (Z.abs_nat k) Hz) as (j & u & Hj & Hu & Hnone & Hrun).
    rewrite Zabs2Nat.id_abs, Z.abs_neq, Z.opp_involutive in * by lia.
    exists j, u. split; [lia|]. split; [done|]. split; [|done].
    intros i Hi. apply Hnone. lia.
Qed.

Lemma precision_of_value (e : Z) :
  sub (Fin (inject_Z e)) (rem (Fin (inject_Z e)) (Fin 3))
  ≈ thousands (Z.quot e 3).
Proof.
  unfold sub, rem, thousands. simpl.
  unfold trunc. simpl. change (Z.pos (1 * 3)) with 3.
  rewrite Z.mul_1_r, inject_Z_mult. change (inject_Z 3) with 3%Q. ring.
Qed.

Lemma seek_NaN d fuel : entry d NaN = None → seek fuel d NaN = Diverge.
Proof. intros Hd. induction fuel as [|fuel IH]; [done|]. simpl. by rewrite Hd. Qed.

End abbreviation_facts.

(** X21.  Once [overrideD3FormatPrefix] has built its dictionary from any
    abbreviation string, [d3.formatPrefix] called with a positive value and
    no precision returns. With [k] the exponent of the value in thousands,
    rounded towards zero, the result is the abbreviation listed for the
    exponent [3 * j] nearest to [3 * k] on the way to zero: no exponent
    between the two is listed, and the exponent 0 always is. *)
Theorem formatPrefix_nearest_exponent (toNumber : jsstring → JsNum.jsnum)
    (ilog10 : Q → Z) (s : jsstring) (q : Q)
    (precision : option JsNum.jsnum) :
  (0 < q)%Q →
  NumAbbrev.noPrecision precision = true →
  let d := NumAbbrev.d3NumAbs toNumber s in
  let k := Z.quot (ilog10 q) 3 in
  ∃ j u,
    NumAbbrev.towardsZero k j
    ∧ NumAbbrev.entry d (NumAbbrev.thousands j) = Some u
    ∧ (∀ i, NumAbbrev.beyond k j i →
            NumAbbrev.entry d (NumAbbrev.thousands i) = None)
    ∧ ∀ fuel, (Z.abs_nat k < fuel)%nat →
        NumAbbrev.formatPrefix ilog10 fuel d (JsNum.Fin q) precision
        = Ret (Some u).
Proof.
  intros Hq Hp d k.
  destruct (seek_thousands d k (d3NumAbs_zero toNumber s))
    as (j & u & Hj & Hu & Hnone & Hrun).
  exists j, u. split; [done|]. split; [done|]. split; [done|].
  intros fuel Hfuel. unfold NumAbbrev.formatPrefix. rewrite Hp.
  assert (ScaleBuilder.truthy (JsNum.Fin q) = true) as ->.
  { simpl. destruct (Qeq_bool q 0) eqn:E; [|done].
    apply Qeq_bool_iff in E. lra. }
  simpl. apply Qgt_alt in Hq. rewrite Hq.
  rewrite (seek_same fuel d _ _ (precision_of_value (ilog10 q))).
  by apply Hrun.
Qed.

Lemma formatPrefix_nearest_exponent_witness :
  let d := NumAbbrev.d3NumAbs NumAbbrev.Sample.toNumber
                              NumAbbrev.Sample.abbreviations in
  let k := Z.quot (NumAbbrev.Sample.ilog10 2500000) 3 in
  ∃ j u,
    NumAbbrev.towardsZero k j
    ∧ NumAbbrev.entry d (NumAbbrev.thousands j) = Some u
    ∧ (∀ i, NumAbbrev.beyond k j i →
            NumAbbrev.entry d (NumAbbrev.thousands i) = None)
    ∧ ∀ fuel, (Z.abs_nat k < fuel)%nat →
        NumAbbrev.formatPrefix NumAbbrev.Sample.ilog10 fuel d
                               (JsNum.Fin 2500000) None
        = Ret (Some u).
Proof.
  apply (formatPrefix_nearest_exponent NumAbbrev.Sample.toNumber
           NumAbbrev.Sample.ilog10 NumAbbrev.Sample.abbreviations
           2500000 None); reflexivity.
Defined.

(** X22.  With the dictionary of any abbreviation string, [d3.formatPrefix]
    called with no precision and a value that is negative or [Infinity]
    never returns: the exponent of the value is [NaN], which is no key of
    the dictionary and stays [NaN] in every turn of the loop. *)
Theorem formatPrefix_negative_value_loops (toNumber : jsstring → JsNum.jsnum)
    (ilog10 : Q → Z) (s : jsstring) (value : JsNum.jsnum)
    (precision : option JsNum.jsnum) :
  JsNum.lt value JsNum.zero = true ∨ value = JsNum.PInf →
  NumAbbrev.noPrecision precision = true →
  ∀ fuel,
    NumAbbrev.formatPrefix ilog10 fuel (NumAbbrev.d3NumAbs toNumber s)
                           value precision
    = Diverge.
Proof.
  intros Hv Hp fuel. unfold NumAbbrev.formatPrefix. rewrite Hp.
  pose proof (d3NumAbs_NaN toNumber s) as Hnan.
  destruct value as [q| | |]; try (by destruct Hv).
  - destruct Hv as [Hv|]; [|done]. unfold JsNum.lt, JsNum.zero in Hv.
    assert (ScaleBuilder.truthy (JsNum.Fin q) = true) as ->.
    { simpl. destruct (Qeq_bool q 0) eqn:E; [|done].
      apply Qeq_bool_iff, Qeq_alt in E. by rewrite E in Hv. }
    simpl. destruct (q ?= 0)%Q; try done. simpl. by apply seek_NaN.
  - simpl. by apply seek_NaN.
  - simpl. by apply seek_NaN.
Qed.

Lemma formatPrefix_negative_value_loops_witness :
  JsNum.lt (JsNum.Fin (-1500)) JsNum.zero = true
  ∧ ∀ fuel,
      NumAbbrev.formatPrefix NumAbbrev.Sample.ilog10 fuel
        (NumAbbrev.d3NumAbs NumAbbrev.Sample.toNumber
                            NumAbbrev.Sample.abbreviations)
        (JsNum.Fin (-1500)) None
      = Diverge.
Proof.
  split; [reflexivity|].
  apply (formatPrefix_negative_value_loops NumAbbrev.Sample.toNumber
           NumAbbrev.Sample.ilog10 NumAbbrev.Sample.abbreviations
           (JsNum.Fin (-1500)) None); [left|]; reflexivity.
Defined.




(** * The scale domain for every model *)

Section order_facts.
Import JsNum DataShaper ScaleBuilder ScaleDomain.

Lemma lt_NaN_l y : lt NaN y = false.
Proof. done. Qed.

Lemma lt_NaN_r x : lt x NaN = false.
Proof. by destruct x. Qed.

Lemma lt_same x x' y y' : x ≈ x' → y ≈ y' → lt x y = lt x' y'.
Proof.
  destruct x as [a| | |], x' as [a'| | |]; try done;
    destruct y as [b| | |], y' as [b'| | |]; try done.
  intros Ha Hb. unfold lt. by rewrite (Qcompare_comp a a' Ha b b' Hb).
Qed.

Lemma lt_irrefl x y : x ≈ y → lt x y = false.
Proof.
  destruct x as [a| | |], y as [b| | |]; try done.
  intros Hab. unfold lt. apply Qeq_alt in Hab. by rewrite Hab.
Qed.

Lemma lt_asym x y : lt x y = true → lt y x = false.
Proof.
  destruct x as [a| | |], y as [b| | |]; try done.
  unfold lt. destruct (a ?= b)%Q eqn:E; try done. intros _.
  apply Qlt_alt in E. destruct (b ?= a)%Q eqn:E'; try done.
  apply Qlt_alt in E'. lra.
Qed.

Lemma lt_negtrans x y z :
  isNumber x = true → isNumber y = true → isNumber z = true →
  lt x y = false → lt y z = false → lt x z = false.
Proof.
  destruct x as [a| | |], y as [b| | |], z as [c| | |]; try done.
  unfold lt. intros _ _ _.
  destruct (a ?= b)%Q eqn:E1; try done;
    destruct (b ?= c)%Q eqn:E2; try done;
    destruct (a ?= c)%Q eqn:E3; try done; intros _ _;
    repeat match goal with
    | H : (_ ?= _)%Q = Eq |- _ => apply Qeq_alt in H
    | H : (_ ?= _)%Q = Lt |- _ => apply Qlt_alt in H
    | H : (_ ?= _)%Q = Gt |- _ => apply Qgt_alt in H
    end; lra.
Qed.

Lemma lt_antisym x y :
  isNumber x = true → isNumber y = true →
  lt x y = false → lt y x = false → x ≈ y.
Proof.
  destruct x as [a| | |], y as [b| | |]; try done.
  unfold lt. intros _ _.
  destruct (a ?= b)%Q eqn:E1; try done;
    destruct (b ?= a)%Q eqn:E2; try done; intros _ _;
    repeat match goal with
    | H : (_ ?= _)%Q = Eq |- _ => apply Qeq_alt in H
    | H : (_ ?= _)%Q = Lt |- _ => apply Qlt_alt in H
    | H : (_ ?= _)%Q = Gt |- _ => apply Qgt_alt in H
    end; simpl; lra.
Qed.

Lemma isNumber_same x y : x ≈ y → isNumber x = isNumber y.
Proof. by destruct x, y. Qed.

Lemma mul_number (h : Q) x :
  (0 < h)%Q → isNumber (mul x (Fin h)) = isNumber x.
Proof.
  intros Hh. destruct x as [a| | |]; try done; simpl; unfold signedInf.
  - destruct (h ?= 0)%Q eqn:E; try done. apply Qeq_alt in E. lra.
  - destruct (- h ?= 0)%Q eqn:E; try done. apply Qeq_alt in E. lra.
Qed.

Lemma mul_same (h : Q) x y : x ≈ y → mul x (Fin h) ≈ mul y (Fin h).
Proof.
  destruct x as [a| | |], y as [b| | |]; try done; simpl;
    intros Hab; first [by rewrite Hab | by destruct (signedInf _)].
Qed.

Lemma mul_comm_scale (h : Q) x : mul (Fin h) x ≈ mul x (Fin h).
Proof.
  destruct x as [a| | |]; try done; simpl;
    first [ring | by destruct (signedInf _)].
Qed.

Lemma mul_lt (h : Q) x y :
  (0 < h)%Q → lt (mul x (Fin h)) (mul y (Fin h)) = lt x y.
Proof.
  intros Hh.
  assert (signedInf h = PInf) as Hp.
  { unfold signedInf. destruct (h ?= 0)%Q eqn:E; try done.
    - apply Qeq_alt in E. lra.
    - apply Qlt_alt in E. lra. }
  assert (signedInf (- h) = NInf) as Hn.
  { unfold signedInf. destruct (- h ?= 0)%Q eqn:E; try done.
    - apply Qeq_alt in E. lra.
    - apply Qgt_alt in E. lra. }
  destruct x as [a| | |], y as [b| | |]; simpl; rewrite ?Hp, ?Hn; try done.
  unfold lt.
  destruct (a ?= b)%Q eqn:E1; destruct (a * h ?= b * h)%Q eqn:E2; try done;
    repeat match goal with
    | H : (_ ?= _)%Q = Eq |- _ => apply Qeq_alt in H
    | H : (_ ?= _)%Q = Lt |- _ => apply Qlt_alt in H
    | H : (_ ?= _)%Q = Gt |- _ => apply Qgt_alt in H
    end; nra.
Qed.
End order_facts.

Section best_facts.
Import JsNum DataShaper ScaleBuilder ScaleDomain.

(** A strict order on the numbers: [>] for the greatest, [<] for the
    least. *)
Variable strictly : jsnum → jsnum → bool.
Hypothesis strictly_NaN_l : ∀ y, strictly NaN y = false.
Hypothesis strictly_NaN_r : ∀ x, strictly x NaN = false.
Hypothesis strictly_same :
  ∀ x x' y y', x ≈ x' → y ≈ y' → strictly x y = strictly x' y'.
Hypothesis strictly_irrefl : ∀ x y, x ≈ y → strictly x y = false.
Hypothesis strictly_asym : ∀ x y, strictly x y = true → strictly y x = false.
Hypothesis strictly_negtrans :
  ∀ x y z, isNumber x = true → isNumber y = true → isNumber z = true →
    strictly x y = false → strictly y z = false → strictly x z = false.
Hypothesis strictly_antisym :
  ∀ x y, isNumber x = true → isNumber y = true →
    strictly x y = false → strictly y x = false → x ≈ y.

Lemma strictly_number x y : strictly x y = true → isNumber x = true.
Proof. destruct x; try done. by rewrite strictly_NaN_l. Qed.

Lemma isBest_unique m m' l :
  isBest strictly m l → isBest strictly m' l → m ≈ m'.
Proof.
  intros (Hm & (x & Hx & Hmx) & Hbound) (Hm' & (x' & Hx' & Hmx') & Hbound').
  apply strictly_antisym; try done.
  - rewrite (strictly_same m x m' m') by done.
    apply Hbound'; [done|]. by rewrite <- (isNumber_same m x).
  - rewrite (strictly_same m' x' m m) by done.
    apply Hbound; [done|]. by rewrite <- (isNumber_same m' x').
Qed.

Lemma isBest_same m m' l :
  m ≈ m' → isBest strictly m l → isBest strictly m' l.
Proof.
  intros Hmm (Hm & (x & Hx & Hmx) & Hbound). split; [|split].
  - by rewrite <- (isNumber_same m m').
  - exists x. split; [done|]. by etrans; [symmetry|].
  - intros y Hy Hny. rewrite <- (strictly_same y y m m') by done.
    by apply Hbound.
Qed.

(** The best number does not depend on the values that are not numbers,
    nor on which of two equal numbers stands in the list. *)
Lemma isBest_similar m l l' :
  (∀ x, x ∈ l → isNumber x = true → ∃ y, y ∈ l' ∧ x ≈ y) →
  (∀ y, y ∈ l' → isNumber y = true → ∃ x, x ∈ l ∧ x ≈ y) →
  isBest strictly m l → isBest strictly m l'.
Proof.
  intros H1 H2 (Hm & (x & Hx & Hmx) & Hbound). split; [done|split].
  - destruct (H1 x Hx) as (y & Hy & Hxy);
      [by rewrite <- (isNumber_same m x)|].
    exists y. split; [done|]. by etrans.
  - intros y Hy Hny. destruct (H2 y Hy Hny) as (x' & Hx' & Hxy).
    rewrite <- (strictly_same x' y m m) by done.
    apply Hbound; [done|]. by rewrite (isNumber_same x' y).
Qed.

(** The loop "take the next value when it is strictly better". *)
Lemma foldl_isBest (l : list jsnum) (s : jsnum) :
  isNumber s = true →
  isBest strictly (foldl (λ m o, if strictly o m then o else m) s l)
         (s :: l).
Proof.
  revert s. induction l as [|o l IH]; intros s Hs.
  - simpl. split; [done|split].
    + exists s. split; [by left|done].
    + intros x Hx _. apply list_elem_of_singleton in Hx as ->.
      by apply strictly_irrefl.
  - simpl. set (s' := if strictly o s then o else s).
    assert (isNumber s' = true) as Hs'.
    { unfold s'. destruct (strictly o s) eqn:E; [|done].
      by apply strictly_number in E. }
    destruct (IH s' Hs') as (Hr & (x & Hx & Hrx) & Hbound).
    set (r := foldl _ s' l) in *.
    assert (strictly s' r = false) as Hs'r by (apply Hbound; [by left|done]).
    split; [done|split].
    + exists x. split; [|done].
      apply elem_of_cons in Hx as [->|Hx].
      * unfold s'. destruct (strictly o s); [by right; left|by left].
      * by right; right.
    + intros y Hy Hny.
      apply elem_of_cons in Hy as [->|Hy];
        [|apply elem_of_cons in Hy as [->|Hy]].
      * apply (strictly_negtrans s s' r); try done.
        unfold s'. destruct (strictly o s) eqn:E.
        -- by apply strictly_asym.
        -- by apply strictly_irrefl.
      * apply (strictly_negtrans o s' r); try done.
        unfold s'. destruct (strictly o s) eqn:E; [|done].
        by apply strictly_irrefl.
      * apply Hbound; [by right|done].
Qed.

(** The formula "the better of [x] and the best of the rest". *)
Lemma foldr_isBest (op : jsnum → jsnum → jsnum) (l : list jsnum)
    (x : jsnum) :
  (∀ a b, isNumber a = true → isNumber b = true →
          op a b = if strictly b a then b else a) →
  isNumber x = true → Forall (λ y, isNumber y = true) l →
  isBest strictly (foldr op x l) (x :: l).
Proof.
  intros Hop Hx. induction 1 as [|y l Hy Hl IH].
  - simpl. split; [done|split].
    + exists x. split; [by left|done].
    + intros z Hz _. apply list_elem_of_singleton in Hz as ->.
      by apply strictly_irrefl.
  - destruct IH as (Hr & (z & Hz & Hrz) & Hbound). simpl.
    set (r := foldr op x l) in *. rewrite Hop by done.
    destruct (strictly r y) eqn:E.
    + split; [done|split].
      * exists z. split; [|done].
        apply elem_of_cons in Hz as [->|Hz]; [by left|by right; right].
      * intros w Hw Hnw.
        apply elem_of_cons in Hw as [->|Hw];
          [|apply elem_of_cons in Hw as [->|Hw]].
        -- apply Hbound; [by left|done].
        -- by apply strictly_asym.
        -- apply Hbound; [by right|done].
    + split; [done|split].
      * exists y. split; [by right; left|done].
      * intros w Hw Hnw.
        assert (strictly r y = false → strictly w r = false →
                strictly w y = false) as Htrans
          by (intros ? ?; by apply (strictly_negtrans w r y)).
        apply elem_of_cons in Hw as [->|Hw];
          [|apply elem_of_cons in Hw as [->|Hw]].
        -- apply Htrans; [done|]. apply Hbound; [by left|done].
        -- by apply strictly_irrefl.
        -- apply Htrans; [done|]. apply Hbound; [by right|done].
Qed.

Lemma isBest_skip m b l :
  isNumber b = false → isBest strictly m l → isBest strictly m (b :: l).
Proof.
  intros Hb. apply isBest_similar.
  - intros x Hx _. exists x. split; [by right|done].
  - intros y Hy Hny. apply elem_of_cons in Hy as [->|Hy]; [congruence|].
    by exists y.
Qed.

Lemma isBest_numbers m l :
  isBest strictly m (numbers l) ↔ isBest strictly m l.
Proof.
  split; apply isBest_similar.
  - intros x Hx _. apply list_elem_of_filter in Hx as [_ Hx]. by exists x.
  - intros y Hy Hny. exists y. split; [|done]. by apply list_elem_of_filter.
  - intros x Hx Hnx. exists x. split; [|done]. by apply list_elem_of_filter.
  - intros y Hy _. apply list_elem_of_filter in Hy as [_ Hy]. by exists y.
Qed.

Lemma isBest_Forall2 m l l' :
  Forall2 same l l' → isBest strictly m l → isBest strictly m l'.
Proof.
  intros Hll. apply isBest_similar.
  - intros x Hx _. apply list_elem_of_lookup_1 in Hx as [i Hi].
    destruct (Forall2_lookup_l _ _ _ _ _ Hll Hi) as (y & Hy & Hxy).
    exists y. split; [|done]. by eapply list_elem_of_lookup_2.
  - intros y Hy _. apply list_elem_of_lookup_1 in Hy as [i Hi].
    destruct (Forall2_lookup_r _ _ _ _ _ Hll Hi) as (x & Hx & Hxy).
    exists x. split; [|done]. by eapply list_elem_of_lookup_2.
Qed.

Lemma isBest_not_all_NaN m l :
  isBest strictly m l → ¬ Forall (λ x, isNumber x = false) l.
Proof.
  intros (Hm & (x & Hx & Hmx) & _) Hall.
  rewrite Forall_forall in Hall. specialize (Hall x Hx).
  rewrite (isNumber_same m x) in Hm by done. congruence.
Qed.

Hypothesis strictly_scale :
  ∀ (h : Q) x y, (0 < h)%Q →
    strictly (mul x (Fin h)) (mul y (Fin h)) = strictly x y.

Lemma isBest_scale (h : Q) m l :
  (0 < h)%Q → isBest strictly m l →
  isBest strictly (mul m (Fin h)) ((λ x, mul x (Fin h)) <$> l).
Proof.
  intros Hh (Hm & (x & Hx & Hmx) & Hbound). split; [|split].
  - by rewrite mul_number.
  - exists (mul x (Fin h)). split; [|by apply mul_same].
    apply list_elem_of_fmap. by exists x.
  - intros y Hy Hny. apply list_elem_of_fmap in Hy as (z & -> & Hz).
    rewrite strictly_scale by done. apply Hbound; [done|].
    by rewrite mul_number in Hny.
Qed.

(** The greatest (or least) number that a list of groups gives: the
    code's values [code d] scaled by [h], against the numbers [spec d],
    when the two agree group by group. *)
Lemma best_of_groups (h : Q) (code spec : Group.t → jsnum)
    (data : list Group.t) (found : option jsnum) (m : option jsnum) :
  (0 < h)%Q →
  (∀ d, code d ≈ spec d) →
  match found with
  | Some hi => isBest strictly hi ((λ d, mul (code d) (Fin h)) <$> data)
  | None =>
      Forall (λ x, isNumber x = false)
             ((λ d, mul (code d) (Fin h)) <$> data)
  end →
  match m with
  | Some x => isBest strictly x (spec <$> data)
  | None => Forall (λ x, isNumber x = false) (spec <$> data)
  end →
  match m with
  | Some x => ∃ hi, found = Some hi ∧ hi ≈ mul (Fin h) x
  | None => found = None
  end.
Proof.
  intros Hh Hcs Hfound Hm.
  assert (Forall2 same ((λ x, mul x (Fin h)) <$> (spec <$> data))
                       ((λ d, mul (code d) (Fin h)) <$> data)) as Hsim.
  { rewrite <- list_fmap_compose. apply Forall2_fmap, Forall_Forall2_diag.
    apply Forall_forall. intros d _. simpl. apply mul_same.
    symmetry. apply Hcs. }
  destruct m as [x|].
  - pose proof (isBest_Forall2 _ _ _ Hsim (isBest_scale h x _ Hh Hm)) as Hx.
    destruct found as [hi|].
    + exists hi. split; [done|].
      etrans; [exact (isBest_unique hi (mul x (Fin h)) _ Hfound Hx)|].
      symmetry. apply mul_comm_scale.
    + by destruct (isBest_not_all_NaN _ _ Hx).
  - destruct found as [hi|]; [|done].
    destruct (isBest_not_all_NaN _ _ Hfound).
    apply Forall_fmap, Forall_forall. intros d Hd. simpl.
    rewrite mul_number by done.
    rewrite (isNumber_same (code d) (spec d)) by done.
    rewrite Forall_forall in Hm. apply Hm.
    apply list_elem_of_fmap. by exists d.
Qed.
End best_facts.

Section domain_general.
Import JsNum DataShaper ScaleBuilder ScaleDomain.

Lemma gt_NaN_l y : gt NaN y = false.
Proof. apply lt_NaN_r. Qed.
Lemma gt_NaN_r x : gt x NaN = false.
Proof. done. Qed.
Lemma gt_same x x' y y' : x ≈ x' → y ≈ y' → gt x y = gt x' y'.
Proof. intros. by apply lt_same. Qed.
Lemma gt_irrefl x y : x ≈ y → gt x y = false.
Proof. intros. by apply lt_irrefl. Qed.
Lemma gt_asym x y : gt x y = true → gt y x = false.
Proof. apply lt_asym. Qed.
Lemma gt_negtrans x y z :
  isNumber x = true → isNumber y = true → isNumber z = true →
  gt x y = false → gt y z = false → gt x z = false.
Proof. intros. by apply (lt_negtrans z y x). Qed.
Lemma gt_antisym x y :
  isNumber x = true → isNumber y = true →
  gt x y = false → gt y x = false → x ≈ y.
Proof. intros. by apply lt_antisym. Qed.
Lemma gt_scale (h : Q) x y :
  (0 < h)%Q → gt (mul x (Fin h)) (mul y (Fin h)) = gt x y.
Proof. intros. by apply mul_lt. Qed.
Lemma lt_scale (h : Q) x y :
  (0 < h)%Q → lt (mul x (Fin h)) (mul y (Fin h)) = lt x y.
Proof. intros. by apply mul_lt. Qed.

Lemma max_numbers a b :
  isNumber a = true → isNumber b = true →
  max a b = if gt b a then b else a.
Proof. by destruct a, b. Qed.

Lemma min_numbers a b :
  isNumber a = true → isNumber b = true →
  min a b = if lt b a then b else a.
Proof. by destruct a, b. Qed.

Lemma ge_refl_number b : ge b b = isNumber b.
Proof. destruct b; try done. apply ge_Fin_refl. Qed.

Lemma foldl_greatest l s :
  isNumber s = true →
  isBest gt (foldl (λ m o, if gt o m then o else m) s l) (s :: l).
Proof. apply (foldl_isBest gt gt_NaN_l gt_irrefl gt_asym gt_negtrans). Qed.

Lemma foldl_least l s :
  isNumber s = true →
  isBest lt (foldl (λ m o, if lt o m then o else m) s l) (s :: l).
Proof. apply (foldl_isBest lt lt_NaN_l lt_irrefl lt_asym lt_negtrans). Qed.

Lemma maximum_greatest x l :
  isNumber x = true → Forall (λ y, isNumber y = true) l →
  isBest gt (maximum x l) (x :: l).
Proof.
  apply (foldr_isBest gt gt_irrefl gt_asym gt_negtrans max).
  apply max_numbers.
Qed.

Lemma minimum_least x l :
  isNumber x = true → Forall (λ y, isNumber y = true) l →
  isBest lt (minimum x l) (x :: l).
Proof.
  apply (foldr_isBest lt lt_irrefl lt_asym lt_negtrans min).
  apply min_numbers.
Qed.

Lemma Forall_numbers l : Forall (λ y, isNumber y = true) (numbers l).
Proof.
  apply Forall_forall. intros y Hy.
  by apply list_elem_of_filter in Hy as [? _].
Qed.

Lemma foldl_offsets (step : jsnum → jsnum → jsnum) (s : jsnum)
    (vs : list Point.t) :
  foldl (λ m pt, step m (Point.offset pt)) s vs
  = foldl step s (Point.offset <$> vs).
Proof. revert s. induction vs as [|pt vs IH]; intros s; [done|]. apply IH. Qed.

Lemma foldl_NaN (strictly : jsnum → jsnum → bool) l :
  (∀ x, strictly x NaN = false) →
  foldl (λ m o, if strictly o m then o else m) NaN l = NaN.
Proof. intros H. induction l as [|o l IH]; [done|]. simpl. by rewrite H. Qed.

Lemma maxOffsetOf_foldl d :
  maxOffsetOf d
  = foldl (λ m o, if gt o m then o else m) (max zero (Group.offsetPos d))
          (Point.offset <$> pointsOf d).
Proof.
  unfold maxOffsetOf, pointsOf. destruct (Group.values d) as [vs|]; [|done].
  apply (foldl_offsets (λ m o, if gt o m then o else m)).
Qed.

Lemma minOffsetOf_foldl d :
  minOffsetOf d
  = foldl (λ m o, if lt o m then o else m) (min zero (Group.offsetNeg d))
          (Point.offset <$> pointsOf d).
Proof.
  unfold minOffsetOf, pointsOf. destruct (Group.values d) as [vs|]; [|done].
  apply (foldl_offsets (λ m o, if lt o m then o else m)).
Qed.

Lemma maxOffsetOf_numberTop d : maxOffsetOf d ≈ numberTop d.
Proof.
  rewrite maxOffsetOf_foldl. unfold numberTop.
  destruct (isNumber (Group.offsetPos d)) eqn:Htop.
  - set (offs := Point.offset <$> pointsOf d).
    apply (isBest_unique gt gt_same gt_antisym _ _
             (zero :: Group.offsetPos d :: offs)).
    + rewrite (max_numbers zero) by done.
      apply (foldl_greatest (Group.offsetPos d :: offs) zero). done.
    + apply (isBest_numbers gt gt_same). unfold numbers.
      rewrite !filter_cons_True by done.
      apply maximum_greatest; [done|].
      constructor; [done|apply Forall_numbers].
  - destruct (Group.offsetPos d); try done. simpl.
    rewrite (foldl_NaN gt); [done|apply gt_NaN_r].
Qed.

Lemma minOffsetOf_numberBottom d : minOffsetOf d ≈ numberBottom d.
Proof.
  rewrite minOffsetOf_foldl. unfold numberBottom.
  destruct (isNumber (Group.offsetNeg d)) eqn:Htop.
  - set (offs := Point.offset <$> pointsOf d).
    apply (isBest_unique lt lt_same lt_antisym _ _
             (zero :: Group.offsetNeg d :: offs)).
    + rewrite (min_numbers zero) by done.
      apply (foldl_least (Group.offsetNeg d :: offs) zero). done.
    + apply (isBest_numbers lt lt_same). unfold numbers.
      rewrite !filter_cons_True by done.
      apply minimum_least; [done|].
      constructor; [done|apply Forall_numbers].
  - destruct (Group.offsetNeg d); try done. simpl.
    rewrite (foldl_NaN lt); [done|apply lt_NaN_r].
Qed.

Lemma d3max_greatest l :
  match d3max l with
  | Some m => isBest gt m l
  | None => Forall (λ x, isNumber x = false) l
  end.
Proof.
  induction l as [|b l IH]; [by constructor|]. simpl.
  rewrite ge_refl_number. destruct (isNumber b) eqn:Hb.
  - rewrite d3maxFrom_foldl. by apply foldl_greatest.
  - destruct (d3max l) as [m|].
    + by apply (isBest_skip gt gt_same).
    + by constructor.
Qed.

Lemma d3min_least l :
  match d3min l with
  | Some m => isBest lt m l
  | None => Forall (λ x, isNumber x = false) l
  end.
Proof.
  induction l as [|b l IH]; [by constructor|]. simpl.
  rewrite ge_refl_number. destruct (isNumber b) eqn:Hb.
  - rewrite d3minFrom_foldl. by apply foldl_least.
  - destruct (d3min l) as [m|].
    + by apply (isBest_skip lt lt_same).
    + by constructor.
Qed.

Lemma numbers_nil l : numbers l = [] → Forall (λ x, isNumber x = false) l.
Proof.
  intros Hl. apply Forall_forall. intros x Hx.
  destruct (isNumber x) eqn:E; [|done].
  assert (x ∈ numbers l) as Hin by (by apply list_elem_of_filter).
  rewrite Hl in Hin. by apply elem_of_nil in Hin.
Qed.

Lemma greatest_spec l :
  match greatest l with
  | Some m => isBest gt m l
  | None => Forall (λ x, isNumber x = false) l
  end.
Proof.
  unfold greatest. destruct (numbers l) as [|x l'] eqn:Hl.
  - by apply numbers_nil.
  - apply (isBest_numbers gt gt_same). rewrite Hl.
    pose proof (Forall_numbers l) as Hall. rewrite Hl in Hall.
    apply maximum_greatest; [by apply Forall_inv in Hall|].
    by apply Forall_inv_tail in Hall.
Qed.

Lemma least_spec l :
  match least l with
  | Some m => isBest lt m l
  | None => Forall (λ x, isNumber x = false) l
  end.
Proof.
  unfold least. destruct (numbers l) as [|x l'] eqn:Hl.
  - by apply numbers_nil.
  - apply (isBest_numbers lt lt_same). rewrite Hl.
    pose proof (Forall_numbers l) as Hall. rewrite Hl in Hall.
    apply minimum_least; [by apply Forall_inv in Hall|].
    by apply Forall_inv_tail in Hall.
Qed.

Lemma chartMax_general (h : Q) (data : list Group.t) :
  (0 < h)%Q →
  match greatest (numberTop <$> data) with
  | Some m => ∃ hi, chartMax false (Fin h) data = Some hi
                    ∧ hi ≈ mul (Fin h) m
  | None => chartMax false (Fin h) data = None
  end.
Proof.
  intros Hh.
  apply (best_of_groups gt gt_same gt_antisym gt_scale h
           maxOffsetOf numberTop data); [done| | |].
  - apply maxOffsetOf_numberTop.
  - apply d3max_greatest.
  - apply greatest_spec.
Qed.

Lemma chartMin_general (h : Q) (data : list Group.t) :
  (0 < h)%Q →
  match least (numberBottom <$> data) with
  | Some m => ∃ lo, chartMin false (Fin h) data = Some lo
                    ∧ lo ≈ mul (Fin h) m
  | None => chartMin false (Fin h) data = None
  end.
Proof.
  intros Hh.
  apply (best_of_groups lt lt_same lt_antisym lt_scale h
           minOffsetOf numberBottom data); [done| | |].
  - apply minOffsetOf_numberBottom.
  - apply d3min_least.
  - apply least_spec.
Qed.

(** Without a value that is not a number, the formulas are those of
    the claim. *)
Lemma numberTop_groupTop d : numberGroup d → numberTop d = groupTop d.
Proof.
  intros (Hp & _ & Hoff). unfold numberTop, groupTop. rewrite Hp.
  unfold numbers. rewrite filter_all; [done|].
  intros x Hx. apply list_elem_of_fmap in Hx as (pt & -> & Hpt).
  rewrite Forall_forall in Hoff. by apply Hoff.
Qed.

Lemma numberBottom_groupBottom d :
  numberGroup d → numberBottom d = groupBottom d.
Proof.
  intros (_ & Hn & Hoff). unfold numberBottom, groupBottom. rewrite Hn.
  unfold numbers. rewrite filter_all; [done|].
  intros x Hx. apply list_elem_of_fmap in Hx as (pt & -> & Hpt).
  rewrite Forall_forall in Hoff. by apply Hoff.
Qed.
End domain_general.

Section domain_claim.
Import JsNum DataShaper ScaleBuilder ScaleDomain.

Lemma isBest_number strictly m l : isBest strictly m l → isNumber m = true.
Proof. by intros (? & _). Qed.

Lemma numberGroup_top d : numberGroup d → isNumber (groupTop d) = true.
Proof.
  intros Hd. rewrite <- numberTop_groupTop by done. unfold numberTop.
  destruct Hd as (Hp & _). rewrite Hp.
  eapply isBest_number, maximum_greatest; [done|].
  constructor; [done|apply Forall_numbers].
Qed.

Lemma numberGroup_bottom d : numberGroup d → isNumber (groupBottom d) = true.
Proof.
  intros Hd. rewrite <- numberBottom_groupBottom by done. unfold numberBottom.
  destruct Hd as (_ & Hn & _). rewrite Hn.
  eapply isBest_number, minimum_least; [done|].
  constructor; [done|apply Forall_numbers].
Qed.

Lemma greatest_numberGroups g0 gs :
  Forall numberGroup (g0 :: gs) →
  greatest (numberTop <$> g0 :: gs)
  = Some (maximum (groupTop g0) (groupTop <$> gs)).
Proof.
  intros Hall.
  assert (numberTop <$> g0 :: gs = groupTop <$> g0 :: gs) as ->.
  { apply Forall_fmap_ext_1. eapply Forall_impl; [exact Hall|].
    intros d Hd. by apply numberTop_groupTop. }
  unfold greatest, numbers. rewrite filter_all; [done|].
  intros x Hx. apply list_elem_of_fmap in Hx as (d & -> & Hd).
  rewrite Forall_forall in Hall. by apply numberGroup_top, Hall.
Qed.

Lemma least_numberGroups g0 gs :
  Forall numberGroup (g0 :: gs) →
  least (numberBottom <$> g0 :: gs)
  = Some (minimum (groupBottom g0) (groupBottom <$> gs)).
Proof.
  intros Hall.
  assert (numberBottom <$> g0 :: gs = groupBottom <$> g0 :: gs) as ->.
  { apply Forall_fmap_ext_1. eapply Forall_impl; [exact Hall|].
    intros d Hd. by apply numberBottom_groupBottom. }
  unfold least, numbers. rewrite filter_all; [done|].
  intros x Hx. apply list_elem_of_fmap in Hx as (d & -> & Hd).
  rewrite Forall_forall in Hall. by apply numberGroup_bottom, Hall.
Qed.
End domain_claim.

(** C6.  The domain of the numeric scale before [nice], for a positive
    finite [gridHeight] and a model with at least one group.
    Normalized: [g.max] is [gridHeight] if some group has a positive
    stack top above 0 and 0 otherwise, and [g.min] is [-gridHeight] if
    some group has a negative stack top below 0 and 0 otherwise.  Not
    normalized: [g.max] is [gridHeight] times the greatest, over the
    groups whose positive stack top is a number, of max(0, positive
    stack top, every point offset of the group that is a number), and
    it is [undefined] when no group has such a top; [g.min] is
    [gridHeight] times the least, over the groups whose negative stack
    top is a number, of min(0, negative stack top, every point offset
    that is a number), and [undefined] when there is no such group.
    When every stack top and offset is a number these are the maximum
    and the minimum over all the groups. *)
Theorem initChart_domain (normalized : bool) (h : Q)
    (g0 : DataShaper.Group.t) (gs : list DataShaper.Group.t) :
  (0 < h)%Q →
  if normalized then
    ∃ hi lo,
      ScaleBuilder.chartMax true (JsNum.Fin h) (g0 :: gs) = Some hi
      ∧ ScaleBuilder.chartMin true (JsNum.Fin h) (g0 :: gs) = Some lo
      ∧ hi = (if existsb (λ d, JsNum.gt (DataShaper.Group.offsetPos d)
                                JsNum.zero) (g0 :: gs)
              then JsNum.Fin h else JsNum.zero)
      ∧ lo = (if existsb (λ d, JsNum.lt (DataShaper.Group.offsetNeg d)
                                JsNum.zero) (g0 :: gs)
              then JsNum.neg (JsNum.Fin h) else JsNum.zero)
  else
    match ScaleDomain.greatest (ScaleDomain.numberTop <$> g0 :: gs) with
    | Some m =>
        ∃ hi, ScaleBuilder.chartMax false (JsNum.Fin h) (g0 :: gs) = Some hi
              ∧ hi ≈ JsNum.mul (JsNum.Fin h) m
    | None => ScaleBuilder.chartMax false (JsNum.Fin h) (g0 :: gs) = None
    end
    ∧ match ScaleDomain.least (ScaleDomain.numberBottom <$> g0 :: gs) with
      | Some m =>
          ∃ lo, ScaleBuilder.chartMin false (JsNum.Fin h) (g0 :: gs)
                = Some lo
                ∧ lo ≈ JsNum.mul (JsNum.Fin h) m
      | None => ScaleBuilder.chartMin false (JsNum.Fin h) (g0 :: gs) = None
      end
    ∧ (Forall ScaleDomain.numberGroup (g0 :: gs) →
       ScaleDomain.greatest (ScaleDomain.numberTop <$> g0 :: gs)
       = Some (ScaleBuilder.maximum (ScaleBuilder.groupTop g0)
                                    (ScaleBuilder.groupTop <$> gs))
       ∧ ScaleDomain.least (ScaleDomain.numberBottom <$> g0 :: gs)
         = Some (ScaleBuilder.minimum (ScaleBuilder.groupBottom g0)
                                      (ScaleBuilder.groupBottom <$> gs))).
Proof.
  intros Hh. destruct normalized.
  - eexists _, _. split; [by apply chartMax_normalized|].
    split; [by apply chartMin_normalized|]. done.
  - split; [by apply chartMax_general|].
    split; [by apply chartMin_general|].
    intros Hall. split.
    + by apply greatest_numberGroups.
    + by apply least_numberGroups.
Qed.

Lemma initChart_domain_witness :
  (∃ hi, ScaleBuilder.chartMax false (JsNum.Fin 2)
           [ScaleBuilder.Sample.q1; ScaleDomain.Sample.q3;
            ScaleBuilder.Sample.q2] = Some hi
         ∧ hi ≈ JsNum.Fin 300)
  ∧ (∃ lo, ScaleBuilder.chartMin false (JsNum.Fin 2)
             [ScaleBuilder.Sample.q1; ScaleDomain.Sample.q3;
              ScaleBuilder.Sample.q2] = Some lo
           ∧ lo ≈ JsNum.Fin (-60)).
Proof.
  pose proof (initChart_domain false 2 ScaleBuilder.Sample.q1
                [ScaleDomain.Sample.q3; ScaleBuilder.Sample.q2] eq_refl)
    as (Hmax & Hmin & _).
  vm_compute ScaleDomain.greatest in Hmax.
  vm_compute ScaleDomain.least in Hmin.
  split; [exact Hmax|exact Hmin].
Defined.

(** C6 as stated fails for a model with a stack top that is not a
    number, as the one-dimensional path of [initData] builds from a
    measure that is not a number: [d3.max] skips that group, so [g.max]
    is [gridHeight] times the top of the other group, where the stated
    maximum over all the groups is not a number. *)
Lemma initChart_domain_skips_NaN :
  ScaleBuilder.chartMax false (JsNum.Fin 2)
    (DataShaper.data (DataShaper.Sample.shaped ScaleDomain.Sample.gapChart))
  = Some (JsNum.Fin 10)
  ∧ match DataShaper.data
            (DataShaper.Sample.shaped ScaleDomain.Sample.gapChart) with
    | g0 :: gs =>
        JsNum.mul (JsNum.Fin 2)
          (ScaleBuilder.maximum (ScaleBuilder.groupTop g0)
                                (ScaleBuilder.groupTop <$> gs))
    | [] => JsNum.zero
    end = JsNum.NaN.
Proof. split; vm_compute; reflexivity. Qed.

(** * The percent text *)

Section percent_facts.
Import JsNum DataShaper PercentText.

Lemma digitValue_digit (d : Z) :
  0 ≤ d < 10 → digitValue (Z.to_N (48 + d)) = Some d.
Proof.
  intros Hd. unfold digitValue.
  assert ((48 <=? Z.to_N (48 + d))%N && (Z.to_N (48 + d) <=? 57)%N = true)
    as ->.
  { apply andb_true_iff. split; apply N.leb_le; lia. }
  f_equal. lia.
Qed.

Lemma digitsFrom_read (fuel : nat) (n : Z) (acc rest : jsstring) :
  0 ≤ n < 2 ^ Z.of_nat fuel →
  readDigits (digitsFrom fuel n acc ++ rest) 0 = readDigits (acc ++ rest) n.
Proof.
  revert n acc. induction fuel as [|fuel IH]; intros n acc Hn.
  - simpl in *. by replace n with 0 by lia.
  - simpl digitsFrom. destruct (n <? 10) eqn:Hlt.
    + apply Z.ltb_lt in Hlt. simpl.
      rewrite digitValue_digit by (apply Z.mod_pos_bound; lia).
      f_equal. rewrite Z.mod_small by lia. lia.
    + apply Z.ltb_ge in Hlt. rewrite IH.
      * simpl. rewrite digitValue_digit by (apply Z.mod_pos_bound; lia).
        f_equal. pose proof (Z.div_mod n 10). lia.
      * rewrite Nat2Z.inj_succ, Z.pow_succ_r in Hn by lia.
        split; [apply Z.div_pos; lia|].
        apply Z.div_lt_upper_bound; lia.
Qed.

Lemma decimal_read (n : Z) (rest : jsstring) :
  0 ≤ n → readDigits (decimal n ++ rest) 0 = readDigits rest n.
Proof.
  intros Hn. unfold decimal. rewrite digitsFrom_read; [done|].
  split; [done|]. rewrite Nat2Z.inj_succ, Z2Nat.id by apply Z.log2_nonneg.
  destruct (decide (n = 0)) as [->|]; [done|].
  apply Z.log2_spec. lia.
Qed.

Lemma digitsFrom_digits (fuel : nat) (n : Z) (acc : jsstring) :
  0 ≤ n → Forall (λ c, is_Some (digitValue c)) acc →
  Forall (λ c, is_Some (digitValue c)) (digitsFrom fuel n acc).
Proof.
  revert n acc. induction fuel as [|fuel IH]; intros n acc Hn Hacc; [done|].
  simpl.
  assert (Forall (λ c, is_Some (digitValue c))
                 (Z.to_N (48 + n mod 10) :: acc)) as Hacc'.
  { constructor; [|done].
    rewrite digitValue_digit by (apply Z.mod_pos_bound; lia). by eexists. }
  destruct (n <? 10); [done|]. apply IH; [|done]. apply Z.div_pos; lia.
Qed.

Lemma digitsFrom_nonempty (fuel : nat) (n : Z) (acc : jsstring) :
  digitsFrom (S fuel) n acc ≠ [].
Proof.
  assert (∀ f m a, a ≠ [] → digitsFrom f m a ≠ []) as Hne.
  { induction f as [|f IH]; intros m a Ha; [done|]. simpl.
    destruct (m <? 10); [done|]. by apply IH. }
  simpl. destruct (n <? 10); [done|]. by apply Hne.
Qed.

Lemma decimal_shape (n : Z) :
  0 ≤ n →
  decimal n ≠ [] ∧ Forall (λ c, is_Some (digitValue c)) (decimal n).
Proof.
  intros Hn. split; [apply digitsFrom_nonempty|].
  by apply digitsFrom_digits.
Qed.

Lemma decimal_digit (d : Z) : 0 ≤ d < 10 → decimal d = [Z.to_N (48 + d)].
Proof.
  intros Hd. unfold decimal. simpl.
  assert ((d <? 10) = true) as -> by (apply Z.ltb_lt; lia).
  by rewrite Z.mod_small by lia.
Qed.

Lemma thousandths_bounds (q : Q) :
  0 ≤ thousandths q
  ∧ 2 * Z.pos (Qden q) * thousandths q
    ≤ 2000 * Z.abs (Qnum q) + Z.pos (Qden q)
  ∧ 2000 * Z.abs (Qnum q) + Z.pos (Qden q)
    < 2 * Z.pos (Qden q) * thousandths q + 2 * Z.pos (Qden q).
Proof.
  unfold thousandths.
  set (num := 2000 * Z.abs (Qnum q) + Z.pos (Qden q)).
  set (den := 2 * Z.pos (Qden q)).
  assert (0 < den) by (unfold den; lia).
  assert (0 ≤ num) by (unfold num; lia).
  split; [by apply Z.div_pos|].
  pose proof (Z.div_mod num den). pose proof (Z.mod_pos_bound num den).
  lia.
Qed.

Lemma parse_negative (rest : jsstring) (w d : Z) (f : N) :
  readDigits rest 0 = (w, [46%N; f; 37%N]) → digitValue f = Some d →
  parse (45%N :: rest) = Some ((-1 * (10 * w + d)) # 1000).
Proof. intros Hr Hf. unfold parse. simpl. rewrite Hr. simpl. by rewrite Hf. Qed.

Lemma parse_positive (c : N) (tl : jsstring) (w d : Z) (f : N) :
  is_Some (digitValue c) →
  readDigits (c :: tl) 0 = (w, [46%N; f; 37%N]) → digitValue f = Some d →
  parse (c :: tl) = Some ((1 * (10 * w + d)) # 1000).
Proof.
  intros Hc Hr Hf. unfold parse.
  assert ((c =? 45)%N = false) as ->.
  { apply N.eqb_neq. intros ->. by destruct Hc. }
  cbv zeta. cbn [fst snd]. rewrite Hr. cbn [fst snd]. by rewrite Hf.
Qed.

Lemma format_text (q : Q) :
  format (Fin q)
  = (match (q ?= 0)%Q with Lt => [45%N] | _ => [] end)
    ++ decimal (thousandths q / 10)
    ++ [46%N; Z.to_N (48 + thousandths q mod 10); 37%N].
Proof.
  pose proof (thousandths_bounds q) as (Hn & _).
  unfold format. cbv zeta.
  rewrite (decimal_digit (thousandths q mod 10))
    by (apply Z.mod_pos_bound; lia).
  done.
Qed.

Lemma parse_format (q : Q) :
  parse (format (Fin q))
  = Some (((match (q ?= 0)%Q with Lt => -1 | _ => 1 end) * thousandths q)
          # 1000).
Proof.
  rewrite format_text.
  pose proof (thousandths_bounds q) as (Hn & _).
  set (n := thousandths q) in *.
  assert (0 ≤ n / 10) as Hw by (apply Z.div_pos; [done|lia]).
  assert (0 ≤ n mod 10 < 10) as Hf by (apply Z.mod_pos_bound; lia).
  assert (10 * (n / 10) + n mod 10 = n) as Hsum
    by (pose proof (Z.div_mod n 10); lia).
  set (tail := [46%N; Z.to_N (48 + n mod 10); 37%N]).
  assert (readDigits (decimal (n / 10) ++ tail) 0 = (n / 10, tail)) as Hread
    by (by rewrite decimal_read).
  pose proof (digitValue_digit (n mod 10) Hf) as Hdigit.
  assert (parse (decimal (n / 10) ++ tail) = Some ((1 * n) # 1000)) as Hpos.
  { destruct (decimal_shape (n / 10) Hw) as (Hne & Hdig).
    destruct (decimal (n / 10)) as [|c tl]; [done|].
    replace (1 * n) with (1 * (10 * (n / 10) + n mod 10)) by lia.
    apply (parse_positive c (tl ++ tail) _ _ (Z.to_N (48 + n mod 10)));
      [by apply Forall_inv in Hdig|done|done]. }
  destruct (q ?= 0)%Q; [done| |done].
  replace (-1 * n) with (-1 * (10 * (n / 10) + n mod 10)) by lia.
  by apply (parse_negative _ _ _ (Z.to_N (48 + n mod 10))).
Qed.

Lemma format_oneDecimal (q : Q) : oneDecimal (format (Fin q)).
Proof.
  rewrite format_text.
  pose proof (thousandths_bounds q) as (Hn & _).
  assert (0 ≤ thousandths q / 10) as Hw by (apply Z.div_pos; [done|lia]).
  destruct (decimal_shape _ Hw) as (Hne & Hdig).
  eexists _, _, _. split; [done|]. split; [|split; [done|split; [done|]]].
  - destruct (q ?= 0)%Q; [by left|by right|by left].
  - rewrite digitValue_digit by (apply Z.mod_pos_bound; lia). by eexists.
Qed.

Lemma format_close (q : Q) :
  (q - (1 # 2000)
   <= ((match (q ?= 0)%Q with Lt => -1 | _ => 1 end) * thousandths q) # 1000
   <= q + (1 # 2000))%Q.
Proof.
  pose proof (thousandths_bounds q) as (Hn & Hlo & Hhi).
  set (n := thousandths q) in *. clearbody n.
  destruct q as [a b]. simpl in Hlo, Hhi.
  replace (2 * Z.pos b * n) with (2 * (Z.pos b * n)) in Hlo, Hhi by ring.
  unfold Qcompare. cbn [Qnum Qden]. change (0 * Z.pos b) with 0.
  rewrite Z.mul_1_r. unfold Qle, Qminus, Qplus, Qopp. cbn [Qnum Qden].
  rewrite !Pos2Z.inj_mul.
  destruct (a ?= 0) eqn:Ha.
  - apply Z.compare_eq in Ha. subst a. simpl Z.abs in *.
    replace (1 * n * (Z.pos b * Z.pos 2000)) with (2000 * (Z.pos b * n))
      by ring.
    lia.
  - change (a < 0) in Ha.
    rewrite (Z.abs_neq a) in Hlo, Hhi by lia.
    replace (-1 * n * (Z.pos b * Z.pos 2000)) with (-2000 * (Z.pos b * n))
      by ring.
    lia.
  - apply Z.compare_gt_iff in Ha. change (0 < a) in Ha.
    rewrite (Z.abs_eq a) in Hlo, Hhi by lia.
    replace (1 * n * (Z.pos b * Z.pos 2000)) with (2000 * (Z.pos b * n))
      by ring.
    lia.
Qed.

Lemma format_readsBack (pt : Point.t) :
  Point.qTextPct pt = Some (format (Point.qNum pt)) → readsBack pt.
Proof.
  intros Htxt x Hx. rewrite Hx in Htxt.
  eexists _, _. split; [done|]. split; [apply format_oneDecimal|].
  split; [apply parse_format|apply format_close].
Qed.
End percent_facts.

Section fraction_facts.
Import JsNum DataShaper PercentText.
Variable formatPct : jsnum → jsstring.

Lemma sumNum_member_le l r :
  Forall (λ x, ∃ a, x = Fin a ∧ (0 <= a)%Q) l → Fin r ∈ l →
  ∃ b, sumNum l = Fin b ∧ (r <= b)%Q.
Proof.
  induction 1 as [|x l (a & -> & Ha) Hl IH]; intros Hin.
  - by apply elem_of_nil in Hin.
  - destruct (sumNum_nonneg l Hl) as (s & Hs & Hs0).
    rewrite sumNum_cons, Hs. exists (a + s)%Q. split; [done|].
    apply elem_of_cons in Hin as [Heq|Hin].
    + injection Heq as ->. lra.
    + destruct (IH Hin) as (b & Hb & Hrb). rewrite Hs in Hb.
      injection Hb as <-. lra.
Qed.

Lemma sumNum_member_ge l r :
  Forall (λ x, ∃ a, x = Fin a ∧ (a <= 0)%Q) l → Fin r ∈ l →
  ∃ b, sumNum l = Fin b ∧ (b <= r)%Q.
Proof.
  induction 1 as [|x l (a & -> & Ha) Hl IH]; intros Hin.
  - by apply elem_of_nil in Hin.
  - destruct (sumNum_nonpos l Hl) as (s & Hs & Hs0).
    rewrite sumNum_cons, Hs. exists (a + s)%Q. split; [done|].
    apply elem_of_cons in Hin as [Heq|Hin].
    + injection Heq as ->. lra.
    + destruct (IH Hin) as (b & Hb & Hrb). rewrite Hs in Hb.
      injection Hb as <-. lra.
Qed.

Lemma groupOf_fractions g q d grp :
  normalized g = true → groupOf formatPct g q d grp →
  Forall fraction (pointsOf grp).
Proof.
  intros Hn (st & Hst & ->). rewrite Hn.
  destruct (stack_invariant _ _ _ _ Hst) as (Hfin & Hpos & Hneg & _).
  set (nums := Slot.qNum <$> v st) in *.
  assert (Forall (λ x, isFinite x = true) nums) as Hnums.
  { unfold nums. by apply Forall_fmap. }
  assert (Forall (λ x, ∃ a, x = Fin a ∧ (0 <= a)%Q)
                 (filter nonNegative nums)) as Hnn.
  { apply Forall_forall. intros x [Hx Hin]%list_elem_of_filter.
    rewrite Forall_forall in Hnums. apply Hnums, isFinite_Fin in Hin as [a ->].
    exists a. split; [done|]. by apply ge_zero_Fin. }
  assert (Forall (λ x, ∃ a, x = Fin a ∧ (a <= 0)%Q)
                 (filter negative nums)) as Hng.
  { apply Forall_forall. intros x [Hx Hin]%list_elem_of_filter.
    rewrite Forall_forall in Hnums. apply Hnums, isFinite_Fin in Hin as [a ->].
    exists a. split; [done|]. apply Qlt_le_weak. by apply lt_zero_Fin. }
  unfold pointsOf. simpl. apply Forall_fmap, Forall_forall.
  intros e He x. unfold finishPoint. simpl.
  assert (Slot.qNum e ∈ nums) as Hin
    by (apply list_elem_of_fmap; by exists e).
  rewrite Forall_forall in Hfin.
  destruct (proj1 (isFinite_Fin _) (Hfin e He)) as [r Hr].
  rewrite Hr in *. destruct (lt (Fin r) zero) eqn:Hlt.
  - apply lt_zero_Fin in Hlt.
    destruct (sumNum_member_ge (filter negative nums) r Hng)
      as (c0 & Hc0 & Hc0r).
    { apply list_elem_of_filter. split; [by apply lt_zero_Fin|done]. }
    rewrite Hc0 in Hneg. apply same_Fin_r in Hneg as (c & -> & Hcc0).
    simpl neg. destruct (Qeq_dec (- c) 0) as [Hz|Hnz].
    + rewrite div_Fin_zero, signedInf_neg by done. done.
    + rewrite div_Fin_nonzero by done. intros [= <-].
      assert (0 < - c)%Q as Hpos' by lra.
      split.
      * apply Qle_shift_div_l; [done|]. lra.
      * apply Qle_shift_div_r; [done|]. lra.
  - assert (0 <= r)%Q as Hr0.
    { apply ge_zero_Fin. by apply lt_zero_false_ge. }
    destruct (sumNum_member_le (filter nonNegative nums) r Hnn)
      as (b0 & Hb0 & Hb0r).
    { apply list_elem_of_filter. split; [by apply ge_zero_Fin|done]. }
    rewrite Hb0 in Hpos. apply same_Fin_r in Hpos as (b & -> & Hbb0).
    destruct (Qeq_dec b 0) as [Hz|Hnz].
    + rewrite div_Fin_zero by done.
      by destruct (signedInf_nonneg r Hr0) as [-> | ->].
    + rewrite div_Fin_nonzero by done. intros [= <-].
      assert (0 < b)%Q as Hpos' by lra.
      split.
      * apply Qle_shift_div_l; [done|]. lra.
      * apply Qle_shift_div_r; [done|]. lra.
Qed.
End fraction_facts.

Section normalized_claim.
Import JsNum DataShaper PercentText.
Variable formatPct : jsnum → jsstring.

Lemma groupOf_texts g q d grp :
  normalized g = true → groupOf formatPct g q d grp →
  Forall (λ pt, Point.qTextPct pt = Some (formatPct (Point.qNum pt)))
         (pointsOf grp).
Proof.
  intros Hn (st & Hst & ->). rewrite Hn. unfold pointsOf. simpl.
  apply Forall_fmap, Forall_forall. by intros e _.
Qed.

Lemma unitSums_finite grp : unitSums grp → finiteUnitSums grp.
Proof.
  intros [Hp Hn]. split.
  - intros t Ht Ht0. apply Hp. by rewrite Ht.
  - intros t Ht Ht0. apply Hn. by rewrite Ht.
Qed.

Lemma twoDim_points (P : Point.t → Prop) g g' :
  branchOf g = TwoDim → initData formatPct g = Ret g' →
  (∀ d grp, groupOf formatPct g (allDim2 g') d grp →
            Forall P (pointsOf grp)) →
  Forall P (flatData g').
Proof.
  intros Hb Hret HP.
  destruct (twoDim_groups formatPct g g' Hb Hret)
    as (s & n & _ & _ & _ & Hall & _ & -> & _).
  apply Forall_concat, Forall_fmap.
  clear -Hall HP. induction Hall as [|d grp n grps Hd _ IH]; [done|].
  constructor; [by eapply HP|done].
Qed.
End normalized_claim.

(** C4.  With [normalized] on, on the two-dimensional path and with the
    percent text of one decimal place, the model is the one built with
    [normalized] off in which every point's [qNum] and [offset] have
    been divided by the positive stack top of its group, or by the
    negated negative top when the raw [qNum] is below 0, and [qTextPct]
    is the percent text of the normalized value.  In every group whose
    positive top is a finite number other than zero the values that are
    at least 0 sum to 1, and in every group whose negative top is a
    finite number other than zero the values below 0 sum to -1, in
    exact arithmetic.  Every value that is a finite number lies between
    -1 and 1, and its percent text has one decimal place and reads back
    as the value to half a thousandth. *)
Theorem initData_normalized (g g' : DataShaper.chart) :
  DataShaper.branchOf g = DataShaper.TwoDim →
  DataShaper.normalized g = true →
  DataShaper.initData PercentText.format g = Ret g' →
  (∃ raw,
     DataShaper.initData PercentText.format
       (DataShaper.withNormalized false g) = Ret raw
     ∧ Forall2 (DataShaper.normalizedGroup PercentText.format)
               (DataShaper.data raw) (DataShaper.data g'))
  ∧ Forall PercentText.finiteUnitSums (DataShaper.data g')
  ∧ Forall (λ pt, PercentText.fraction pt ∧ PercentText.readsBack pt)
           (DataShaper.flatData g').
Proof.
  intros Hb Hn Hret. split; [by apply twoDim_raw|]. split.
  - destruct (twoDim_groups PercentText.format g g' Hb Hret)
      as (s & n & _ & _ & _ & Hall & _).
    apply Forall_forall. intros grp Hgrp.
    apply list_elem_of_lookup_1 in Hgrp as [i Hi].
    destruct (Forall2_lookup_r _ _ _ _ _ Hall Hi) as (d & _ & Hd).
    by eapply unitSums_finite, groupOf_unitSums.
  - apply (twoDim_points PercentText.format _ g g' Hb Hret).
    intros d grp Hd.
    pose proof (groupOf_fractions _ g _ d grp Hn Hd) as Hfr.
    pose proof (groupOf_texts _ g _ d grp Hn Hd) as Htx.
    rewrite Forall_forall in Hfr, Htx. apply Forall_forall.
    intros pt Hpt. split; [by apply Hfr|].
    by apply format_readsBack, Htx.
Qed.

Lemma initData_normalized_witness :
  Forall PercentText.finiteUnitSums
    (DataShaper.data
       (PercentText.Sample.shaped
          (DataShaper.Sample.fresh DataShaper.Sample.quarters true true)))
  ∧ Forall (λ pt, PercentText.fraction pt ∧ PercentText.readsBack pt)
      (DataShaper.flatData
         (PercentText.Sample.shaped
            (DataShaper.Sample.fresh DataShaper.Sample.quarters true true))).
Proof.
  apply (initData_normalized
           (DataShaper.Sample.fresh DataShaper.Sample.quarters true true)).
  - vm_compute. reflexivity.
  - reflexivity.
  - vm_compute. reflexivity.
Defined.

(** C2.  The code at a group that lacks a series: Q1 has rows for East
    and West, Q2 only for West.  The series order is East, West, and
    the [values] of Q2 hold the point of West alone, in the first slot:
    the placeholder for East (value 0, text "-") that the loop computes
    is not stored. *)
Theorem initData_gap_values :
  DataShaper.allDim2
    (DataShaper.Sample.shaped
       (DataShaper.Sample.fresh DataShaper.Sample.quartersGap false true))
  = [Some (str "East"); Some (str "West")]
  ∧ (λ grp, (DataShaper.Group.dim1 grp,
             (λ pt, (DataShaper.Point.dim2 pt, DataShaper.Point.qNum pt,
                     DataShaper.Point.qText pt))
               <$> DataShaper.pointsOf grp))
      <$> DataShaper.data
            (DataShaper.Sample.shaped
               (DataShaper.Sample.fresh DataShaper.Sample.quartersGap
                                        false true))
    = [ (str "Q1", [ (str "East", JsNum.Fin 100, str "100");
                     (str "West", JsNum.Fin 50, str "50") ]);
        (str "Q2", [ (str "West", JsNum.Fin 70, str "70") ]) ].
Proof. split; vm_compute; reflexivity. Qed.

(** C3.  The code at the same input, with [showDeltas] on: the only
    delta record is labelled East and joins the point of East in Q1
    (100) to the point of West in Q2 (70), and there is no record for
    West, which both groups have (50 and 70). *)
Theorem initData_gap_deltas :
  (λ δ, (DataShaper.Delta.dim1p δ, DataShaper.Delta.dim1c δ,
         DataShaper.Delta.dim2 δ, DataShaper.Delta.delta δ,
         DataShaper.Delta.points δ))
    <$> DataShaper.deltas
          (DataShaper.Sample.shaped
             (DataShaper.Sample.fresh DataShaper.Sample.quartersGap
                                      false true))
  = [ (str "Q1", str "Q2", str "East", JsNum.Fin (-30),
       (JsNum.Fin 0, JsNum.Fin 0, JsNum.Fin 100, JsNum.Fin 70)) ].
Proof. vm_compute. reflexivity. Qed.

(** * Deltas and slots of groups with the same series *)

Section aligned_facts.
Import JsNum DataShaper SeriesSlots.
Variable formatPct : jsnum → jsstring.

Lemma aligned_same_slot prev cur (k : nat) pk ck :
  alignedSeries prev cur →
  pointsOf prev !! k = Some pk → pointsOf cur !! k = Some ck →
  Point.dim2 pk = Point.dim2 ck.
Proof.
  intros Hal Hp Hc.
  assert (seriesOf prev !! k = Some (Point.dim2 pk)) as Hp'
    by (unfold seriesOf; by rewrite list_lookup_fmap, Hp).
  assert (seriesOf cur !! k = Some (Point.dim2 ck)) as Hc'
    by (unfold seriesOf; by rewrite list_lookup_fmap, Hc).
  destruct Hal as [Hpre|Hpre].
  - pose proof (prefix_lookup_Some _ _ _ _ Hp' Hpre) as H. congruence.
  - pose proof (prefix_lookup_Some _ _ _ _ Hc' Hpre) as H. congruence.
Qed.

Lemma aligned_same_index prev cur (k1 k2 : nat) pk ck :
  NoDup (seriesOf prev) → NoDup (seriesOf cur) →
  alignedSeries prev cur →
  pointsOf prev !! k1 = Some pk → pointsOf cur !! k2 = Some ck →
  Point.dim2 pk = Point.dim2 ck → k1 = k2.
Proof.
  intros Hndp Hndc Hal Hp Hc Heq.
  assert (seriesOf prev !! k1 = Some (Point.dim2 pk)) as Hp'
    by (unfold seriesOf; by rewrite list_lookup_fmap, Hp).
  assert (seriesOf cur !! k2 = Some (Point.dim2 ck)) as Hc'
    by (unfold seriesOf; by rewrite list_lookup_fmap, Hc).
  destruct Hal as [Hpre|Hpre].
  - pose proof (prefix_lookup_Some _ _ _ _ Hp' Hpre) as H.
    rewrite Heq in H. by apply (NoDup_lookup _ _ _ _ Hndc H Hc').
  - pose proof (prefix_lookup_Some _ _ _ _ Hc' Hpre) as H.
    rewrite <- Heq in H. by apply (NoDup_lookup _ _ _ _ Hndp Hp' H).
Qed.

Lemma twoDim_deltas_aligned g g' :
  branchOf g = TwoDim → showDeltas g = true →
  initData formatPct g = Ret g' →
  (∀ δ, δ ∈ deltas g' →
     ∃ (i : nat) prev cur pk ck,
       data g' !! i = Some prev ∧ data g' !! S i = Some cur
       ∧ pk ∈ pointsOf prev ∧ ck ∈ pointsOf cur
       ∧ δ = deltaOf pk ck
       ∧ (alignedSeries prev cur → Point.dim2 pk = Point.dim2 ck))
  ∧ (∀ (i : nat) prev cur pk ck,
       data g' !! i = Some prev → data g' !! S i = Some cur →
       alignedSeries prev cur →
       pk ∈ pointsOf prev → ck ∈ pointsOf cur →
       Point.dim2 pk = Point.dim2 ck →
       deltaOf pk ck ∈ deltas g').
Proof.
  intros Hb Hshow Hret.
  destruct (twoDim_groups formatPct g g' Hb Hret)
    as (s & n & _ & _ & _ & _ & _ & _ & Hdel).
  rewrite Hshow in Hdel.
  pose proof (twoDim_series_NoDup formatPct g g' Hb Hret) as Hnd.
  rewrite Forall_forall in Hnd. split.
  - intros δ Hδ. rewrite Hdel in Hδ.
    apply elem_of_adjacentDeltas in Hδ
      as (i & k & prev & cur & pk & ck & H1 & H2 & H3 & H4 & ->).
    rewrite !list_lookup_fmap in H1, H2.
    destruct (data g' !! i) as [gp|] eqn:Ep; [|done].
    destruct (data g' !! S i) as [gc|] eqn:Ec; [|done].
    simpl in H1, H2. injection H1 as <-. injection H2 as <-.
    exists i, gp, gc, pk, ck.
    split; [done|]. split; [done|].
    split; [by eapply list_elem_of_lookup_2|].
    split; [by eapply list_elem_of_lookup_2|]. split; [done|].
    intros Hal. by eapply aligned_same_slot.
  - intros i prev cur pk ck Hp Hc Hal Hpk Hck Heq.
    apply list_elem_of_lookup_1 in Hpk as [k1 Hk1].
    apply list_elem_of_lookup_1 in Hck as [k2 Hk2].
    assert (k1 = k2) as <-.
    { eapply (aligned_same_index prev cur); try done.
      - apply Hnd. by eapply list_elem_of_lookup_2.
      - apply Hnd. by eapply list_elem_of_lookup_2. }
    rewrite Hdel. apply elem_of_adjacentDeltas.
    exists i, k1, (pointsOf prev), (pointsOf cur), pk, ck.
    by rewrite !list_lookup_fmap, Hp, Hc.
Qed.

Lemma twoDim_full_group g g' :
  branchOf g = TwoDim → initData formatPct g = Ret g' →
  ∃ canonical,
    allDim2 g' = Some <$> canonical
    ∧ Forall (λ grp,
        (∀ k, k ∈ canonical → hasRow (inputRows g) (Group.dim1 grp) k) →
        seriesOf grp = canonical)
        (data g').
Proof.
  intros Hb Hret.
  destruct (twoDim_canonical formatPct g g' Hb Hret) as (c & Hc & Hperm & _).
  destruct (twoDim_groups formatPct g g' Hb Hret)
    as (s & n & _ & -> & _ & Hall & _).
  exists c. split; [done|]. rewrite Hc in Hall.
  assert (NoDup c) as Hnd by (rewrite Hperm; apply NoDup_firstEncounter).
  assert (∀ k, k ∈ keyText 1 <$> inputRows g → k ∈ c) as Hin.
  { intros k Hk. rewrite Hperm. by apply elem_of_firstEncounter. }
  apply Forall_forall. intros grp Hgrp Hfull.
  apply list_elem_of_lookup_1 in Hgrp as [i Hi].
  destruct (Forall2_lookup_r _ _ _ _ _ Hall Hi) as (d & Hd & Hgd).
  apply list_elem_of_lookup_2 in Hd.
  destruct (groupOf_series formatPct g c _ _ d grp Hnd Hin Hd Hgd)
    as (Hkey & vs & Hvs & Hser).
  unfold seriesOf, pointsOf. rewrite Hvs. simpl. rewrite Hser.
  apply filter_all. intros k Hk. rewrite <- Hkey. by apply Hfull.
Qed.
End aligned_facts.

(** X24.  With [showDeltas] on, on the two-dimensional path, every
    delta record joins a point of a group to a point of the group just
    before it.  Where the two groups hold the same series slot by slot,
    as far as both have slots (so whenever neither lacks a series the
    other has), every record joins the two points of one series, and
    every series that both groups have has its record: labelled with
    the series, with the current value minus the previous one as its
    [delta]. *)
Theorem initData_deltas_by_series
    (formatPct : JsNum.jsnum → jsstring) (g g' : DataShaper.chart) :
  DataShaper.branchOf g = DataShaper.TwoDim →
  DataShaper.showDeltas g = true →
  DataShaper.initData formatPct g = Ret g' →
  (∀ δ, δ ∈ DataShaper.deltas g' →
     ∃ (i : nat) prev cur pk ck,
       DataShaper.data g' !! i = Some prev
       ∧ DataShaper.data g' !! S i = Some cur
       ∧ pk ∈ DataShaper.pointsOf prev ∧ ck ∈ DataShaper.pointsOf cur
       ∧ δ = DataShaper.deltaOf pk ck
       ∧ (SeriesSlots.alignedSeries prev cur →
          DataShaper.Point.dim2 pk = DataShaper.Point.dim2 ck))
  ∧ (∀ (i : nat) prev cur pk ck,
       DataShaper.data g' !! i = Some prev →
       DataShaper.data g' !! S i = Some cur →
       SeriesSlots.alignedSeries prev cur →
       pk ∈ DataShaper.pointsOf prev → ck ∈ DataShaper.pointsOf cur →
       DataShaper.Point.dim2 pk = DataShaper.Point.dim2 ck →
       DataShaper.deltaOf pk ck ∈ DataShaper.deltas g'
       ∧ DataShaper.Delta.dim2 (DataShaper.deltaOf pk ck)
         = DataShaper.Point.dim2 ck
       ∧ DataShaper.Delta.delta (DataShaper.deltaOf pk ck)
         = JsNum.sub (DataShaper.Point.qNum ck) (DataShaper.Point.qNum pk)).
Proof.
  intros Hb Hshow Hret.
  destruct (twoDim_deltas_aligned formatPct g g' Hb Hshow Hret) as [H1 H2].
  split; [done|]. intros i prev cur pk ck Hp Hc Hal Hpk Hck Heq.
  split; [exact (H2 i prev cur pk ck Hp Hc Hal Hpk Hck Heq)|].
  split; [exact Heq|done].
Qed.

Lemma initData_deltas_by_series_witness :
  Forall (λ δ, DataShaper.Delta.dim2 δ ∈ [str "East"; str "West"])
         (DataShaper.deltas
            (DataShaper.Sample.shaped
               (DataShaper.Sample.fresh DataShaper.Sample.quarters
                                        false true)))
  ∧ ((∀ δ, δ ∈ DataShaper.deltas
               (DataShaper.Sample.shaped
                  (DataShaper.Sample.fresh DataShaper.Sample.quarters
                                           false true)) →
        ∃ (i : nat) prev cur pk ck,
          DataShaper.data
            (DataShaper.Sample.shaped
               (DataShaper.Sample.fresh DataShaper.Sample.quarters
                                        false true)) !! i = Some prev
          ∧ DataShaper.data
              (DataShaper.Sample.shaped
                 (DataShaper.Sample.fresh DataShaper.Sample.quarters
                                          false true)) !! S i = Some cur
          ∧ pk ∈ DataShaper.pointsOf prev ∧ ck ∈ DataShaper.pointsOf cur
          ∧ δ = DataShaper.deltaOf pk ck
          ∧ (SeriesSlots.alignedSeries prev cur →
             DataShaper.Point.dim2 pk = DataShaper.Point.dim2 ck))
     ∧ (∀ (i : nat) prev cur pk ck,
          DataShaper.data
            (DataShaper.Sample.shaped
               (DataShaper.Sample.fresh DataShaper.Sample.quarters
                                        false true)) !! i = Some prev →
          DataShaper.data
            (DataShaper.Sample.shaped
               (DataShaper.Sample.fresh DataShaper.Sample.quarters
                                        false true)) !! S i = Some cur →
          SeriesSlots.alignedSeries prev cur →
          pk ∈ DataShaper.pointsOf prev → ck ∈ DataShaper.pointsOf cur →
          DataShaper.Point.dim2 pk = DataShaper.Point.dim2 ck →
          DataShaper.deltaOf pk ck
          ∈ DataShaper.deltas
              (DataShaper.Sample.shaped
                 (DataShaper.Sample.fresh DataShaper.Sample.quarters
                                          false true))
          ∧ DataShaper.Delta.dim2 (DataShaper.deltaOf pk ck)
            = DataShaper.Point.dim2 ck
          ∧ DataShaper.Delta.delta (DataShaper.deltaOf pk ck)
            = JsNum.sub (DataShaper.Point.qNum ck)
                        (DataShaper.Point.qNum pk))).
Proof.
  split; [vm_compute; repeat constructor|].
  apply (initData_deltas_by_series DataShaper.Sample.percentText
           (DataShaper.Sample.fresh DataShaper.Sample.quarters false true)).
  - vm_compute. reflexivity.
  - reflexivity.
  - vm_compute. reflexivity.
Defined.

(** X25.  On the two-dimensional path, a group that has a row for
    every series of the canonical order holds one point for each
    series, in that order: its slots are the series. *)
Theorem initData_full_group_slots
    (formatPct : JsNum.jsnum → jsstring) (g g' : DataShaper.chart) :
  DataShaper.branchOf g = DataShaper.TwoDim →
  DataShaper.initData formatPct g = Ret g' →
  ∃ canonical,
    DataShaper.allDim2 g' = Some <$> canonical
    ∧ Forall (λ grp,
        (∀ k, k ∈ canonical →
              DataShaper.hasRow (DataShaper.inputRows g)
                                (DataShaper.Group.dim1 grp) k) →
        SeriesSlots.seriesOf grp = canonical)
        (DataShaper.data g').
Proof. apply twoDim_full_group. Qed.

Lemma initData_full_group_slots_witness :
  ∃ canonical,
    DataShaper.allDim2
      (DataShaper.Sample.shaped
         (DataShaper.Sample.fresh DataShaper.Sample.quarters false true))
    = Some <$> canonical
    ∧ Forall (λ grp,
        (∀ k, k ∈ canonical →
              DataShaper.hasRow
                (DataShaper.inputRows
                   (DataShaper.Sample.fresh DataShaper.Sample.quarters
                                            false true))
                (DataShaper.Group.dim1 grp) k) →
        SeriesSlots.seriesOf grp = canonical)
        (DataShaper.data
           (DataShaper.Sample.shaped
              (DataShaper.Sample.fresh DataShaper.Sample.quarters
                                       false true))).
Proof.
  apply (initData_full_group_slots DataShaper.Sample.percentText
           (DataShaper.Sample.fresh DataShaper.Sample.quarters false true)).
  - vm_compute. reflexivity.
  - vm_compute. reflexivity.
Defined.
